(** * An intrusive red-black tree (rbtree.h), embedded in Rocq

    The tree of [rbtree.h] links caller-owned records through the
    [rbtree_node] component each record embeds.  The embedding keeps the
    pointer structure of the source: a heap maps every node address to
    its four fields, [nullptr] is [None], and every method is a function
    passing the heap along.  A dereference of [nullptr], a failed
    [assert] and a down-cast of the sentinel to a record are [Fault];
    every [while] loop is a fixpoint on a step budget and gives [Timeout]
    when the budget is used up. *)

From stdpp Require Import base decidable option list sets.
From Stdlib Require Import Lia Sorted.


(** ** Addresses, nodes and the heap *)

(** A node is either the sentinel [head_] of the tree object number [t],
    or the [rbtree_node] base of the caller's record number [n]. *)
Inductive loc : Type :=
  | Head (t : nat)
  | Rec (n : nat).

#[global] Instance loc_eq_dec : EqDecision loc.
Proof. solve_decision. Defined.

(** A node pointer; [None] is [nullptr]. *)
Definition ptr : Type := option loc.

(** [struct rbtree_node]: the fields in their declaration order. *)
Record rbtree_node : Type := mk_node {
  left : ptr;
  right : ptr;
  is_red_ : bool;
  parent_ : ptr
}.

(** The member initialisers of [rbtree_node]: an unlinked black node. *)
Definition fresh_node : rbtree_node := mk_node None None false None.

Definition heap : Type := loc → rbtree_node.

Definition store (x : loc) (n : rbtree_node) (h : heap) : heap :=
  fun y => if decide (y = x) then n else h y.

(** Every record starts with the member initialisers. *)
Definition initial_heap : heap := fun _ => fresh_node.

(** ** The result of running a method *)

Inductive res (A : Type) : Type :=
  | Ok (a : A)
  | Fault
  | Timeout.
Arguments Ok {A} a.
Arguments Fault {A}.
Arguments Timeout {A}.

Definition bind {A B : Type} (m : res A) (k : A → res B) : res B :=
  match m with
  | Ok a => k a
  | Fault => Fault
  | Timeout => Timeout
  end.

Notation "'let*' x := m 'in' k" := (bind m (fun x => k))
  (at level 10, x pattern, m at level 200, k at level 200, only parsing).

(** [p->...]: the pointer must not be null. *)
Definition deref (p : ptr) : res loc :=
  match p with
  | Some x => Ok x
  | None => Fault
  end.

(** ** [rbtree_node]'s methods *)

Definition set_left (x : loc) (v : ptr) (h : heap) : heap :=
  store x (mk_node v (right (h x)) (is_red_ (h x)) (parent_ (h x))) h.

Definition set_right (x : loc) (v : ptr) (h : heap) : heap :=
  store x (mk_node (left (h x)) v (is_red_ (h x)) (parent_ (h x))) h.

Definition set_parent (x : loc) (v : ptr) (h : heap) : heap :=
  store x (mk_node (left (h x)) (right (h x)) (is_red_ (h x)) v) h.

Definition set_color (x : loc) (val : bool) (h : heap) : heap :=
  store x (mk_node (left (h x)) (right (h x)) val (parent_ (h x))) h.

Definition set_red (x : loc) (h : heap) : heap := set_color x true h.
Definition set_black (x : loc) (h : heap) : heap := set_color x false h.

Definition is_red (h : heap) (x : loc) : bool := is_red_ (h x).
Definition is_black (h : heap) (x : loc) : bool := negb (is_red h x).
Definition parent (h : heap) (x : loc) : ptr := parent_ (h x).

Definition unlinked (h : heap) (x : loc) : bool :=
  bool_decide (parent h x = None ∧ left (h x) = None ∧ right (h x) = None).

Definition reset (x : loc) (h : heap) : heap := store x fresh_node h.

(** ** [rbtree]: private helpers that do not compare keys *)

Definition root (t : nat) (h : heap) : ptr := parent h (Head t).

(** [if (p) p->set_parent(v)] *)
Definition set_parent_if (p : ptr) (v : ptr) (h : heap) : heap :=
  match p with
  | Some x => set_parent x v h
  | None => h
  end.

Definition set_root (t : nat) (n : ptr) (h : heap) : heap :=
  let h := set_parent_if n (Some (Head t)) h in
  set_parent (Head t) n h.

(** The three-way [if] that [rotate_left], [rotate_right] and
    [transplant] share: [v] takes the place of [x] below [x]'s parent,
    or becomes the root when that parent is the sentinel. *)
Definition replace_child (t : nat) (x : loc) (v : ptr) (h : heap) : res heap :=
  if decide (parent h x = Some (Head t)) then Ok (set_root t v h)
  else
    let* xp := deref (parent h x) in
    if decide (Some x = left (h xp))
    then Ok (set_left xp v h)
    else Ok (set_right xp v h).

Definition rotate_left (t : nat) (x : loc) (h : heap) : res heap :=
  let* y := deref (right (h x)) in
  let h := set_right x (left (h y)) h in
  let h := set_parent_if (left (h y)) (Some x) h in
  let h := set_parent y (parent h x) h in
  let* h := replace_child t x (Some y) h in
  let h := set_parent x (Some y) h in
  Ok (set_left y (Some x) h).

Definition rotate_right (t : nat) (x : loc) (h : heap) : res heap :=
  let* y := deref (left (h x)) in
  let h := set_left x (right (h y)) h in
  let h := set_parent_if (right (h y)) (Some x) h in
  let h := set_parent y (parent h x) h in
  let* h := replace_child t x (Some y) h in
  let h := set_parent x (Some y) h in
  Ok (set_right y (Some x) h).

(** [y && y->is_red()] *)
Definition red_ptr (h : heap) (y : ptr) : bool :=
  match y with
  | Some y => is_red h y
  | None => false
  end.

(** [!y || y->is_black()] *)
Definition black_ptr (h : heap) (y : ptr) : bool := negb (red_ptr h y).

(** One turn of the loop of [insert_fixup]; the loop condition holds. *)
Definition insert_fixup_body (t : nat) (z : loc) (h : heap) : res (loc * heap) :=
  let* zp := deref (parent h z) in
  let* zpp := deref (parent h zp) in
  if decide (Some zp = left (h zpp)) then
    let y := right (h zpp) in
    if red_ptr h y then
      let h := set_black zp h in
      let* y' := deref y in
      let h := set_black y' h in
      let h := set_red zpp h in
      Ok (zpp, h)
    else
      let* (z, h) := (if decide (Some z = right (h zp))
                     then let* h := rotate_left t zp h in Ok (zp, h)
                     else Ok (z, h)) in
      let* zp := deref (parent h z) in
      let h := set_black zp h in
      let* zp := deref (parent h z) in
      let* zpp := deref (parent h zp) in
      let h := set_red zpp h in
      let* zp := deref (parent h z) in
      let* zpp := deref (parent h zp) in
      let* h := rotate_right t zpp h in
      Ok (z, h)
  else
    let y := left (h zpp) in
    if red_ptr h y then
      let h := set_black zp h in
      let* y' := deref y in
      let h := set_black y' h in
      let h := set_red zpp h in
      Ok (zpp, h)
    else
      let* (z, h) := (if decide (Some z = left (h zp))
                     then let* h := rotate_right t zp h in Ok (zp, h)
                     else Ok (z, h)) in
      let* zp := deref (parent h z) in
      let h := set_black zp h in
      let* zp := deref (parent h z) in
      let* zpp := deref (parent h zp) in
      let h := set_red zpp h in
      let* zp := deref (parent h z) in
      let* zpp := deref (parent h zp) in
      let* h := rotate_left t zpp h in
      Ok (z, h).

(** The loop condition of [insert_fixup], evaluated left to right. *)
Definition insert_fixup_cond (t : nat) (z : loc) (h : heap) : res bool :=
  if decide (parent h z = Some (Head t)) then Ok false
  else
    let* zp := deref (parent h z) in
    if negb (is_red h zp) then Ok false
    else Ok (negb (bool_decide (parent h zp = Some (Head t)))).

Fixpoint insert_fixup_loop (fuel : nat) (t : nat) (z : loc) (h : heap) : res heap :=
  match fuel with
  | 0 => Timeout
  | S fuel =>
      let* c := insert_fixup_cond t z h in
      if c : bool then
        let* (z, h) := insert_fixup_body t z h in
        insert_fixup_loop fuel t z h
      else Ok h
  end.

Definition insert_fixup (fuel : nat) (t : nat) (z : loc) (h : heap) : res heap :=
  let* h := insert_fixup_loop fuel t z h in
  let* r := deref (root t h) in
  Ok (set_black r h).

Definition transplant (t : nat) (u : loc) (v : ptr) (h : heap) : res heap :=
  let* h := replace_child t u v h in
  Ok (set_parent_if v (parent h u) h).

Fixpoint find_minimum (fuel : nat) (h : heap) (x : loc) : res loc :=
  match fuel with
  | 0 => Timeout
  | S fuel =>
      match left (h x) with
      | Some l => find_minimum fuel h l
      | None => Ok x
      end
  end.

Fixpoint find_maximum (fuel : nat) (h : heap) (x : loc) : res loc :=
  match fuel with
  | 0 => Timeout
  | S fuel =>
      match right (h x) with
      | Some r => find_maximum fuel h r
      | None => Ok x
      end
  end.

Definition reset_node (node : loc) (h : heap) : heap :=
  set_right node None (set_left node None (set_parent node None h)).

(** One turn of the loop of [erase_fixup]; [x] is not the root and is
    black. *)
Definition erase_fixup_body (t : nat) (x : loc) (h : heap) : res (loc * heap) :=
  let* xp := deref (parent h x) in
  if decide (Some x = left (h xp)) then
    let* w := deref (right (h xp)) in                        (* assert(w) *)
    let* (w, h) := (if is_red h w then
                      let h := set_black w h in
                      let h := set_red xp h in
                      let* h := rotate_left t xp h in
                      let* xp := deref (parent h x) in
                      let* w := deref (right (h xp)) in      (* assert(w) *)
                      Ok (w, h)
                    else Ok (w, h)) in
    if black_ptr h (left (h w)) && black_ptr h (right (h w)) then
      let h := set_red w h in
      let* xp := deref (parent h x) in
      Ok (xp, h)
    else
      let* (w, h) := (if black_ptr h (right (h w)) then
                        let* wl := deref (left (h w)) in
                        let h := set_black wl h in
                        let h := set_red w h in
                        let* h := rotate_right t w h in
                        let* xp := deref (parent h x) in
                        let* w := deref (right (h xp)) in    (* assert(w) *)
                        Ok (w, h)
                      else Ok (w, h)) in
      let* xp := deref (parent h x) in
      let h := set_color w (is_red h xp) h in
      let* xp := deref (parent h x) in
      let h := set_black xp h in
      let h := match right (h w) with
               | Some wr => set_black wr h
               | None => h
               end in
      let* xp := deref (parent h x) in
      let* h := rotate_left t xp h in
      let* r := deref (root t h) in
      Ok (r, h)
  else
    let* w := deref (left (h xp)) in                         (* assert(w) *)
    let* (w, h) := (if is_red h w then
                      let h := set_black w h in
                      let h := set_red xp h in
                      let* h := rotate_right t xp h in
                      let* xp := deref (parent h x) in
                      let* w := deref (left (h xp)) in       (* assert(w) *)
                      Ok (w, h)
                    else Ok (w, h)) in
    if black_ptr h (right (h w)) && black_ptr h (left (h w)) then
      let h := set_red w h in
      let* xp := deref (parent h x) in
      Ok (xp, h)
    else
      let* (w, h) := (if black_ptr h (left (h w)) then
                        let* wr := deref (right (h w)) in
                        let h := set_black wr h in
                        let h := set_red w h in
                        let* h := rotate_left t w h in
                        let* xp := deref (parent h x) in
                        let* w := deref (left (h xp)) in     (* assert(w) *)
                        Ok (w, h)
                      else Ok (w, h)) in
      let* xp := deref (parent h x) in
      let h := set_color w (is_red h xp) h in
      let* xp := deref (parent h x) in
      let h := set_black xp h in
      let h := match left (h w) with
               | Some wl => set_black wl h
               | None => h
               end in
      let* xp := deref (parent h x) in
      let* h := rotate_right t xp h in
      let* r := deref (root t h) in
      Ok (r, h).

Fixpoint erase_fixup_loop (fuel : nat) (t : nat) (x : loc) (h : heap) : res (loc * heap) :=
  match fuel with
  | 0 => Timeout
  | S fuel =>
      if bool_decide (Some x ≠ root t h) && is_black h x then
        let* (x, h) := erase_fixup_body t x h in
        erase_fixup_loop fuel t x h
      else Ok (x, h)
  end.

Definition erase_fixup (fuel : nat) (t : nat) (x : loc) (h : heap) : res heap :=
  let* (x, h) := erase_fixup_loop fuel t x h in
  Ok (set_black x h).

(** The three tests of [erase_node] on the sentinel: its root reference
    and its two caches. *)
Definition erase_node_head (fuel : nat) (t : nat) (z : loc) (h : heap) : res heap :=
  let h := if decide (parent h (Head t) = Some z)
           then set_parent (Head t) None h else h in
  let* h := (if decide (left (h (Head t)) = Some z) then
               match right (h z) with
               | Some zr => let* m := find_minimum fuel h zr in
                            Ok (set_left (Head t) (Some m) h)
               | None => Ok (set_left (Head t) (parent h z) h)
               end
             else Ok h) in
  if decide (right (h (Head t)) = Some z) then
    match left (h z) with
    | Some zl => let* m := find_maximum fuel h zl in
                 Ok (set_right (Head t) (Some m) h)
    | None => Ok (set_right (Head t) (parent h z) h)
    end
  else Ok h.

(** The [if]/[else if]/[else] of [erase_node] that takes [z] out; it
    gives [x], the colour of the node spliced out, and the heap. *)
Definition erase_node_splice (fuel : nat) (t : nat) (z : loc) (y_is_red : bool) (h : heap)
    : res (ptr * bool * heap) :=
  match left (h z), right (h z) with
  | None, zr =>
      let* h := transplant t z zr h in
      Ok (zr, y_is_red, h)
  | Some zl, None =>
      let* h := transplant t z (Some zl) h in
      Ok (Some zl, y_is_red, h)
  | Some _, Some zr =>
      let* y := find_minimum fuel h zr in
      let y_is_red := is_red h y in
      let x := right (h y) in
      let* h := (if decide (parent h y ≠ Some z) then
                   let* h := transplant t y (right (h y)) h in
                   let h := set_right y (right (h z)) h in
                   let* yr := deref (right (h y)) in
                   Ok (set_parent yr (Some y) h)
                 else Ok h) in
      let* h := transplant t z (Some y) h in
      let h := set_left y (left (h z)) h in
      let* yl := deref (left (h y)) in
      let h := set_parent yl (Some y) h in
      let h := set_color y (is_red h z) h in
      Ok (x, y_is_red, h)
  end.

Definition erase_node (fuel : nat) (t : nat) (z : loc) (h : heap) : res heap :=
  let y_is_red := is_red h z in
  let* h := erase_node_head fuel t z h in
  let* (x, y_is_red, h) := erase_node_splice fuel t z y_is_red h in
  match x with
  | Some x' => if negb y_is_red then erase_fixup fuel t x' h else Ok h
  | None => Ok h
  end.

(** ** The iterator *)

(** The loop [while (next->right == curr)] of [next]. *)
Fixpoint next_climb (fuel : nat) (h : heap) (curr : loc) (next : ptr) : res (loc * ptr) :=
  match fuel with
  | 0 => Timeout
  | S fuel =>
      let* n := deref next in
      if decide (right (h n) = Some curr)
      then next_climb fuel h n (parent h n)
      else Ok (curr, next)
  end.

Definition next (fuel : nat) (h : heap) (curr : ptr) : res ptr :=
  let* c := deref curr in
  match right (h c) with
  | Some r =>
      let* n := find_minimum fuel h r in                 (* while (next->left) *)
      Ok (Some n)
  | None =>
      let* (c, n) := next_climb fuel h c (parent h c) in
      if decide (right (h c) = n) then Ok (Some c) else Ok n
  end.

(** The loop [while (next->left == curr)] of [prev]. *)
Fixpoint prev_climb (fuel : nat) (h : heap) (curr : loc) (next : ptr) : res (loc * ptr) :=
  match fuel with
  | 0 => Timeout
  | S fuel =>
      let* n := deref next in
      if decide (left (h n) = Some curr)
      then prev_climb fuel h n (parent h n)
      else Ok (curr, next)
  end.

Definition prev (fuel : nat) (h : heap) (curr : ptr) : res ptr :=
  let* c := deref curr in
  match left (h c) with
  | Some l =>
      let* n := find_maximum fuel h l in                 (* while (next->right) *)
      Ok (Some n)
  | None =>
      let* (c, n) := prev_climb fuel h c (parent h c) in
      if decide (right (h c) = n) then Ok (Some c) else Ok n
  end.

(** ** [rbtree]: the public methods that do not compare keys *)

(** The constructor: a new tree object at [Head t]. *)
Definition rbtree_new (t : nat) (h : heap) : heap :=
  let h := store (Head t) fresh_node h in
  let h := set_left (Head t) (Some (Head t)) h in
  set_right (Head t) (Some (Head t)) h.

Definition begin (t : nat) (h : heap) : ptr := left (h (Head t)).
Definition end_ (t : nat) (h : heap) : ptr := Some (Head t).
Definition empty (t : nat) (h : heap) : bool := bool_decide (root t h = None).

Definition clear (t : nat) (h : heap) : heap :=
  let h := set_parent (Head t) (Some (Head t)) h in
  let h := set_left (Head t) None h in
  set_right (Head t) None h.

(** [static_cast<value_type*>(x)]: only a record's node is a record. *)
Definition to_value (x : loc) : res nat :=
  match x with
  | Rec n => Ok n
  | Head _ => Fault
  end.

(** [for (value_type& v : tree)]: the records visited from [it] on, in
    the order of the visits; [n] bounds the number of turns. *)
Fixpoint traverse_from (fuel n : nat) (t : nat) (h : heap) (it : ptr) : res (list nat) :=
  match n with
  | 0 => Timeout
  | S n =>
      if decide (it = end_ t h) then Ok []
      else
        let* c := deref it in
        let* v := to_value c in
        let* it := next fuel h it in
        let* vs := traverse_from fuel n t h it in
        Ok (v :: vs)
  end.

Definition traverse (fuel : nat) (t : nat) (h : heap) : res (list nat) :=
  traverse_from fuel fuel t h (begin t h).

(** The disposer is a callback of the caller; the model records the
    records it is handed, oldest first. *)
Fixpoint clear_and_dispose_helper (fuel : nat) (x : ptr) (h : heap) (disposed : list nat)
    : res (heap * list nat) :=
  match fuel with
  | 0 => Timeout
  | S fuel =>
      match x with
      | None => Ok (h, disposed)
      | Some x =>
          match left (h x) with
          | Some s =>
              let h := set_left x (right (h s)) h in
              let h := set_right s (Some x) h in
              clear_and_dispose_helper fuel (Some s) h disposed
          | None =>
              let s := right (h x) in
              let* v := to_value x in
              clear_and_dispose_helper fuel s h (disposed ++ [v])
          end
      end
  end.

Definition clear_and_dispose (fuel : nat) (t : nat) (h : heap) (disposed : list nat)
    : res (heap * list nat) :=
  let* (h, disposed) := clear_and_dispose_helper fuel (root t h) h disposed in
  let h := set_root t None h in
  let h := set_left (Head t) None h in
  Ok (set_right (Head t) None h, disposed).

(** [swap]: both trees of the model use the same key extractor and
    comparator, so exchanging those two is not visible. *)
Definition swap (t other : nat) (h : heap) : res heap :=
  match root t h, root other h with
  | Some _, Some _ =>
      if negb (bool_decide (is_red h (Head t) = is_red h (Head other))) then Fault  (* assert *)
      else
        let l := left (h (Head t)) in
        let h := set_left (Head t) (left (h (Head other))) h in
        let h := set_left (Head other) l h in
        let r := right (h (Head t)) in
        let h := set_right (Head t) (right (h (Head other))) h in
        let h := set_right (Head other) r h in
        let p := parent h (Head t) in
        let h := set_parent (Head t) (parent h (Head other)) h in
        let h := set_parent (Head other) p h in
        let* a := deref (parent h (Head t)) in
        let h := set_parent a (Some (Head t)) h in
        let* b := deref (parent h (Head other)) in
        Ok (set_parent b (Some (Head other)) h)
  | Some _, None =>
      let h := set_left (Head other) (left (h (Head t))) h in
      let h := set_right (Head other) (right (h (Head t))) h in
      let h := set_parent (Head other) (parent h (Head t)) h in
      let* b := deref (parent h (Head other)) in
      let h := set_parent b (Some (Head other)) h in
      let h := set_left (Head t) (Some (Head t)) h in
      let h := set_right (Head t) (Some (Head t)) h in
      Ok (set_parent (Head t) None h)
  | None, Some _ =>
      let h := set_left (Head t) (left (h (Head other))) h in
      let h := set_right (Head t) (right (h (Head other))) h in
      let h := set_parent (Head t) (parent h (Head other)) h in
      let* a := deref (parent h (Head t)) in
      let h := set_parent a (Some (Head t)) h in
      let h := set_left (Head other) (Some (Head other)) h in
      let h := set_right (Head other) (Some (Head other)) h in
      Ok (set_parent (Head other) None h)
  | None, None => Ok h
  end.

(** ** [rbtree]: the methods that compare keys, and [clone] *)

Section rbtree.
(** [Compare] and [GetKeyForValue]: the key of record [n] is
    [get_key n]; a linked record's key does not change. *)
Context {K : Type} (is_less_than : K → K → bool) (get_key : nat → K).

(** [to_key(node)] goes through [to_value]. *)
Definition to_key (node : loc) : res K :=
  let* v := to_value node in
  Ok (get_key v).

Fixpoint find_node (fuel : nat) (t : nat) (key : K) (h : heap) (x : ptr) : res ptr :=
  match fuel with
  | 0 => Timeout
  | S fuel =>
      match x with
      | None => Ok (end_ t h)
      | Some x' =>
          let* kx := to_key x' in
          if is_less_than key kx then find_node fuel t key h (left (h x'))
          else if is_less_than kx key then find_node fuel t key h (right (h x'))
          else Ok (Some x')
      end
  end.

Definition find (fuel : nat) (t : nat) (key : K) (h : heap) : res ptr :=
  find_node fuel t key h (root t h).

Definition contains (fuel : nat) (t : nat) (key : K) (h : heap) : res bool :=
  let* it := find_node fuel t key h (root t h) in
  Ok (bool_decide (end_ t h ≠ it)).

(** The descent shared by [insert] and [insert_for_key]: [inl x] when
    [x] holds an equal key, [inr y] with the last node visited
    otherwise. *)
Fixpoint insert_descent (fuel : nat) (key : K) (h : heap) (y x : ptr) : res (loc + ptr) :=
  match fuel with
  | 0 => Timeout
  | S fuel =>
      match x with
      | None => Ok (inr y)
      | Some x' =>
          let* kx := to_key x' in
          if is_less_than key kx then insert_descent fuel key h (Some x') (left (h x'))
          else if is_less_than kx key then insert_descent fuel key h (Some x') (right (h x'))
          else Ok (inl x')
      end
  end.

Definition insert_parent (fuel : nat) (t : nat) (y : ptr) (z : loc) (h : heap)
    : res (heap * (ptr * bool)) :=
  let* h :=
    match y with
    | None =>
        let h := set_root t (Some z) h in
        let h := set_left (Head t) (root t h) h in
        Ok (set_right (Head t) (root t h) h)
    | Some y' =>
        let* kz := to_key z in
        let* ky := to_key y' in
        if is_less_than kz ky then
          let h := set_parent z (Some y') h in
          let h := set_left y' (Some z) h in
          Ok (if decide (left (h (Head t)) = Some y')
              then set_left (Head t) (Some z) h else h)
        else
          let h := set_parent z (Some y') h in
          let h := set_right y' (Some z) h in
          Ok (if decide (right (h (Head t)) = Some y')
              then set_right (Head t) (Some z) h else h)
    end in
  let h := set_left z None h in
  let h := set_right z None h in
  let h := set_red z h in
  let* h := insert_fixup fuel t z h in
  Ok (h, (Some z, true)).

(** [insert(value)]: [value] is the record number. *)
Definition insert (fuel : nat) (t : nat) (value : nat) (h : heap)
    : res (heap * (ptr * bool)) :=
  let* d := insert_descent fuel (get_key value) h None (root t h) in
  match d with
  | inl x => Ok (h, (Some x, false))
  | inr y =>
      let z := Rec value in
      let h := reset z h in
      insert_parent fuel t y z h
  end.

(** [insert_for_key(key, fn)]: the factory [fn] is a callback with a
    state [S] of its own; it returns the record it made. *)
Definition insert_for_key {S : Type} (fuel : nat) (t : nat) (key : K)
    (fn : S → nat * S) (s : S) (h : heap) : res (heap * S * (ptr * bool)) :=
  let* d := insert_descent fuel key h None (root t h) in
  match d with
  | inl x => Ok (h, s, (Some x, false))
  | inr y =>
      let '(z, s) := fn s in
      let* (h, r) := insert_parent fuel t y (Rec z) h in
      Ok (h, s, r)
  end.

Definition erase (fuel : nat) (t : nat) (key : K) (h : heap) : res (heap * ptr) :=
  let* it := find_node fuel t key h (root t h) in
  if decide (it = end_ t h) then Ok (h, None)
  else
    let* z := deref it in
    let* h := erase_node fuel t z h in
    let h := reset_node z h in
    let* v := to_value z in
    Ok (h, Some (Rec v)).

(** *** [clone] *)

(** What [clone] leaves behind: the new tree, or the error of the
    cloner after the roll-back. *)
Inductive clone_result (E : Type) : Type :=
  | Returned (h : heap)
  | Raised (e : E) (h : heap) (disposed : list nat).
Arguments Returned {E} h.
Arguments Raised {E} e h disposed.

Section clone.
(** The cloner is a callback: [inr c] is the record it made for the
    record it was given, [inl e] the error it raised. *)
Context {E : Type} (cloner : nat → E + nat).

Definition call_cloner (node_orig : loc) : res (E + loc) :=
  let* v := to_value node_orig in
  match cloner v with
  | inl e => Ok (inl e)
  | inr c => Ok (inr (Rec c))
  end.

(** The [while (true)] loop of [clone]; [inl e] when the cloner
    raised [e], with the heap at that moment. *)
Fixpoint clone_loop (fuel : nat) (t rv : nat) (node_orig node_clone : loc) (h : heap)
    : res (heap * option E) :=
  match fuel with
  | 0 => Timeout
  | S fuel =>
      match left (h node_orig), left (h node_clone),
            right (h node_orig), right (h node_clone) with
      | Some ol, None, _, _ =>
          let node_orig := ol in
          let parent_clone := node_clone in
          let* c := call_cloner node_orig in
          match c with
          | inl e => Ok (h, Some e)
          | inr node_clone =>
              let h := set_color node_clone (is_red h node_orig) h in
              let h := set_left parent_clone (Some node_clone) h in
              let h := set_parent node_clone (Some parent_clone) h in
              let h := if decide (left (h node_orig) = left (h (Head t)))
                       then set_left (Head rv) (Some node_clone) h else h in
              clone_loop fuel t rv node_orig node_clone h
          end
      | _, _, Some or, None =>
          let node_orig := or in
          let parent_clone := node_clone in
          let* c := call_cloner node_orig in
          match c with
          | inl e => Ok (h, Some e)
          | inr node_clone =>
              let h := set_color node_clone (is_red h node_orig) h in
              let h := set_right parent_clone (Some node_clone) h in
              let h := set_parent node_clone (Some parent_clone) h in
              let h := if decide (right (h node_orig) = right (h (Head t)))
                       then set_right (Head rv) (Some node_clone) h else h in
              clone_loop fuel t rv node_orig node_clone h
          end
      | _, _, _, _ =>
          let* node_orig := deref (parent h node_orig) in
          let* node_clone := deref (parent h node_clone) in
          if decide (node_orig = Head t) then Ok (h, None)
          else clone_loop fuel t rv node_orig node_clone h
      end
  end.

(** The roll-back in [finally], then [rv]'s destructor. *)
Definition clone_rollback (fuel : nat) (rv : nat) (e : E) (h : heap)
    : res (clone_result E) :=
  let* (h, disposed) := clear_and_dispose_helper fuel (root rv h) h [] in
  Ok (Raised e (clear rv h) disposed).

(** [clone(cloner, disposer)] of tree [t]; the local [rv] is the tree
    object number [rv], handed to the caller when [clone] returns. *)
Definition clone (fuel : nat) (t rv : nat) (h : heap) : res (clone_result E) :=
  let h := rbtree_new rv h in
  if empty t h then Ok (Returned h)
  else
    let* node_orig := deref (root t h) in
    let* c := call_cloner node_orig in
    match c with
    | inl e => clone_rollback fuel rv e h
    | inr node_clone =>
        let h := set_parent node_clone (Some (Head rv)) h in
        let h := set_color node_clone (is_red h node_orig) h in
        let h := set_parent (Head rv) (Some node_clone) h in
        let h := set_left (Head rv) (Some node_clone) h in
        let h := set_right (Head rv) (Some node_clone) h in
        let* (h, r) := clone_loop fuel t rv node_orig node_clone h in
        match r with
        | Some e => clone_rollback fuel rv e h
        | None => Ok (Returned h)
        end
    end.
End clone.
End rbtree.

Arguments Returned {E} h.
Arguments Raised {E} e h disposed.

(** ** Executable checks of the red-black rules on the heap *)

(** The number of black nodes on every path from [p] down to a missing
    child, when all these paths agree ([fuel] bounds the depth). *)
Fixpoint black_height (fuel : nat) (h : heap) (p : ptr) : option nat :=
  match fuel with
  | 0 => None
  | S fuel =>
      match p with
      | None => Some 0
      | Some x =>
          match black_height fuel h (left (h x)), black_height fuel h (right (h x)) with
          | Some a, Some b =>
              if decide (a = b) then Some (if is_red h x then a else S a) else None
          | _, _ => None
          end
      end
  end.

(** No red node below [p] has a red child. *)
Fixpoint red_rule (fuel : nat) (h : heap) (p : ptr) : bool :=
  match fuel with
  | 0 => false
  | S fuel =>
      match p with
      | None => true
      | Some x =>
          (is_black h x || (black_ptr h (left (h x)) && black_ptr h (right (h x))))
          && red_rule fuel h (left (h x)) && red_rule fuel h (right (h x))
      end
  end.

Definition root_is_black (t : nat) (h : heap) : bool := black_ptr h (root t h).

Definition red_black (fuel : nat) (t : nat) (h : heap) : bool :=
  root_is_black t h && red_rule fuel h (root t h)
  && bool_decide (is_Some (black_height fuel h (root t h))).

(** ** Sequences of calls *)

Inductive call (K : Type) : Type :=
  | Insert (value : nat)
  | Erase (key : K).
Arguments Insert {K} value.
Arguments Erase {K} key.

Section calls.
Context {K : Type} (is_less_than : K → K → bool) (get_key : nat → K).

Definition run_call (fuel : nat) (t : nat) (c : call K) (h : heap) : res heap :=
  match c with
  | Insert v => let* r := insert is_less_than get_key fuel t v h in Ok (fst r)
  | Erase k => let* r := erase is_less_than get_key fuel t k h in Ok (fst r)
  end.

Fixpoint run_calls (fuel : nat) (t : nat) (cs : list (call K)) (h : heap) : res heap :=
  match cs with
  | [] => Ok h
  | c :: cs => let* h := run_call fuel t c h in run_calls fuel t cs h
  end.
End calls.

(** The trees of the examples: record [n] has key [n], ordered by [<]. *)
Definition nat_calls (cs : list (call nat)) : res heap :=
  run_calls Nat.ltb id 64 0 cs (rbtree_new 0 initial_heap).

(** A run that ends with the records 1 and 3 linked. *)
Definition example_calls : list (call nat) :=
  [Insert 2; Insert 1; Insert 3; Insert 1; Erase 2; Erase 5].

Definition example_heap : heap :=
  match nat_calls example_calls with
  | Ok h => h
  | _ => initial_heap
  end.

(** Records whose key is their last digit: 3 and 13 have equal keys. *)
Definition mod_key (n : nat) : nat := n mod 10.

Definition mod_heap : heap :=
  match run_calls Nat.ltb mod_key 64 0 [Insert 1; Insert 3; Insert 2]
          (rbtree_new 0 initial_heap) with
  | Ok h => h
  | _ => initial_heap
  end.

(** ** The shape of a linked tree *)

(** The records of a tree, by their numbers. *)
Inductive tree : Type :=
  | E
  | T (l : tree) (x : nat) (r : tree).

Fixpoint inorder (s : tree) : list nat :=
  match s with
  | E => []
  | T l x r => inorder l ++ x :: inorder r
  end.

Fixpoint preorder (s : tree) : list nat :=
  match s with
  | E => []
  | T l x r => x :: preorder l ++ preorder r
  end.

Definition root_ptr (s : tree) : ptr :=
  match s with
  | E => None
  | T _ x _ => Some (Rec x)
  end.

(** [sub h par s]: the records of [s] are linked in [h] as [s] says,
    below the node [par]. *)
Fixpoint sub (h : heap) (par : loc) (s : tree) : Prop :=
  match s with
  | E => True
  | T l x r =>
      parent h (Rec x) = Some par ∧
      left (h (Rec x)) = root_ptr l ∧
      right (h (Rec x)) = root_ptr r ∧
      sub h (Rec x) l ∧ sub h (Rec x) r
  end.

(** [linked h t s]: tree [t] holds exactly the records of [s], in that
    shape. *)
Definition linked (h : heap) (t : nat) (s : tree) : Prop :=
  root t h = root_ptr s ∧ sub h (Head t) s ∧ NoDup (inorder s).

(** The sentinel's [left] and [right] hold the first and the last record
    in order, or the sentinel itself. *)
Definition caches (h : heap) (t : nat) (s : tree) : Prop :=
  left (h (Head t)) = Some (default (Head t) (Rec <$> head (inorder s))) ∧
  right (h (Head t)) = Some (default (Head t) (Rec <$> last (inorder s))).

(** A tree with a hole: the path from the hole up to the root. *)
Inductive ctx : Type :=
  | Top
  | CL (c : ctx) (a : nat) (r : tree)
  | CR (l : tree) (a : nat) (c : ctx).

Fixpoint plug (c : ctx) (s : tree) : tree :=
  match c with
  | Top => s
  | CL c a r => plug c (T s a r)
  | CR l a c => plug c (T l a s)
  end.

Fixpoint comp (inner outer : ctx) : ctx :=
  match inner with
  | Top => outer
  | CL c a r => CL (comp c outer) a r
  | CR l a c => CR l a (comp c outer)
  end.

Fixpoint ctx_before (c : ctx) : list nat :=
  match c with
  | Top => []
  | CL c _ _ => ctx_before c
  | CR l a c => ctx_before c ++ inorder l ++ [a]
  end.

Fixpoint ctx_after (c : ctx) : list nat :=
  match c with
  | Top => []
  | CL c a r => a :: inorder r ++ ctx_after c
  | CR _ _ c => ctx_after c
  end.

Definition ctx_par (t : nat) (c : ctx) : loc :=
  match c with
  | Top => Head t
  | CL _ a _ => Rec a
  | CR _ a _ => Rec a
  end.

(** [ctx_ok h t c p]: the path [c] is linked in [h] below the sentinel
    of tree [t], and its hole holds the pointer [p]. *)
Fixpoint ctx_ok (h : heap) (t : nat) (c : ctx) (p : ptr) : Prop :=
  match c with
  | Top => root t h = p
  | CL c a r =>
      left (h (Rec a)) = p ∧ right (h (Rec a)) = root_ptr r ∧
      parent h (Rec a) = Some (ctx_par t c) ∧
      sub h (Rec a) r ∧ ctx_ok h t c (Some (Rec a))
  | CR l a c =>
      right (h (Rec a)) = p ∧ left (h (Rec a)) = root_ptr l ∧
      parent h (Rec a) = Some (ctx_par t c) ∧
      sub h (Rec a) l ∧ ctx_ok h t c (Some (Rec a))
  end.

(** The two nodes agree on every field. *)
Definition same_node (h h' : heap) (x : loc) : Prop :=
  left (h' x) = left (h x) ∧ right (h' x) = right (h x) ∧
  parent h' x = parent h x ∧ is_red h' x = is_red h x.

(** What a call on tree [t] with the records [dom] leaves alone: the
    other sentinels, the other records, and the colour of its own
    sentinel. *)
Definition frame (t : nat) (dom : list nat) (h h' : heap) : Prop :=
  (∀ u, u ≠ t → same_node h h' (Head u)) ∧
  (∀ q, q ∉ dom → same_node h h' (Rec q)) ∧
  is_red h' (Head t) = is_red h (Head t).

(** The two nodes agree on their three links. *)
Definition same_links (h h' : heap) (x : loc) : Prop :=
  left (h' x) = left (h x) ∧ right (h' x) = right (h x) ∧ parent h' x = parent h x.

(** The records of a path, those of the subtrees hanging off it
    included. *)
Definition ctx_nodes (c : ctx) : list nat := ctx_before c ++ ctx_after c.

(** The hole of a path takes a new pointer. *)
Definition hole_set (h h' : heap) (t : nat) (c : ctx) (p : ptr) : Prop :=
  match c with
  | Top => root t h' = p
  | CL _ a _ =>
      left (h' (Rec a)) = p ∧ right (h' (Rec a)) = right (h (Rec a)) ∧
      parent h' (Rec a) = parent h (Rec a) ∧ root t h' = root t h
  | CR _ a _ =>
      right (h' (Rec a)) = p ∧ left (h' (Rec a)) = left (h (Rec a)) ∧
      parent h' (Rec a) = parent h (Rec a) ∧ root t h' = root t h
  end.

(** No record is in both lists. *)
Definition disj (l k : list nat) : Prop := ∀ x, x ∈ l → x ∉ k.

(** What a call leaves of tree [t], linked as [s] before it: a tree of
    the same records in the same order, the same two caches, and
    nothing changed outside the tree. *)
Definition keeps (t : nat) (s : tree) (h h' : heap) : Prop :=
  (∃ s', linked h' t s' ∧ inorder s' = inorder s) ∧
  frame t (inorder s) h h' ∧
  left (h' (Head t)) = left (h (Head t)) ∧
  right (h' (Head t)) = right (h (Head t)).

(** The parents after a rotation about [x] that lifts its child [y],
    whose inner subtree hangs at [b]. *)
Definition rotated (h h' : heap) (x y : nat) (b : ptr) : Prop :=
  ∀ q, parent h' (Rec q) =
       if decide (q = x) then Some (Rec y)
       else if decide (q = y) then parent h (Rec x)
       else if decide (b = Some (Rec q)) then Some (Rec x)
       else parent h (Rec q).

(** A call on tree [t] that writes only to the sentinel's root
    reference and to the records [dom]. *)
Definition within (t : nat) (dom : list nat) (h h' : heap) : Prop :=
  frame t dom h h' ∧
  left (h' (Head t)) = left (h (Head t)) ∧
  right (h' (Head t)) = right (h (Head t)).

(** The first and the last record of a tree that is not empty, and
    the tree without its first record. *)
Fixpoint min_node (l : tree) (x : nat) : nat :=
  match l with
  | E => x
  | T ll lx _ => min_node ll lx
  end.

Fixpoint max_node (x : nat) (r : tree) : nat :=
  match r with
  | E => x
  | T _ rx rr => max_node rx rr
  end.

Fixpoint del_min (l : tree) (x : nat) (r : tree) : tree :=
  match l with
  | E => r
  | T ll lx lr => T (del_min ll lx lr) x r
  end.

(** ** Keys along a path *)

(** The node a descent has in [y] when it stands at the hole of the
    path [c]: the last node visited, [nullptr] at the root. *)
Definition ctx_last (c : ctx) : ptr :=
  match c with
  | Top => None
  | CL _ a _ => Some (Rec a)
  | CR _ a _ => Some (Rec a)
  end.

Section order.
Context {K : Type} (is_less_than : K → K → bool) (get_key : nat → K).

(** The descent for [key] takes the path [c]: it went left at every
    node whose left subtree holds the hole, and right at the others. *)
Fixpoint path_ok (key : K) (c : ctx) : Prop :=
  match c with
  | Top => True
  | CL c a _ => is_less_than key (get_key a) = true ∧ path_ok key c
  | CR _ a c =>
      is_less_than key (get_key a) = false ∧ is_less_than (get_key a) key = true ∧
      path_ok key c
  end.

(** Record [a] orders strictly before record [b]. *)
Definition key_lt (a b : nat) : Prop := is_less_than (get_key a) (get_key b) = true.

(** The two keys compare equal: neither orders before the other. *)
Definition key_equiv (k1 k2 : K) : Prop :=
  is_less_than k1 k2 = false ∧ is_less_than k2 k1 = false.

(** The records of the list are in strictly increasing key order. *)
Definition ordered (l : list nat) : Prop := StronglySorted key_lt l.
End order.

(** ** The shape of a clone *)

Fixpoint nodes (s : tree) : nat :=
  match s with
  | E => 0
  | T l _ r => S (nodes l + nodes r)
  end.

(** The records of [s] are linked downwards as [s] says; the parent
    references are not looked at. *)
Fixpoint shape (h : heap) (s : tree) : Prop :=
  match s with
  | E => True
  | T l x r =>
      left (h (Rec x)) = root_ptr l ∧ right (h (Rec x)) = root_ptr r ∧
      shape h l ∧ shape h r
  end.

(** The number of turns [clear_and_dispose_helper] takes on [s]: one
    rotation for every record of a left subtree, and one for every
    disposal. *)
Fixpoint dispose_steps (s : tree) : nat :=
  match s with
  | E => 0
  | T l _ r => 2 * nodes l + 1 + dispose_steps r
  end.

(** The records have no child. *)
Definition childless (h : heap) (C : list nat) : Prop :=
  ∀ c, c ∈ C → left (h (Rec c)) = None ∧ right (h (Rec c)) = None.

(** The records of [s'] have in [h'] the colours that the records at
    the same places of [s] have in [h], as far as [s'] reaches. *)
Fixpoint same_colours (h h' : heap) (s s' : tree) : Prop :=
  match s, s' with
  | T l x r, T l' c r' =>
      is_red h' (Rec c) = is_red h (Rec x) ∧
      same_colours h h' l l' ∧ same_colours h h' r r'
  | _, _ => True
  end.

Section clone_shape.
Context {Err : Type} (cloner : nat → Err + nat).

(** What the walk of [clone] builds from [s]: the clones, in the shape
    of [s], up to the first record in pre-order the cloner fails on,
    with the error raised there. *)
Fixpoint clone_tree (s : tree) : tree * option Err :=
  match s with
  | E => (E, None)
  | T l x r =>
      match cloner x with
      | inl e => (E, Some e)
      | inr c =>
          let '(l', el) := clone_tree l in
          match el with
          | Some e => (T l' c E, Some e)
          | None => let '(r', er) := clone_tree r in (T l' c r', er)
          end
      end
  end.

(** The cloner made the clone [c] of the record [q]. *)
Definition clone_of (q c : nat) : Prop := cloner q = inr c.

(** The same for the two subtrees of a record that is cloned already. *)
Definition clone_kids (l r : tree) : tree * tree * option Err :=
  let '(l', el) := clone_tree l in
  match el with
  | Some e => (l', E, Some e)
  | None => let '(r', er) := clone_tree r in (l', r', er)
  end.

(** What the loop of [clone] does between its arrival at the record
    [x], whose clone [cx] has no child yet, and its departure upwards,
    for the trees with at most [n] records below [x]: it builds the
    clones of the two subtrees below [cx], in the colours of the
    originals, it writes to these clones and
    to the caches of the new sentinel only, and it either stops with
    the cloner's error or stands at [x] again, [2 * (nodes l + nodes r)]
    turns later. *)
Definition clone_kids_spec (t rv : nat) (dom : list nat) (n : nat) : Prop :=
  ∀ l x r h cx pcx l' r' er,
    nodes l + nodes r ≤ n →
    clone_kids l r = (l', r', er) →
    x ∈ dom → inorder l ⊆ dom → inorder r ⊆ dom →
    left (h (Rec x)) = root_ptr l → right (h (Rec x)) = root_ptr r →
    sub h (Rec x) l → sub h (Rec x) r →
    left (h (Rec cx)) = None → right (h (Rec cx)) = None →
    parent h (Rec cx) = Some pcx →
    NoDup (cx :: inorder l' ++ inorder r') →
    disj (cx :: inorder l' ++ inorder r') dom →
    childless h (inorder l' ++ inorder r') →
    ∃ h',
      (same_colours h h' l l' ∧ same_colours h h' r r') ∧
      sub h' pcx (T l' cx r') ∧
      (∀ q, q ∉ cx :: inorder l' ++ inorder r' → h' (Rec q) = h (Rec q)) ∧
      (∀ u, u ≠ rv → h' (Head u) = h (Head u)) ∧
      is_red h' (Head rv) = is_red h (Head rv) ∧
      parent h' (Head rv) = parent h (Head rv) ∧
      is_red h' (Rec cx) = is_red h (Rec cx) ∧
      ∀ k, clone_loop cloner (2 * (nodes l + nodes r) + k) t rv (Rec x) (Rec cx) h =
           match er with
           | Some e => Ok (h', Some e)
           | None => clone_loop cloner k t rv (Rec x) (Rec cx) h'
           end.
End clone_shape.

(** ** Trees for the examples *)

(** The shape of the tree in [mod_heap]. *)
Definition mod_tree : tree := T (T E 1 E) 2 (T E 3 E).

(** [mod_heap] after [erase] of the key 3, with the pointer returned. *)
Definition mod_erased : heap * ptr :=
  match erase Nat.ltb mod_key 64 0 3 mod_heap with
  | Ok p => p
  | _ => (mod_heap, None)
  end.

(** A cloner for the examples: the clone of the record [q] is the record
    [q + 10]; at the record [bad] it raises, with [bad] as the error. *)
Definition cloner_failing_at (bad : nat) (q : nat) : nat + nat :=
  if decide (q = bad) then inl q else inr (q + 10).

(** ** The move constructor

    [rbtree(rbtree&& other)] delegates to the constructor, with the
    key extractor and the comparator of [other], and then calls
    [swap(other)]. *)
Definition rbtree_move (t other : nat) (h : heap) : res heap :=
  swap t other (rbtree_new t h).

(** [mod_heap] with a second tree object, newly constructed. *)
Definition two_heap : heap := rbtree_new 5 mod_heap.

(** [mod_heap] after [insert] of the record 4, with the pair returned,
    and that heap after [erase] of the key 4. *)
Definition mod_inserted : heap * (ptr * bool) :=
  match insert Nat.ltb mod_key 8 0 4 mod_heap with
  | Ok p => p
  | _ => (mod_heap, (None, false))
  end.

Definition mod_reerased : heap * ptr :=
  match erase Nat.ltb mod_key 8 0 4 mod_inserted.1 with
  | Ok p => p
  | _ => (mod_heap, None)
  end.

(** A factory for [insert_for_key]: it hands out the record whose
    number is its state, and counts on. *)
Definition counting_factory (n : nat) : nat * nat := (n, S n).

(** The records that the calls of a sequence hand to [insert]. *)
Definition inserted {K : Type} (cs : list (call K)) : list nat :=
  flat_map (λ c, match c with Insert v => [v] | Erase _ => [] end) cs.

(** Two trees in one heap: tree 0 as in [mod_heap], and tree 5 with
    the record 17. *)
Definition two_trees : heap :=
  match insert Nat.ltb mod_key 8 5 17 two_heap with
  | Ok p => p.1
  | _ => two_heap
  end.

(** A sequence of calls on tree 0, and the heap it leaves. *)
Definition mod_calls : list (call nat) := [Insert 4; Erase 3].

Definition two_trees_after : heap :=
  match run_calls Nat.ltb mod_key 8 0 mod_calls two_trees with
  | Ok h => h
  | _ => two_trees
  end.

(** [cloned_as cloner s s']: the tree [s'] has the shape of [s], and
    every record of [s'] is the clone that [cloner] makes of the record
    at the same place in [s]. *)
Fixpoint cloned_as {Err : Type} (cloner : nat → Err + nat) (s s' : tree) : Prop :=
  match s, s' with
  | E, E => True
  | T l x r, T l' c r' =>
      cloner x = inr c ∧ cloned_as cloner l l' ∧ cloned_as cloner r r'
  | _, _ => False
  end.

(** ** The red-black rules on a shape

    [rbt h s n]: in the tree [s], with the colours of [h], no red
    record has a red child, and every path from the root down to a
    missing child passes [n] black records.  This is what the checks
    [red_rule] and [black_height] compute on the heap. *)
Fixpoint rbt (h : heap) (s : tree) (n : nat) : Prop :=
  match s with
  | E => n = 0
  | T l x r =>
      if is_red h (Rec x)
      then red_ptr h (root_ptr l) = false ∧ red_ptr h (root_ptr r) = false ∧
           rbt h l n ∧ rbt h r n
      else match n with
           | 0 => False
           | S m => rbt h l m ∧ rbt h r m
           end
  end.

(** The node above the hole of a path is black, or is the sentinel. *)
Definition ctx_black (h : heap) (c : ctx) : Prop :=
  match c with
  | Top => True
  | CL _ p _ => is_red h (Rec p) = false
  | CR _ p _ => is_red h (Rec p) = false
  end.

(** [ctx_rb h c n]: the path [c] obeys the rules around a hole that
    takes a tree with [n] black records on its paths; whether the root
    of that tree clashes with the node above the hole is not looked
    at. *)
Fixpoint ctx_rb (h : heap) (c : ctx) (n : nat) : Prop :=
  match c with
  | Top => True
  | CL c p pr =>
      rbt h pr n ∧
      if is_red h (Rec p)
      then red_ptr h (root_ptr pr) = false ∧ ctx_black h c ∧ ctx_rb h c n
      else ctx_rb h c (S n)
  | CR pl p c =>
      rbt h pl n ∧
      if is_red h (Rec p)
      then red_ptr h (root_ptr pl) = false ∧ ctx_black h c ∧ ctx_rb h c n
      else ctx_rb h c (S n)
  end.

(** * Reading the heap after a write *)

Lemma store_eq x n h : store x n h x = n.
Proof. unfold store. by rewrite decide_True. Qed.

Lemma store_ne x n h y : y ≠ x → store x n h y = h y.
Proof. intros. unfold store. by rewrite decide_False. Qed.

Lemma set_left_ne x v h y : y ≠ x → set_left x v h y = h y.
Proof. apply store_ne. Qed.
Lemma set_right_ne x v h y : y ≠ x → set_right x v h y = h y.
Proof. apply store_ne. Qed.
Lemma set_parent_ne x v h y : y ≠ x → set_parent x v h y = h y.
Proof. apply store_ne. Qed.
Lemma set_color_ne x v h y : y ≠ x → set_color x v h y = h y.
Proof. apply store_ne. Qed.
Lemma reset_ne x h y : y ≠ x → reset x h y = h y.
Proof. apply store_ne. Qed.

Ltac field_of_set :=
  intros; unfold parent, is_red, set_left, set_right, set_parent, set_color, reset, store;
  case_decide; simplify_eq; reflexivity.

Lemma left_set_left x v h y :
  left (set_left x v h y) = if decide (y = x) then v else left (h y).
Proof. field_of_set. Qed.
Lemma left_set_right x v h y : left (set_right x v h y) = left (h y).
Proof. field_of_set. Qed.
Lemma left_set_parent x v h y : left (set_parent x v h y) = left (h y).
Proof. field_of_set. Qed.
Lemma left_set_color x v h y : left (set_color x v h y) = left (h y).
Proof. field_of_set. Qed.
Lemma left_reset x h y : left (reset x h y) = if decide (y = x) then None else left (h y).
Proof. field_of_set. Qed.

Lemma right_set_left x v h y : right (set_left x v h y) = right (h y).
Proof. field_of_set. Qed.
Lemma right_set_right x v h y :
  right (set_right x v h y) = if decide (y = x) then v else right (h y).
Proof. field_of_set. Qed.
Lemma right_set_parent x v h y : right (set_parent x v h y) = right (h y).
Proof. field_of_set. Qed.
Lemma right_set_color x v h y : right (set_color x v h y) = right (h y).
Proof. field_of_set. Qed.
Lemma right_reset x h y : right (reset x h y) = if decide (y = x) then None else right (h y).
Proof. field_of_set. Qed.

Lemma parent_set_left x v h y : parent (set_left x v h) y = parent h y.
Proof. field_of_set. Qed.
Lemma parent_set_right x v h y : parent (set_right x v h) y = parent h y.
Proof. field_of_set. Qed.
Lemma parent_set_parent x v h y :
  parent (set_parent x v h) y = if decide (y = x) then v else parent h y.
Proof. field_of_set. Qed.
Lemma parent_set_color x v h y : parent (set_color x v h) y = parent h y.
Proof. field_of_set. Qed.
Lemma parent_reset x h y : parent (reset x h) y = if decide (y = x) then None else parent h y.
Proof. field_of_set. Qed.

Lemma is_red_set_left x v h y : is_red (set_left x v h) y = is_red h y.
Proof. field_of_set. Qed.
Lemma is_red_set_right x v h y : is_red (set_right x v h) y = is_red h y.
Proof. field_of_set. Qed.
Lemma is_red_set_parent x v h y : is_red (set_parent x v h) y = is_red h y.
Proof. field_of_set. Qed.
Lemma is_red_set_color x v h y :
  is_red (set_color x v h) y = if decide (y = x) then v else is_red h y.
Proof. field_of_set. Qed.
Lemma is_red_reset x h y : is_red (reset x h) y = if decide (y = x) then false else is_red h y.
Proof. field_of_set. Qed.

Lemma root_eq t h : root t h = parent h (Head t).
Proof. reflexivity. Qed.

Create Rewrite HintDb heap.
#[export] Hint Rewrite
  left_set_left left_set_right left_set_parent left_set_color left_reset
  right_set_left right_set_right right_set_parent right_set_color right_reset
  parent_set_left parent_set_right parent_set_parent parent_set_color parent_reset
  is_red_set_left is_red_set_right is_red_set_parent is_red_set_color is_red_reset
  root_eq : heap.

Lemma same_node_eq h h' x : h' x = h x → same_node h h' x.
Proof. intros He. unfold same_node, parent, is_red. by rewrite He. Qed.

#[global] Opaque set_left set_right set_parent set_color reset parent is_red.

(** * Results *)

Lemma bind_Ok {A B} (m : res A) (k : A → res B) b :
  bind m k = Ok b → ∃ a, m = Ok a ∧ k a = Ok b.
Proof. destruct m; simpl; [eauto | done | done]. Qed.

Lemma deref_Ok p x : deref p = Ok x → p = Some x.
Proof. destruct p; simpl; congruence. Qed.

(** * Disjoint lists of records *)

Lemma NoDup_app_disj (l k : list nat) : NoDup (l ++ k) ↔ NoDup l ∧ disj l k ∧ NoDup k.
Proof. apply NoDup_app. Qed.
Lemma disj_app_l l1 l2 k : disj (l1 ++ l2) k ↔ disj l1 k ∧ disj l2 k.
Proof. unfold disj. setoid_rewrite elem_of_app. naive_solver. Qed.
Lemma disj_app_r l k1 k2 : disj l (k1 ++ k2) ↔ disj l k1 ∧ disj l k2.
Proof. unfold disj. setoid_rewrite elem_of_app. naive_solver. Qed.
Lemma disj_cons_l x l k : disj (x :: l) k ↔ x ∉ k ∧ disj l k.
Proof. unfold disj. setoid_rewrite elem_of_cons. naive_solver. Qed.
Lemma disj_cons_r x l k : disj l (x :: k) ↔ x ∉ l ∧ disj l k.
Proof. unfold disj. setoid_rewrite elem_of_cons. naive_solver. Qed.
Lemma not_elem_of_app_iff (x : nat) l k : x ∉ l ++ k ↔ x ∉ l ∧ x ∉ k.
Proof. rewrite elem_of_app. tauto. Qed.
Lemma not_elem_of_cons_iff (x y : nat) l : x ∉ y :: l ↔ x ≠ y ∧ x ∉ l.
Proof. rewrite elem_of_cons. tauto. Qed.

(** Split every fact on lists of records into facts on their pieces. *)
Ltac elem_norm :=
  repeat match goal with
  | H : NoDup (_ ++ _) |- _ => apply NoDup_app_disj in H; destruct H as (? & ? & ?)
  | H : NoDup (_ :: _) |- _ => apply NoDup_cons in H; destruct H as (? & ?)
  | H : NoDup [] |- _ => clear H
  | H : disj (_ ++ _) _ |- _ => apply disj_app_l in H; destruct H as (? & ?)
  | H : disj (_ :: _) _ |- _ => apply disj_cons_l in H; destruct H as (? & ?)
  | H : disj _ (_ ++ _) |- _ => apply disj_app_r in H; destruct H as (? & ?)
  | H : disj _ (_ :: _) |- _ => apply disj_cons_r in H; destruct H as (? & ?)
  | H : disj [] _ |- _ => clear H
  | H : disj _ [] |- _ => clear H
  | H : _ ∉ _ ++ _ |- _ => apply not_elem_of_app_iff in H; destruct H as (? & ?)
  | H : _ ∉ _ :: _ |- _ => apply not_elem_of_cons_iff in H; destruct H as (? & ?)
  | H : _ ∉ [] |- _ => clear H
  | H : ?x ≠ ?x |- _ => by destruct H
  | H : _ ∈ [] |- _ => by apply elem_of_nil in H
  | H : _ ∈ _ ++ _ |- _ => apply elem_of_app in H; destruct H as [H|H]
  | H : _ ∈ _ :: _ |- _ => apply elem_of_cons in H; destruct H as [H|H]; [try subst|]
  end.

Ltac elem_absurd_now :=
  match goal with
  | H1 : ?x ∈ ?A, H2 : ?x ∉ ?A |- _ => destruct (H2 H1)
  | H1 : ?x ∈ ?A, H2 : ?x ∈ ?B, H3 : disj ?A ?B |- _ => destruct (H3 x H1 H2)
  | H : ?x ≠ ?x |- _ => destruct (H eq_refl)
  end.

(** * Shapes *)

Lemma inorder_plug c s : inorder (plug c s) = ctx_before c ++ inorder s ++ ctx_after c.
Proof.
  revert s. induction c as [|c IH a r|l a c IH]; intros s; simpl.
  - by rewrite app_nil_r.
  - rewrite IH. simpl. by rewrite <- !app_assoc.
  - rewrite IH. simpl. by rewrite <- !app_assoc.
Qed.

Lemma plug_comp c1 c2 s : plug (comp c1 c2) s = plug c2 (plug c1 s).
Proof. revert s. induction c1; intros s; simpl; auto. Qed.

Lemma elem_of_inorder_plug x s :
  x ∈ inorder s → ∃ c l r, s = plug c (T l x r).
Proof.
  induction s as [|l IHl a r IHr]; simpl; [by intros ?%elem_of_nil|].
  rewrite elem_of_app, elem_of_cons. intros [Hx|[->|Hx]].
  - destruct (IHl Hx) as (c & l' & r' & ->).
    exists (comp c (CL Top a r)), l', r'. by rewrite plug_comp.
  - by exists Top, l, r.
  - destruct (IHr Hx) as (c & l' & r' & ->).
    exists (comp c (CR l a Top)), l', r'. by rewrite plug_comp.
Qed.

Lemma root_ptr_None s : root_ptr s = None → s = E.
Proof. by destruct s. Qed.

Lemma root_ptr_Some s x : root_ptr s = Some x → ∃ l a r, s = T l a r ∧ x = Rec a.
Proof. destruct s; simpl; intros; simplify_eq; eauto. Qed.

Lemma root_ptr_elem s a : root_ptr s = Some (Rec a) → a ∈ inorder s.
Proof. intros (? & ? & ? & -> & ?)%root_ptr_Some. simplify_eq. simpl. set_solver. Qed.

(** * Frames *)

Lemma sub_frame h h' par s :
  (∀ q, q ∈ inorder s → same_links h h' (Rec q)) →
  sub h par s → sub h' par s.
Proof.
  revert par. induction s as [|l IHl a r IHr]; intros par Hs; simpl; [done|].
  intros (Hp & Hl & Hr & Hsl & Hsr).
  destruct (Hs a) as (-> & -> & ->); [simpl; set_solver|].
  split_and!; [done..| |].
  - apply IHl; [|done]. intros q Hq. apply Hs. simpl. set_solver.
  - apply IHr; [|done]. intros q Hq. apply Hs. simpl. set_solver.
Qed.

Lemma ctx_ok_frame h h' t c p :
  (∀ q, q ∈ ctx_nodes c → same_links h h' (Rec q)) →
  root t h' = root t h →
  ctx_ok h t c p → ctx_ok h' t c p.
Proof.
  unfold ctx_nodes. revert p. induction c as [|c IH a r|l a c IH]; intros p Hs Hroot; simpl.
  - congruence.
  - intros (Hl & Hr & Hp & Hsr & Hc).
    destruct (Hs a) as (-> & -> & ->); [simpl; set_solver|].
    split_and!; [done..| |].
    + eapply sub_frame; [|done]. intros q Hq. apply Hs. simpl. set_solver.
    + apply IH; [|done..]. intros q Hq. apply Hs. simpl. set_solver.
  - intros (Hl & Hr & Hp & Hsr & Hc).
    destruct (Hs a) as (-> & -> & ->); [simpl; set_solver|].
    split_and!; [done..| |].
    + eapply sub_frame; [|done]. intros q Hq. apply Hs. simpl. set_solver.
    + apply IH; [|done..]. intros q Hq. apply Hs. simpl. set_solver.
Qed.

Lemma sub_plug h t c s :
  root t h = root_ptr (plug c s) ∧ sub h (Head t) (plug c s) ↔
  ctx_ok h t c (root_ptr s) ∧ sub h (ctx_par t c) s.
Proof.
  revert s. induction c as [|c IH a r|l a c IH]; intros s; simpl.
  - done.
  - rewrite IH. simpl. naive_solver.
  - rewrite IH. simpl. naive_solver.
Qed.

Lemma linked_plug h t c s :
  linked h t (plug c s) ↔
  ctx_ok h t c (root_ptr s) ∧ sub h (ctx_par t c) s ∧
  NoDup (ctx_before c ++ inorder s ++ ctx_after c).
Proof. unfold linked. rewrite <- inorder_plug. pose proof (sub_plug h t c s). tauto. Qed.

Lemma root_ptr_elem' s a : Some (Rec a) = root_ptr s → a ∈ inorder s.
Proof. intros. by apply root_ptr_elem. Qed.

(** Facts on the roots of subtrees, as membership. *)
Ltac root_elems :=
  repeat match goal with
  | H : root_ptr ?b = Some (Rec ?y) |- _ => apply root_ptr_elem in H
  | H : Some (Rec ?y) = root_ptr ?b |- _ => apply root_ptr_elem' in H
  | H : root_ptr ?b = Some (Head _) |- _ => destruct b; simpl in H; discriminate H
  | H : Some (Head _) = root_ptr ?b |- _ => destruct b; simpl in H; discriminate H
  end.

Ltac elem_absurd :=
  exfalso;
  repeat match goal with
  | H : ?a = ?a |- _ => clear H
  | H : Rec _ = Rec _ |- _ => injection H as H; try subst
  | H : Some _ = Some _ |- _ => injection H as H; try subst
  | H : Rec _ = Head _ |- _ => discriminate H
  | H : Head _ = Rec _ |- _ => discriminate H
  | H : Some _ = None |- _ => discriminate H
  | H : None = Some _ |- _ => discriminate H
  end;
  unfold ctx_nodes in *; simpl in *; root_elems; elem_norm;
  elem_absurd_now.
Lemma sub_reparent h h' par par' s :
  NoDup (inorder s) →
  (∀ q, q ∈ inorder s →
        left (h' (Rec q)) = left (h (Rec q)) ∧ right (h' (Rec q)) = right (h (Rec q)) ∧
        (root_ptr s ≠ Some (Rec q) → parent h' (Rec q) = parent h (Rec q))) →
  (∀ a, root_ptr s = Some (Rec a) → parent h' (Rec a) = Some par') →
  sub h par s → sub h' par' s.
Proof.
  destruct s as [|l a r]; simpl; [done|].
  intros Hnd Hs Hp (_ & Hl & Hr & Hsl & Hsr).
  destruct (Hs a) as (-> & -> & _); [set_solver|].
  split_and!; [by apply Hp|done..| |].
  - eapply sub_frame; [|done]. intros q Hq.
    destruct (Hs q) as (? & ? & Hpq); [set_solver|].
    split_and!; [done..|]. apply Hpq. intros [= ->]. elem_absurd.
  - eapply sub_frame; [|done]. intros q Hq.
    destruct (Hs q) as (? & ? & Hpq); [set_solver|].
    split_and!; [done..|]. apply Hpq. intros [= ->]. elem_absurd.
Qed.

Lemma disj_sym l k : disj l k → disj k l.
Proof. unfold disj. naive_solver. Qed.

(** Put a [NoDup] or disjointness goal together from the pieces. *)
Ltac nodup_solve :=
  unfold ctx_nodes in *; simpl in *; elem_norm;
  repeat first
    [ assumption
    | apply NoDup_nil_2
    | apply NoDup_app_disj; split_and!
    | apply NoDup_cons; split
    | apply disj_app_l; split
    | apply disj_app_r; split
    | apply disj_cons_l; split
    | apply disj_cons_r; split
    | apply not_elem_of_app_iff; split
    | apply not_elem_of_cons_iff; split
    | apply disj_sym; assumption
    | apply not_eq_sym; assumption
    | by intros ? ?%elem_of_nil
    | by intros ? ? ?%elem_of_nil
    | by intros ?%elem_of_nil ].


(** Flatten nested appends. *)
Ltac app_norm :=
  simpl; repeat first [rewrite <- app_assoc | rewrite <- app_comm_cons | rewrite app_nil_r]; simpl.
Ltac app_norm_in H :=
  simpl in H;
  repeat first [rewrite <- app_assoc in H | rewrite <- app_comm_cons in H | rewrite app_nil_r in H];
  simpl in H.

Lemma left_set_parent_if p v h y : left (set_parent_if p v h y) = left (h y).
Proof. destruct p; simpl; by autorewrite with heap. Qed.
Lemma right_set_parent_if p v h y : right (set_parent_if p v h y) = right (h y).
Proof. destruct p; simpl; by autorewrite with heap. Qed.
Lemma is_red_set_parent_if p v h y : is_red (set_parent_if p v h) y = is_red h y.
Proof. destruct p; simpl; by autorewrite with heap. Qed.
Lemma parent_set_parent_if p v h y :
  parent (set_parent_if p v h) y = if decide (p = Some y) then v else parent h y.
Proof.
  destruct p; simpl; autorewrite with heap; repeat case_decide; simplify_eq; done.
Qed.
Lemma set_root_eq t n h :
  set_root t n h = set_parent (Head t) n (set_parent_if n (Some (Head t)) h).
Proof. reflexivity. Qed.

#[export] Hint Rewrite left_set_parent_if right_set_parent_if is_red_set_parent_if
  parent_set_parent_if set_root_eq : heap.
#[global] Opaque set_parent_if set_root.

Lemma same_node_refl h x : same_node h h x.
Proof. by unfold same_node. Qed.

Lemma same_node_trans h1 h2 h3 x :
  same_node h1 h2 x → same_node h2 h3 x → same_node h1 h3 x.
Proof. unfold same_node. intros (?&?&?&?) (?&?&?&?). split_and!; congruence. Qed.

Lemma same_node_links h h' x : same_node h h' x → same_links h h' x.
Proof. unfold same_node, same_links. tauto. Qed.

Lemma frame_refl t dom h : frame t dom h h.
Proof. unfold frame. auto using same_node_refl. Qed.

Lemma frame_trans t dom h1 h2 h3 :
  frame t dom h1 h2 → frame t dom h2 h3 → frame t dom h1 h3.
Proof.
  intros (H1 & H2 & H3) (H1' & H2' & H3').
  split_and!; [| |congruence]; eauto using same_node_trans.
Qed.

Lemma frame_mono t dom dom' h h' :
  dom ⊆ dom' → frame t dom h h' → frame t dom' h h'.
Proof. intros Hd (H1 & H2 & H3). split_and!; [done| |done]. intros q Hq. apply H2. set_solver. Qed.

(** Use an equation between two pointers. *)
Ltac eq_subst e :=
  lazymatch type of e with
  | ?a = ?a => clear e
  | _ => first [ discriminate e
               | injection e as e; first [discriminate e | subst | idtac]
               | subst
               | idtac ]
  end.

Ltac decide_goal :=
  repeat match goal with
  | |- context [@decide ?P ?inst] =>
      let e := fresh "e" in
      destruct (@decide P inst) as [e|?]; [eq_subst e; try elem_absurd|]
  end.

(** Settle the tests whose outcome the hypotheses fix. *)
Ltac decide_simpl_in H :=
  repeat match type of H with
  | context [@decide ?P ?inst] =>
      let e := fresh "e" in
      destruct (@decide P inst) as [e|e] in H;
      [ try (exfalso; first [done | congruence | elem_absurd])
      | try (exfalso; first [done | congruence]) ];
      [idtac]; clear e
  end.

Ltac decide_simpl :=
  repeat match goal with
  | |- context [@decide ?P ?inst] =>
      let e := fresh "e" in
      destruct (@decide P inst) as [e|e];
      [ try (exfalso; first [done | congruence | elem_absurd])
      | try (exfalso; first [done | congruence]) ];
      [idtac]; clear e
  end.

Ltac heap_solve :=
  intros; autorewrite with heap; decide_goal; first [done | congruence | elem_absurd].

Ltac heap_try :=
  intros; autorewrite with heap; decide_goal; try first [done | congruence | elem_absurd].

Ltac links_solve :=
  let q := fresh "q" in let Hq := fresh "Hq" in
  intros q Hq; intros; unfold same_links, same_node; split_and!; heap_solve.

(** * [replace_child] *)

Lemma replace_child_cases h t c x v :
  ctx_ok h t c (Some (Rec x)) →
  parent h (Rec x) = Some (ctx_par t c) →
  x ∉ ctx_nodes c →
  replace_child t (Rec x) v h =
  match c with
  | Top => Ok (set_root t v h)
  | CL _ a _ => Ok (set_left (Rec a) v h)
  | CR _ a _ => Ok (set_right (Rec a) v h)
  end.
Proof.
  unfold replace_child, ctx_nodes. intros Hc -> Hx.
  destruct c as [|c a r|l a c]; simpl in *.
  - by rewrite decide_True.
  - destruct Hc as (Hl & _). by rewrite Hl, decide_True.
  - destruct Hc as (_ & Hl & _).
    rewrite Hl, decide_False; [done|]. intros ?. elem_absurd.
Qed.

Lemma ctx_ok_replace h h' t c p p' :
  ctx_ok h t c p →
  NoDup (ctx_nodes c) →
  (∀ q, q ∈ ctx_nodes c → Rec q ≠ ctx_par t c → same_links h h' (Rec q)) →
  hole_set h h' t c p' →
  ctx_ok h' t c p'.
Proof.
  unfold ctx_nodes. intros Hc Hnd Hs Hh.
  destruct c as [|c a r|l a c]; simpl in *; [done|..].
  - destruct Hc as (Hl & Hr & Hp & Hsr & Hc). destruct Hh as (-> & -> & -> & Hroot).
    elem_norm. split_and!; [done..| |].
    + eapply sub_frame; [|done]. intros q Hq. apply Hs; [set_solver|]. intros ?. elem_absurd.
    + eapply ctx_ok_frame; [|done..]. unfold ctx_nodes.
      intros q Hq. apply Hs; [set_solver|]. intros ?. elem_absurd.
  - destruct Hc as (Hl & Hr & Hp & Hsr & Hc). destruct Hh as (-> & -> & -> & Hroot).
    elem_norm. split_and!; [done..| |].
    + eapply sub_frame; [|done]. intros q Hq. apply Hs; [set_solver|]. intros ?. elem_absurd.
    + eapply ctx_ok_frame; [|done..]. unfold ctx_nodes.
      intros q Hq. apply Hs; [set_solver|]. intros ?. elem_absurd.
Qed.

Lemma ctx_par_cases t c :
  (c = Top ∧ ctx_par t c = Head t) ∨ (∃ a, a ∈ ctx_nodes c ∧ ctx_par t c = Rec a).
Proof.
  unfold ctx_nodes. destruct c as [|c a r|l a c]; simpl; [by left| right; exists a; split; [set_solver|done] ..].
Qed.

(** * Rotations *)

Lemma within_refl t dom h : within t dom h h.
Proof. unfold within. auto using frame_refl. Qed.

Lemma within_trans t dom h1 h2 h3 :
  within t dom h1 h2 → within t dom h2 h3 → within t dom h1 h3.
Proof.
  intros (Hf & Hl & Hr) (Hf' & Hl' & Hr').
  split_and!; [by eapply frame_trans|congruence..].
Qed.

Lemma within_mono t dom dom' h h' : dom ⊆ dom' → within t dom h h' → within t dom' h h'.
Proof. intros ? (? & ? & ?). split_and!; [by eapply frame_mono|done..]. Qed.

Lemma keeps_within t s h h' :
  keeps t s h h' ↔ (∃ s', linked h' t s' ∧ inorder s' = inorder s) ∧ within t (inorder s) h h'.
Proof. unfold keeps, within. tauto. Qed.

Lemma rotate_left_plug h t c a x b y d h' :
  linked h t (plug c (T a x (T b y d))) →
  rotate_left t (Rec x) h = Ok h' →
  linked h' t (plug c (T (T a x b) y d)) ∧
  within t (inorder (plug c (T a x (T b y d)))) h h' ∧
  (∀ q, is_red h' q = is_red h q) ∧
  rotated h h' x y (root_ptr b).
Proof.
  intros Hl Hrot.
  apply linked_plug in Hl as (Hc & Hsub & Hnd).
  destruct Hsub as (Hpx & Hlx & Hrx & Hsa & HsR).
  unfold rotate_left in Hrot. rewrite Hrx in Hrot. simpl in Hrot.
  destruct HsR as (Hpy & Hly & Hry & Hsb & Hsd).
  simpl in Hnd. unfold ctx_nodes in *.
  autorewrite with heap in Hrot. rewrite Hly, Hpx in Hrot.
  decide_simpl_in Hrot.
  elem_norm.
  erewrite (replace_child_cases _ t c x) in Hrot; cycle 1.
  { eapply ctx_ok_frame; [|heap_solve|done]. links_solve. }
  { heap_solve. }
  { intros ?. elem_absurd. }
  assert (Hnc : NoDup (ctx_nodes c)) by nodup_solve.
  assert (Hnb : NoDup (inorder b)) by nodup_solve.
  unfold rotated, within.
  destruct c as [|c a0 r0|l0 a0 c]; simpl in * |-; elem_norm; simplify_eq.
  all: split_and!;
    [ apply linked_plug; split_and!;
      [ eapply ctx_ok_replace; [exact Hc|exact Hnc|links_solve|simpl; split_and?; heap_solve]
      | simpl; split_and!;
        [ heap_solve | heap_solve | heap_solve | heap_solve | heap_solve | heap_solve
        | eapply sub_frame; [|exact Hsa]; links_solve
        | eapply (sub_reparent h); [exact Hnb| | |exact Hsb];
          [intros q Hq; split_and!; heap_solve | heap_solve]
        | eapply sub_frame; [|exact Hsd]; links_solve ]
      | nodup_solve ]
    | unfold frame; split_and!; [intros u Hu | intros q Hq; rewrite inorder_plug in Hq |];
      unfold same_node; split_and?; heap_solve
    | heap_solve | heap_solve | heap_solve | heap_solve ].
Qed.

Lemma rotate_right_plug h t c a x b y d h' :
  linked h t (plug c (T (T d y b) x a)) →
  rotate_right t (Rec x) h = Ok h' →
  linked h' t (plug c (T d y (T b x a))) ∧
  within t (inorder (plug c (T (T d y b) x a))) h h' ∧
  (∀ q, is_red h' q = is_red h q) ∧
  rotated h h' x y (root_ptr b).
Proof.
  intros Hl Hrot.
  apply linked_plug in Hl as (Hc & Hsub & Hnd).
  destruct Hsub as (Hpx & Hrx & Hlx & HsR & Hsa).
  unfold rotate_right in Hrot. rewrite Hrx in Hrot. simpl in Hrot.
  destruct HsR as (Hpy & Hry & Hly & Hsd & Hsb).
  simpl in Hnd. unfold ctx_nodes in *.
  autorewrite with heap in Hrot. rewrite Hly, Hpx in Hrot.
  decide_simpl_in Hrot.
  elem_norm.
  erewrite (replace_child_cases _ t c x) in Hrot; cycle 1.
  { eapply ctx_ok_frame; [|heap_solve|done]. links_solve. }
  { heap_solve. }
  { intros ?. elem_absurd. }
  assert (Hnc : NoDup (ctx_nodes c)) by nodup_solve.
  assert (Hnb : NoDup (inorder b)) by nodup_solve.
  unfold rotated, within.
  destruct c as [|c a0 r0|l0 a0 c]; simpl in * |-; elem_norm; simplify_eq.
  all: split_and!;
    [ apply linked_plug; split_and!;
      [ eapply ctx_ok_replace; [exact Hc|exact Hnc|links_solve|simpl; split_and?; heap_solve]
      | simpl; split_and!;
        [ heap_solve | heap_solve | heap_solve
        | eapply sub_frame; [|exact Hsd]; links_solve
        | heap_solve | heap_solve | heap_solve
        | eapply (sub_reparent h); [exact Hnb| | |exact Hsb];
          [intros q Hq; split_and!; heap_solve | heap_solve]
        | eapply sub_frame; [|exact Hsa]; links_solve ]
      | nodup_solve ]
    | unfold frame; split_and!; [intros u Hu | intros q Hq; rewrite inorder_plug in Hq |];
      unfold same_node; split_and?; heap_solve
    | heap_solve | heap_solve | heap_solve | heap_solve ].
Qed.

Lemma rotate_left_linked h t s x h' :
  linked h t s → x ∈ inorder s →
  rotate_left t (Rec x) h = Ok h' →
  ∃ y, right (h (Rec x)) = Some (Rec y) ∧ y ∈ inorder s ∧
       rotated h h' x y (left (h (Rec y))) ∧
       keeps t s h h' ∧ ∀ q, is_red h' q = is_red h q.
Proof.
  intros Hl Hx Hrot.
  destruct (elem_of_inorder_plug _ _ Hx) as (c & a & R & ->).
  pose proof Hl as (_ & (_ & _ & Hrx & _ & HsR) & _)%linked_plug.
  destruct R as [|b y d].
  { unfold rotate_left in Hrot. by rewrite Hrx in Hrot. }
  destruct HsR as (_ & Hly & _).
  destruct (rotate_left_plug _ _ _ _ _ _ _ _ _ Hl Hrot) as (Hl' & Hw & Hcol & Hr).
  exists y. rewrite Hly. split_and!; [done|rewrite inorder_plug; set_solver|done| |done].
  apply keeps_within. split; [|done].
  eexists. split; [done|]. rewrite !inorder_plug. by app_norm.
Qed.

Lemma rotate_right_linked h t s x h' :
  linked h t s → x ∈ inorder s →
  rotate_right t (Rec x) h = Ok h' →
  ∃ y, left (h (Rec x)) = Some (Rec y) ∧ y ∈ inorder s ∧
       rotated h h' x y (right (h (Rec y))) ∧
       keeps t s h h' ∧ ∀ q, is_red h' q = is_red h q.
Proof.
  intros Hl Hx Hrot.
  destruct (elem_of_inorder_plug _ _ Hx) as (c & R & a & ->).
  pose proof Hl as (_ & (_ & Hrx & _ & HsR & _) & _)%linked_plug.
  destruct R as [|d y b].
  { unfold rotate_right in Hrot. by rewrite Hrx in Hrot. }
  destruct HsR as (_ & _ & Hly & _).
  destruct (rotate_right_plug _ _ _ _ _ _ _ _ _ Hl Hrot) as (Hl' & Hw & Hcol & Hr).
  exists y. rewrite Hly. split_and!; [done|rewrite inorder_plug; set_solver|done| |done].
  apply keeps_within. split; [|done].
  eexists. split; [done|]. rewrite !inorder_plug. by app_norm.
Qed.

#[global] Arguments rotate_left : simpl never.
#[global] Arguments rotate_right : simpl never.
#[global] Arguments replace_child : simpl never.
#[global] Arguments transplant : simpl never.

(** * Walking in a linked tree *)

Lemma linked_parent h t s x :
  linked h t s → x ∈ inorder s →
  (parent h (Rec x) = Some (Head t) ∧ root t h = Some (Rec x)) ∨
  (∃ p, p ∈ inorder s ∧ p ≠ x ∧ parent h (Rec x) = Some (Rec p) ∧
        ((left (h (Rec p)) = Some (Rec x) ∧ right (h (Rec p)) ≠ Some (Rec x)) ∨
         (right (h (Rec p)) = Some (Rec x) ∧ left (h (Rec p)) ≠ Some (Rec x)))).
Proof.
  intros Hl Hx.
  destruct (elem_of_inorder_plug _ _ Hx) as (c & l & r & ->).
  apply linked_plug in Hl as (Hc & (Hpx & _) & Hnd). rewrite Hpx.
  destruct c as [|c a r0|l0 a c]; simpl in *.
  - by left.
  - right. exists a. destruct Hc as (Hla & Hra & _). rewrite Hla, Hra.
    split_and!; [rewrite inorder_plug; set_solver| |done|].
    + intros ->. elem_absurd.
    + left. split; [done|]. intros ?. elem_absurd.
  - right. exists a. destruct Hc as (Hra & Hla & _). rewrite Hla, Hra.
    split_and!; [rewrite inorder_plug; set_solver| |done|].
    + intros ->. elem_absurd.
    + right. split; [done|]. intros ?. elem_absurd.
Qed.

Lemma linked_children h t s p :
  linked h t s → p ∈ inorder s →
  ∃ l r, left (h (Rec p)) = root_ptr l ∧ right (h (Rec p)) = root_ptr r ∧
         inorder l ⊆ inorder s ∧ inorder r ⊆ inorder s ∧
         p ∉ inorder l ∧ p ∉ inorder r ∧ disj (inorder l) (inorder r) ∧
         sub h (Rec p) l ∧ sub h (Rec p) r.
Proof.
  intros Hl Hp.
  destruct (elem_of_inorder_plug _ _ Hp) as (c & l & r & ->).
  apply linked_plug in Hl as (Hc & (Hpx & Hll & Hrr & Hsl & Hsr) & Hnd).
  exists l, r. rewrite inorder_plug. simpl in *. elem_norm.
  split_and!; try done; set_solver.
Qed.

Lemma linked_left h t s p c :
  linked h t s → p ∈ inorder s → left (h (Rec p)) = Some c →
  ∃ c', c = Rec c' ∧ c' ∈ inorder s ∧ c' ≠ p ∧ parent h (Rec c') = Some (Rec p) ∧
        right (h (Rec p)) ≠ Some (Rec c').
Proof.
  intros Hl Hp Hc.
  destruct (linked_children _ _ _ _ Hl Hp) as (l & r & Hll & Hrr & Hil & Hir & Hpl & Hpr & Hd & Hsl & Hsr).
  rewrite Hll in Hc. apply root_ptr_Some in Hc as (l1 & c' & l2 & -> & ->).
  exists c'. simpl in *. destruct Hsl as (? & _). rewrite Hrr.
  split_and!; [done|set_solver| |done|].
  - intros ->. elem_absurd.
  - intros ?. elem_absurd.
Qed.

Lemma linked_right h t s p c :
  linked h t s → p ∈ inorder s → right (h (Rec p)) = Some c →
  ∃ c', c = Rec c' ∧ c' ∈ inorder s ∧ c' ≠ p ∧ parent h (Rec c') = Some (Rec p) ∧
        left (h (Rec p)) ≠ Some (Rec c').
Proof.
  intros Hl Hp Hc.
  destruct (linked_children _ _ _ _ Hl Hp) as (l & r & Hll & Hrr & Hil & Hir & Hpl & Hpr & Hd & Hsl & Hsr).
  rewrite Hrr in Hc. apply root_ptr_Some in Hc as (l1 & c' & l2 & -> & ->).
  exists c'. simpl in *. destruct Hsr as (? & _). rewrite Hll.
  split_and!; [done|set_solver| |done|].
  - intros ->. elem_absurd.
  - intros ?. elem_absurd.
Qed.

Lemma linked_root h t s r :
  linked h t s → root t h = Some r →
  ∃ r', r = Rec r' ∧ r' ∈ inorder s ∧ parent h (Rec r') = Some (Head t).
Proof.
  intros (Hr & Hs & _) Hroot. rewrite Hr in Hroot.
  apply root_ptr_Some in Hroot as (l1 & r' & l2 & -> & ->).
  exists r'. simpl in *. destruct Hs as (? & _). split_and!; [done|set_solver|done].
Qed.

(** * Calls that keep the tree *)

Lemma keeps_refl t s h : linked h t s → keeps t s h h.
Proof. intros. unfold keeps. split_and!; eauto using frame_refl. Qed.

Lemma keeps_trans t s s1 h h1 h2 :
  keeps t s h h1 → inorder s1 = inorder s → keeps t s1 h1 h2 → keeps t s h h2.
Proof.
  intros (_ & Hf & Hl & Hr) Hi ((s2 & Hl2 & Hi2) & Hf2 & Hl' & Hr').
  rewrite Hi in *. split_and!; [eauto| |congruence..].
  eapply frame_trans; eauto.
Qed.

Lemma set_color_keeps t s h x v :
  linked h t s → x ∈ inorder s → keeps t s h (set_color (Rec x) v h).
Proof.
  intros (Hr & Hs & Hnd) Hx. unfold keeps. split_and!.
  - exists s. split; [|done]. split_and!; [by autorewrite with heap in *| |done].
    eapply sub_frame; [|done]. intros q Hq. unfold same_links. by autorewrite with heap.
  - unfold frame, same_node. split_and!; intros; autorewrite with heap; try done.
    all: by rewrite decide_False by congruence.
  - by autorewrite with heap.
  - by autorewrite with heap.
Qed.

(** * [insert_fixup] *)

Tactic Notation "inv_bind" hyp(H) "as" simple_intropattern(v) ident(Hv) :=
  apply bind_Ok in H as (v & Hv & H); cbn beta iota in H.

Tactic Notation "inv_deref" hyp(H) "as" ident(v) ident(Hv) :=
  apply bind_Ok in H as (v & Hv & H); apply deref_Ok in Hv; cbn beta iota in H.

Lemma red_ptr_Some h y : red_ptr h y = true → ∃ y', y = Some y'.
Proof. destruct y; simpl; [eauto|done]. Qed.

Lemma keeps_linked t s h h' :
  keeps t s h h' → ∃ s', linked h' t s' ∧ inorder s' = inorder s.
Proof. by intros (? & _). Qed.

(** Two recolourings and a rotation about the grandparent: the end of
    the second case of [insert_fixup]. *)
Lemma insert_fixup_tail h t s z p g (rot : nat → loc → heap → res heap) z' h' :
  (∀ h s x h', linked h t s → x ∈ inorder s → rot t (Rec x) h = Ok h' →
               keeps t s h h') →
  linked h t s → z ∈ inorder s → p ∈ inorder s → g ∈ inorder s →
  parent h (Rec z) = Some (Rec p) → parent h (Rec p) = Some (Rec g) →
  (let* zp := deref (parent h (Rec z)) in
   let h := set_black zp h in
   let* zp := deref (parent h (Rec z)) in
   let* zpp := deref (parent h zp) in
   let h := set_red zpp h in
   let* zp := deref (parent h (Rec z)) in
   let* zpp := deref (parent h zp) in
   let* h := rot t zpp h in
   Ok (Rec z, h)) = Ok (z', h') →
  keeps t s h h' ∧ z' = Rec z.
Proof.
  intros Hrot Hl Hz Hp Hg Hzp Hpg Hb. unfold set_black, set_red in Hb.
  rewrite Hzp in Hb. simpl in Hb. autorewrite with heap in Hb.
  rewrite Hzp in Hb. simpl in Hb. autorewrite with heap in Hb.
  rewrite Hpg in Hb. simpl in Hb. autorewrite with heap in Hb.
  rewrite Hzp in Hb. simpl in Hb. autorewrite with heap in Hb.
  rewrite Hpg in Hb. simpl in Hb.
  inv_bind Hb as h3 Hv. simplify_eq. split; [|done].
  pose proof (set_color_keeps t s h p false Hl Hp) as Hk1.
  destruct (keeps_linked _ _ _ _ Hk1) as (s1 & Hl1 & Hi1).
  assert (Hg1 : g ∈ inorder s1) by by rewrite Hi1.
  pose proof (set_color_keeps t s1 _ g true Hl1 Hg1) as Hk2.
  destruct (keeps_linked _ _ _ _ Hk2) as (s2 & Hl2 & Hi2).
  assert (Hg2 : g ∈ inorder s2) by by rewrite Hi2.
  pose proof (Hrot _ _ _ _ Hl2 Hg2 Hv) as Hk3.
  eapply keeps_trans; [exact Hk1|exact Hi1|].
  eapply keeps_trans; [exact Hk2|exact Hi2|exact Hk3].
Qed.

Lemma insert_fixup_body_keeps h t s z z' h' :
  linked h t s → z ∈ inorder s →
  parent h (Rec z) ≠ Some (Head t) →
  (∀ p, parent h (Rec z) = Some p → parent h p ≠ Some (Head t)) →
  insert_fixup_body t (Rec z) h = Ok (z', h') →
  keeps t s h h' ∧ ∃ z1, z' = Rec z1 ∧ z1 ∈ inorder s.
Proof.
  intros Hl Hz Hnr Hnr' Hb. unfold insert_fixup_body in Hb.
  destruct (linked_parent _ _ _ _ Hl Hz) as [[? _]|(p & Hp & Hpz & Hzp & Hside)]; [done|].
  specialize (Hnr' _ Hzp).
  destruct (linked_parent _ _ _ _ Hl Hp) as [[? _]|(g & Hg & Hgp & Hpg & Hsideg)]; [done|].
  rewrite Hzp in Hb. simpl in Hb. rewrite Hpg in Hb. simpl in Hb.
  destruct (decide (Some (Rec p) = left (h (Rec g)))) as [Hlg|Hlg].
  - destruct (red_ptr h (right (h (Rec g)))) eqn:Hred.
    + inv_deref Hb as y' Hv. simplify_eq.
      destruct (linked_right _ _ _ _ _ Hl Hg Hv) as (u & -> & Hu & _).
      split; [|eauto]. unfold set_black, set_red.
      pose proof (set_color_keeps t s h p false Hl Hp) as Hk1.
      destruct (keeps_linked _ _ _ _ Hk1) as (s1 & Hl1 & Hi1).
      assert (Hu1 : u ∈ inorder s1) by by rewrite Hi1.
      pose proof (set_color_keeps t s1 _ u false Hl1 Hu1) as Hk2.
      destruct (keeps_linked _ _ _ _ Hk2) as (s2 & Hl2 & Hi2).
      assert (Hg2 : g ∈ inorder s2) by (by rewrite Hi2, Hi1).
      pose proof (set_color_keeps t s2 _ g true Hl2 Hg2) as Hk3.
      eapply keeps_trans; [exact Hk1|exact Hi1|].
      eapply keeps_trans; [exact Hk2|exact Hi2|exact Hk3].
    + inv_bind Hb as [z1 h1] Hv.
      destruct (decide (Some (Rec z) = right (h (Rec p)))) as [Hrz|Hrz].
      * inv_bind Hv as h0 Hv0. simplify_eq.
        destruct (rotate_left_linked _ _ _ _ _ Hl Hp Hv0) as (y & Hy & _ & Hrot & Hk1 & _).
        rewrite <- Hrz in Hy. simplify_eq.
        destruct (keeps_linked _ _ _ _ Hk1) as (s1 & Hl1 & Hi1).
        eapply (insert_fixup_tail _ _ s1 p y g) in Hb as (Hk2 & ->).
        -- split; [|eauto]. eapply keeps_trans; eauto.
        -- intros ????? Hx Hr. by destruct (rotate_right_linked _ _ _ _ _ H Hx Hr) as (?&?&?&?&?&?).
        -- done.
        -- by rewrite Hi1.
        -- by rewrite Hi1.
        -- by rewrite Hi1.
        -- rewrite (Hrot p). by rewrite decide_True.
        -- rewrite (Hrot y). rewrite decide_False by done. by rewrite decide_True.
      * simplify_eq.
        eapply (insert_fixup_tail _ _ s z p g) in Hb as (Hk2 & ->); eauto.
        intros ????? Hx Hr. by destruct (rotate_right_linked _ _ _ _ _ H Hx Hr) as (?&?&?&?&?&?).
  - destruct (red_ptr h (left (h (Rec g)))) eqn:Hred.
    + inv_deref Hb as y' Hv. simplify_eq.
      destruct (linked_left _ _ _ _ _ Hl Hg Hv) as (u & -> & Hu & _).
      split; [|eauto]. unfold set_black, set_red.
      pose proof (set_color_keeps t s h p false Hl Hp) as Hk1.
      destruct (keeps_linked _ _ _ _ Hk1) as (s1 & Hl1 & Hi1).
      assert (Hu1 : u ∈ inorder s1) by by rewrite Hi1.
      pose proof (set_color_keeps t s1 _ u false Hl1 Hu1) as Hk2.
      destruct (keeps_linked _ _ _ _ Hk2) as (s2 & Hl2 & Hi2).
      assert (Hg2 : g ∈ inorder s2) by (by rewrite Hi2, Hi1).
      pose proof (set_color_keeps t s2 _ g true Hl2 Hg2) as Hk3.
      eapply keeps_trans; [exact Hk1|exact Hi1|].
      eapply keeps_trans; [exact Hk2|exact Hi2|exact Hk3].
    + inv_bind Hb as [z1 h1] Hv.
      destruct (decide (Some (Rec z) = left (h (Rec p)))) as [Hrz|Hrz].
      * inv_bind Hv as h0 Hv0. simplify_eq.
        destruct (rotate_right_linked _ _ _ _ _ Hl Hp Hv0) as (y & Hy & _ & Hrot & Hk1 & _).
        rewrite <- Hrz in Hy. simplify_eq.
        destruct (keeps_linked _ _ _ _ Hk1) as (s1 & Hl1 & Hi1).
        eapply (insert_fixup_tail _ _ s1 p y g) in Hb as (Hk2 & ->).
        -- split; [|eauto]. eapply keeps_trans; eauto.
        -- intros ????? Hx Hr. by destruct (rotate_left_linked _ _ _ _ _ H Hx Hr) as (?&?&?&?&?&?).
        -- done.
        -- by rewrite Hi1.
        -- by rewrite Hi1.
        -- by rewrite Hi1.
        -- rewrite (Hrot p). by rewrite decide_True.
        -- rewrite (Hrot y). rewrite decide_False by done. by rewrite decide_True.
      * simplify_eq.
        eapply (insert_fixup_tail _ _ s z p g) in Hb as (Hk2 & ->); eauto.
        intros ????? Hx Hr. by destruct (rotate_left_linked _ _ _ _ _ H Hx Hr) as (?&?&?&?&?&?).
Qed.

Lemma insert_fixup_loop_keeps fuel h t s z h' :
  linked h t s → z ∈ inorder s →
  insert_fixup_loop fuel t (Rec z) h = Ok h' → keeps t s h h'.
Proof.
  revert h s z. induction fuel as [|fuel IH]; intros h s z Hl Hz Hb; [done|].
  simpl in Hb. inv_bind Hb as c Hv. destruct c; [|simplify_eq; by apply keeps_refl].
  inv_bind Hb as [z1 h1] Hv0.
  unfold insert_fixup_cond in Hv.
  destruct (decide (parent h (Rec z) = Some (Head t))) as [|Hnr]; [done|].
  inv_deref Hv as v Hv1. destruct (negb (is_red h v)); [done|]. injection Hv as Hc.
  apply negb_true_iff, bool_decide_eq_false in Hc.
  eapply insert_fixup_body_keeps in Hv0 as (Hk & z2 & -> & Hz2); [|done..|].
  - destruct (keeps_linked _ _ _ _ Hk) as (s1 & Hl1 & Hi1).
    eapply keeps_trans; [exact Hk|exact Hi1|].
    eapply IH; [done| |done]. by rewrite Hi1.
  - intros p Hp. rewrite Hv1 in Hp. by simplify_eq.
Qed.

Lemma insert_fixup_keeps fuel h t s z h' :
  linked h t s → z ∈ inorder s →
  insert_fixup fuel t (Rec z) h = Ok h' → keeps t s h h'.
Proof.
  intros Hl Hz Hb. unfold insert_fixup in Hb.
  inv_bind Hb as h1 Hv. inv_deref Hb as r Hv1. simplify_eq.
  pose proof (insert_fixup_loop_keeps _ _ _ _ _ _ Hl Hz Hv) as Hk.
  destruct (keeps_linked _ _ _ _ Hk) as (s1 & Hl1 & Hi1).
  destruct (linked_root _ _ _ _ Hl1 Hv1) as (r0 & -> & Hr & _).
  eapply keeps_trans; [exact Hk|exact Hi1|]. by apply set_color_keeps.
Qed.

(** * [erase_fixup] *)

Lemma set_color_linked h t s x v : linked h t s → linked (set_color x v h) t s.
Proof.
  intros (Hr & Hs & Hnd). split_and!; [by autorewrite with heap in *| |done].
  eapply sub_frame; [|done]. intros q Hq. unfold same_links. by autorewrite with heap.
Qed.

Lemma set_color_within t dom h x v : x ∈ dom → within t dom h (set_color (Rec x) v h).
Proof.
  intros Hx. unfold within, frame, same_node.
  split_and!; intros; autorewrite with heap; try done.
  all: rewrite decide_False; [done|congruence].
Qed.

Lemma plug_elem c l x r : x ∈ inorder (plug c (T l x r)).
Proof. rewrite inorder_plug. set_solver. Qed.

Ltac inorder_eq :=
  repeat match goal with d := inorder _ |- _ => subst d end;
  rewrite ?inorder_plug; by app_norm.

Ltac elem_dom :=
  repeat match goal with d := inorder _ |- _ => subst d end;
  rewrite ?inorder_plug; simpl; set_solver.

(** The last case of [erase_fixup], on the left: three recolourings and
    a rotation about the parent. *)
Lemma erase_fixup_left_end h t dom c xl x xr p wl w wr x' h' :
  linked h t (plug c (T (T xl x xr) p (T wl w wr))) →
  inorder (plug c (T (T xl x xr) p (T wl w wr))) = dom →
  (let* xp := deref (parent h (Rec x)) in
   let h := set_color (Rec w) (is_red h xp) h in
   let* xp := deref (parent h (Rec x)) in
   let h := set_black xp h in
   let h := match right (h (Rec w)) with
            | Some wr => set_black wr h
            | None => h
            end in
   let* xp := deref (parent h (Rec x)) in
   let* h := rotate_left t xp h in
   let* r := deref (root t h) in
   Ok (r, h)) = Ok (x', h') →
  (∃ s', linked h' t s' ∧ inorder s' = dom) ∧ within t dom h h' ∧
  (∃ x1, x' = Rec x1 ∧ x1 ∈ dom) ∧ root t h' = Some x'.
Proof.
  intros Hl <- Hb.
  set (dom := inorder (plug c (T (T xl x xr) p (T wl w wr)))).
  pose proof Hl as (Hc & (Hpp & Hlp & Hrp & (Hpx & _) & (Hpw & Hlw & Hrw & _)) & Hnd)%linked_plug.
  unfold set_black in Hb. rewrite Hpx in Hb. simpl in Hb.
  autorewrite with heap in Hb. rewrite Hpx in Hb. simpl in Hb.
  autorewrite with heap in Hb. rewrite Hrw in Hb.
  set (h1 := set_color (Rec p) false (set_color (Rec w) (is_red h (Rec p)) h)) in *.
  assert (Hl1 : linked h1 t (plug c (T (T xl x xr) p (T wl w wr))))
    by (subst h1; by do 2 apply set_color_linked).
  assert (Hw1 : within t dom h h1).
  { subst h1. eapply within_trans; apply set_color_within; elem_dom. }
  assert (∃ h2, linked h2 t (plug c (T (T xl x xr) p (T wl w wr))) ∧ within t dom h h2 ∧
     (let* xp := deref (parent h2 (Rec x)) in
      let* h := rotate_left t xp h2 in
      let* r := deref (root t h) in Ok (r, h)) = Ok (x', h')) as (h2 & Hl2 & Hw2 & Hb2).
  { destruct wr as [|wrl wr0 wrr]; simpl in Hb.
    - by exists h1.
    - exists (set_color (Rec wr0) false h1). split_and!; [by apply set_color_linked| |done].
      eapply within_trans; [done|]. apply set_color_within. elem_dom. }
  clear Hb.
  pose proof Hl2 as (_ & (_ & _ & _ & (Hpx2 & _) & _) & _)%linked_plug.
  rewrite Hpx2 in Hb2. simpl in Hb2.
  inv_bind Hb2 as h3 Hrot. inv_deref Hb2 as r Hr. simplify_eq.
  destruct (rotate_left_plug _ _ _ _ _ _ _ _ _ Hl2 Hrot) as (Hl3 & Hw3 & _).
  destruct (linked_root _ _ _ _ Hl3 Hr) as (r' & -> & Hr' & _).
  split_and!.
  - eexists. split; [done|]. inorder_eq.
  - by eapply within_trans.
  - exists r'. split; [done|]. revert Hr'. inorder_eq.
  - done.
Qed.

(** The cases of [erase_fixup] with a black sibling, on the left. *)
Lemma erase_fixup_left_main h t dom c xl x xr p wl w wr x' h' :
  linked h t (plug c (T (T xl x xr) p (T wl w wr))) →
  inorder (plug c (T (T xl x xr) p (T wl w wr))) = dom →
  (if black_ptr h (left (h (Rec w))) && black_ptr h (right (h (Rec w))) then
     let h := set_red (Rec w) h in
     let* xp := deref (parent h (Rec x)) in
     Ok (xp, h)
   else
     let* (w, h) := (if black_ptr h (right (h (Rec w))) then
                       let* wl := deref (left (h (Rec w))) in
                       let h := set_black wl h in
                       let h := set_red (Rec w) h in
                       let* h := rotate_right t (Rec w) h in
                       let* xp := deref (parent h (Rec x)) in
                       let* w := deref (right (h xp)) in
                       Ok (w, h)
                     else Ok (Rec w, h)) in
     let* xp := deref (parent h (Rec x)) in
     let h := set_color w (is_red h xp) h in
     let* xp := deref (parent h (Rec x)) in
     let h := set_black xp h in
     let h := match right (h w) with
              | Some wr => set_black wr h
              | None => h
              end in
     let* xp := deref (parent h (Rec x)) in
     let* h := rotate_left t xp h in
     let* r := deref (root t h) in
     Ok (r, h)) = Ok (x', h') →
  (∃ s', linked h' t s' ∧ inorder s' = dom) ∧ within t dom h h' ∧
  (∃ x1, x' = Rec x1 ∧ x1 ∈ dom) ∧
  (root t h' = Some x' ∨ (x' = Rec p ∧ h' = set_color (Rec w) true h)).
Proof.
  intros Hl <- Hb.
  set (dom := inorder (plug c (T (T xl x xr) p (T wl w wr)))).
  pose proof Hl as (Hc & (Hpp & Hlp & Hrp & (Hpx & _) & (Hpw & Hlw & Hrw & Hswl & _)) & Hnd)%linked_plug.
  destruct (black_ptr h (left (h (Rec w))) && black_ptr h (right (h (Rec w)))).
  { unfold set_red in Hb. simpl in Hb. autorewrite with heap in Hb. rewrite Hpx in Hb.
    simpl in Hb. simplify_eq. split_and!.
    - exists (plug c (T (T xl x xr) p (T wl w wr))). split; [|done]. by apply set_color_linked.
    - apply set_color_within. elem_dom.
    - exists p. split; [done|]. elem_dom.
    - by right. }
  inv_bind Hb as [w2 h2] Hpre.
  destruct (black_ptr h (right (h (Rec w)))).
  - inv_deref Hpre as wl0 Hwl. rewrite Hlw in Hwl.
    destruct wl as [|a wl1 b]; [done|]. simpl in Hwl. simplify_eq.
    inv_bind Hpre as h1 Hrot.
    unfold set_red, set_black in Hrot.
    assert (Hl0 : linked (set_color (Rec w) true (set_color (Rec wl1) false h)) t
                    (plug (CR (T xl x xr) p c) (T (T a wl1 b) w wr)))
      by (by do 2 apply set_color_linked).
    destruct (rotate_right_plug _ _ _ _ _ _ _ _ _ Hl0 Hrot) as (Hl1 & Hw1 & _).
    simpl in Hl1, Hw1.
    pose proof Hl1 as (_ & (_ & _ & Hrp1 & (Hpx1 & _) & _) & _)%linked_plug.
    rewrite Hpx1 in Hpre. simpl in Hpre. rewrite Hrp1 in Hpre. simpl in Hpre. simplify_eq.
    assert (Hi1 : inorder (plug c (T (T xl x xr) p (T a wl1 (T b w wr)))) =
                  inorder (plug c (T (T xl x xr) p (T (T a wl1 b) w wr)))).
    { inorder_eq. }
    destruct (erase_fixup_left_end _ _ _ _ _ _ _ _ _ _ _ _ _ Hl1 Hi1 Hb) as (Hs & Hw2 & Hx & Hroot).
    split_and!; [done| |done|by left].
    eapply within_trans; [|exact Hw2]. eapply within_trans; [|exact Hw1].
    eapply within_trans; apply set_color_within; elem_dom.
  - simplify_eq.
    edestruct erase_fixup_left_end as (Hs & Hw2 & Hx & Hroot); [exact Hl|reflexivity|exact Hb|].
    split_and!; [done..|by left].
Qed.

Lemma erase_fixup_left h t c xl x xr p W x' h' :
  linked h t (plug c (T (T xl x xr) p W)) →
  erase_fixup_body t (Rec x) h = Ok (x', h') →
  (∃ s', linked h' t s' ∧ inorder s' = inorder (plug c (T (T xl x xr) p W))) ∧
  within t (inorder (plug c (T (T xl x xr) p W))) h h' ∧
  (∃ x1, x' = Rec x1 ∧ x1 ∈ inorder (plug c (T (T xl x xr) p W))) ∧
  (root t h' = Some x' ∨ is_red h' x' = true ∨
   (x' = Rec p ∧ ∃ w, h' = set_color (Rec w) true h)).
Proof.
  intros Hl Hb. unfold erase_fixup_body in Hb.
  pose proof Hl as (Hc & (Hpp & Hlp & Hrp & (Hpx & _) & HsW) & Hnd)%linked_plug.
  rewrite Hpx in Hb. simpl in Hb. rewrite Hlp in Hb. simpl in Hb.
  rewrite decide_True in Hb by done. rewrite Hrp in Hb.
  destruct W as [|wl w wr]; [done|]. simpl in Hb.
  set (dom := inorder (plug c (T (T xl x xr) p (T wl w wr)))) in *.
  inv_bind Hb as [w1 h1] Hpre.
  destruct (is_red h (Rec w)).
  - inv_bind Hpre as h0 Hrot. unfold set_red, set_black in Hrot.
    assert (Hl0 : linked (set_color (Rec p) true (set_color (Rec w) false h)) t
                    (plug c (T (T xl x xr) p (T wl w wr))))
      by (by do 2 apply set_color_linked).
    destruct (rotate_left_plug _ _ _ _ _ _ _ _ _ Hl0 Hrot) as (Hl1 & Hw1 & Hcol & _).
    fold dom in Hw1.
    change (plug c (T (T (T xl x xr) p wl) w wr))
      with (plug (CL c w wr) (T (T xl x xr) p wl)) in Hl1.
    pose proof Hl1 as (_ & (_ & _ & Hrp1 & (Hpx1 & _) & _) & _)%linked_plug.
    rewrite Hpx1 in Hpre. simpl in Hpre. rewrite Hrp1 in Hpre.
    destruct wl as [|a wl1 b]; [done|]. simpl in Hpre. simplify_eq.
    assert (Hi1 : inorder (plug (CL c w wr) (T (T xl x xr) p (T a wl1 b))) = dom).
    { inorder_eq. }
    destruct (erase_fixup_left_main _ _ _ _ _ _ _ _ _ _ _ _ _ Hl1 Hi1 Hb) as (Hs & Hw2 & Hx & Hnext).
    split_and!; [done| |done|].
    + eapply within_trans; [|exact Hw2]. eapply within_trans; [|exact Hw1].
      eapply within_trans; apply set_color_within; elem_dom.
    + destruct Hnext as [Hroot|[-> ->]]; [by left|right; left].
      autorewrite with heap. destruct (decide _); [done|]. rewrite Hcol.
      autorewrite with heap. by rewrite decide_True.
  - simplify_eq.
    edestruct erase_fixup_left_main as (Hs & Hw2 & Hx & Hnext); [exact Hl|reflexivity|exact Hb|].
    split_and!; [done..|]. destruct Hnext as [?|[-> ->]]; [by left|right; right; eauto].
Qed.

(** The mirror images, with the sibling on the left. *)
Lemma erase_fixup_right_end h t dom c xl x xr p wl w wr x' h' :
  linked h t (plug c (T (T wl w wr) p (T xl x xr))) →
  inorder (plug c (T (T wl w wr) p (T xl x xr))) = dom →
  (let* xp := deref (parent h (Rec x)) in
   let h := set_color (Rec w) (is_red h xp) h in
   let* xp := deref (parent h (Rec x)) in
   let h := set_black xp h in
   let h := match left (h (Rec w)) with
            | Some wl => set_black wl h
            | None => h
            end in
   let* xp := deref (parent h (Rec x)) in
   let* h := rotate_right t xp h in
   let* r := deref (root t h) in
   Ok (r, h)) = Ok (x', h') →
  (∃ s', linked h' t s' ∧ inorder s' = dom) ∧ within t dom h h' ∧
  (∃ x1, x' = Rec x1 ∧ x1 ∈ dom) ∧ root t h' = Some x'.
Proof.
  intros Hl <- Hb.
  set (dom := inorder (plug c (T (T wl w wr) p (T xl x xr)))).
  pose proof Hl as (Hc & (Hpp & Hlp & Hrp & (Hpw & Hlw & Hrw & _) & (Hpx & _)) & Hnd)%linked_plug.
  unfold set_black in Hb. rewrite Hpx in Hb. simpl in Hb.
  autorewrite with heap in Hb. rewrite Hpx in Hb. simpl in Hb.
  autorewrite with heap in Hb. rewrite Hlw in Hb.
  set (h1 := set_color (Rec p) false (set_color (Rec w) (is_red h (Rec p)) h)) in *.
  assert (Hl1 : linked h1 t (plug c (T (T wl w wr) p (T xl x xr))))
    by (subst h1; by do 2 apply set_color_linked).
  assert (Hw1 : within t dom h h1).
  { subst h1. eapply within_trans; apply set_color_within; elem_dom. }
  assert (∃ h2, linked h2 t (plug c (T (T wl w wr) p (T xl x xr))) ∧ within t dom h h2 ∧
     (let* xp := deref (parent h2 (Rec x)) in
      let* h := rotate_right t xp h2 in
      let* r := deref (root t h) in Ok (r, h)) = Ok (x', h')) as (h2 & Hl2 & Hw2 & Hb2).
  { destruct wl as [|wll wl0 wlr]; simpl in Hb.
    - by exists h1.
    - exists (set_color (Rec wl0) false h1). split_and!; [by apply set_color_linked| |done].
      eapply within_trans; [done|]. apply set_color_within. elem_dom. }
  clear Hb.
  pose proof Hl2 as (_ & (_ & _ & _ & _ & (Hpx2 & _)) & _)%linked_plug.
  rewrite Hpx2 in Hb2. simpl in Hb2.
  inv_bind Hb2 as h3 Hrot. inv_deref Hb2 as r Hr. simplify_eq.
  destruct (rotate_right_plug _ _ _ _ _ _ _ _ _ Hl2 Hrot) as (Hl3 & Hw3 & _).
  destruct (linked_root _ _ _ _ Hl3 Hr) as (r' & -> & Hr' & _).
  split_and!.
  - eexists. split; [done|]. inorder_eq.
  - by eapply within_trans.
  - exists r'. split; [done|]. revert Hr'. inorder_eq.
  - done.
Qed.

Lemma erase_fixup_right_main h t dom c xl x xr p wl w wr x' h' :
  linked h t (plug c (T (T wl w wr) p (T xl x xr))) →
  inorder (plug c (T (T wl w wr) p (T xl x xr))) = dom →
  (if black_ptr h (right (h (Rec w))) && black_ptr h (left (h (Rec w))) then
     let h := set_red (Rec w) h in
     let* xp := deref (parent h (Rec x)) in
     Ok (xp, h)
   else
     let* (w, h) := (if black_ptr h (left (h (Rec w))) then
                       let* wr := deref (right (h (Rec w))) in
                       let h := set_black wr h in
                       let h := set_red (Rec w) h in
                       let* h := rotate_left t (Rec w) h in
                       let* xp := deref (parent h (Rec x)) in
                       let* w := deref (left (h xp)) in
                       Ok (w, h)
                     else Ok (Rec w, h)) in
     let* xp := deref (parent h (Rec x)) in
     let h := set_color w (is_red h xp) h in
     let* xp := deref (parent h (Rec x)) in
     let h := set_black xp h in
     let h := match left (h w) with
              | Some wl => set_black wl h
              | None => h
              end in
     let* xp := deref (parent h (Rec x)) in
     let* h := rotate_right t xp h in
     let* r := deref (root t h) in
     Ok (r, h)) = Ok (x', h') →
  (∃ s', linked h' t s' ∧ inorder s' = dom) ∧ within t dom h h' ∧
  (∃ x1, x' = Rec x1 ∧ x1 ∈ dom) ∧
  (root t h' = Some x' ∨ (x' = Rec p ∧ h' = set_color (Rec w) true h)).
Proof.
  intros Hl <- Hb.
  set (dom := inorder (plug c (T (T wl w wr) p (T xl x xr)))).
  pose proof Hl as (Hc & (Hpp & Hlp & Hrp & (Hpw & Hlw & Hrw & _) & (Hpx & _)) & Hnd)%linked_plug.
  destruct (black_ptr h (right (h (Rec w))) && black_ptr h (left (h (Rec w)))).
  { unfold set_red in Hb. simpl in Hb. autorewrite with heap in Hb. rewrite Hpx in Hb.
    simpl in Hb. simplify_eq. split_and!.
    - exists (plug c (T (T wl w wr) p (T xl x xr))). split; [|done]. by apply set_color_linked.
    - apply set_color_within. elem_dom.
    - exists p. split; [done|]. elem_dom.
    - by right. }
  inv_bind Hb as [w2 h2] Hpre.
  destruct (black_ptr h (left (h (Rec w)))).
  - inv_deref Hpre as wr0 Hwr. rewrite Hrw in Hwr.
    destruct wr as [|a wr1 b]; [done|]. simpl in Hwr. simplify_eq.
    inv_bind Hpre as h1 Hrot.
    unfold set_red, set_black in Hrot.
    assert (Hl0 : linked (set_color (Rec w) true (set_color (Rec wr1) false h)) t
                    (plug (CL c p (T xl x xr)) (T wl w (T a wr1 b))))
      by (by do 2 apply set_color_linked).
    destruct (rotate_left_plug _ _ _ _ _ _ _ _ _ Hl0 Hrot) as (Hl1 & Hw1 & _).
    simpl in Hl1, Hw1.
    pose proof Hl1 as (_ & (_ & Hlp1 & _ & _ & (Hpx1 & _)) & _)%linked_plug.
    rewrite Hpx1 in Hpre. simpl in Hpre. rewrite Hlp1 in Hpre. simpl in Hpre. simplify_eq.
    assert (Hi1 : inorder (plug c (T (T (T wl w a) wr1 b) p (T xl x xr))) =
                  inorder (plug c (T (T wl w (T a wr1 b)) p (T xl x xr)))).
    { inorder_eq. }
    destruct (erase_fixup_right_end _ _ _ _ _ _ _ _ _ _ _ _ _ Hl1 Hi1 Hb) as (Hs & Hw2 & Hx & Hroot).
    split_and!; [done| |done|by left].
    eapply within_trans; [|exact Hw2]. eapply within_trans; [|exact Hw1].
    eapply within_trans; apply set_color_within; elem_dom.
  - simplify_eq.
    edestruct erase_fixup_right_end as (Hs & Hw2 & Hx & Hroot); [exact Hl|reflexivity|exact Hb|].
    split_and!; [done..|by left].
Qed.

Lemma erase_fixup_right h t c xl x xr p W x' h' :
  linked h t (plug c (T W p (T xl x xr))) →
  erase_fixup_body t (Rec x) h = Ok (x', h') →
  (∃ s', linked h' t s' ∧ inorder s' = inorder (plug c (T W p (T xl x xr)))) ∧
  within t (inorder (plug c (T W p (T xl x xr)))) h h' ∧
  (∃ x1, x' = Rec x1 ∧ x1 ∈ inorder (plug c (T W p (T xl x xr)))) ∧
  (root t h' = Some x' ∨ is_red h' x' = true ∨
   (x' = Rec p ∧ ∃ w, h' = set_color (Rec w) true h)).
Proof.
  intros Hl Hb. unfold erase_fixup_body in Hb.
  pose proof Hl as (Hc & (Hpp & Hlp & Hrp & HsW & (Hpx & _)) & Hnd)%linked_plug.
  rewrite Hpx in Hb. simpl in Hb. rewrite Hlp in Hb.
  rewrite decide_False in Hb by (intros ?; elem_absurd).
  destruct W as [|wl w wr]; [done|]. simpl in Hb.
  set (dom := inorder (plug c (T (T wl w wr) p (T xl x xr)))) in *.
  inv_bind Hb as [w1 h1] Hpre.
  destruct (is_red h (Rec w)).
  - inv_bind Hpre as h0 Hrot. unfold set_red, set_black in Hrot.
    assert (Hl0 : linked (set_color (Rec p) true (set_color (Rec w) false h)) t
                    (plug c (T (T wl w wr) p (T xl x xr))))
      by (by do 2 apply set_color_linked).
    destruct (rotate_right_plug _ _ _ _ _ _ _ _ _ Hl0 Hrot) as (Hl1 & Hw1 & Hcol & _).
    fold dom in Hw1.
    change (plug c (T wl w (T wr p (T xl x xr))))
      with (plug (CR wl w c) (T wr p (T xl x xr))) in Hl1.
    pose proof Hl1 as (_ & (_ & Hlp1 & _ & _ & (Hpx1 & _)) & _)%linked_plug.
    rewrite Hpx1 in Hpre. simpl in Hpre. rewrite Hlp1 in Hpre.
    destruct wr as [|a wr1 b]; [done|]. simpl in Hpre. simplify_eq.
    assert (Hi1 : inorder (plug (CR wl w c) (T (T a wr1 b) p (T xl x xr))) = dom).
    { inorder_eq. }
    destruct (erase_fixup_right_main _ _ _ _ _ _ _ _ _ _ _ _ _ Hl1 Hi1 Hb) as (Hs & Hw2 & Hx & Hnext).
    split_and!; [done| |done|].
    + eapply within_trans; [|exact Hw2]. eapply within_trans; [|exact Hw1].
      eapply within_trans; apply set_color_within; elem_dom.
    + destruct Hnext as [Hroot|[-> ->]]; [by left|right; left].
      autorewrite with heap. destruct (decide _); [done|]. rewrite Hcol.
      autorewrite with heap. by rewrite decide_True.
  - simplify_eq.
    edestruct erase_fixup_right_main as (Hs & Hw2 & Hx & Hnext); [exact Hl|reflexivity|exact Hb|].
    split_and!; [done..|]. destruct Hnext as [?|[-> ->]]; [by left|right; right; eauto].
Qed.

Lemma elem_plug_child s x :
  x ∈ inorder s →
  (∃ l r, s = T l x r) ∨
  (∃ c l r p W, s = plug c (T (T l x r) p W)) ∨
  (∃ c l r p W, s = plug c (T W p (T l x r))).
Proof.
  intros (c & l & r & ->)%elem_of_inorder_plug.
  destruct c as [|c p W|W p c]; simpl; [left|right; left|right; right]; eauto 10.
Qed.

Lemma erase_fixup_body_keeps h t s x x' h' :
  linked h t s → x ∈ inorder s → Some (Rec x) ≠ root t h →
  erase_fixup_body t (Rec x) h = Ok (x', h') →
  keeps t s h h' ∧ (∃ x1, x' = Rec x1 ∧ x1 ∈ inorder s) ∧
  (root t h' = Some x' ∨ is_red h' x' = true ∨
   (Some x' = parent h (Rec x) ∧ ∃ w, h' = set_color (Rec w) true h)).
Proof.
  intros Hl Hx Hnr Hb.
  destruct (elem_plug_child _ _ Hx) as
    [(l & r & ->)|[(c & l & r & p & W & ->)|(c & l & r & p & W & ->)]].
  - destruct Hl as (Hr & _). by rewrite Hr in Hnr.
  - destruct (erase_fixup_left _ _ _ _ _ _ _ _ _ _ Hl Hb) as
      (Hs & (Hf & Hcl & Hcr) & Hx' & Hnext).
    pose proof Hl as (_ & (_ & _ & _ & (Hpx & _) & _) & _)%linked_plug.
    refine (conj _ (conj Hx' _)); [by split_and!|].
    destruct Hnext as [?|[?|[-> ?]]]; [by left|by right; left|right; right]. by rewrite Hpx.
  - destruct (erase_fixup_right _ _ _ _ _ _ _ _ _ _ Hl Hb) as
      (Hs & (Hf & Hcl & Hcr) & Hx' & Hnext).
    pose proof Hl as (_ & (_ & _ & _ & _ & (Hpx & _)) & _)%linked_plug.
    refine (conj _ (conj Hx' _)); [by split_and!|].
    destruct Hnext as [?|[?|[-> ?]]]; [by left|by right; left|right; right]. by rewrite Hpx.
Qed.

Lemma erase_fixup_loop_keeps fuel h t s x x' h' :
  linked h t s → x ∈ inorder s →
  erase_fixup_loop fuel t (Rec x) h = Ok (x', h') →
  keeps t s h h' ∧ ∃ x1, x' = Rec x1 ∧ x1 ∈ inorder s.
Proof.
  revert h s x. induction fuel as [|fuel IH]; intros h s x Hl Hx Hb; [done|].
  simpl in Hb.
  destruct (bool_decide (Some (Rec x) ≠ root t h) && is_black h (Rec x)) eqn:Hc.
  - apply andb_true_iff in Hc as [Hnr%bool_decide_eq_true _].
    inv_bind Hb as [x1 h1] Hv.
    eapply erase_fixup_body_keeps in Hv as (Hk & (x2 & -> & Hx2) & _); [|done..].
    destruct (keeps_linked _ _ _ _ Hk) as (s1 & Hl1 & Hi1).
    eapply IH in Hb as (Hk2 & x3 & -> & Hx3); [|done|by rewrite Hi1].
    split; [|exists x3; split; [done|by rewrite <- Hi1]].
    eapply keeps_trans; eauto.
  - simplify_eq. split; [by apply keeps_refl|eauto].
Qed.

Lemma erase_fixup_keeps fuel h t s x h' :
  linked h t s → x ∈ inorder s →
  erase_fixup fuel t (Rec x) h = Ok h' → keeps t s h h'.
Proof.
  intros Hl Hx Hb. unfold erase_fixup in Hb.
  inv_bind Hb as [x1 h1] Hv. simplify_eq.
  eapply erase_fixup_loop_keeps in Hv as (Hk & x2 & -> & Hx2); [|done..].
  destruct (keeps_linked _ _ _ _ Hk) as (s1 & Hl1 & Hi1).
  eapply keeps_trans; [exact Hk|exact Hi1|].
  apply set_color_keeps; [done|by rewrite Hi1].
Qed.

(** * [insert] *)

Lemma caches_inorder h t s s' : inorder s = inorder s' → caches h t s → caches h t s'.
Proof. unfold caches. by intros ->. Qed.

Lemma reset_linked h t s z : z ∉ inorder s → linked h t s → linked (reset (Rec z) h) t s.
Proof.
  intros Hz (Hr & Hs & Hnd). split_and!; [by autorewrite with heap in *| |done].
  eapply sub_frame; [|done]. links_solve.
Qed.

Lemma last_app_cons {A} (l : list A) x k : last (l ++ x :: k) = last (x :: k).
Proof. induction l as [|y l IH]; [done|]. destruct l; [done|]. exact IH. Qed.

Lemma head_app_cons {A} (l : list A) x k y : head ((x :: l) ++ k) = head (x :: l ++ y :: k).
Proof. done. Qed.

(** The first record after a new one went in just before [a]. *)
Lemma head_insert_before (pre : list nat) a post z :
  NoDup (pre ++ a :: post) →
  head (pre ++ z :: a :: post) =
  if decide (head (pre ++ a :: post) = Some a) then Some z else head (pre ++ a :: post).
Proof.
  intros Hnd. destruct pre as [|b pre]; simpl; [by rewrite decide_True|].
  rewrite decide_False; [done|]. intros [= ->]. simpl in Hnd. elem_norm.
Qed.

(** The last record after a new one went in just after [a]. *)
Lemma last_insert_after (pre : list nat) a post z :
  NoDup (pre ++ a :: post) →
  last (pre ++ a :: z :: post) =
  if decide (last (pre ++ a :: post) = Some a) then Some z else last (pre ++ a :: post).
Proof.
  intros Hnd. rewrite !last_app_cons.
  destruct post as [|b post]; simpl; [by rewrite decide_True|].
  rewrite decide_False; [by destruct post|].
  change (last (b :: post) ≠ Some a). intros Hl%last_Some_elem_of. elem_norm. elem_absurd_now.
Qed.

Lemma head_insert_after (pre : list nat) a post z :
  head (pre ++ a :: z :: post) = head (pre ++ a :: post).
Proof. by destruct pre. Qed.

Lemma snoc_app (l k : list nat) a post : (l ++ k ++ [a]) ++ post = (l ++ k) ++ a :: post.
Proof. by rewrite <- !app_assoc. Qed.

Lemma default_rec_eq t (o : option nat) a :
  Some (default (Head t) (Rec <$> o)) = Some (Rec a) ↔ o = Some a.
Proof. destruct o; simpl; naive_solver. Qed.

Section insert.
Context {K : Type} (is_less_than : K → K → bool) (get_key : nat → K).


Lemma insert_descent_path fuel key h t c s r :
  linked h t (plug c s) → path_ok is_less_than get_key key c →
  insert_descent is_less_than get_key fuel key h (ctx_last c) (root_ptr s) = Ok r →
  (∃ c' l x r', r = inl (Rec x) ∧ plug c' (T l x r') = plug c s ∧
      key_equiv is_less_than key (get_key x) ∧ path_ok is_less_than get_key key c') ∨
  (∃ c', r = inr (ctx_last c') ∧ plug c' E = plug c s ∧ path_ok is_less_than get_key key c').
Proof.
  revert c s. induction fuel as [|fuel IH]; intros c s Hl Hp Hd; [done|].
  destruct s as [|l x r']; simpl in Hd.
  - simplify_eq. right. by exists c.
  - pose proof Hl as (_ & (_ & Hlx & Hrx & _) & _)%linked_plug.
    destruct (is_less_than key (get_key x)) eqn:H1.
    + rewrite Hlx in Hd. by apply (IH (CL c x r') l) in Hd.
    + destruct (is_less_than (get_key x) key) eqn:H2.
      * rewrite Hrx in Hd. by apply (IH (CR l x c) r') in Hd.
      * simplify_eq. left. by exists c, l, x, r'.
Qed.

Lemma insert_descent_total fuel key h t c s :
  linked h t (plug c s) → length (inorder s) < fuel →
  ∃ r, insert_descent is_less_than get_key fuel key h (ctx_last c) (root_ptr s) = Ok r.
Proof.
  revert c s. induction fuel as [|fuel IH]; intros c s Hl Hf; [lia|].
  destruct s as [|l x r']; simpl; [eauto|].
  pose proof Hl as (_ & (_ & Hlx & Hrx & _) & _)%linked_plug.
  simpl in Hf. rewrite length_app in Hf. simpl in Hf.
  destruct (is_less_than key (get_key x)).
  - rewrite Hlx. apply (IH (CL c x r') l); [done|lia].
  - destruct (is_less_than (get_key x) key); [|eauto].
    rewrite Hrx. apply (IH (CR l x c) r'); [done|lia].
Qed.

(** The first half of [insert_parent]: the record [z] is hung below the
    node the descent ended at and made a red leaf. *)
Lemma insert_link_linked h t c z h0 :
  linked h t (plug c E) → z ∉ inorder (plug c E) → path_ok is_less_than get_key (get_key z) c →
  match ctx_last c with
  | None =>
      let h := set_root t (Some (Rec z)) h in
      let h := set_left (Head t) (root t h) h in
      Ok (set_right (Head t) (root t h) h)
  | Some y' =>
      let* kz := to_key get_key (Rec z) in
      let* ky := to_key get_key y' in
      if is_less_than kz ky then
        let h := set_parent (Rec z) (Some y') h in
        let h := set_left y' (Some (Rec z)) h in
        Ok (if decide (left (h (Head t)) = Some y')
            then set_left (Head t) (Some (Rec z)) h else h)
      else
        let h := set_parent (Rec z) (Some y') h in
        let h := set_right y' (Some (Rec z)) h in
        Ok (if decide (right (h (Head t)) = Some y')
            then set_right (Head t) (Some (Rec z)) h else h)
  end = Ok h0 →
  let h1 := set_color (Rec z) true (set_right (Rec z) None (set_left (Rec z) None h0)) in
  linked h1 t (plug c (T E z E)) ∧
  frame t (inorder (plug c (T E z E))) h h1 ∧
  ((c ≠ Top → caches h t (plug c E)) → caches h1 t (plug c (T E z E))).
Proof.
  intros Hl Hz Hp Hlink h1.
  pose proof Hl as (Hc & _ & Hnd)%linked_plug.
  rewrite inorder_plug in Hz. simpl in Hz, Hnd.
  destruct c as [|c a r|l a c]; simpl in Hlink.
  - simplify_eq. subst h1. unfold linked, frame, same_node, caches. simpl.
    split_and!; try heap_solve. apply NoDup_singleton.
  - destruct Hp as [Hlt Hp]. simpl in Hlink. rewrite Hlt in Hlink. simplify_eq.
    assert (Hnc : NoDup (ctx_nodes (CL c a r))) by done.
    subst h1.
    match goal with |- context [@decide ?P ?inst] => destruct (@decide P inst) as [e|e] end;
      autorewrite with heap in e; rewrite decide_False in e by done.
    all: split_and!;
      [ apply linked_plug; split_and!;
        [ eapply ctx_ok_replace; [exact Hc|exact Hnc|links_solve|simpl; split_and?; heap_solve]
        | simpl; split_and!; heap_solve
        | nodup_solve ]
      | unfold frame; split_and!; [intros u Hu | intros q Hq; rewrite inorder_plug in Hq |];
        unfold same_node; split_and?; heap_solve
      | ].
    all: intros Hca; destruct (Hca ltac:(done)) as [Hcl Hcr]; unfold caches;
      rewrite !inorder_plug in *; simpl in *; autorewrite with heap;
      rewrite Hcl in e; rewrite default_rec_eq in e.
    + decide_simpl.
      rewrite head_insert_before by done. rewrite decide_True by done.
      split; [done|]. by rewrite Hcr, !last_app_cons.
    + decide_simpl.
      rewrite head_insert_before by done. rewrite decide_False by done.
      split; [done|]. by rewrite Hcr, !last_app_cons.
  - destruct Hp as (Hlt & Hgt & Hp). simpl in Hlink. rewrite Hlt in Hlink. simplify_eq.
    assert (Hnc : NoDup (ctx_nodes (CR l a c))) by done.
    subst h1.
    match goal with |- context [@decide ?P ?inst] => destruct (@decide P inst) as [e|e] end;
      autorewrite with heap in e; rewrite decide_False in e by done.
    all: split_and!;
      [ apply linked_plug; split_and!;
        [ eapply ctx_ok_replace; [exact Hc|exact Hnc|links_solve|simpl; split_and?; heap_solve]
        | simpl; split_and!; heap_solve
        | nodup_solve ]
      | unfold frame; split_and!; [intros u Hu | intros q Hq; rewrite inorder_plug in Hq |];
        unfold same_node; split_and?; heap_solve
      | ].
    all: intros Hca; destruct (Hca ltac:(done)) as [Hcl Hcr]; unfold caches;
      rewrite !inorder_plug in *; simpl in *; autorewrite with heap;
      rewrite Hcr in e; rewrite default_rec_eq in e;
      decide_simpl; rewrite !snoc_app in *;
      rewrite head_insert_after, last_insert_after by done.
    + rewrite decide_True by done. done.
    + rewrite decide_False by done. done.
Qed.

Lemma insert_parent_linked fuel h t c z h' r :
  linked h t (plug c E) → z ∉ inorder (plug c E) → path_ok is_less_than get_key (get_key z) c →
  insert_parent is_less_than get_key fuel t (ctx_last c) (Rec z) h = Ok (h', r) →
  r = (Some (Rec z), true) ∧
  frame t (inorder (plug c (T E z E))) h h' ∧
  ∃ s', linked h' t s' ∧ inorder s' = inorder (plug c (T E z E)) ∧
        ((c ≠ Top → caches h t (plug c E)) → caches h' t s').
Proof.
  intros Hl Hz Hp Hb. unfold insert_parent in Hb.
  inv_bind Hb as h0 Hlink. inv_bind Hb as h2 Hfix. simplify_eq.
  unfold set_red in Hfix.
  set (h1 := set_color (Rec z) true (set_right (Rec z) None (set_left (Rec z) None h0))) in *.
  enough (Hh1 : linked h1 t (plug c (T E z E)) ∧
                frame t (inorder (plug c (T E z E))) h h1 ∧
                ((c ≠ Top → caches h t (plug c E)) → caches h1 t (plug c (T E z E)))).
  { destruct Hh1 as (Hl1 & Hf1 & Hc1).
    eapply insert_fixup_keeps in Hfix as ((s' & Hl' & Hi') & Hf' & Hcl & Hcr);
      [|done|apply plug_elem].
    split_and!; [done|by eapply frame_trans|].
    exists s'. split_and!; [done..|].
    intros Hc. specialize (Hc1 Hc). destruct Hc1 as [Hc1 Hc2].
    unfold caches. by rewrite Hi', Hcl, Hcr. }
  by apply insert_link_linked.
Qed.

Lemma plug_not_E c l x r : plug c (T l x r) ≠ E.
Proof. revert l x r. induction c; simpl; [done|auto..]. Qed.

Lemma plug_E_Top c s : plug c s = E → c = Top.
Proof. destruct c; simpl; [done|by intros ?%plug_not_E..]. Qed.

(** [insert]: either a record with an equal key is found and nothing
    is written, or the record is linked at the leaf position the
    descent ended in. *)
Lemma insert_linked fuel h t s v h' r :
  linked h t s →
  (∀ c, plug c E = s → path_ok is_less_than get_key (get_key v) c → v ∉ inorder s) →
  insert is_less_than get_key fuel t v h = Ok (h', r) →
  (∃ x, r = (Some (Rec x), false) ∧ h' = h ∧ x ∈ inorder s ∧
        key_equiv is_less_than (get_key v) (get_key x)) ∨
  (∃ c s', r = (Some (Rec v), true) ∧ plug c E = s ∧ path_ok is_less_than get_key (get_key v) c ∧
           linked h' t s' ∧ inorder s' = inorder (plug c (T E v E)) ∧
           frame t (inorder (plug c (T E v E))) h h' ∧
           ((s ≠ E → caches h t s) → caches h' t s')).
Proof.
  intros Hl Hv Hi. unfold insert in Hi.
  inv_bind Hi as d Hd.
  destruct (insert_descent_path fuel (get_key v) h t Top s d Hl I) as
    [(c & l & x & r' & -> & Hs & He & Hp)|(c & -> & Hs & Hp)].
  { simpl. destruct Hl as [<- _]. exact Hd. }
  - simpl in *. simplify_eq. left. exists x. split_and!; [done..| |done]. apply plug_elem.
  - simpl in Hs. subst s. right.
    specialize (Hv c eq_refl Hp).
    pose proof (reset_linked _ _ _ _ Hv Hl) as Hl0.
    eapply insert_parent_linked in Hi as (-> & Hf & s' & Hl' & Hi' & Hc'); [|done..].
    exists c, s'. split_and!; [done..| |].
    + eapply frame_trans; [|exact Hf].
      unfold frame, same_node. split_and!; [intros u Hu|intros q Hq; rewrite inorder_plug in Hq|];
        split_and?; heap_solve.
    + intros Hca. apply Hc'. intros Hc. unfold caches in *. autorewrite with heap.
      decide_simpl. apply Hca. intros He. by apply plug_E_Top in He.
Qed.
End insert.

(** * The first and the last record *)

Lemma inorder_del_min l x r : inorder (T l x r) = min_node l x :: inorder (del_min l x r).
Proof.
  revert x r. induction l as [|ll IH lx lr _]; intros x r; [done|].
  change (inorder (T ll lx lr) ++ x :: inorder r =
          min_node ll lx :: inorder (del_min ll lx lr) ++ x :: inorder r).
  by rewrite IH.
Qed.

Lemma head_inorder l x r : head (inorder (T l x r)) = Some (min_node l x).
Proof. by rewrite inorder_del_min. Qed.

Lemma last_inorder l x r : last (inorder (T l x r)) = Some (max_node x r).
Proof.
  revert l x. induction r as [|rl _ rx rr IH]; intros l x; simpl.
  - by rewrite last_app_cons.
  - rewrite last_app_cons. simpl. specialize (IH rl rx). simpl in IH.
    destruct (inorder rl ++ rx :: inorder rr) eqn:He; [by destruct (inorder rl)|done].
Qed.

Lemma find_minimum_sub fuel h par l x r m :
  sub h par (T l x r) → find_minimum fuel h (Rec x) = Ok m → m = Rec (min_node l x).
Proof.
  revert par l x r. induction fuel as [|fuel IH]; intros par l x r Hs Hf; [done|].
  simpl in Hf. destruct Hs as (_ & Hl & _ & Hsl & _). rewrite Hl in Hf.
  destruct l as [|ll lx lr]; simpl in *; [by simplify_eq|]. by eapply IH.
Qed.

Lemma find_minimum_total fuel h par l x r :
  sub h par (T l x r) → length (inorder l) < fuel →
  find_minimum fuel h (Rec x) = Ok (Rec (min_node l x)).
Proof.
  revert par l x r. induction fuel as [|fuel IH]; intros par l x r Hs Hf; [lia|].
  simpl. destruct Hs as (_ & Hl & _ & Hsl & _). rewrite Hl.
  destruct l as [|ll lx lr]; simpl in *; [done|].
  eapply IH; [done|]. rewrite length_app in Hf. simpl in Hf. lia.
Qed.

Lemma find_maximum_sub fuel h par l x r m :
  sub h par (T l x r) → find_maximum fuel h (Rec x) = Ok m → m = Rec (max_node x r).
Proof.
  revert par l x r. induction fuel as [|fuel IH]; intros par l x r Hs Hf; [done|].
  simpl in Hf. destruct Hs as (_ & _ & Hr & _ & Hsr). rewrite Hr in Hf.
  destruct r as [|rl rx rr]; simpl in *; [by simplify_eq|]. by eapply IH.
Qed.

Lemma find_maximum_total fuel h par l x r :
  sub h par (T l x r) → length (inorder r) < fuel →
  find_maximum fuel h (Rec x) = Ok (Rec (max_node x r)).
Proof.
  revert par l x r. induction fuel as [|fuel IH]; intros par l x r Hs Hf; [lia|].
  simpl. destruct Hs as (_ & _ & Hr & _ & Hsr). rewrite Hr.
  destruct r as [|rl rx rr]; simpl in *; [done|].
  eapply IH; [done|]. rewrite length_app in Hf. simpl in Hf. lia.
Qed.

(** * Taking the first record out of a subtree *)

Lemma sub_del_min h par l x r :
  sub h par (T l x r) → NoDup (inorder (T l x r)) → l ≠ E →
  ∃ p yr,
    p ∈ inorder (del_min l x r) ∧
    parent h (Rec (min_node l x)) = Some (Rec p) ∧
    left (h (Rec p)) = Some (Rec (min_node l x)) ∧
    left (h (Rec (min_node l x))) = None ∧
    right (h (Rec (min_node l x))) = root_ptr yr ∧
    inorder yr ⊆ inorder (del_min l x r) ∧
    root_ptr yr ≠ Some (Rec x) ∧
    root_ptr (del_min l x r) = Some (Rec x) ∧
    ∀ h' par',
      (∀ q, q ∈ inorder (del_min l x r) →
         right (h' (Rec q)) = right (h (Rec q)) ∧
         left (h' (Rec q)) = (if decide (q = p) then root_ptr yr else left (h (Rec q))) ∧
         parent h' (Rec q) = (if decide (q = x) then Some par'
                              else if decide (root_ptr yr = Some (Rec q)) then Some (Rec p)
                              else parent h (Rec q))) →
      sub h' par' (del_min l x r).
Proof.
  revert par x r. induction l as [|ll IHll lx lr _]; intros par x r Hs Hnd Hne; [done|].
  clear Hne. destruct ll as [|lll llx llr].
  - clear IHll. simpl in *. destruct Hs as (Hpx & Hlx & Hrx & (Hplx & Hllx & Hrlx & _ & Hslr) & Hsr).
    exists x, lr. elem_norm. split_and!; [set_solver|done..|set_solver| |done|].
    { intros ?. elem_absurd. }
    intros h' par' Hh'. split_and!.
    + destruct (Hh' x ltac:(set_solver)) as (_ & _ & ->). by rewrite decide_True.
    + destruct (Hh' x ltac:(set_solver)) as (_ & -> & _). by rewrite decide_True.
    + destruct (Hh' x ltac:(set_solver)) as (-> & _ & _). done.
    + eapply (sub_reparent h); [done| | |done].
      * intros q Hq. destruct (Hh' q ltac:(set_solver)) as (-> & -> & ->).
        split_and!; [|done|].
        -- rewrite decide_False; [done|]. intros ->. elem_absurd.
        -- intros Hnr. rewrite decide_False by (intros ->; elem_absurd).
           by rewrite decide_False.
      * intros a Ha. pose proof Ha as Ha'%root_ptr_elem.
        destruct (Hh' a ltac:(set_solver)) as (_ & _ & ->).
        rewrite decide_False by (intros ->; elem_absurd). by rewrite decide_True.
    + eapply sub_frame; [|done]. intros q Hq. unfold same_links.
      destruct (Hh' q ltac:(set_solver)) as (-> & -> & ->).
      split_and!; [|done|].
      * rewrite decide_False; [done|]. intros ->. elem_absurd.
      * rewrite decide_False by (intros ->; elem_absurd).
        rewrite decide_False; [done|]. intros ?. elem_absurd.
  - destruct Hs as (Hpx & Hlx & Hrx & Hsl & Hsr).
    assert (Hndl : NoDup (inorder (T (T lll llx llr) lx lr))).
    { simpl in Hnd. apply NoDup_app in Hnd as (? & _). done. }
    destruct (IHll (Rec x) lx lr Hsl Hndl ltac:(done)) as
      (p & yr & Hp & Hpy & Hlp & Hly & Hry & Hyr & Hnr & Hroot & Hcl).
    set (y := min_node (T lll llx llr) lx) in *.
    set (D := del_min (T lll llx llr) lx lr) in *.
    assert (HD : inorder (T (T lll llx llr) lx lr) = y :: inorder D) by apply inorder_del_min.
    change (del_min (T (T lll llx llr) lx lr) x r) with (T D x r).
    change (min_node (T (T lll llx llr) lx lr) x) with y.
    change (inorder (T (T (T lll llx llr) lx lr) x r))
      with (inorder (T (T lll llx llr) lx lr) ++ x :: inorder r) in Hnd.
    rewrite HD in Hnd.
    change (inorder (T D x r)) with (inorder D ++ x :: inorder r).
    simpl in Hsl. destruct Hsl as (Hplx & _).
    clearbody D y. simpl in Hnd. elem_norm.
    exists p, yr. split_and!; [set_solver|done..|set_solver| |done|].
    { intros Hx%root_ptr_elem. apply Hyr in Hx. elem_absurd. }
    intros h' par' Hh'. simpl. split_and!.
    + destruct (Hh' x ltac:(set_solver)) as (_ & _ & ->). by rewrite decide_True.
    + destruct (Hh' x ltac:(set_solver)) as (_ & -> & _).
      rewrite decide_False by (intros ->; elem_absurd). rewrite Hlx. symmetry. exact Hroot.
    + destruct (Hh' x ltac:(set_solver)) as (-> & _ & _). done.
    + apply Hcl. intros q Hq. destruct (Hh' q ltac:(set_solver)) as (-> & -> & ->).
      split_and!; [done..|].
      rewrite (decide_False (P := q = x)) by (intros ->; elem_absurd).
      destruct (decide (q = lx)) as [->|Hq'].
      * by rewrite decide_False by done.
      * done.
    + eapply sub_frame; [|done]. intros q Hq. unfold same_links.
      destruct (Hh' q ltac:(set_solver)) as (-> & -> & ->).
      split_and!; [|done|].
      * rewrite decide_False; [done|]. intros ->. elem_absurd.
      * rewrite decide_False by (intros ->; elem_absurd).
        rewrite decide_False; [done|]. intros Hx%root_ptr_elem. apply Hyr in Hx. elem_absurd.
Qed.

(** * [erase_node] *)

#[global] Arguments erase_node_head : simpl never.
#[global] Arguments erase_node_splice : simpl never.

(** [replace_child] and the path above, when the root reference may
    have been cleared already. *)
Lemma replace_child_cases' h t c x v :
  (c ≠ Top → ctx_ok h t c (Some (Rec x))) →
  parent h (Rec x) = Some (ctx_par t c) →
  x ∉ ctx_nodes c →
  replace_child t (Rec x) v h =
  match c with
  | Top => Ok (set_root t v h)
  | CL _ a _ => Ok (set_left (Rec a) v h)
  | CR _ a _ => Ok (set_right (Rec a) v h)
  end.
Proof.
  intros Hc Hp Hx. destruct c as [|c a r|l a c].
  - unfold replace_child. simpl in Hp. by rewrite decide_True.
  - by apply (replace_child_cases h t (CL c a r)); [apply Hc|..].
  - by apply (replace_child_cases h t (CR l a c)); [apply Hc|..].
Qed.

Lemma ctx_ok_replace' h h' t c p p' :
  (c ≠ Top → ctx_ok h t c p) →
  NoDup (ctx_nodes c) →
  (∀ q, q ∈ ctx_nodes c → Rec q ≠ ctx_par t c → same_links h h' (Rec q)) →
  hole_set h h' t c p' →
  ctx_ok h' t c p'.
Proof.
  intros Hc Hnd Hs Hh. destruct c as [|c a r|l a c]; [done|..].
  - by eapply ctx_ok_replace; [apply Hc|..].
  - by eapply ctx_ok_replace; [apply Hc|..].
Qed.

Lemma erase_node_splice_linked fuel h t c l z r yred x yred' h' :
  sub h (ctx_par t c) (T l z r) →
  (c ≠ Top → ctx_ok h t c (Some (Rec z))) →
  NoDup (inorder (plug c (T l z r))) →
  erase_node_splice fuel t (Rec z) yred h = Ok (x, yred', h') →
  ∃ s', linked h' t s' ∧
        inorder s' = ctx_before c ++ inorder l ++ inorder r ++ ctx_after c ∧
        within t (inorder (plug c (T l z r))) h h' ∧
        (∀ x', x = Some x' → ∃ x1, x' = Rec x1 ∧ x1 ∈ inorder s').
Proof.
  intros Hs Hc Hnd He. unfold erase_node_splice in He.
  rewrite inorder_plug in Hnd.
  pose proof Hs as (Hpz & Hlz & Hrz & Hsl & Hsr).
  rewrite Hlz, Hrz in He.
  assert (Hnc : NoDup (ctx_nodes c)) by nodup_solve.
  destruct l as [|ll lx lr]; simpl in He.
  - inv_bind He as h1 Ht. simplify_eq. unfold transplant in Ht.
    erewrite (replace_child_cases' _ t c z) in Ht; [|done..|intros ?; elem_absurd].
    exists (plug c r).
    assert (Hnr : NoDup (inorder r)) by nodup_solve.
    unfold within.
    destruct c as [|c a0 r0|l0 a0 c]; simpl in * |-; elem_norm; simplify_eq.
    all: split_and!;
      [ apply linked_plug; split_and!;
        [ eapply ctx_ok_replace'; [exact Hc|exact Hnc|links_solve|simpl; split_and?; heap_solve]
        | eapply (sub_reparent h); [exact Hnr| | |exact Hsr];
          [intros q Hq; split_and!; heap_solve | heap_solve]
        | nodup_solve ]
      | inorder_eq
      | unfold frame; split_and!; [intros u Hu | intros q Hq; rewrite inorder_plug in Hq |];
        unfold same_node; split_and?; heap_solve
      | heap_solve | heap_solve
      | intros x' (rl & a & rr & -> & ->)%root_ptr_Some; exists a; split; [done|];
        rewrite inorder_plug; simpl; set_solver ].
  - destruct r as [|rl a rr]; simpl in He.
    + inv_bind He as h1 Ht. simplify_eq. unfold transplant in Ht.
      erewrite (replace_child_cases' _ t c z) in Ht; [|done..|intros ?; elem_absurd].
      exists (plug c (T ll lx lr)).
      assert (Hnl : NoDup (inorder (T ll lx lr))) by nodup_solve.
      set (L := T ll lx lr) in *.
      assert (HrL : root_ptr L = Some (Rec lx)) by done.
      assert (HlxL : lx ∈ inorder L) by (simpl; set_solver).
      clearbody L. unfold within.
      destruct c as [|c a0 r0|l0 a0 c]; simpl in * |-; elem_norm; simplify_eq.
      all: split_and!;
        [ apply linked_plug; split_and!;
          [ eapply ctx_ok_replace'; [exact Hc|exact Hnc|links_solve|simpl; split_and?; heap_solve]
          | eapply (sub_reparent h); [exact Hnl| | |exact Hsl];
            [intros q Hq; split_and!; heap_solve | heap_solve]
          | nodup_solve ]
        | inorder_eq
        | unfold frame; split_and!; [intros u Hu | intros q Hq; rewrite inorder_plug in Hq |];
          unfold same_node; split_and?; heap_solve
        | heap_solve | heap_solve
        | intros x' [= <-]; exists lx; split; [done|];
          rewrite inorder_plug; simpl; set_solver ].
    + inv_bind He as y Hy. apply (find_minimum_sub _ _ _ _ _ _ _ Hsr) in Hy. subst y.
      assert (Hnl : NoDup (inorder (T ll lx lr))) by nodup_solve.
      assert (Hnrr : NoDup (inorder (T rl a rr))) by nodup_solve.
      set (L := T ll lx lr) in *.
      assert (HrL : root_ptr L = Some (Rec lx)) by done.
      assert (HlxL : lx ∈ inorder L) by (simpl; set_solver).
      clearbody L.
      destruct rl as [|rll rlx rlr].
      * simpl in He, Hsr. destruct Hsr as (Hpa & Hla & Hra & _ & Hsrr).
        rewrite decide_False in He by (by intros []).
        inv_bind He as h0 He0. simplify_eq.
        inv_bind He as h1 Ht. unfold transplant in Ht.
        erewrite (replace_child_cases' _ t c z) in Ht; [|done..|intros ?; elem_absurd].
        exists (plug c (T L a rr)). unfold within.
        destruct c as [|c a0 r0|l0 a0 c]; simpl in * |-; elem_norm; simplify_eq;
          autorewrite with heap in He; decide_simpl_in He; rewrite Hlz, HrL in He;
          simpl in He; simplify_eq.
        all: split_and!;
          [ apply linked_plug; split_and!;
            [ eapply ctx_ok_replace'; [exact Hc|exact Hnc|links_solve|simpl; split_and?; heap_solve]
            | simpl; split_and!;
              [ heap_solve | heap_solve | heap_solve
              | eapply (sub_reparent h0); [exact Hnl| | |exact Hsl];
                [intros q Hq; split_and!; heap_solve | heap_solve]
              | eapply sub_frame; [|exact Hsrr]; links_solve ]
            | nodup_solve ]
          | inorder_eq
          | unfold frame; split_and!; [intros u Hu | intros q Hq; rewrite inorder_plug in Hq |];
            unfold same_node; split_and?; heap_solve
          | heap_solve | heap_solve
          | rewrite Hra; intros x' (rl & a' & rr' & -> & ->)%root_ptr_Some; exists a'; split; [done|];
            rewrite inorder_plug; simpl; set_solver ].
      * destruct (sub_del_min _ _ _ _ _ Hsr Hnrr ltac:(done)) as
          (p & yr & Hp & Hpm & Hlp & Hlm & Hrm & Hyr & Hnr & Hroot & Hcl).
        pose proof (inorder_del_min (T rll rlx rlr) a rr) as HD.
        set (m := min_node (T rll rlx rlr) a) in *.
        set (D := del_min (T rll rlx rlr) a rr) in *.
        rewrite inorder_plug.
        change (inorder (T L z (T (T rll rlx rlr) a rr)))
          with (inorder L ++ z :: inorder (T (T rll rlx rlr) a rr)) in *.
        rewrite HD in Hnd, Hnrr. rewrite HD.
        simpl in Hrz. clearbody m D. clear Hsr.
        pose proof Hroot as HaD%root_ptr_elem.
        simpl in Hnd. elem_norm.
        assert (Hpz' : p ≠ z) by (intros ->; elem_absurd).
        rewrite decide_True in He by congruence.
        inv_bind He as h4 He4. inv_bind He4 as h2 Ht1. inv_deref He4 as yr0 Hyr0. simplify_eq.
        unfold transplant in Ht1. unfold replace_child in Ht1.
        rewrite Hpm in Ht1. rewrite decide_False in Ht1 by done. simpl in Ht1.
        rewrite Hlp in Ht1. rewrite decide_True in Ht1 by done. simpl in Ht1.
        rewrite Hrm in Ht1. simplify_eq.
        autorewrite with heap in Hyr0. decide_simpl_in Hyr0. rewrite Hrz in Hyr0. simplify_eq.
        assert (Hyz : z ∉ inorder yr) by (intros ?%Hyr; elem_absurd).
        assert (Hym : m ∉ inorder yr) by (intros ?%Hyr; elem_absurd).
        assert (HyL : disj (inorder L) (inorder yr)) by (intros q ? ?%Hyr; elem_absurd).
        assert (Hyb : disj (ctx_before c) (inorder yr)) by (intros q ? ?%Hyr; elem_absurd).
        assert (Hya : disj (ctx_after c) (inorder yr)) by (intros q ? ?%Hyr; elem_absurd).
        autorewrite with heap in He. rewrite Hrz, Hpm in He.
        inv_bind He as h5 Ht2. unfold transplant in Ht2.
        erewrite (replace_child_cases' _ t c z) in Ht2; cycle 1.
        { intros Hct. eapply ctx_ok_frame; [|heap_solve|by apply Hc]. links_solve. }
        { heap_solve. }
        { intros ?; elem_absurd. }
        exists (plug c (T L m D)). unfold within.
        destruct c as [|c a0 r0|l0 a0 c]; simpl in * |-; elem_norm; simplify_eq;
          autorewrite with heap in He; decide_simpl_in He; rewrite Hlz, HrL in He;
          simpl in He; simplify_eq.
        all: split_and!;
          [ apply linked_plug; split_and!;
            [ eapply ctx_ok_replace'; [exact Hc|exact Hnc|links_solve|simpl; split_and?; heap_solve]
            | simpl; split_and!;
              [ heap_solve | heap_solve | rewrite Hroot; heap_solve
              | eapply (sub_reparent h); [exact Hnl| | |exact Hsl];
                [intros q Hq; split_and!; heap_solve | heap_solve]
              | apply Hcl; intros q Hq; split_and!; heap_solve ]
            | nodup_solve ]
          | inorder_eq
          | unfold frame; split_and!;
            [ intros u Hu
            | intros q Hq; assert (Hqy : q ∉ inorder yr) by (intros Hqy%Hyr; apply Hq; set_solver)
            |];
            unfold same_node; split_and?; heap_solve
          | heap_solve | heap_solve
          | rewrite Hrm; intros x' (rl & a' & rr' & -> & ->)%root_ptr_Some; exists a'; split; [done|];
            rewrite inorder_plug; simpl; set_solver ].
Qed.

(** * The sentinel in [erase_node] *)

Lemma erase_node_head_frame fuel t z h hB :
  erase_node_head fuel t z h = Ok hB →
  (∀ x, x ≠ Head t → hB x = h x) ∧ is_red hB (Head t) = is_red h (Head t) ∧
  (parent h (Head t) ≠ Some z → parent hB (Head t) = parent h (Head t)).
Proof.
  intros He. unfold erase_node_head in He.
  set (hA := if decide (parent h (Head t) = Some z) then set_parent (Head t) None h else h) in *.
  assert (HA : (∀ x, x ≠ Head t → hA x = h x) ∧ is_red hA (Head t) = is_red h (Head t) ∧
               (parent h (Head t) ≠ Some z → parent hA (Head t) = parent h (Head t))).
  { subst hA. destruct (decide (parent h (Head t) = Some z)); [|done].
    split_and!; [|by autorewrite with heap|done]. intros x Hx. by apply set_parent_ne. }
  clearbody hA. destruct HA as (HA1 & HA2 & HA3).
  inv_bind He as h1 H1.
  assert (HB : (∀ x, x ≠ Head t → h1 x = h x) ∧ is_red h1 (Head t) = is_red h (Head t) ∧
               (parent h (Head t) ≠ Some z → parent h1 (Head t) = parent h (Head t))).
  { destruct (decide (left (hA (Head t)) = Some z)); [|by simplify_eq].
    destruct (right (hA z)); [inv_bind H1 as m Hm|]; simplify_eq.
    all: split_and!; [|by autorewrite with heap|by autorewrite with heap].
    all: intros x Hx; by rewrite set_left_ne, HA1. }
  clear HA1 HA2 HA3 H1. destruct HB as (HB1 & HB2 & HB3).
  destruct (decide (right (h1 (Head t)) = Some z)); [|by simplify_eq].
  destruct (left (h1 z)); [inv_bind He as m Hm|]; simplify_eq.
  all: split_and!; [|by autorewrite with heap|by autorewrite with heap].
  all: intros x Hx; by rewrite set_right_ne, HB1.
Qed.

Lemma head_mid_nil (L1 : list nat) z L2 :
  NoDup (L1 ++ z :: L2) → head (L1 ++ z :: L2) = Some z → L1 = [].
Proof.
  destruct L1 as [|b L1]; [done|]. simpl. intros Hnd [= ->].
  apply NoDup_cons in Hnd as [Hnd _]. destruct Hnd. set_solver.
Qed.

Lemma head_mid_skip (L1 : list nat) z L2 :
  L1 ≠ [] → head (L1 ++ z :: L2) = head (L1 ++ L2).
Proof. by destruct L1. Qed.

Lemma last_mid_nil (L1 : list nat) z L2 :
  NoDup (L1 ++ z :: L2) → last (L1 ++ z :: L2) = Some z → L2 = [].
Proof.
  rewrite last_app_cons. destruct L2 as [|b L2]; [done|].
  change (last (z :: b :: L2)) with (last (b :: L2)).
  intros Hnd Hl%last_Some_elem_of. apply NoDup_app in Hnd as (_ & _ & Hnd).
  apply NoDup_cons in Hnd as [Hnd _]. by destruct Hnd.
Qed.

Lemma last_mid_skip (L1 : list nat) z L2 :
  L2 ≠ [] → last (L1 ++ z :: L2) = last (L1 ++ L2).
Proof. destruct L2 as [|b L2]; [done|]. intros _. by rewrite !last_app_cons. Qed.

Lemma inorder_nil s : inorder s = [] → s = E.
Proof. destruct s as [|l x r]; [done|]. simpl. by destruct (inorder l). Qed.

Lemma parent_eq h h' x : h' x = h x → parent h' x = parent h x.
Proof. by intros (_ & _ & ? & _)%same_node_eq. Qed.

Lemma erase_node_head_caches fuel h t c l z r hB :
  linked h t (plug c (T l z r)) → caches h t (plug c (T l z r)) →
  erase_node_head fuel t (Rec z) h = Ok hB →
  left (hB (Head t)) =
    Some (default (Head t)
            (Rec <$> head (ctx_before c ++ inorder l ++ inorder r ++ ctx_after c))) ∧
  right (hB (Head t)) =
    Some (default (Head t)
            (Rec <$> last (ctx_before c ++ inorder l ++ inorder r ++ ctx_after c))).
Proof.
  intros Hl [Hcl Hcr] He.
  pose proof Hl as (Hc & Hs & Hnd)%linked_plug.
  destruct Hs as (Hpz & Hlz & Hrz & Hsl & Hsr).
  rewrite inorder_plug in Hcl, Hcr.
  assert (Hre : ∀ X : list nat, ctx_before c ++ inorder (T l z r) ++ X =
                  (ctx_before c ++ inorder l) ++ z :: inorder r ++ X).
  { intros X. by app_norm. }
  rewrite Hre in Hcl, Hcr, Hnd. rewrite (app_assoc (ctx_before c)).
  unfold erase_node_head in He.
  set (hA := if decide (parent h (Head t) = Some (Rec z))
             then set_parent (Head t) None h else h) in *.
  assert (HA : (∀ q, hA (Rec q) = h (Rec q)) ∧ left (hA (Head t)) = left (h (Head t)) ∧
               right (hA (Head t)) = right (h (Head t))).
  { subst hA. destruct (decide (parent h (Head t) = Some (Rec z))); [|done].
    split_and!; [|by autorewrite with heap..]. intros q. by apply set_parent_ne. }
  clearbody hA. destruct HA as (HA1 & HA2 & HA3).
  inv_bind He as h1 H1.
  assert (HB : (∀ q, h1 (Rec q) = h (Rec q)) ∧
      left (h1 (Head t)) =
        Some (default (Head t)
                (Rec <$> head ((ctx_before c ++ inorder l) ++ inorder r ++ ctx_after c))) ∧
      right (h1 (Head t)) = right (h (Head t))).
  { destruct (decide (left (hA (Head t)) = Some (Rec z))) as [e|e];
      rewrite HA2, Hcl, default_rec_eq in e.
    - apply head_mid_nil in e as Hnil; [|done].
      apply app_eq_nil in Hnil as [Hcb Hil]. rewrite Hcb, Hil. simpl.
      rewrite HA1, Hrz in H1. destruct r as [|rl a rr]; simpl in H1.
      + simplify_eq. autorewrite with heap. rewrite decide_True by done.
        split_and!; [intros q; by rewrite set_left_ne, HA1| |done].
        rewrite (parent_eq h) by done. rewrite Hpz.
        destruct c as [|c' a r'|l' a c']; simpl in *; [done..|].
        by destruct (ctx_before c'), (inorder l').
      + inv_bind H1 as m Hm. simplify_eq.
        apply (find_minimum_sub _ _ (Rec z) rl a rr) in Hm as ->.
        * autorewrite with heap. rewrite decide_True by done.
          split_and!; [intros q; by rewrite set_left_ne, HA1| |done].
          by rewrite inorder_del_min.
        * eapply sub_frame; [|exact Hsr]. intros q _. apply same_node_links, same_node_eq, HA1.
    - simplify_eq. split_and!; [done| |done]. rewrite HA2, Hcl.
      rewrite head_mid_skip; [done|]. intros Hnil. rewrite Hnil in e. by apply e.  }
  clear HA1 HA2 HA3 H1 hA. destruct HB as (HB1 & HB2 & HB3).
  destruct (decide (right (h1 (Head t)) = Some (Rec z))) as [e|e];
    rewrite HB3, Hcr, default_rec_eq in e.
  - apply last_mid_nil in e as Hnil; [|done].
    apply app_eq_nil in Hnil as [Hir Hca]. rewrite Hir, Hca in *. simpl. rewrite !app_nil_r in *.
    rewrite HB1, Hlz in He. destruct l as [|ll lx lr]; simpl in He.
    + simplify_eq. autorewrite with heap. rewrite decide_True by done.
      split; [by rewrite HB2|].
      rewrite (parent_eq h) by done. rewrite Hpz. rewrite app_nil_r.
      destruct c as [|c' a r'|l' a c']; simpl in *; [done..|].
      by rewrite app_assoc, last_snoc.
    + inv_bind He as m Hm. simplify_eq.
      apply (find_maximum_sub _ _ (Rec z) ll lx lr) in Hm as ->.
      * autorewrite with heap. rewrite decide_True by done.
        split; [by rewrite HB2|].
        pose proof (last_inorder ll lx lr) as Hla.
        destruct (inorder (T ll lx lr)) as [|b B] eqn:HB; [done|].
        by rewrite last_app_cons, Hla.
      * eapply sub_frame; [|exact Hsl]. intros q _. apply same_node_links, same_node_eq, HB1.
  - simplify_eq. split; [done|]. rewrite HB3, Hcr.
    rewrite last_mid_skip; [done|]. intros Hnil. rewrite Hnil in e. apply e.
    by rewrite last_snoc.
Qed.

Lemma root_plug_ctx c s :
  c ≠ Top → ∃ a, root_ptr (plug c s) = Some (Rec a) ∧ a ∈ ctx_nodes c.
Proof.
  revert s. unfold ctx_nodes.
  induction c as [|c IH a r|l a c IH]; intros s Hc; [done|..]; simpl.
  - assert (c = Top ∨ c ≠ Top) as [->|Hc'] by (destruct c; auto); [exists a; set_solver|].
    destruct (IH (T s a r) Hc') as (b & ? & ?). exists b. set_solver.
  - assert (c = Top ∨ c ≠ Top) as [->|Hc'] by (destruct c; auto); [exists a; set_solver|].
    destruct (IH (T l a s) Hc') as (b & ? & ?). exists b. set_solver.
Qed.

Lemma erase_node_linked fuel h t c l z r h' :
  linked h t (plug c (T l z r)) →
  erase_node fuel t (Rec z) h = Ok h' →
  ∃ s', linked h' t s' ∧
        inorder s' = ctx_before c ++ inorder l ++ inorder r ++ ctx_after c ∧
        frame t (inorder (plug c (T l z r))) h h' ∧
        (caches h t (plug c (T l z r)) → caches h' t s').
Proof.
  intros Hl He. unfold erase_node in He.
  inv_bind He as hB HB. inv_bind He as [[x yred] h2] Hsp.
  pose proof (erase_node_head_frame _ _ _ _ _ HB) as (HB1 & HB2 & HB3).
  pose proof Hl as (Hc & Hs & Hnd)%linked_plug.
  assert (HfB : frame t (inorder (plug c (T l z r))) h hB).
  { split_and!; [|by intros; apply same_node_eq, HB1|done].
    intros u Hu. apply same_node_eq, HB1. congruence. }
  eapply (erase_node_splice_linked _ _ _ c l z r) in Hsp as (s' & Hl' & Hi' & (Hf' & Hcl' & Hcr') & Hx).
  - assert (Hsub : inorder s' ⊆ inorder (plug c (T l z r))).
    { rewrite Hi', inorder_plug. simpl. set_solver. }
    assert (∃ s'', linked h' t s'' ∧ inorder s'' = inorder s' ∧ frame t (inorder s') h2 h' ∧
              left (h' (Head t)) = left (h2 (Head t)) ∧
              right (h' (Head t)) = right (h2 (Head t))) as (s'' & Hl'' & Hi'' & Hf'' & Hcl'' & Hcr'').
    { destruct x as [x'|]; [|simplify_eq; by exists s'].
      destruct (negb yred); [|simplify_eq; by exists s'].
      destruct (Hx x' eq_refl) as (x1 & -> & Hx1).
      eapply erase_fixup_keeps in He as ((s'' & ? & ?) & ? & ? & ?); [|done..].
      by exists s''. }
    exists s''. split_and!; [done|congruence| |].
    + eapply frame_trans; [exact HfB|]. eapply frame_trans; [exact Hf'|].
      by eapply frame_mono.
    + intros Hca. destruct (erase_node_head_caches _ _ _ _ _ _ _ _ Hl Hca HB) as [H1 H2].
      unfold caches. rewrite Hi'', Hi'. split; congruence.
  - eapply sub_frame; [|exact Hs]. intros q _. apply same_node_links, same_node_eq, HB1. done.
  - intros Hct. eapply ctx_ok_frame; [| |exact Hc].
    + intros q _. apply same_node_links, same_node_eq, HB1. done.
    + rewrite !root_eq. apply HB3. destruct Hl as (Hr & _).
      rewrite root_eq in Hr. rewrite Hr.
      destruct (root_plug_ctx c (T l z r) Hct) as (a & -> & Ha).
      intros [= ->]. unfold ctx_nodes in Ha. simpl in Hnd. elem_absurd.
  - by rewrite inorder_plug.
Qed.

(** * [find] and [erase] *)

Section erase.
Context {K : Type} (is_less_than : K → K → bool) (get_key : nat → K).

Lemma find_node_path fuel key h t c s it :
  linked h t (plug c s) → path_ok is_less_than get_key key c →
  find_node is_less_than get_key fuel t key h (root_ptr s) = Ok it →
  (∃ c' l x r, it = Some (Rec x) ∧ plug c' (T l x r) = plug c s ∧
      key_equiv is_less_than key (get_key x) ∧ path_ok is_less_than get_key key c') ∨
  (∃ c', it = Some (Head t) ∧ plug c' E = plug c s ∧ path_ok is_less_than get_key key c').
Proof.
  revert c s. induction fuel as [|fuel IH]; intros c s Hl Hp Hd; [done|].
  destruct s as [|l x r']; simpl in Hd.
  - simplify_eq. right. by exists c.
  - pose proof Hl as (_ & (_ & Hlx & Hrx & _) & _)%linked_plug.
    destruct (is_less_than key (get_key x)) eqn:H1.
    + rewrite Hlx in Hd. by apply (IH (CL c x r') l) in Hd.
    + destruct (is_less_than (get_key x) key) eqn:H2.
      * rewrite Hrx in Hd. by apply (IH (CR l x c) r') in Hd.
      * simplify_eq. left. by exists c, l, x, r'.
Qed.

Lemma reset_node_linked h t s z : z ∉ inorder s → linked h t s → linked (reset_node (Rec z) h) t s.
Proof.
  intros Hz (Hr & Hs & Hnd). unfold reset_node.
  split_and!; [by autorewrite with heap in *| |done].
  eapply sub_frame; [|done]. links_solve.
Qed.

(** [erase]: either no record has an equal key and nothing is written,
    or the record found is taken out and handed back reset. *)
Lemma erase_linked fuel h t s key h' r :
  linked h t s →
  erase is_less_than get_key fuel t key h = Ok (h', r) →
  (r = None ∧ h' = h ∧ ∃ c, plug c E = s ∧ path_ok is_less_than get_key key c) ∨
  (∃ c l z r' s', r = Some (Rec z) ∧ s = plug c (T l z r') ∧
      key_equiv is_less_than key (get_key z) ∧
      path_ok is_less_than get_key key c ∧
      linked h' t s' ∧
      inorder s' = ctx_before c ++ inorder l ++ inorder r' ++ ctx_after c ∧
      frame t (inorder s) h h' ∧
      (caches h t s → caches h' t s') ∧
      parent h' (Rec z) = None ∧ left (h' (Rec z)) = None ∧ right (h' (Rec z)) = None).
Proof.
  intros Hl He. unfold erase in He.
  inv_bind He as it Hf.
  destruct (find_node_path fuel key h t Top s it Hl I) as
    [(c & l & x & r' & -> & Hs & Hk & Hp)|(c & -> & Hs & Hp)].
  { simpl. destruct Hl as [<- _]. exact Hf. }
  - simpl in Hs. subst s. right.
    unfold end_ in He. rewrite decide_False in He by done. simpl in He.
    inv_bind He as h2 Hen. simplify_eq.
    eapply erase_node_linked in Hen as (s' & Hl' & Hi' & Hf' & Hc'); [|done].
    assert (Hx : x ∉ inorder s').
    { rewrite Hi'. destruct Hl as (_ & _ & Hnd). rewrite inorder_plug in Hnd.
      simpl in Hnd. intros ?. elem_absurd. }
    exists c, l, x, r', s'. split_and!; [done..|by apply reset_node_linked|done| | | | |].
    + eapply frame_trans; [exact Hf'|]. unfold reset_node, frame, same_node.
      split_and!; [intros u Hu|intros q Hq; assert (q ≠ x) by (intros ->; apply Hq, plug_elem)|];
        split_and?; heap_solve.
    + intros Hca. destruct (Hc' Hca) as [H1 H2]. unfold caches, reset_node.
      autorewrite with heap. by rewrite !decide_False by done.
    + unfold reset_node. heap_solve.
    + unfold reset_node. heap_solve.
    + unfold reset_node. heap_solve.
  - simpl in Hs. subst s. left. unfold end_ in He. rewrite decide_True in He by done.
    simplify_eq. eauto.
Qed.
End erase.

(** * The iterator on a linked tree *)

Lemma NoDup_split_eq (A A' : list nat) x B B' :
  NoDup (A ++ x :: B) → A ++ x :: B = A' ++ x :: B' → A = A' ∧ B = B'.
Proof.
  revert A'. induction A as [|a A IH]; intros A' Hnd He.
  - destruct A' as [|a' A']; simpl in *; [by simplify_eq|].
    simplify_eq. apply NoDup_cons in Hnd as [Hnd _]. destruct Hnd. set_solver.
  - destruct A' as [|a' A']; simpl in *.
    + simplify_eq. apply NoDup_cons in Hnd as [Hnd _]. destruct Hnd. set_solver.
    + simplify_eq. apply NoDup_cons in Hnd as [_ Hnd].
      destruct (IH A' Hnd ltac:(done)) as [-> ->]. done.
Qed.

Lemma length_ctx_nodes_CL c a r : length (ctx_nodes c) < length (ctx_nodes (CL c a r)).
Proof. unfold ctx_nodes. simpl. repeat (rewrite ?length_app; simpl). lia. Qed.

Lemma length_ctx_nodes_CR l a c : length (ctx_nodes c) < length (ctx_nodes (CR l a c)).
Proof. unfold ctx_nodes. simpl. repeat (rewrite ?length_app; simpl). lia. Qed.

(** The climb of [next] from a node without a right child, and the
    test after it. *)
Lemma next_climb_spec fuel h t c l y r :
  linked h t (plug c (T l y r)) → caches h t (plug c (T l y r)) →
  length (ctx_nodes c) + 2 ≤ fuel →
  (let* (c, n) := next_climb fuel h (Rec y) (Some (ctx_par t c)) in
   if decide (right (h c) = n) then Ok (Some c) else Ok n) =
  Ok (Some (default (Head t) (Rec <$> head (ctx_after c)))).
Proof.
  revert fuel l y r. induction c as [|c IH a r'|l' a c IH]; intros fuel l y r Hl Hca Hf.
  - destruct fuel as [|[|fuel]]; [simpl in Hf; lia..|].
    pose proof Hl as (Hc & (Hpy & Hly & Hry & _) & Hnd)%linked_plug.
    simpl in Hc. rewrite root_eq in Hc.
    cbn [next_climb ctx_par deref bind].
    destruct (decide (right (h (Head t)) = Some (Rec y))) as [e|e].
    + rewrite Hc. cbn [deref bind root_ptr]. rewrite Hry.
      rewrite decide_False by (intros ?; elem_absurd).
      cbn [bind]. by rewrite decide_True.
    + cbn [bind]. rewrite Hry. rewrite decide_False; [done|]. intros ?. elem_absurd.
  - destruct fuel as [|fuel]; [simpl in Hf; lia|].
    pose proof Hl as (Hc & (Hpy & Hly & Hry & _) & Hnd)%linked_plug.
    destruct Hc as (Hla & Hra & _).
    cbn [next_climb ctx_par deref bind]. rewrite Hra.
    rewrite decide_False by (intros ?; elem_absurd).
    cbn [bind]. rewrite Hry. rewrite decide_False by (intros ?; elem_absurd). done.
  - destruct fuel as [|fuel]; [simpl in Hf; lia|].
    pose proof Hl as (Hc & (Hpy & Hly & Hry & _) & Hnd)%linked_plug.
    destruct Hc as (Hra & Hla & Hpa & _).
    cbn [next_climb ctx_par deref bind]. rewrite Hra.
    cbn [root_ptr]. rewrite decide_True by done. rewrite Hpa.
    apply (IH fuel l' a (T l y r)); [done..|].
    pose proof (length_ctx_nodes_CR l' a c). lia.
Qed.

Lemma next_spec fuel h t c l x r :
  linked h t (plug c (T l x r)) → caches h t (plug c (T l x r)) →
  length (inorder (plug c (T l x r))) + 2 ≤ fuel →
  next fuel h (Some (Rec x)) =
  Ok (Some (default (Head t) (Rec <$> head (inorder r ++ ctx_after c)))).
Proof.
  intros Hl Hca Hf. unfold next. cbn [deref bind].
  pose proof Hl as (Hc & (Hpx & Hlx & Hrx & Hsl & Hsr) & Hnd)%linked_plug.
  rewrite Hrx. rewrite inorder_plug in Hf. rewrite !length_app in Hf. simpl in Hf.
  rewrite !length_app in Hf. simpl in Hf.
  destruct r as [|rl a rr].
  - cbn [root_ptr]. rewrite Hpx. simpl. apply (next_climb_spec fuel h t c l x E); [done..|].
    unfold ctx_nodes. rewrite length_app. lia.
  - cbn [root_ptr]. erewrite find_minimum_total; [|exact Hsr|].
    + cbn [bind]. by rewrite inorder_del_min.
    + simpl in Hf. rewrite !length_app in Hf. lia.
Qed.

Lemma traverse_from_spec fuel n h t s pre post :
  linked h t s → caches h t s → inorder s = pre ++ post →
  length (inorder s) + 2 ≤ fuel → length post < n →
  traverse_from fuel n t h (Some (default (Head t) (Rec <$> head post))) = Ok post.
Proof.
  intros Hl Hca. revert n pre. induction post as [|x post IH]; intros n pre Hi Hf Hn.
  - destruct n; [simpl in Hn; lia|]. simpl. unfold end_. by rewrite decide_True.
  - destruct n; [simpl in Hn; lia|]. cbn [traverse_from head fmap option_fmap option_map default].
    unfold end_. rewrite decide_False by done. unfold id. cbn [deref bind to_value].
    assert (Hx : x ∈ inorder s) by (rewrite Hi; set_solver).
    destruct (elem_of_inorder_plug _ _ Hx) as (c & l & r & ->).
    erewrite next_spec; [|done..]. cbn [bind].
    assert (Hpost : inorder r ++ ctx_after c = post).
    { destruct Hl as (_ & _ & Hnd). rewrite inorder_plug in Hi, Hnd. simpl in Hi, Hnd.
      rewrite <- app_assoc in Hi, Hnd. simpl in Hi, Hnd. rewrite app_assoc in Hi, Hnd.
      by apply NoDup_split_eq in Hi as [_ ?]. }
    rewrite Hpost. rewrite (IH n (pre ++ [x])); [done| |done|simpl in Hn; lia].
    by rewrite <- app_assoc.
Qed.

(** With enough budget the traversal of a linked tree visits its
    records in their order in the tree. *)
Lemma traverse_spec fuel h t s :
  linked h t s → caches h t s → length (inorder s) + 2 ≤ fuel →
  traverse fuel t h = Ok (inorder s).
Proof.
  intros Hl Hca Hf. unfold traverse, begin. destruct Hca as [Hcl Hcr]. rewrite Hcl.
  apply (traverse_from_spec fuel fuel h t s []); [done|by split|done|done|lia].
Qed.

(** * Key order *)

Section ordering.
Context {K : Type} (is_less_than : K → K → bool) (get_key : nat → K).


Lemma ordered_cons x l : ordered is_less_than get_key (x :: l) ↔ (∀ y, y ∈ l → key_lt is_less_than get_key x y) ∧ ordered is_less_than get_key l.
Proof.
  unfold ordered. split.
  - intros [? ?]%StronglySorted_inv. split; [|done]. by apply Forall_forall.
  - intros [? ?]. constructor; [done|]. by apply Forall_forall.
Qed.

Lemma ordered_app l k :
  ordered is_less_than get_key (l ++ k) ↔ ordered is_less_than get_key l ∧ ordered is_less_than get_key k ∧ ∀ x y, x ∈ l → y ∈ k → key_lt is_less_than get_key x y.
Proof.
  induction l as [|a l IH]; simpl.
  - split; [|by intros (_ & ? & _)]. intros ?. split_and!; [constructor|done|].
    by intros ?? ?%elem_of_nil.
  - rewrite !ordered_cons, IH. split.
    + intros (Ha & Hl & Hk & Hlk). split_and!; [set_solver|done..|].
      intros x y [->|Hx]%elem_of_cons Hy; [apply Ha; set_solver|by apply Hlk].
    + intros ((Ha & Hl) & Hk & Hlk). split_and!; [|done..|set_solver].
      intros y [Hy|Hy]%elem_of_app; [by apply Ha|apply Hlk; set_solver].
Qed.

Lemma ordered_remove l z k : ordered is_less_than get_key (l ++ z :: k) → ordered is_less_than get_key (l ++ k).
Proof.
  rewrite !ordered_app, ordered_cons. intros (? & (? & ?) & Hlk).
  split_and!; [done..|]. intros x y ??. apply Hlk; set_solver.
Qed.

Hypothesis lt_irrefl : ∀ a, is_less_than a a = false.
Hypothesis lt_trans : ∀ a b c,
  is_less_than a b = true → is_less_than b c = true → is_less_than a c = true.

Lemma ordered_NoDup l : ordered is_less_than get_key l → NoDup l.
Proof.
  induction l as [|a l IH]; [constructor|].
  rewrite ordered_cons. intros [Ha Hl]. constructor; [|by apply IH].
  intros Hin. specialize (Ha a Hin). unfold key_lt in Ha. by rewrite lt_irrefl in Ha.
Qed.

(** The keys on the two sides of the hole a descent arrives at. *)
Lemma path_bounds key c s :
  path_ok is_less_than get_key key c → ordered is_less_than get_key (inorder (plug c s)) →
  (∀ x, x ∈ ctx_before c → is_less_than (get_key x) key = true) ∧
  (∀ x, x ∈ ctx_after c → is_less_than key (get_key x) = true).
Proof.
  clear lt_irrefl.
  revert s. induction c as [|c IH a r|l a c IH]; intros s Hp Ho.
  - split; by intros ? ?%elem_of_nil.
  - destruct Hp as [Ha Hp]. simpl in Ho. destruct (IH _ Hp Ho) as [Hb Haf].
    split; [done|]. simpl. intros x [->|[Hx|Hx]%elem_of_app]%elem_of_cons; [done| |by apply Haf].
    apply (lt_trans _ (get_key a)); [done|].
    rewrite inorder_plug in Ho. simpl in Ho.
    apply ordered_app in Ho as (_ & Ho & _). apply ordered_app in Ho as (Ho & _).
    apply ordered_app in Ho as (_ & Ho & _). apply ordered_cons in Ho as [Ho _]. by apply Ho.
  - destruct Hp as (Ha & Ha' & Hp). simpl in Ho. destruct (IH _ Hp Ho) as [Hb Haf].
    split; [|done]. simpl.
    intros x [Hx|[Hx|Hx%list_elem_of_singleton]%elem_of_app]%elem_of_app;
      [by apply Hb| |by subst].
    apply (lt_trans _ (get_key a)); [|done].
    rewrite inorder_plug in Ho. simpl in Ho.
    apply ordered_app in Ho as (_ & Ho & _). apply ordered_app in Ho as (Ho & _).
    apply ordered_app in Ho as (_ & _ & Ho). apply Ho; set_solver.
Qed.

Lemma path_fresh key c v :
  path_ok is_less_than get_key key c → ordered is_less_than get_key (inorder (plug c E)) → get_key v = key →
  v ∉ inorder (plug c E).
Proof.
  intros Hp Ho <-. destruct (path_bounds _ _ _ Hp Ho) as [Hb Ha].
  rewrite inorder_plug. simpl. intros [Hv|Hv]%elem_of_app.
  - specialize (Hb _ Hv). by rewrite lt_irrefl in Hb.
  - specialize (Ha _ Hv). by rewrite lt_irrefl in Ha.
Qed.

Lemma path_ordered c v :
  path_ok is_less_than get_key (get_key v) c → ordered is_less_than get_key (inorder (plug c E)) →
  ordered is_less_than get_key (inorder (plug c (T E v E))).
Proof.
  clear lt_irrefl.
  intros Hp Ho. destruct (path_bounds _ _ _ Hp Ho) as [Hb Ha].
  rewrite inorder_plug in *. simpl in *.
  apply ordered_app in Ho as (H1 & H2 & H3).
  apply ordered_app. split_and!; [done| |].
  - apply ordered_cons. split; [|done]. intros y Hy. by apply Ha.
  - intros x y Hx [->|Hy]%elem_of_cons; [by apply Hb|by apply H3].
Qed.

(** ** What a sequence of calls keeps *)

(** The tree is linked, its caches are right and its records are in
    strictly increasing key order. *)
Lemma run_call_ordered fuel t c h h' s :
  linked h t s → caches h t s → ordered is_less_than get_key (inorder s) →
  run_call is_less_than get_key fuel t c h = Ok h' →
  ∃ s', linked h' t s' ∧ caches h' t s' ∧ ordered is_less_than get_key (inorder s').
Proof.
  intros Hl Hca Ho Hr. destruct c as [v|k]; simpl in Hr.
  - inv_bind Hr as [h1 r] Hi. simpl in Hr. simplify_eq.
    assert (Hfr : ∀ c, plug c E = s → path_ok is_less_than get_key (get_key v) c → v ∉ inorder s).
    { intros c <- Hp. by eapply path_fresh. }
    destruct (insert_linked _ _ _ _ _ _ _ _ _ Hl Hfr Hi) as
      [(x & _ & -> & _)|(c & s' & _ & <- & Hp & Hl' & Hi' & _ & Hc')]; [eauto|].
    exists s'. split_and!; [done|by apply Hc'|]. rewrite Hi'. by apply path_ordered.
  - inv_bind Hr as [h1 r] He. simpl in Hr. simplify_eq.
    destruct (erase_linked _ _ _ _ _ _ _ _ _ Hl He) as
      [(_ & -> & _)|(c & l & z & r' & s' & _ & -> & _ & _ & Hl' & Hi' & _ & Hc' & _)];
      [eauto|].
    exists s'. split_and!; [done|by apply Hc'|]. rewrite Hi'.
    rewrite inorder_plug in Ho. simpl in Ho.
    rewrite <- app_assoc in Ho. simpl in Ho. rewrite app_assoc in Ho.
    apply ordered_remove in Ho. by rewrite <- app_assoc in Ho.
Qed.

Lemma run_calls_ordered fuel t cs h h' s :
  linked h t s → caches h t s → ordered is_less_than get_key (inorder s) →
  run_calls is_less_than get_key fuel t cs h = Ok h' →
  ∃ s', linked h' t s' ∧ caches h' t s' ∧ ordered is_less_than get_key (inorder s').
Proof.
  revert h s. induction cs as [|c cs IH]; intros h s Hl Hca Ho Hr; simpl in Hr.
  - simplify_eq. eauto.
  - inv_bind Hr as h1 Hc.
    destruct (run_call_ordered _ _ _ _ _ _ Hl Hca Ho Hc) as (s1 & ? & ? & ?). eauto.
Qed.

Lemma rbtree_new_linked t h : linked (rbtree_new t h) t E ∧ caches (rbtree_new t h) t E.
Proof.
  unfold rbtree_new. change (store (Head t) fresh_node h) with (reset (Head t) h).
  unfold linked, caches. simpl. split_and!; try heap_solve. constructor.
Qed.

Lemma ordered_lookup vs i j a b :
  ordered is_less_than get_key vs → i < j → vs !! i = Some a → vs !! j = Some b → key_lt is_less_than get_key a b.
Proof.
  revert i j. induction vs as [|v vs IH]; intros i j Ho Hij Hi Hj; [done|].
  apply ordered_cons in Ho as [Hv Ho].
  destruct j as [|j]; [lia|]. destruct i as [|i]; simpl in *.
  - simplify_eq. apply Hv. by eapply list_elem_of_lookup_2.
  - apply (IH i j); [done|lia|done..].
Qed.

End ordering.

(** * Inserting a key that is there already *)

Section duplicates.
Context {K : Type} (is_less_than : K → K → bool) (get_key : nat → K).
Hypothesis lt_trans : ∀ a b c,
  is_less_than a b = true → is_less_than b c = true → is_less_than a c = true.
Hypothesis lt_cotrans : ∀ a b c,
  is_less_than a b = true → is_less_than a c = true ∨ is_less_than c b = true.

(** In a tree in key order, the descent for a key that compares equal
    to the key of the linked record [x] ends at [x]. *)
Lemma insert_descent_equal fuel key h t s x :
  linked h t s → ordered is_less_than get_key (inorder s) →
  x ∈ inorder s → key_equiv is_less_than key (get_key x) →
  length (inorder s) < fuel →
  insert_descent is_less_than get_key fuel key h None (root t h) = Ok (inl (Rec x)).
Proof.
  intros Hl Ho Hx [Hk1 Hk2] Hf.
  destruct (insert_descent_total is_less_than get_key fuel key h t Top s Hl Hf) as (d & Hd).
  simpl in Hd. destruct Hl as [Hr Hl']. rewrite <- Hr in Hd. rewrite Hd. f_equal.
  pose proof (conj Hr Hl') as Hl. rewrite Hr in Hd.
  destruct (insert_descent_path is_less_than get_key fuel key h t Top s d Hl I Hd) as
    [(c & l & x' & r' & -> & Hs & [He1 He2] & Hp)|(c & -> & Hs & Hp)].
  - simpl in Hs. do 2 f_equal. destruct (decide (x' = x)) as [|Hne]; [done|exfalso].
    assert (Hx' : x' ∈ inorder s) by (rewrite <- Hs; apply plug_elem).
    apply list_elem_of_lookup in Hx as [i Hi]. apply list_elem_of_lookup in Hx' as [j Hj].
    assert (i ≠ j) by (intros ->; congruence).
    destruct (decide (i < j)) as [Hlt|Hge].
    + pose proof (ordered_lookup _ _ _ _ _ _ _ Ho Hlt Hi Hj) as Hab. unfold key_lt in Hab.
      destruct (lt_cotrans _ _ key Hab); congruence.
    + assert (Hlt : j < i) by lia.
      pose proof (ordered_lookup _ _ _ _ _ _ _ Ho Hlt Hj Hi) as Hab. unfold key_lt in Hab.
      destruct (lt_cotrans _ _ key Hab); congruence.
  - exfalso. simpl in Hs. subst s.
    destruct (path_bounds is_less_than get_key lt_trans _ _ _ Hp Ho) as [Hb Ha].
    rewrite inorder_plug in Hx. simpl in Hx. apply elem_of_app in Hx as [Hx|Hx].
    + specialize (Hb _ Hx). congruence.
    + specialize (Ha _ Hx). congruence.
Qed.

(** C8.  In a tree whose records are in key order under a comparator
    that is transitive and whose incomparability is transitive, if the
    key compares equal to the key of the linked record
    [x], then, with a step budget above the number of records,
    [insert] of any record with that key returns [(x, false)] and the
    heap it was given, and so does [insert_for_key], whatever the
    factory is and with the factory's state as it was: the factory is
    not called. *)
Theorem insert_equal_key_returns_existing fuel key h t s x :
  linked h t s → ordered is_less_than get_key (inorder s) →
  x ∈ inorder s → key_equiv is_less_than key (get_key x) →
  length (inorder s) < fuel →
  (∀ value, get_key value = key →
     insert is_less_than get_key fuel t value h = Ok (h, (Some (Rec x), false))) ∧
  (∀ (S : Type) (fn : S → nat * S) (st : S),
     insert_for_key is_less_than get_key fuel t key fn st h =
     Ok (h, st, (Some (Rec x), false))).
Proof.
  intros Hl Ho Hx Hk Hf.
  pose proof (insert_descent_equal fuel key h t s x Hl Ho Hx Hk Hf) as Hd.
  split.
  - intros value <-. unfold insert. by rewrite Hd.
  - intros S fn st. unfold insert_for_key. by rewrite Hd.
Qed.
End duplicates.

Lemma insert_equal_key_returns_existing_witness :
  (∀ a b c, Nat.ltb a b = true → Nat.ltb b c = true → Nat.ltb a c = true) ∧
  (∀ a b c, Nat.ltb a b = true → Nat.ltb a c = true ∨ Nat.ltb c b = true) ∧
  linked mod_heap 0 (T (T E 1 E) 2 (T E 3 E)) ∧
  ordered Nat.ltb mod_key (inorder (T (T E 1 E) 2 (T E 3 E))) ∧
  3 ∈ inorder (T (T E 1 E) 2 (T E 3 E)) ∧
  key_equiv Nat.ltb 3 (mod_key 3) ∧
  length (inorder (T (T E 1 E) 2 (T E 3 E))) < 64 ∧
  (∀ value, mod_key value = 3 →
     insert Nat.ltb mod_key 64 0 value mod_heap = Ok (mod_heap, (Some (Rec 3), false))) ∧
  (∀ (S : Type) (fn : S → nat * S) (st : S),
     insert_for_key Nat.ltb mod_key 64 0 3 fn st mod_heap =
     Ok (mod_heap, st, (Some (Rec 3), false))).
Proof.
  assert (H2 : ∀ a b c, Nat.ltb a b = true → Nat.ltb b c = true → Nat.ltb a c = true).
  { intros a b c. rewrite !Nat.ltb_lt. lia. }
  assert (H3 : ∀ a b c, Nat.ltb a b = true → Nat.ltb a c = true ∨ Nat.ltb c b = true).
  { intros a b c. rewrite !Nat.ltb_lt. lia. }
  assert (H4 : linked mod_heap 0 (T (T E 1 E) 2 (T E 3 E))).
  { split_and!; [vm_compute; reflexivity|vm_compute; tauto|].
    compute_done. }
  assert (H5 : ordered Nat.ltb mod_key (inorder (T (T E 1 E) 2 (T E 3 E)))).
  { repeat constructor. }
  assert (H6 : 3 ∈ inorder (T (T E 1 E) 2 (T E 3 E))).
  { compute_done. }
  assert (H7 : key_equiv Nat.ltb 3 (mod_key 3)) by (split; reflexivity).
  assert (H8 : length (inorder (T (T E 1 E) 2 (T E 3 E))) < 64) by (simpl; lia).
  split_and!; [done..| |];
    apply (insert_equal_key_returns_existing Nat.ltb mod_key H2 H3 64 3 mod_heap 0
             (T (T E 1 E) 2 (T E 3 E)) 3 H4 H5 H6 H7 H8).
Defined.

(** * [clear_and_dispose_helper] *)

Lemma shape_frame h h' s :
  (∀ q, q ∈ inorder s →
        left (h' (Rec q)) = left (h (Rec q)) ∧ right (h' (Rec q)) = right (h (Rec q))) →
  shape h s → shape h' s.
Proof.
  induction s as [|l IHl x r IHr]; [done|]. simpl. intros Hf (Hl & Hr & Hsl & Hsr).
  destruct (Hf x ltac:(set_solver)) as [-> ->].
  split_and!; [done..|apply IHl|apply IHr]; [|done| |done]; intros q Hq; apply Hf; set_solver.
Qed.

Lemma sub_shape h par s : sub h par s → shape h s.
Proof.
  revert par. induction s as [|l IHl x r IHr]; intros par; [done|]. simpl.
  intros (_ & ? & ? & ? & ?). split_and!; eauto.
Qed.

Lemma nodes_length s : nodes s = length (inorder s).
Proof.
  induction s as [|l IHl x r IHr]; [done|]. simpl. rewrite length_app. simpl. lia.
Qed.

Lemma dispose_steps_le s : dispose_steps s ≤ 2 * nodes s.
Proof. induction s as [|l IHl x r IHr]; simpl; lia. Qed.

(** The walk hands every record of the subtree over, in order, writes
    to the child references of these records only, and takes
    [dispose_steps] turns. *)
Lemma dispose_spec fuel s h acc :
  shape h s → NoDup (inorder s) → dispose_steps s < fuel →
  ∃ h', clear_and_dispose_helper fuel (root_ptr s) h acc = Ok (h', acc ++ inorder s) ∧
        (∀ y, y ∉ Rec <$> inorder s → h' y = h y) ∧
        (∀ y, is_red h' y = is_red h y ∧ parent h' y = parent h y).
Proof.
  revert s h acc. induction fuel as [|fuel IH]; intros s h acc Hs Hnd Hf; [lia|].
  destruct s as [|l x r].
  { exists h. simpl. by rewrite app_nil_r. }
  destruct Hs as (Hl & Hr & Hsl & Hsr). cbn [clear_and_dispose_helper root_ptr]. rewrite Hl.
  destruct l as [|ll a lr]; cbn [root_ptr].
  - cbn [to_value bind]. rewrite Hr. simpl in Hnd, Hf. apply NoDup_cons in Hnd as [Hx Hnd].
    destruct (IH r h (acc ++ [x]) Hsr Hnd ltac:(lia)) as (h' & -> & Hfr & Hcp).
    exists h'. split_and!; [by rewrite <- app_assoc| |done].
    intros y Hy. apply Hfr. set_solver.
  - destruct Hsl as (Hla & Hra & Hsll & Hslr). rewrite Hra.
    set (h1 := set_right (Rec a) (Some (Rec x)) (set_left (Rec x) (root_ptr lr) h)).
    simpl in Hnd. 
    assert (Hnd' : NoDup (inorder (T ll a (T lr x r)))).
    { simpl. by rewrite <- app_assoc in Hnd. }
    rewrite <- app_assoc in Hnd. simpl in Hnd. elem_norm.
    destruct (IH (T ll a (T lr x r)) h1 acc) as (h' & He & Hfr & Hcp).
    + subst h1. simpl.
      split_and!; try (eapply shape_frame; [|done]; intros q Hq; split); heap_solve.
    + done.
    + simpl in *. lia.
    + cbn [root_ptr] in He. rewrite He. exists h'. split_and!.
      * simpl. by rewrite <- !app_assoc.
      * intros y Hy. rewrite Hfr.
        -- subst h1. rewrite set_right_ne, set_left_ne; [done|..]; intros ->; apply Hy; simpl; set_solver.
        -- intros Hy'. apply Hy. simpl in *. set_solver.
      * intros y. destruct (Hcp y) as [-> ->]. subst h1. by autorewrite with heap.
Qed.

(** * The walk of [clone] *)

Lemma is_red_eq h h' x : h' x = h x → is_red h' x = is_red h x.
Proof. by intros (_ & _ & _ & ?)%same_node_eq. Qed.

Lemma same_colours_orig h0 h h' s s' :
  (∀ q, q ∈ inorder s → is_red h (Rec q) = is_red h0 (Rec q)) →
  same_colours h0 h' s s' → same_colours h h' s s'.
Proof.
  revert s'. induction s as [|l IHl x r IHr]; intros s' Hq; [done|].
  destruct s' as [|l' c r']; [done|]. simpl. intros (Hc & Hl & Hr).
  split_and!; [rewrite Hq by set_solver; done|apply IHl|apply IHr]; try done.
  all: intros q Hin; apply Hq; set_solver.
Qed.

Lemma same_colours_clone h h1 h2 s s' :
  (∀ c, c ∈ inorder s' → is_red h2 (Rec c) = is_red h1 (Rec c)) →
  same_colours h h1 s s' → same_colours h h2 s s'.
Proof.
  revert s'. induction s as [|l IHl x r IHr]; intros s' Hq; [done|].
  destruct s' as [|l' c r']; [done|]. simpl. intros (Hc & Hl & Hr).
  split_and!; [rewrite Hq by set_solver; done|apply IHl|apply IHr]; try done.
  all: intros q Hin; apply Hq; simpl; set_solver.
Qed.

Section clone_walk.
Context {Err : Type} (cloner : nat → Err + nat) (t rv : nat).

Lemma clone_tree_root s s' :
  clone_tree cloner s = (s', None) → (root_ptr s = None ↔ root_ptr s' = None).
Proof.
  destruct s as [|l x r]; simpl; [by intros [= <-]|].
  destruct (cloner x); [done|]. destruct (clone_tree cloner l) as [l' [e|]]; [done|].
  destruct (clone_tree cloner r). by intros [= <- _].
Qed.

Lemma clone_tree_T l x r :
  clone_tree cloner (T l x r) =
  match cloner x with
  | inl e => (E, Some e)
  | inr c => let '(l', r', er) := clone_kids cloner l r in (T l' c r', er)
  end.
Proof.
  simpl. unfold clone_kids. destruct (cloner x); [done|].
  destruct (clone_tree cloner l) as [l' [e|]]; [done|]. by destruct (clone_tree cloner r).
Qed.

(** One turn of the loop that goes down to the left. *)
Lemma clone_step_left h x lx cx :
  left (h (Rec x)) = Some (Rec lx) → left (h (Rec cx)) = None →
  match cloner lx with
  | inl e => ∀ k, clone_loop cloner (S k) t rv (Rec x) (Rec cx) h = Ok (h, Some e)
  | inr clx =>
      ∃ h1, is_red h1 (Rec clx) = is_red h (Rec lx) ∧
        (∀ k, clone_loop cloner (S k) t rv (Rec x) (Rec cx) h =
                  clone_loop cloner k t rv (Rec lx) (Rec clx) h1) ∧
        (∀ q, q ≠ cx → q ≠ clx → h1 (Rec q) = h (Rec q)) ∧
        (∀ u, u ≠ rv → h1 (Head u) = h (Head u)) ∧
        is_red h1 (Head rv) = is_red h (Head rv) ∧
        parent h1 (Head rv) = parent h (Head rv) ∧
        parent h1 (Rec clx) = Some (Rec cx) ∧
        (cx ≠ clx →
         left (h1 (Rec cx)) = Some (Rec clx) ∧ right (h1 (Rec cx)) = right (h (Rec cx)) ∧
         parent h1 (Rec cx) = parent h (Rec cx) ∧ is_red h1 (Rec cx) = is_red h (Rec cx) ∧
         left (h1 (Rec clx)) = left (h (Rec clx)) ∧ right (h1 (Rec clx)) = right (h (Rec clx)))
  end.
Proof.
  intros Hl Hc. cbn [clone_loop]. rewrite Hl, Hc. unfold call_cloner. cbn [to_value bind].
  destruct (cloner lx) as [e|clx]; cbn [bind]; [done|].
  set (hb := set_parent (Rec clx) (Some (Rec cx)) (set_left (Rec cx) (Some (Rec clx))
               (set_color (Rec clx) (is_red h (Rec lx)) h))).
  exists (if decide (left (hb (Rec lx)) = left (hb (Head t)))
          then set_left (Head rv) (Some (Rec clx)) hb else hb).
  split; [destruct (decide _); subst hb; heap_solve|].
  split; [done|].
  destruct (decide (left (hb (Rec lx)) = left (hb (Head t)))); subst hb.
  all: split_and!; [intros q ??|intros u ?|..|intros ?; split_and!]; try heap_solve.
  all: repeat first [rewrite set_left_ne by congruence | rewrite set_parent_ne by congruence
                    | rewrite set_color_ne by congruence]; done.
Qed.

(** One turn of the loop that goes down to the right. *)
Lemma clone_step_right h x rx cx :
  (left (h (Rec x)) = None ∨ left (h (Rec cx)) ≠ None) →
  right (h (Rec x)) = Some (Rec rx) → right (h (Rec cx)) = None →
  match cloner rx with
  | inl e => ∀ k, clone_loop cloner (S k) t rv (Rec x) (Rec cx) h = Ok (h, Some e)
  | inr crx =>
      ∃ h1, is_red h1 (Rec crx) = is_red h (Rec rx) ∧
        (∀ k, clone_loop cloner (S k) t rv (Rec x) (Rec cx) h =
                  clone_loop cloner k t rv (Rec rx) (Rec crx) h1) ∧
        (∀ q, q ≠ cx → q ≠ crx → h1 (Rec q) = h (Rec q)) ∧
        (∀ u, u ≠ rv → h1 (Head u) = h (Head u)) ∧
        is_red h1 (Head rv) = is_red h (Head rv) ∧
        parent h1 (Head rv) = parent h (Head rv) ∧
        parent h1 (Rec crx) = Some (Rec cx) ∧
        (cx ≠ crx →
         right (h1 (Rec cx)) = Some (Rec crx) ∧ left (h1 (Rec cx)) = left (h (Rec cx)) ∧
         parent h1 (Rec cx) = parent h (Rec cx) ∧ is_red h1 (Rec cx) = is_red h (Rec cx) ∧
         left (h1 (Rec crx)) = left (h (Rec crx)) ∧ right (h1 (Rec crx)) = right (h (Rec crx)))
  end.
Proof.
  intros Hd Hr Hc.
  assert (Hstep : ∀ k, clone_loop cloner (S k) t rv (Rec x) (Rec cx) h =
    let* c := call_cloner cloner (Rec rx) in
    match c with
    | inl e => Ok (h, Some e)
    | inr node_clone =>
        let h := set_color node_clone (is_red h (Rec rx)) h in
        let h := set_right (Rec cx) (Some node_clone) h in
        let h := set_parent node_clone (Some (Rec cx)) h in
        let h := if decide (right (h (Rec rx)) = right (h (Head t)))
                 then set_right (Head rv) (Some node_clone) h else h in
        clone_loop cloner k t rv (Rec rx) node_clone h
    end).
  { intros k. cbn [clone_loop]. rewrite Hr, Hc.
    destruct Hd as [->|Hd]; [done|].
    destruct (left (h (Rec x))); [|done]. by destruct (left (h (Rec cx))). }
  unfold call_cloner in Hstep. cbn [to_value bind] in Hstep.
  destruct (cloner rx) as [e|crx]; cbn [bind] in Hstep; [done|]. cbn zeta in Hstep.
  set (hb := set_parent (Rec crx) (Some (Rec cx)) (set_right (Rec cx) (Some (Rec crx))
               (set_color (Rec crx) (is_red h (Rec rx)) h))) in *.
  exists (if decide (right (hb (Rec rx)) = right (hb (Head t)))
          then set_right (Head rv) (Some (Rec crx)) hb else hb).
  split; [destruct (decide _); subst hb; heap_solve|].
  split; [done|]. clear Hstep.
  destruct (decide (right (hb (Rec rx)) = right (hb (Head t)))); subst hb.
  all: split_and!; [intros q ??|intros u ?|..|intros ?; split_and!]; try heap_solve.
  all: repeat first [rewrite set_right_ne by congruence | rewrite set_parent_ne by congruence
                    | rewrite set_color_ne by congruence]; done.
Qed.

(** One turn of the loop that goes up. *)
Lemma clone_step_up h x cx px pcx k :
  (left (h (Rec x)) = None ∨ left (h (Rec cx)) ≠ None) →
  (right (h (Rec x)) = None ∨ right (h (Rec cx)) ≠ None) →
  parent h (Rec x) = Some px → parent h (Rec cx) = Some pcx →
  clone_loop cloner (S k) t rv (Rec x) (Rec cx) h =
  if decide (px = Head t) then Ok (h, None) else clone_loop cloner k t rv px pcx h.
Proof.
  intros Hl Hr Hp Hpc. cbn [clone_loop]. rewrite Hp, Hpc.
  destruct (left (h (Rec x))), (left (h (Rec cx))), (right (h (Rec x))),
    (right (h (Rec cx))); cbn [deref bind]; naive_solver.
Qed.

Lemma clone_kids_None l r l' r' :
  clone_kids cloner l r = (l', r', None) →
  clone_tree cloner l = (l', None) ∧ clone_tree cloner r = (r', None).
Proof.
  unfold clone_kids. destruct (clone_tree cloner l) as [l1 [e|]]; [done|].
  destruct (clone_tree cloner r) as [r1 er]. by intros [= -> -> ->].
Qed.

Lemma sub_eq h h' par s :
  (∀ q, q ∈ inorder s → h' (Rec q) = h (Rec q)) → sub h par s → sub h' par s.
Proof.
  intros He. apply sub_frame. intros q Hq. by apply same_node_links, same_node_eq, He.
Qed.

(** The clones below [cx] on the left. *)
Lemma clone_phase_left dom n l x h cx l' el :
  clone_kids_spec cloner t rv dom n →
  nodes l ≤ S n →
  clone_tree cloner l = (l', el) →
  x ∈ dom → inorder l ⊆ dom →
  left (h (Rec x)) = root_ptr l → sub h (Rec x) l →
  left (h (Rec cx)) = None →
  NoDup (cx :: inorder l') → disj (cx :: inorder l') dom → childless h (inorder l') →
  ∃ h1,
    same_colours h h1 l l' ∧
    sub h1 (Rec cx) l' ∧ left (h1 (Rec cx)) = root_ptr l' ∧
    right (h1 (Rec cx)) = right (h (Rec cx)) ∧
    parent h1 (Rec cx) = parent h (Rec cx) ∧
    is_red h1 (Rec cx) = is_red h (Rec cx) ∧
    (∀ q, q ∉ cx :: inorder l' → h1 (Rec q) = h (Rec q)) ∧
    (∀ u, u ≠ rv → h1 (Head u) = h (Head u)) ∧
    is_red h1 (Head rv) = is_red h (Head rv) ∧
    parent h1 (Head rv) = parent h (Head rv) ∧
    ∀ k, clone_loop cloner (2 * nodes l + k) t rv (Rec x) (Rec cx) h =
         match el with
         | Some e => Ok (h1, Some e)
         | None => clone_loop cloner k t rv (Rec x) (Rec cx) h1
         end.
Proof.
  intros IH Hn Hcl Hx Hdl Hlx Hsl Hlc Hnd Hdj Hch.
  destruct l as [|ll lx lr].
  { simpl in Hcl. simplify_eq. exists h. by split_and!. }
  rewrite clone_tree_T in Hcl. cbn [root_ptr] in Hlx.
  pose proof (clone_step_left h x lx cx Hlx Hlc) as Hstep.
  destruct (cloner lx) as [e|clx].
  { simplify_eq. exists h. split_and!; [done..|].
    intros k. replace (2 * nodes (T ll lx lr) + k) with (S (2 * nodes (T ll lx lr) + k - 1))
      by (simpl; lia). apply Hstep. }
  destruct (clone_kids cloner ll lr) as [[ll' lr'] erl] eqn:Hkl. simplify_eq.
  destruct Hstep as (ha & Hcola & Hsa & Hfa & Hha & Hra & Hpa & Hpc & Hca).
  destruct Hsl as (Hplx & Hllx & Hrlx & Hsll & Hslr).
  simpl in Hnd, Hdj, Hch, Hdl, Hn.
  assert (Hlxd : lx ∈ dom) by (apply Hdl; set_solver).
  assert (Hlld : inorder ll ⊆ dom) by set_solver.
  assert (Hlrd : inorder lr ⊆ dom) by set_solver.
  assert (Hdo : ∀ q, q ∈ dom → q ≠ cx ∧ q ≠ clx ∧ q ∉ inorder ll' ∧ q ∉ inorder lr').
  { intros q Hq. split_and!; [intros ->|intros ->|intros ?|intros ?]; elem_absurd. }
  assert (Hcc : cx ≠ clx) by (intros ->; elem_absurd).
  destruct (Hca Hcc) as (Hlca & Hrca & Hpca & Hica & Hlcl & Hrcl).
  destruct (Hch clx ltac:(set_solver)) as [Hcl1 Hcl2].
  destruct (IH ll lx lr ha clx (Rec cx) ll' lr' el) as
    (hc & (Hkl1 & Hkl2) & Hsc & Hfc & Hhc & Hrc & Hpcv & Hic & Hloop).
  { lia. }
  { done. }
  { done. }
  { done. }
  { done. }
  { rewrite Hfa by (by apply Hdo). done. }
  { rewrite Hfa by (by apply Hdo). done. }
  { eapply sub_eq; [|done]. intros q Hq. apply Hfa; apply Hdo; auto. }
  { eapply sub_eq; [|done]. intros q Hq. apply Hfa; apply Hdo; auto. }
  { congruence. }
  { congruence. }
  { done. }
  { nodup_solve. }
  { nodup_solve. }
  { intros c Hc. rewrite Hfa; [apply Hch; set_solver|intros ->; elem_absurd..]. }
  assert (Hcx : cx ∉ clx :: inorder ll' ++ inorder lr') by (intros ?; elem_absurd).
  exists hc. split.
  { simpl. split_and!; [by rewrite Hic|..];
      (eapply same_colours_orig; [|done]); intros q Hq; symmetry; apply is_red_eq, Hfa;
      apply Hdo; set_solver. }
  split_and!.
  - done.
  - by rewrite Hfc.
  - by rewrite Hfc.
  - rewrite (parent_eq ha) by (by apply Hfc). done.
  - rewrite (is_red_eq ha) by (by apply Hfc). done.
  - intros q Hq. rewrite Hfc by set_solver. apply Hfa; set_solver.
  - intros u Hu. rewrite Hhc by done. by apply Hha.
  - congruence.
  - congruence.
  - intros k.
    replace (2 * nodes (T ll lx lr) + k) with (S (2 * (nodes ll + nodes lr) + S k))
      by (simpl; lia).
    rewrite Hsa, Hloop. destruct el as [e|]; [done|].
    apply clone_kids_None in Hkl as [Hk1 Hk2].
    apply clone_tree_root in Hk1, Hk2.
    destruct Hsc as (Hpclx & Hlclx & Hrclx & _).
    assert (Hol : ∀ q, q ∈ dom → hc (Rec q) = h (Rec q)).
    { intros q Hq. destruct (Hdo q Hq) as (? & ? & ? & ?).
      rewrite Hfc by set_solver. by apply Hfa. }
    rewrite (clone_step_up hc lx clx (Rec x) (Rec cx)).
    + by rewrite decide_False.
    + rewrite Hol by done.
      rewrite Hllx, Hlclx. destruct (root_ptr ll); [right|left]; naive_solver.
    + rewrite Hol by done.
      rewrite Hrlx, Hrclx. destruct (root_ptr lr); [right|left]; naive_solver.
    + rewrite (parent_eq h); [done|]. by apply Hol.
    + done.
Qed.

(** The clones below [cx] on the right, once the left is done. *)
Lemma clone_phase_right dom n r x h cx r' er :
  clone_kids_spec cloner t rv dom n →
  nodes r ≤ S n →
  clone_tree cloner r = (r', er) →
  x ∈ dom → inorder r ⊆ dom →
  (left (h (Rec x)) = None ∨ left (h (Rec cx)) ≠ None) →
  right (h (Rec x)) = root_ptr r → sub h (Rec x) r →
  right (h (Rec cx)) = None →
  NoDup (cx :: inorder r') → disj (cx :: inorder r') dom → childless h (inorder r') →
  ∃ h1,
    same_colours h h1 r r' ∧
    sub h1 (Rec cx) r' ∧ right (h1 (Rec cx)) = root_ptr r' ∧
    left (h1 (Rec cx)) = left (h (Rec cx)) ∧
    parent h1 (Rec cx) = parent h (Rec cx) ∧
    is_red h1 (Rec cx) = is_red h (Rec cx) ∧
    (∀ q, q ∉ cx :: inorder r' → h1 (Rec q) = h (Rec q)) ∧
    (∀ u, u ≠ rv → h1 (Head u) = h (Head u)) ∧
    is_red h1 (Head rv) = is_red h (Head rv) ∧
    parent h1 (Head rv) = parent h (Head rv) ∧
    ∀ k, clone_loop cloner (2 * nodes r + k) t rv (Rec x) (Rec cx) h =
         match er with
         | Some e => Ok (h1, Some e)
         | None => clone_loop cloner k t rv (Rec x) (Rec cx) h1
         end.
Proof.
  intros IH Hn Hcl Hx Hdl Hdone Hlx Hsl Hlc Hnd Hdj Hch.
  destruct r as [|ll lx lr].
  { simpl in Hcl. simplify_eq. exists h. by split_and!. }
  rewrite clone_tree_T in Hcl. cbn [root_ptr] in Hlx.
  pose proof (clone_step_right h x lx cx Hdone Hlx Hlc) as Hstep.
  destruct (cloner lx) as [e|clx].
  { simplify_eq. exists h. split_and!; [done..|].
    intros k. replace (2 * nodes (T ll lx lr) + k) with (S (2 * nodes (T ll lx lr) + k - 1))
      by (simpl; lia). apply Hstep. }
  destruct (clone_kids cloner ll lr) as [[ll' lr'] erl] eqn:Hkl. simplify_eq.
  destruct Hstep as (ha & Hcola & Hsa & Hfa & Hha & Hra & Hpa & Hpc & Hca).
  destruct Hsl as (Hplx & Hllx & Hrlx & Hsll & Hslr).
  simpl in Hnd, Hdj, Hch, Hdl, Hn.
  assert (Hlxd : lx ∈ dom) by (apply Hdl; set_solver).
  assert (Hlld : inorder ll ⊆ dom) by set_solver.
  assert (Hlrd : inorder lr ⊆ dom) by set_solver.
  assert (Hdo : ∀ q, q ∈ dom → q ≠ cx ∧ q ≠ clx ∧ q ∉ inorder ll' ∧ q ∉ inorder lr').
  { intros q Hq. split_and!; [intros ->|intros ->|intros ?|intros ?]; elem_absurd. }
  assert (Hcc : cx ≠ clx) by (intros ->; elem_absurd).
  destruct (Hca Hcc) as (Hrca & Hlca & Hpca & Hica & Hlcl & Hrcl).
  destruct (Hch clx ltac:(set_solver)) as [Hcl1 Hcl2].
  destruct (IH ll lx lr ha clx (Rec cx) ll' lr' er) as
    (hc & (Hkl1 & Hkl2) & Hsc & Hfc & Hhc & Hrc & Hpcv & Hic & Hloop).
  { lia. }
  { done. }
  { done. }
  { done. }
  { done. }
  { rewrite Hfa by (by apply Hdo). done. }
  { rewrite Hfa by (by apply Hdo). done. }
  { eapply sub_eq; [|done]. intros q Hq. apply Hfa; apply Hdo; auto. }
  { eapply sub_eq; [|done]. intros q Hq. apply Hfa; apply Hdo; auto. }
  { congruence. }
  { congruence. }
  { done. }
  { nodup_solve. }
  { nodup_solve. }
  { intros c Hc. rewrite Hfa; [apply Hch; set_solver|intros ->; elem_absurd..]. }
  assert (Hcx : cx ∉ clx :: inorder ll' ++ inorder lr') by (intros ?; elem_absurd).
  exists hc. split.
  { simpl. split_and!; [by rewrite Hic|..];
      (eapply same_colours_orig; [|done]); intros q Hq; symmetry; apply is_red_eq, Hfa;
      apply Hdo; set_solver. }
  split_and!.
  - done.
  - by rewrite Hfc.
  - by rewrite Hfc.
  - rewrite (parent_eq ha) by (by apply Hfc). done.
  - rewrite (is_red_eq ha) by (by apply Hfc). done.
  - intros q Hq. rewrite Hfc by set_solver. apply Hfa; set_solver.
  - intros u Hu. rewrite Hhc by done. by apply Hha.
  - congruence.
  - congruence.
  - intros k.
    replace (2 * nodes (T ll lx lr) + k) with (S (2 * (nodes ll + nodes lr) + S k))
      by (simpl; lia).
    rewrite Hsa, Hloop. destruct er as [e|]; [done|].
    apply clone_kids_None in Hkl as [Hk1 Hk2].
    apply clone_tree_root in Hk1, Hk2.
    destruct Hsc as (Hpclx & Hlclx & Hrclx & _).
    assert (Hol : ∀ q, q ∈ dom → hc (Rec q) = h (Rec q)).
    { intros q Hq. destruct (Hdo q Hq) as (? & ? & ? & ?).
      rewrite Hfc by set_solver. by apply Hfa. }
    rewrite (clone_step_up hc lx clx (Rec x) (Rec cx)).
    + by rewrite decide_False.
    + rewrite Hol by done.
      rewrite Hllx, Hlclx. destruct (root_ptr ll); [right|left]; naive_solver.
    + rewrite Hol by done.
      rewrite Hrlx, Hrclx. destruct (root_ptr lr); [right|left]; naive_solver.
    + rewrite (parent_eq h); [done|]. by apply Hol.
    + done.
Qed.

(** The two phases together, for every tree. *)
Lemma clone_loop_kids dom n : clone_kids_spec cloner t rv dom n.
Proof.
  induction n as [|n IH].
  - intros l x r h cx pcx l' r' er Hn Hk.
    destruct l, r; simpl in Hn; try lia. unfold clone_kids in Hk. simpl in Hk. simplify_eq.
    intros _ _ _ Hl Hr _ _ Hlc Hrc Hpc _ _ _. exists h. by split_and!.
  - intros l x r h cx pcx l' r' er Hn Hk Hx Hdl Hdr Hlx Hrx Hsl Hsr Hlc Hrc Hpc Hnd Hdj Hch.
    unfold clone_kids in Hk.
    destruct (clone_tree cloner l) as [l1 el] eqn:Hctl.
    assert (Hnl : nodes l ≤ S n) by lia.
    assert (Hnr : nodes r ≤ S n) by lia.
    assert (Hdo : ∀ q, q ∈ dom → q ≠ cx ∧ q ∉ inorder l' ∧ q ∉ inorder r').
    { intros q Hq. split_and!; [intros ->|intros ?|intros ?]; elem_absurd. }
    destruct el as [e|].
    + simplify_eq. simpl in Hnd, Hdj, Hch. rewrite app_nil_r in Hnd, Hdj, Hch.
      destruct (clone_phase_left dom n l x h cx l' (Some e) IH Hnl Hctl Hx Hdl Hlx Hsl Hlc
                  Hnd Hdj Hch) as (h1 & Hk1 & Hs1 & Hl1 & Hr1 & Hp1 & Hi1 & Hf1 & Hh1 & Hc1 & Hq1 & Hloop).
      exists h1. split; [split; [done|by destruct r]|].
      split_and!; [|by rewrite app_nil_r|done..|].
      * simpl. split_and!; [congruence|done|congruence|done..].
      * intros k. replace (2 * (nodes l + nodes r) + k) with (2 * nodes l + (2 * nodes r + k))
          by lia. apply Hloop.
    + destruct (clone_tree cloner r) as [r1 er1] eqn:Hctr. simplify_eq.
      assert (Hnd1 : NoDup (cx :: inorder l')) by nodup_solve.
      assert (Hnd2 : NoDup (cx :: inorder r')) by nodup_solve.
      assert (Hdj1 : disj (cx :: inorder l') dom) by nodup_solve.
      assert (Hdj2 : disj (cx :: inorder r') dom) by nodup_solve.
      assert (Hch1 : childless h (inorder l')) by (intros c Hc; apply Hch; set_solver).
      destruct (clone_phase_left dom n l x h cx l' None IH Hnl Hctl Hx Hdl Hlx Hsl Hlc
                  Hnd1 Hdj1 Hch1) as (h1 & Hk1 & Hs1 & Hl1 & Hr1 & Hp1 & Hi1 & Hf1 & Hh1 & Hc1 & Hq1 & Hloop1).
      assert (Ho1 : ∀ q, q ∈ dom → h1 (Rec q) = h (Rec q)).
      { intros q Hq. destruct (Hdo q Hq) as (? & ? & ?). apply Hf1. set_solver. }
      destruct (clone_phase_right dom n r x h1 cx r' er IH Hnr Hctr Hx Hdr) as
        (h2 & Hk2 & Hs2 & Hr2 & Hl2 & Hp2 & Hi2 & Hf2 & Hh2 & Hc2 & Hq2 & Hloop2).
      { rewrite Ho1 by done. rewrite Hlx, Hl1. apply clone_tree_root in Hctl.
        destruct (root_ptr l); [right|left]; naive_solver. }
      { by rewrite Ho1. }
      { eapply sub_eq; [|done]. intros q Hq. apply Ho1. by apply Hdr. }
      { congruence. }
      { done. }
      { done. }
      { intros c Hc. rewrite Hf1; [apply Hch; set_solver|].
        simpl in Hnd. intros ?. elem_absurd. }
      exists h2. split.
      { split.
        - eapply same_colours_clone; [|done]. intros c Hc. apply is_red_eq, Hf2.
          simpl in Hnd. intros ?. elem_absurd.
        - eapply same_colours_orig; [|done]. intros q Hq. symmetry. apply is_red_eq, Ho1.
          by apply Hdr. }
      split_and!.
      * simpl. split_and!; [congruence|congruence|done| |done].
        eapply sub_eq; [|done]. intros q Hq. apply Hf2. simpl in Hnd. intros ?. elem_absurd.
      * intros q Hq. rewrite Hf2 by set_solver. apply Hf1. set_solver.
      * intros u Hu. rewrite Hh2 by done. by apply Hh1.
      * congruence.
      * congruence.
      * congruence.
      * intros k. replace (2 * (nodes l + nodes r) + k) with (2 * nodes l + (2 * nodes r + k))
          by lia. rewrite Hloop1. apply Hloop2.
Qed.
End clone_walk.

(** * The roll-back of [clone] *)

Lemma inorder_preorder s : inorder s ≡ₚ preorder s.
Proof.
  induction s as [|l IHl x r IHr]; [done|]. simpl.
  rewrite IHl, IHr. by rewrite Permutation_middle.
Qed.

Section clone_rollback.
Context {Err : Type} (cloner : nat → Err + nat).

Lemma clone_tree_preorder s s' er :
  clone_tree cloner s = (s', er) →
  match er with
  | None => Forall2 (clone_of cloner) (preorder s) (preorder s')
  | Some e => ∃ pre x post, preorder s = pre ++ x :: post ∧
                            Forall2 (clone_of cloner) pre (preorder s') ∧ cloner x = inl e
  end.
Proof.
  revert s' er. induction s as [|l IHl x r IHr]; intros s' er Hc; simpl in Hc.
  { simplify_eq. constructor. }
  destruct (cloner x) as [e|c] eqn:Hx.
  { simplify_eq. exists [], x, (preorder l ++ preorder r). by split_and!; [|constructor|]. }
  destruct (clone_tree cloner l) as [l' [e|]].
  { simplify_eq. destruct (IHl l' (Some e) eq_refl) as (pre & y & post & Hp & Hf & Hy).
    exists (x :: pre), y, (post ++ preorder r). simpl. rewrite Hp, app_nil_r.
    split_and!; [by rewrite <- app_assoc|by constructor|done]. }
  specialize (IHl l' None eq_refl). simpl in IHl.
  destruct (clone_tree cloner r) as [r' er']. simplify_eq.
  specialize (IHr r' er eq_refl). destruct er as [e|]; simpl.
  - destruct IHr as (pre & y & post & Hp & Hf & Hy).
    exists (x :: preorder l ++ pre), y, post. simpl. rewrite Hp.
    split_and!; [by rewrite <- app_assoc|constructor; [done|by apply Forall2_app]|done].
  - constructor; [done|]. by apply Forall2_app.
Qed.

Lemma first_failure_unique pre x post cs e pre' x' post' cs' e' :
  pre ++ x :: post = pre' ++ x' :: post' →
  Forall2 (clone_of cloner) pre cs → cloner x = inl e →
  Forall2 (clone_of cloner) pre' cs' → cloner x' = inl e' →
  cs = cs' ∧ e = e'.
Proof.
  intros Heq Hf. revert pre' cs' Heq.
  induction Hf as [|q c pre cs Hq Hf IH]; intros pre' cs' Heq Hx Hf' Hx'.
  - destruct Hf' as [|q' c' pre' cs' Hq' Hf']; simpl in Heq; simplify_eq.
    + split; [done|]. congruence.
    + unfold clone_of in Hq'. congruence.
  - destruct Hf' as [|q' c' pre' cs' Hq' Hf']; simpl in Heq; simplify_eq.
    + unfold clone_of in Hq. congruence.
    + destruct (IH pre' cs' ltac:(done) Hx Hf' Hx') as [-> ->].
      unfold clone_of in *. split; congruence.
Qed.

Lemma clone_tree_fails s pre x post cloned e :
  preorder s = pre ++ x :: post → Forall2 (clone_of cloner) pre cloned → cloner x = inl e →
  ∃ s', clone_tree cloner s = (s', Some e) ∧ preorder s' = cloned.
Proof.
  intros Hp Hf Hx. destruct (clone_tree cloner s) as [s' er] eqn:Hc.
  pose proof (clone_tree_preorder s s' er Hc) as Hpre. destruct er as [e'|].
  - destruct Hpre as (pre' & x' & post' & Hp' & Hf' & Hx'). rewrite Hp in Hp'.
    destruct (first_failure_unique _ _ _ _ _ _ _ _ _ _ Hp' Hf Hx Hf' Hx') as [-> ->]. eauto.
  - exfalso. rewrite Hp in Hpre. apply Forall2_app_inv_l in Hpre as (? & ? & _ & Hpre & _).
    apply Forall2_cons_inv_l in Hpre as (c & ? & Hc' & _). unfold clone_of in Hc'. congruence.
Qed.

Lemma clear_head rv h :
  (∀ q, clear rv h (Rec q) = h (Rec q)) ∧ (∀ u, u ≠ rv → clear rv h (Head u) = h (Head u)).
Proof.
  unfold clear. split; intros; rewrite set_right_ne, set_left_ne, set_parent_ne; congruence.
Qed.

Lemma rbtree_new_head rv h :
  (∀ q, rbtree_new rv h (Rec q) = h (Rec q)) ∧
  (∀ u, u ≠ rv → rbtree_new rv h (Head u) = h (Head u)) ∧
  root rv (rbtree_new rv h) = None.
Proof.
  unfold rbtree_new. change (store (Head rv) fresh_node h) with (reset (Head rv) h).
  split_and!; [intros; rewrite set_right_ne, set_left_ne, reset_ne; congruence..|heap_solve].
Qed.

(** X28.  When the cloner raises [e] at the record [x], after it has
    made the clones [cloned] of the records [pre] that come before [x]
    in the walk (the pre-order of the tree), then, with a step budget
    above twice the number of records, [clone] ends with that same
    error [e], the records handed to the disposer are the clones made,
    each one once, and nothing but these clones and the sentinel of the
    local tree [rv] was written: the original tree is linked as before
    and no record of a half-built tree is left to the caller.  The
    clones are assumed to be distinct new records, with no child, and
    [rv] not to be the tree cloned. *)
Theorem clone_failure_rolls_back fuel h t rv s pre x post cloned e :
  linked h t s → rv ≠ t →
  preorder s = pre ++ x :: post →
  Forall2 (clone_of cloner) pre cloned → cloner x = inl e →
  NoDup cloned → disj cloned (inorder s) → childless h cloned →
  2 * nodes s < fuel →
  ∃ h' disposed,
    clone cloner fuel t rv h = Ok (Raised e h' disposed) ∧
    disposed ≡ₚ cloned ∧
    (∀ q, q ∉ cloned → h' (Rec q) = h (Rec q)) ∧
    (∀ u, u ≠ rv → h' (Head u) = h (Head u)) ∧
    linked h' t s.
Proof.
  intros Hl Hrv Hp Hf Hx Hnd Hdj Hch Hfuel.
  destruct (clone_tree_fails s pre x post cloned e Hp Hf Hx) as (s' & Hct & Hps').
  assert (Hperm : inorder s' ≡ₚ cloned) by (by rewrite inorder_preorder, Hps').
  clear Hps'.
  enough (∃ h' disposed, clone cloner fuel t rv h = Ok (Raised e h' disposed) ∧
            disposed ≡ₚ cloned ∧ (∀ q, q ∉ cloned → h' (Rec q) = h (Rec q)) ∧
            (∀ u, u ≠ rv → h' (Head u) = h (Head u))) as (h' & disposed & Hc & Hd & Hf1 & Hf2).
  { exists h', disposed. split_and!; [done..|].
    destruct Hl as (Hr & Hs & Hn). split_and!; [| |done].
    - rewrite !root_eq in *. rewrite (parent_eq h) by (by apply Hf2). done.
    - eapply sub_eq; [|done]. intros q Hq. apply Hf1. intros Hq'. by apply (Hdj q). }
  destruct (rbtree_new_head rv h) as (Hn1 & Hn2 & Hn3).
  unfold clone. set (h0 := rbtree_new rv h) in *.
  destruct s as [|l x0 r]; [by destruct pre|].
  pose proof Hl as (Hroot & (Hpx0 & Hlx0 & Hrx0 & Hsl & Hsr) & Hnds).
  assert (Hr0 : root t h0 = Some (Rec x0)).
  { rewrite root_eq in *. rewrite (parent_eq h) by (by apply Hn2). done. }
  unfold empty. rewrite Hr0. rewrite bool_decide_eq_false_2 by done.
  cbn [deref bind]. unfold call_cloner. cbn [to_value bind].
  rewrite clone_tree_T in Hct.
  destruct (cloner x0) as [e0|c0] eqn:Hx0; cbn [bind].
  - simplify_eq. apply Permutation_nil_l in Hperm as <-.
    unfold clone_rollback. rewrite Hn3. destruct fuel as [|fuel]; [lia|]. cbn.
    destruct (clear_head rv h0) as [Hc1 Hc2].
    eexists _, _. split_and!; [done..| |].
    + intros q _. by rewrite Hc1, Hn1.
    + intros u Hu. by rewrite Hc2, Hn2.
  - destruct (clone_kids cloner l r) as [[l' r'] er] eqn:Hk. simplify_eq.
    set (h1 := set_right (Head rv) (Some (Rec c0)) (set_left (Head rv) (Some (Rec c0))
                 (set_parent (Head rv) (Some (Rec c0))
                    (set_color (Rec c0)
                       (is_red (set_parent (Rec c0) (Some (Head rv)) h0) (Rec x0))
                       (set_parent (Rec c0) (Some (Head rv)) h0))))).
    assert (H1r : ∀ q, q ≠ c0 → h1 (Rec q) = h (Rec q)).
    { intros q Hq. subst h1.
      rewrite set_right_ne, set_left_ne, set_parent_ne, set_color_ne, set_parent_ne
        by congruence. apply Hn1. }
    assert (H1h : ∀ u, u ≠ rv → h1 (Head u) = h (Head u)).
    { intros u Hu. subst h1.
      rewrite set_right_ne, set_left_ne, set_parent_ne, set_color_ne, set_parent_ne
        by congruence. by apply Hn2. }
    simpl in Hperm.
    assert (Hin : ∀ c, c ∈ inorder l' ++ c0 :: inorder r' ↔ c ∈ cloned).
    { intros c. by rewrite Hperm. }
    assert (Hnd' : NoDup (inorder l' ++ c0 :: inorder r')) by (by rewrite Hperm).
    assert (Hdo : ∀ q, q ∈ inorder (T l x0 r) → q ≠ c0 ∧ q ∉ inorder l' ∧ q ∉ inorder r').
    { intros q Hq. assert (Hq' : q ∉ cloned) by (intros ?; by apply (Hdj q)).
      split_and!; [intros ->|intros ?|intros ?]; apply Hq', Hin; set_solver. }
    assert (Hch0 : left (h (Rec c0)) = None ∧ right (h (Rec c0)) = None).
    { apply Hch, Hin. set_solver. }
    destruct (clone_loop_kids cloner t rv (inorder (T l x0 r)) (nodes l + nodes r)
                l x0 r h1 c0 (Head rv) l' r' (Some e)) as
      (h2 & _ & Hs2 & Hf2 & Hh2 & Hi2 & Hp2 & _ & Hloop).
    { done. }
    { done. }
    { simpl. set_solver. }
    { simpl. set_solver. }
    { simpl. set_solver. }
    { rewrite H1r by (apply Hdo; simpl; set_solver). done. }
    { rewrite H1r by (apply Hdo; simpl; set_solver). done. }
    { eapply sub_eq; [|done]. intros q Hq. apply H1r, Hdo. simpl. set_solver. }
    { eapply sub_eq; [|done]. intros q Hq. apply H1r, Hdo. simpl. set_solver. }
    { subst h1. autorewrite with heap. rewrite !decide_False by done.
      rewrite Hn1. apply Hch0. }
    { subst h1. autorewrite with heap. rewrite !decide_False by done.
      rewrite Hn1. apply Hch0. }
    { subst h1. heap_solve. }
    { nodup_solve. }
    { intros c Hc Hq. apply (Hdj c); [apply Hin; set_solver|done]. }
    { intros c Hc. rewrite H1r; [apply Hch, Hin; set_solver|].
      intros ->. elem_absurd. }
    specialize (Hloop (fuel - 2 * (nodes l + nodes r))).
    replace (2 * (nodes l + nodes r) + (fuel - 2 * (nodes l + nodes r))) with fuel in Hloop
      by (simpl in Hfuel; lia).
    fold h1. rewrite Hloop. cbn [bind]. unfold clone_rollback.
    assert (Hroot2 : root rv h2 = root_ptr (T l' c0 r')).
    { rewrite root_eq, Hp2. subst h1. heap_solve. }
    rewrite Hroot2.
    destruct (dispose_spec fuel (T l' c0 r') h2 []) as (h3 & Hd3 & Hf3 & _).
    { by eapply sub_shape. }
    { done. }
    { pose proof (dispose_steps_le (T l' c0 r')). 
      assert (nodes (T l' c0 r') ≤ nodes (T l x0 r)); [|lia].
      rewrite !nodes_length. simpl inorder. rewrite Hperm.
      rewrite <- (length_fmap Rec), <- (length_fmap Rec (l ++ x0 :: r)) || idtac.
      apply Forall2_length in Hf. rewrite <- Hf.
      assert (Hlen : length (preorder (T l x0 r)) = length (inorder l ++ x0 :: inorder r))
        by (by rewrite <- inorder_preorder).
      rewrite <- Hlen, Hp. rewrite length_app. lia. }
    rewrite Hd3. cbn [bind].
    destruct (clear_head rv h3) as [Hc1 Hc2].
    eexists _, _. split_and!; [done|by simpl| |].
    + intros q Hq. rewrite Hc1. rewrite Hf3.
      * rewrite Hf2; [apply H1r|].
        -- intros ->. apply Hq, Hin. set_solver.
        -- intros Hq'. apply Hq, Hin. set_solver.
      * intros (q' & [= <-] & Hq')%list_elem_of_fmap. by apply Hq, Hin.
    + intros u Hu. rewrite Hc2 by done. rewrite Hf3.
      * rewrite Hh2 by done. by apply H1h.
      * by intros (q' & [=] & _)%list_elem_of_fmap.
Qed.
End clone_rollback.

Lemma childless_fresh (h : heap) C :
  Forall (λ c, left (h (Rec c)) = None ∧ right (h (Rec c)) = None) C → childless h C.
Proof. intros HF c Hc. by eapply (proj1 (Forall_forall _ _)) in HF. Qed.

Lemma clone_failure_rolls_back_witness :
  linked mod_heap 0 mod_tree ∧ 1 ≠ 0 ∧ preorder mod_tree = [2; 1] ++ 3 :: [] ∧
  Forall2 (clone_of (cloner_failing_at 3)) [2; 1] [12; 11] ∧
  cloner_failing_at 3 3 = inl 3 ∧ NoDup [12; 11] ∧ disj [12; 11] (inorder mod_tree) ∧
  childless mod_heap [12; 11] ∧ 2 * nodes mod_tree < 7 ∧
  ∃ h' disposed,
    clone (cloner_failing_at 3) 7 0 1 mod_heap = Ok (Raised 3 h' disposed) ∧
    disposed ≡ₚ [12; 11] ∧
    (∀ q, q ∉ [12; 11] → h' (Rec q) = mod_heap (Rec q)) ∧
    (∀ u, u ≠ 1 → h' (Head u) = mod_heap (Head u)) ∧
    linked h' 0 mod_tree.
Proof.
  assert (H1 : linked mod_heap 0 mod_tree)
    by (split_and!; [vm_compute; reflexivity|vm_compute; tauto|compute_done]).
  assert (H2 : 1 ≠ 0) by lia.
  assert (H3 : preorder mod_tree = [2; 1] ++ 3 :: []) by reflexivity.
  assert (H4 : Forall2 (clone_of (cloner_failing_at 3)) [2; 1] [12; 11])
    by (repeat constructor).
  assert (H5 : cloner_failing_at 3 3 = inl 3) by reflexivity.
  assert (H6 : NoDup [12; 11]) by compute_done.
  assert (H7 : disj [12; 11] (inorder mod_tree)).
  { intros x Hx Hy. simpl in Hy. set_solver by lia. }
  assert (H8 : childless mod_heap [12; 11])
    by (apply childless_fresh; repeat constructor).
  assert (H9 : 2 * nodes mod_tree < 7) by (simpl; lia).
  refine (conj H1 (conj H2 (conj H3 (conj H4 (conj H5 (conj H6 (conj H7 (conj H8 (conj H9 _))))))))).
  apply (clone_failure_rolls_back (cloner_failing_at 3) 7 mod_heap 0 1 mod_tree
           [2; 1] 3 [] [12; 11] 3 H1 H2 H3 H4 H5 H6 H7 H8 H9).
Defined.

(** * Facts for the examples *)

Lemma ltb_irrefl' : ∀ a, Nat.ltb a a = false.
Proof. intros a. apply Nat.ltb_irrefl. Qed.

Lemma ltb_trans' : ∀ a b c, Nat.ltb a b = true → Nat.ltb b c = true → Nat.ltb a c = true.
Proof. intros a b c. rewrite !Nat.ltb_lt. lia. Qed.

Lemma ltb_cotrans' : ∀ a b c, Nat.ltb a b = true → Nat.ltb a c = true ∨ Nat.ltb c b = true.
Proof. intros a b c. rewrite !Nat.ltb_lt. lia. Qed.

Lemma mod_heap_linked : linked mod_heap 0 mod_tree.
Proof. split_and!; [vm_compute; reflexivity|vm_compute; tauto|compute_done]. Qed.

Lemma mod_heap_caches : caches mod_heap 0 mod_tree.
Proof. split; vm_compute; reflexivity. Qed.

Lemma mod_tree_ordered : ordered Nat.ltb mod_key (inorder mod_tree).
Proof. repeat constructor. Qed.

(** * [find] and [contains] *)

Section lookup.
Context {K : Type} (is_less_than : K → K → bool) (get_key : nat → K).

Lemma find_node_total fuel key h t c s :
  linked h t (plug c s) → length (inorder s) < fuel →
  ∃ it, find_node is_less_than get_key fuel t key h (root_ptr s) = Ok it.
Proof.
  revert c s. induction fuel as [|fuel IH]; intros c s Hl Hf; [lia|].
  destruct s as [|l x r']; simpl; [eauto|].
  pose proof Hl as (_ & (_ & Hlx & Hrx & _) & _)%linked_plug.
  simpl in Hf. rewrite length_app in Hf. simpl in Hf.
  destruct (is_less_than key (get_key x)).
  - rewrite Hlx. apply (IH (CL c x r') l); [done|lia].
  - destruct (is_less_than (get_key x) key); [|eauto].
    rewrite Hrx. apply (IH (CR l x c) r'); [done|lia].
Qed.

Lemma find_absent_returns_end_aux fuel key h t s :
  linked h t s →
  (∀ x, x ∈ inorder s → ¬ key_equiv is_less_than key (get_key x)) →
  length (inorder s) < fuel →
  find_node is_less_than get_key fuel t key h (root t h) = Ok (end_ t h).
Proof.
  intros Hl Hab Hf.
  destruct (find_node_total fuel key h t Top s Hl Hf) as (it & Hit).
  simpl in Hit. pose proof Hl as (Hr & _). rewrite Hr, Hit.
  destruct (find_node_path is_less_than get_key fuel key h t Top s it Hl I Hit) as
    [(c & l & x & r' & -> & Hs & Hk & Hp)|(c & -> & Hs & Hp)]; [|done].
  exfalso. apply (Hab x); [|done]. simpl in Hs. rewrite <- Hs. apply plug_elem.
Qed.

(** X2.  When no linked record has a key that compares equal to
    [key], [find] returns [end()] and [contains] returns false, with
    any step budget above the number of records; the empty tree is the
    case of no record at all.  Nothing is asked of the comparator or of
    the order of the records. *)
Theorem find_absent_returns_end fuel key h t s :
  linked h t s →
  (∀ x, x ∈ inorder s → ¬ key_equiv is_less_than key (get_key x)) →
  length (inorder s) < fuel →
  find is_less_than get_key fuel t key h = Ok (end_ t h) ∧
  contains is_less_than get_key fuel t key h = Ok false.
Proof.
  intros Hl Hab Hf. unfold find, contains.
  rewrite (find_absent_returns_end_aux fuel key h t s) by done.
  split; [done|]. cbn [bind]. unfold end_.
  by rewrite bool_decide_eq_false_2 by (by intros []).
Qed.

Hypothesis lt_trans : ∀ a b c,
  is_less_than a b = true → is_less_than b c = true → is_less_than a c = true.
Hypothesis lt_cotrans : ∀ a b c,
  is_less_than a b = true → is_less_than a c = true ∨ is_less_than c b = true.

(** At most one record in key order compares equal to a key. *)
Lemma equiv_unique key l x y :
  ordered is_less_than get_key l → x ∈ l → y ∈ l →
  key_equiv is_less_than key (get_key x) → key_equiv is_less_than key (get_key y) →
  x = y.
Proof.
  clear lt_trans.
  intros Ho Hx Hy [H1 H2] [H3 H4]. destruct (decide (x = y)) as [|Hne]; [done|exfalso].
  apply list_elem_of_lookup in Hx as [i Hi]. apply list_elem_of_lookup in Hy as [j Hj].
  assert (i ≠ j) by (intros ->; congruence).
  destruct (decide (i < j)) as [Hlt|Hge].
  - pose proof (ordered_lookup _ _ _ _ _ _ _ Ho Hlt Hi Hj) as Hab. unfold key_lt in Hab.
    destruct (lt_cotrans _ _ key Hab); congruence.
  - assert (Hlt : j < i) by lia.
    pose proof (ordered_lookup _ _ _ _ _ _ _ Ho Hlt Hj Hi) as Hab. unfold key_lt in Hab.
    destruct (lt_cotrans _ _ key Hab); congruence.
Qed.

Lemma find_node_equal fuel key h t s x :
  linked h t s → ordered is_less_than get_key (inorder s) →
  x ∈ inorder s → key_equiv is_less_than key (get_key x) →
  length (inorder s) < fuel →
  find_node is_less_than get_key fuel t key h (root t h) = Ok (Some (Rec x)).
Proof.
  intros Hl Ho Hx Hk Hf.
  destruct (find_node_total fuel key h t Top s Hl Hf) as (it & Hit).
  simpl in Hit. pose proof Hl as (Hr & _). rewrite Hr, Hit. f_equal.
  destruct (find_node_path is_less_than get_key fuel key h t Top s it Hl I Hit) as
    [(c & l & x' & r' & -> & Hs & Hk' & Hp)|(c & -> & Hs & Hp)].
  - simpl in Hs. do 2 f_equal.
    eapply equiv_unique; [exact Ho| |done..]. rewrite <- Hs. apply plug_elem.
  - exfalso. simpl in Hs. subst s. destruct Hk as [Hk1 Hk2].
    destruct (path_bounds is_less_than get_key lt_trans _ _ _ Hp Ho) as [Hb Ha].
    rewrite inorder_plug in Hx. simpl in Hx. apply elem_of_app in Hx as [Hx|Hx].
    + specialize (Hb _ Hx). congruence.
    + specialize (Ha _ Hx). congruence.
Qed.

(** X1.  In a tree whose records are in key order, [find] of a key
    that compares equal to the key of the linked record [x] returns the
    position of [x], and [contains] returns true, with any step budget
    above the number of records.  The comparator is assumed transitive,
    with transitive incomparability. *)
Theorem find_present_returns_record fuel key h t s x :
  linked h t s → ordered is_less_than get_key (inorder s) →
  x ∈ inorder s → key_equiv is_less_than key (get_key x) →
  length (inorder s) < fuel →
  find is_less_than get_key fuel t key h = Ok (Some (Rec x)) ∧
  contains is_less_than get_key fuel t key h = Ok true.
Proof.
  intros Hl Ho Hx Hk Hf. unfold find, contains.
  rewrite (find_node_equal fuel key h t s x) by done. split; [done|].
  cbn [bind]. unfold end_. by rewrite bool_decide_eq_true_2 by done.
Qed.
End lookup.

Lemma find_absent_returns_end_witness :
  linked mod_heap 0 mod_tree ∧
  (∀ x, x ∈ inorder mod_tree → ¬ key_equiv Nat.ltb 7 (mod_key x)) ∧
  length (inorder mod_tree) < 8 ∧
  find Nat.ltb mod_key 8 0 7 mod_heap = Ok (end_ 0 mod_heap) ∧
  contains Nat.ltb mod_key 8 0 7 mod_heap = Ok false.
Proof.
  assert (H2 : ∀ x, x ∈ inorder mod_tree → ¬ key_equiv Nat.ltb 7 (mod_key x)).
  { apply Forall_forall. unfold key_equiv. compute_done. }
  assert (H3 : length (inorder mod_tree) < 8) by (simpl; lia).
  split_and!; [exact mod_heap_linked|exact H2|exact H3|..];
    apply (find_absent_returns_end Nat.ltb mod_key 8 7 mod_heap 0 mod_tree
             mod_heap_linked H2 H3).
Defined.

Lemma find_present_returns_record_witness :
  (∀ a b c, Nat.ltb a b = true → Nat.ltb b c = true → Nat.ltb a c = true) ∧
  (∀ a b c, Nat.ltb a b = true → Nat.ltb a c = true ∨ Nat.ltb c b = true) ∧
  linked mod_heap 0 mod_tree ∧
  ordered Nat.ltb mod_key (inorder mod_tree) ∧
  3 ∈ inorder mod_tree ∧
  key_equiv Nat.ltb 3 (mod_key 3) ∧
  length (inorder mod_tree) < 8 ∧
  find Nat.ltb mod_key 8 0 3 mod_heap = Ok (Some (Rec 3)) ∧
  contains Nat.ltb mod_key 8 0 3 mod_heap = Ok true.
Proof.
  assert (H5 : 3 ∈ inorder mod_tree) by compute_done.
  assert (H6 : key_equiv Nat.ltb 3 (mod_key 3)) by (split; reflexivity).
  assert (H7 : length (inorder mod_tree) < 8) by (simpl; lia).
  split_and!; [exact ltb_trans'|exact ltb_cotrans'|exact mod_heap_linked
              |exact mod_tree_ordered|exact H5|exact H6|exact H7|..];
    apply (find_present_returns_record Nat.ltb mod_key ltb_trans' ltb_cotrans' 8 3 mod_heap 0
             mod_tree 3 mod_heap_linked mod_tree_ordered H5 H6 H7).
Defined.

(** * [erase] *)

Section erase_props.
Context {K : Type} (is_less_than : K → K → bool) (get_key : nat → K).

(** X8.  When no linked record has a key that compares equal to
    [key], [erase] returns the null pointer and the heap it was given:
    nothing is written.  Any step budget above the number of records is
    enough, and nothing is asked of the comparator. *)
Theorem erase_absent_is_noop fuel key h t s :
  linked h t s →
  (∀ x, x ∈ inorder s → ¬ key_equiv is_less_than key (get_key x)) →
  length (inorder s) < fuel →
  erase is_less_than get_key fuel t key h = Ok (h, None).
Proof.
  intros Hl Hab Hf.
  pose proof (find_absent_returns_end_aux is_less_than get_key fuel key h t s Hl Hab Hf) as Hfi.
  unfold erase. rewrite Hfi. cbn [bind]. by rewrite decide_True.
Qed.

Hypothesis lt_trans : ∀ a b c,
  is_less_than a b = true → is_less_than b c = true → is_less_than a c = true.
Hypothesis lt_cotrans : ∀ a b c,
  is_less_than a b = true → is_less_than a c = true ∨ is_less_than c b = true.

Lemma erase_present_aux fuel key h t s x h' r :
  linked h t s → caches h t s → ordered is_less_than get_key (inorder s) →
  x ∈ inorder s → key_equiv is_less_than key (get_key x) →
  erase is_less_than get_key fuel t key h = Ok (h', r) →
  r = Some (Rec x) ∧ unlinked h' (Rec x) = true ∧
  ∃ s' pre post,
    inorder s = pre ++ x :: post ∧ inorder s' = pre ++ post ∧
    linked h' t s' ∧ caches h' t s' ∧ ordered is_less_than get_key (inorder s') ∧
    frame t (inorder s) h h'.
Proof.
  intros Hl Hca Ho Hx Hk He.
  destruct (erase_linked is_less_than get_key _ _ _ _ _ _ _ Hl He) as
    [(_ & _ & c & <- & Hp)|(c & l & z & r' & s' & -> & -> & Hkz & Hp & Hl' & Hi' & Hf' & Hc' &
                             Hpz & Hlz & Hrz)].
  - exfalso. destruct Hk as [Hk1 Hk2].
    destruct (path_bounds is_less_than get_key lt_trans _ _ _ Hp Ho) as [Hb Ha].
    rewrite inorder_plug in Hx. simpl in Hx. apply elem_of_app in Hx as [Hx|Hx].
    + specialize (Hb _ Hx). congruence.
    + specialize (Ha _ Hx). congruence.
  - assert (z = x) as ->.
    { eapply (equiv_unique is_less_than get_key lt_cotrans key); [exact Ho| |done..].
      apply plug_elem. }
    split_and!; [done|by apply bool_decide_eq_true_2|].
    exists s', (ctx_before c ++ inorder l), (inorder r' ++ ctx_after c).
    assert (Heq : inorder (plug c (T l x r')) =
                  (ctx_before c ++ inorder l) ++ x :: inorder r' ++ ctx_after c).
    { rewrite inorder_plug. simpl. by rewrite <- !app_assoc. }
    split_and!; [done|by rewrite Hi', <- app_assoc|done|by apply Hc'| |done].
    rewrite Hi'. rewrite Heq in Ho. apply ordered_remove in Ho. by rewrite <- app_assoc in Ho.
Qed.

(** X9.  In a tree in key order, whenever [erase] of a key that
    compares equal to the key of the linked record [x] returns, it
    returns [x], [x] is [unlinked()], and the tree holds the records it
    held before without [x], in the same order, with its two caches
    right; the records outside the tree and the other tree objects are
    as before, and so is the colour of the sentinel.  (The fix-up of
    [erase_node] has assertions, so [erase] is not shown to return.) *)
Theorem erase_present_removes_record fuel key h t s x h' r :
  linked h t s → caches h t s → ordered is_less_than get_key (inorder s) →
  x ∈ inorder s → key_equiv is_less_than key (get_key x) →
  erase is_less_than get_key fuel t key h = Ok (h', r) →
  r = Some (Rec x) ∧ unlinked h' (Rec x) = true ∧
  ∃ s' pre post,
    inorder s = pre ++ x :: post ∧ inorder s' = pre ++ post ∧
    linked h' t s' ∧ caches h' t s' ∧ ordered is_less_than get_key (inorder s') ∧
    frame t (inorder s) h h'.
Proof. apply erase_present_aux. Qed.

(** X10.  After [erase] of a key has returned a record, [find] of the
    same key returns [end()] and [contains] returns false: no record
    with an equal key is left. *)
Theorem erase_then_find_returns_end fuel key h t s x h' r :
  linked h t s → caches h t s → ordered is_less_than get_key (inorder s) →
  x ∈ inorder s → key_equiv is_less_than key (get_key x) →
  erase is_less_than get_key fuel t key h = Ok (h', r) →
  length (inorder s) ≤ fuel →
  find is_less_than get_key fuel t key h' = Ok (end_ t h') ∧
  contains is_less_than get_key fuel t key h' = Ok false.
Proof.
  intros Hl Hca Ho Hx Hk He Hf.
  destruct (erase_present_aux _ _ _ _ _ _ _ _ Hl Hca Ho Hx Hk He) as
    (_ & _ & s' & pre & post & Hi & Hi' & Hl' & _ & Ho' & _).
  assert (Hnd : NoDup (inorder s)) by (by destruct Hl as (_ & _ & ?)).
  assert (Hfn : find_node is_less_than get_key fuel t key h' (root t h') = Ok (end_ t h')).
  2:{ unfold find, contains. rewrite Hfn. split; [done|]. cbn [bind]. unfold end_.
      by rewrite bool_decide_eq_false_2 by (by intros []). }
  apply (find_absent_returns_end_aux is_less_than get_key fuel key h' t s'); [done| |].
  - intros y Hy Hky. rewrite Hi' in Hy.
    assert (y = x) as ->.
    { eapply (equiv_unique is_less_than get_key lt_cotrans key (inorder s)); [done| |done..].
      rewrite Hi. set_solver. }
    rewrite Hi in Hnd. apply NoDup_app in Hnd as (_ & Hd & Hnd).
    apply NoDup_cons in Hnd as [Hnp _]. apply elem_of_app in Hy as [Hy|Hy]; [|done].
    apply (Hd x Hy). set_solver.
  - rewrite Hi'. rewrite Hi in Hf. rewrite length_app in *. simpl in Hf. lia.
Qed.
End erase_props.

Lemma erase_absent_is_noop_witness :
  linked mod_heap 0 mod_tree ∧
  (∀ x, x ∈ inorder mod_tree → ¬ key_equiv Nat.ltb 7 (mod_key x)) ∧
  length (inorder mod_tree) < 8 ∧
  erase Nat.ltb mod_key 8 0 7 mod_heap = Ok (mod_heap, None).
Proof.
  assert (H2 : ∀ x, x ∈ inorder mod_tree → ¬ key_equiv Nat.ltb 7 (mod_key x)).
  { apply Forall_forall. unfold key_equiv. compute_done. }
  assert (H3 : length (inorder mod_tree) < 8) by (simpl; lia).
  split_and!; [exact mod_heap_linked|exact H2|exact H3|].
  apply (erase_absent_is_noop Nat.ltb mod_key 8 7 mod_heap 0 mod_tree mod_heap_linked H2 H3).
Defined.

Lemma mod_erased_eq :
  erase Nat.ltb mod_key 64 0 3 mod_heap = Ok (mod_erased.1, mod_erased.2).
Proof. vm_compute. reflexivity. Qed.

Lemma erase_present_removes_record_witness :
  (∀ a b c, Nat.ltb a b = true → Nat.ltb b c = true → Nat.ltb a c = true) ∧
  (∀ a b c, Nat.ltb a b = true → Nat.ltb a c = true ∨ Nat.ltb c b = true) ∧
  linked mod_heap 0 mod_tree ∧ caches mod_heap 0 mod_tree ∧
  ordered Nat.ltb mod_key (inorder mod_tree) ∧
  3 ∈ inorder mod_tree ∧ key_equiv Nat.ltb 3 (mod_key 3) ∧
  erase Nat.ltb mod_key 64 0 3 mod_heap = Ok (mod_erased.1, mod_erased.2) ∧
  (mod_erased.2 = Some (Rec 3) ∧ unlinked mod_erased.1 (Rec 3) = true ∧
   ∃ s' pre post,
     inorder mod_tree = pre ++ 3 :: post ∧ inorder s' = pre ++ post ∧
     linked mod_erased.1 0 s' ∧ caches mod_erased.1 0 s' ∧
     ordered Nat.ltb mod_key (inorder s') ∧
     frame 0 (inorder mod_tree) mod_heap mod_erased.1).
Proof.
  assert (H5 : 3 ∈ inorder mod_tree) by compute_done.
  assert (H6 : key_equiv Nat.ltb 3 (mod_key 3)) by (split; reflexivity).
  refine (conj ltb_trans' (conj ltb_cotrans' (conj mod_heap_linked (conj mod_heap_caches
            (conj mod_tree_ordered (conj H5 (conj H6 (conj mod_erased_eq _)))))))).
  apply (erase_present_removes_record Nat.ltb mod_key ltb_trans' ltb_cotrans' 64 3 mod_heap 0
           mod_tree 3 mod_erased.1 mod_erased.2 mod_heap_linked mod_heap_caches
           mod_tree_ordered H5 H6 mod_erased_eq).
Defined.

Lemma erase_then_find_returns_end_witness :
  (∀ a b c, Nat.ltb a b = true → Nat.ltb b c = true → Nat.ltb a c = true) ∧
  (∀ a b c, Nat.ltb a b = true → Nat.ltb a c = true ∨ Nat.ltb c b = true) ∧
  linked mod_heap 0 mod_tree ∧ caches mod_heap 0 mod_tree ∧
  ordered Nat.ltb mod_key (inorder mod_tree) ∧
  3 ∈ inorder mod_tree ∧ key_equiv Nat.ltb 3 (mod_key 3) ∧
  erase Nat.ltb mod_key 64 0 3 mod_heap = Ok (mod_erased.1, mod_erased.2) ∧
  length (inorder mod_tree) ≤ 64 ∧
  find Nat.ltb mod_key 64 0 3 mod_erased.1 = Ok (end_ 0 mod_erased.1) ∧
  contains Nat.ltb mod_key 64 0 3 mod_erased.1 = Ok false.
Proof.
  assert (H5 : 3 ∈ inorder mod_tree) by compute_done.
  assert (H6 : key_equiv Nat.ltb 3 (mod_key 3)) by (split; reflexivity).
  assert (H7 : length (inorder mod_tree) ≤ 64) by (simpl; lia).
  split_and!; [exact ltb_trans'|exact ltb_cotrans'|exact mod_heap_linked|exact mod_heap_caches
              |exact mod_tree_ordered|exact H5|exact H6|exact mod_erased_eq|exact H7|..];
    apply (erase_then_find_returns_end Nat.ltb mod_key ltb_trans' ltb_cotrans' 64 3 mod_heap 0
             mod_tree 3 mod_erased.1 mod_erased.2 mod_heap_linked mod_heap_caches
             mod_tree_ordered H5 H6 mod_erased_eq H7).
Defined.

(** * The iterator *)

Lemma prev_climb_spec fuel h t c l y r p :
  linked h t (plug c (T l y r)) →
  last (ctx_before c) = Some p →
  length (ctx_nodes c) + 1 ≤ fuel →
  (let* (c, n) := prev_climb fuel h (Rec y) (Some (ctx_par t c)) in
   if decide (right (h c) = n) then Ok (Some c) else Ok n) = Ok (Some (Rec p)).
Proof.
  revert fuel l y r. induction c as [|c IH a r'|l' a c IH]; intros fuel l y r Hl Hp Hf.
  - done.
  - destruct fuel as [|fuel]; [simpl in Hf; lia|].
    pose proof Hl as (Hc & (Hpy & Hly & Hry & _) & Hnd)%linked_plug.
    destruct Hc as (Hla & Hra & Hpa & _).
    cbn [prev_climb ctx_par deref bind]. rewrite Hla.
    cbn [root_ptr]. rewrite decide_True by done. rewrite Hpa.
    apply (IH fuel (T l y r) a r'); [done..|].
    pose proof (length_ctx_nodes_CL c a r'). lia.
  - destruct fuel as [|fuel]; [simpl in Hf; lia|].
    pose proof Hl as (Hc & (Hpy & Hly & Hry & _) & Hnd)%linked_plug.
    destruct Hc as (Hra & Hla & _).
    cbn [prev_climb ctx_par deref bind]. rewrite Hla.
    rewrite decide_False by (intros ?; elem_absurd).
    cbn [bind]. rewrite Hry. rewrite decide_False by (intros ?; elem_absurd).
    simpl in Hp. rewrite app_assoc, last_snoc in Hp. by simplify_eq.
Qed.

Lemma last_app_Some {A} (l k : list A) x : last k = Some x → last (l ++ k) = Some x.
Proof.
  destruct k as [|y k]; [done|]. intros Hk. by rewrite last_app_cons.
Qed.

(** X14.  In a linked tree whose caches are right, [operator++] at a
    record gives the next record in the order of the tree, and
    [end()] at the last one; a step budget of the number of records
    plus two is enough. *)
Theorem next_gives_successor fuel h t s pre x post :
  linked h t s → caches h t s → inorder s = pre ++ x :: post →
  length (inorder s) + 2 ≤ fuel →
  next fuel h (Some (Rec x)) = Ok (Some (default (Head t) (Rec <$> head post))).
Proof.
  intros Hl Hca Hi Hf.
  assert (Hx : x ∈ inorder s) by (rewrite Hi; set_solver).
  destruct (elem_of_inorder_plug _ _ Hx) as (c & l & r & ->).
  rewrite (next_spec fuel h t c l x r) by done. do 3 f_equal.
  destruct Hl as (_ & _ & Hnd). rewrite inorder_plug in Hi, Hnd. simpl in Hi, Hnd.
  rewrite <- app_assoc in Hi, Hnd. simpl in Hi, Hnd. rewrite app_assoc in Hi, Hnd.
  by apply NoDup_split_eq in Hi as [_ ->].
Qed.

(** X15.  In a linked tree, [operator--] at a record that is not the
    first gives the record before it in the order of the tree; a step
    budget of the number of records plus one is enough.  (At [end()]
    and at the first record [prev] has no such result.) *)
Theorem prev_gives_predecessor fuel h t s pre p x post :
  linked h t s → inorder s = pre ++ p :: x :: post →
  length (inorder s) + 1 ≤ fuel →
  prev fuel h (Some (Rec x)) = Ok (Some (Rec p)).
Proof.
  intros Hl Hi Hf.
  assert (Hx : x ∈ inorder s) by (rewrite Hi; set_solver).
  destruct (elem_of_inorder_plug _ _ Hx) as (c & l & r & ->).
  pose proof Hl as (Hc & (Hpx & Hlx & Hrx & Hsl & Hsr) & Hnd)%linked_plug.
  assert (Hlast : last (ctx_before c ++ inorder l) = Some p).
  { rewrite inorder_plug in Hi. simpl in Hi.
    rewrite <- app_assoc in Hi. simpl in Hi. rewrite app_assoc in Hi.
    simpl in Hnd. rewrite <- app_assoc in Hnd. simpl in Hnd. rewrite app_assoc in Hnd.
    replace (pre ++ p :: x :: post) with ((pre ++ [p]) ++ x :: post) in Hi
      by (by rewrite <- app_assoc).
    apply NoDup_split_eq in Hi as [-> _]; [|done]. by rewrite last_snoc. }
  rewrite inorder_plug, !length_app in Hf. simpl in Hf. rewrite !length_app in Hf.
  simpl in Hf.
  unfold prev. cbn [deref bind]. rewrite Hlx.
  destruct l as [|ll a lr].
  - cbn [root_ptr]. rewrite Hpx. simpl in Hlast. rewrite app_nil_r in Hlast.
    apply (prev_climb_spec fuel h t c E x r p); [done..|].
    unfold ctx_nodes. rewrite length_app. simpl in Hf. lia.
  - cbn [root_ptr]. erewrite find_maximum_total; [|exact Hsl|].
    + cbn [bind]. do 3 f_equal.
      pose proof (last_inorder ll a lr) as Hla.
      rewrite (last_app_Some _ _ _ Hla) in Hlast. by simplify_eq.
    + simpl in Hf. rewrite !length_app in Hf. simpl in Hf. lia.
Qed.

(** X16.  The range-for loop over a linked tree whose caches are right
    visits every record of the tree once, in the order of the tree, and
    stops; a step budget of the number of records plus two is
    enough. *)
Theorem traverse_visits_records_in_order fuel h t s :
  linked h t s → caches h t s → length (inorder s) + 2 ≤ fuel →
  traverse fuel t h = Ok (inorder s) ∧ NoDup (inorder s).
Proof.
  intros Hl Hca Hf. split; [by apply traverse_spec|]. by destruct Hl as (_ & _ & ?).
Qed.

(** X18.  [find_minimum] and [find_maximum] return the first and the
    last record, in the order of the tree, of the subtree below the
    node they are given; a step budget above the number of records of
    the subtree is enough. *)
Theorem find_extremes_of_subtree fuel h par l x r :
  sub h par (T l x r) → length (inorder (T l x r)) < fuel →
  ∃ m M, find_minimum fuel h (Rec x) = Ok (Rec m) ∧
         find_maximum fuel h (Rec x) = Ok (Rec M) ∧
         head (inorder (T l x r)) = Some m ∧ last (inorder (T l x r)) = Some M.
Proof.
  intros Hs Hf. simpl in Hf. rewrite length_app in Hf. simpl in Hf.
  exists (min_node l x), (max_node x r). split_and!.
  - eapply find_minimum_total; [done|lia].
  - eapply find_maximum_total; [done|lia].
  - apply head_inorder.
  - apply last_inorder.
Qed.

Lemma next_gives_successor_witness :
  linked mod_heap 0 mod_tree ∧ caches mod_heap 0 mod_tree ∧
  inorder mod_tree = [1] ++ 2 :: [3] ∧ length (inorder mod_tree) + 2 ≤ 8 ∧
  next 8 mod_heap (Some (Rec 2)) = Ok (Some (default (Head 0) (Rec <$> head [3]))).
Proof.
  assert (H3 : inorder mod_tree = [1] ++ 2 :: [3]) by reflexivity.
  assert (H4 : length (inorder mod_tree) + 2 ≤ 8) by (simpl; lia).
  split_and!; [exact mod_heap_linked|exact mod_heap_caches|exact H3|exact H4|].
  apply (next_gives_successor 8 mod_heap 0 mod_tree [1] 2 [3] mod_heap_linked mod_heap_caches
           H3 H4).
Defined.

Lemma prev_gives_predecessor_witness :
  linked mod_heap 0 mod_tree ∧
  inorder mod_tree = [] ++ 1 :: 2 :: [3] ∧ length (inorder mod_tree) + 1 ≤ 8 ∧
  prev 8 mod_heap (Some (Rec 2)) = Ok (Some (Rec 1)).
Proof.
  assert (H3 : inorder mod_tree = [] ++ 1 :: 2 :: [3]) by reflexivity.
  assert (H4 : length (inorder mod_tree) + 1 ≤ 8) by (simpl; lia).
  split_and!; [exact mod_heap_linked|exact H3|exact H4|].
  apply (prev_gives_predecessor 8 mod_heap 0 mod_tree [] 1 2 [3] mod_heap_linked H3 H4).
Defined.

Lemma traverse_visits_records_in_order_witness :
  linked mod_heap 0 mod_tree ∧ caches mod_heap 0 mod_tree ∧
  length (inorder mod_tree) + 2 ≤ 8 ∧
  traverse 8 0 mod_heap = Ok (inorder mod_tree) ∧ NoDup (inorder mod_tree).
Proof.
  assert (H4 : length (inorder mod_tree) + 2 ≤ 8) by (simpl; lia).
  split_and!; [exact mod_heap_linked|exact mod_heap_caches|exact H4|..];
    apply (traverse_visits_records_in_order 8 mod_heap 0 mod_tree mod_heap_linked
             mod_heap_caches H4).
Defined.

Lemma find_extremes_of_subtree_witness :
  sub mod_heap (Head 0) (T (T E 1 E) 2 (T E 3 E)) ∧
  length (inorder (T (T E 1 E) 2 (T E 3 E))) < 8 ∧
  ∃ m M, find_minimum 8 mod_heap (Rec 2) = Ok (Rec m) ∧
         find_maximum 8 mod_heap (Rec 2) = Ok (Rec M) ∧
         head (inorder (T (T E 1 E) 2 (T E 3 E))) = Some m ∧
         last (inorder (T (T E 1 E) 2 (T E 3 E))) = Some M.
Proof.
  assert (H1 : sub mod_heap (Head 0) (T (T E 1 E) 2 (T E 3 E))) by (vm_compute; tauto).
  assert (H2 : length (inorder (T (T E 1 E) 2 (T E 3 E))) < 8) by (simpl; lia).
  refine (conj H1 (conj H2 _)).
  apply (find_extremes_of_subtree 8 mod_heap (Head 0) (T E 1 E) 2 (T E 3 E) H1 H2).
Defined.

(** * [clear_and_dispose] *)

Lemma set_parent_if_None v h : set_parent_if None v h = h.
Proof. with_strategy transparent [set_parent_if] reflexivity. Qed.

Lemma set_parent_if_ne p v h y : p ≠ Some y → set_parent_if p v h y = h y.
Proof.
  intros Hp. with_strategy transparent [set_parent_if] (unfold set_parent_if).
  destruct p as [x|]; [|done]. apply set_parent_ne. congruence.
Qed.

(** X24.  On a linked tree, [clear_and_dispose] hands every record of
    the tree to the disposer once, in the order of the tree, and leaves
    the tree empty, with both caches of the sentinel null; it writes to
    the child references of these records and to the sentinel's
    references only: the parent reference of every record, the records
    outside the tree, the other tree objects and every colour are as
    before.  A step budget above twice the number of records is
    enough. *)
Theorem clear_and_dispose_disposes_all fuel h t s acc :
  linked h t s → 2 * nodes s < fuel →
  ∃ h', clear_and_dispose fuel t h acc = Ok (h', acc ++ inorder s) ∧
        empty t h' = true ∧ linked h' t E ∧
        (∀ q, q ∉ inorder s → h' (Rec q) = h (Rec q)) ∧
        (∀ u, u ≠ t → h' (Head u) = h (Head u)) ∧
        (∀ y, is_red h' y = is_red h y) ∧
        (∀ q, parent h' (Rec q) = parent h (Rec q)) ∧
        left (h' (Head t)) = None ∧ right (h' (Head t)) = None.
Proof.
  intros (Hr & Hs & Hnd) Hf. unfold clear_and_dispose. rewrite Hr.
  destruct (dispose_spec fuel s h acc) as (h1 & -> & Hf1 & Hc1).
  { by eapply sub_shape. }
  { done. }
  { pose proof (dispose_steps_le s). lia. }
  cbn [bind]. eexists. split; [done|].
  assert (Hroot : root t (set_right (Head t) None (set_left (Head t) None (set_root t None h1)))
                  = None) by heap_solve.
  split_and!.
  - unfold empty. rewrite Hroot. by apply bool_decide_eq_true_2.
  - split_and!; [done|done|constructor].
  - intros q Hq. rewrite set_root_eq, set_parent_if_None.
    rewrite set_right_ne, set_left_ne, set_parent_ne by done. apply Hf1.
    by intros (q' & [= <-] & ?)%list_elem_of_fmap.
  - intros u Hu. rewrite set_root_eq, set_parent_if_None.
    rewrite set_right_ne, set_left_ne, set_parent_ne by congruence. apply Hf1.
    by intros (q' & [=] & ?)%list_elem_of_fmap.
  - intros y. autorewrite with heap. apply Hc1.
  - intros q. autorewrite with heap. rewrite decide_False by done.
    rewrite decide_False by done. by destruct (Hc1 (Rec q)) as [_ ->].
  - heap_solve.
  - heap_solve.
Qed.

Lemma clear_and_dispose_disposes_all_witness :
  linked mod_heap 0 mod_tree ∧ 2 * nodes mod_tree < 8 ∧
  ∃ h', clear_and_dispose 8 0 mod_heap [] = Ok (h', [] ++ inorder mod_tree) ∧
        empty 0 h' = true ∧ linked h' 0 E ∧
        (∀ q, q ∉ inorder mod_tree → h' (Rec q) = mod_heap (Rec q)) ∧
        (∀ u, u ≠ 0 → h' (Head u) = mod_heap (Head u)) ∧
        (∀ y, is_red h' y = is_red mod_heap y) ∧
        (∀ q, parent h' (Rec q) = parent mod_heap (Rec q)) ∧
        left (h' (Head 0)) = None ∧ right (h' (Head 0)) = None.
Proof.
  assert (H2 : 2 * nodes mod_tree < 8) by (simpl; lia).
  refine (conj mod_heap_linked (conj H2 _)).
  apply (clear_and_dispose_disposes_all 8 mod_heap 0 mod_tree [] mod_heap_linked H2).
Defined.

(** * Rotations *)

Lemma rotate_left_total h t c a x b y d :
  linked h t (plug c (T a x (T b y d))) → ∃ h', rotate_left t (Rec x) h = Ok h'.
Proof.
  intros Hl.
  apply linked_plug in Hl as (Hc & Hsub & Hnd).
  destruct Hsub as (Hpx & Hlx & Hrx & Hsa & HsR).
  unfold rotate_left. rewrite Hrx. simpl.
  destruct HsR as (Hpy & Hly & Hry & Hsb & Hsd).
  simpl in Hnd. unfold ctx_nodes in *.
  autorewrite with heap. rewrite Hly, Hpx.
  decide_simpl.
  elem_norm.
  erewrite (replace_child_cases _ t c x); cycle 1.
  { eapply ctx_ok_frame; [|heap_solve|done]. links_solve. }
  { heap_solve. }
  { intros ?. elem_absurd. }
  destruct c; simpl; eauto.
Qed.

Lemma rotate_right_total h t c a x b y d :
  linked h t (plug c (T (T d y b) x a)) → ∃ h', rotate_right t (Rec x) h = Ok h'.
Proof.
  intros Hl.
  apply linked_plug in Hl as (Hc & Hsub & Hnd).
  destruct Hsub as (Hpx & Hrx & Hlx & HsR & Hsa).
  unfold rotate_right. rewrite Hrx. simpl.
  destruct HsR as (Hpy & Hry & Hly & Hsd & Hsb).
  simpl in Hnd. unfold ctx_nodes in *.
  autorewrite with heap. rewrite Hly, Hpx.
  decide_simpl.
  elem_norm.
  erewrite (replace_child_cases _ t c x); cycle 1.
  { eapply ctx_ok_frame; [|heap_solve|done]. links_solve. }
  { heap_solve. }
  { intros ?. elem_absurd. }
  destruct c; simpl; eauto.
Qed.

(** X19.  [rotate_left] at a record [x] of a linked tree whose right
    child is [y] returns, and lifts [y] into the place of [x]: [x]
    becomes the left child of [y] and takes the former left subtree of
    [y] as its right subtree, while the rest of the tree stays as it
    is.  The order of the records, every colour, the caches of the
    sentinel, the records outside the tree and the other tree objects
    are unchanged. *)
Theorem rotate_left_lifts_right_child h t c a x b y d :
  linked h t (plug c (T a x (T b y d))) →
  ∃ h', rotate_left t (Rec x) h = Ok h' ∧
        linked h' t (plug c (T (T a x b) y d)) ∧
        inorder (plug c (T (T a x b) y d)) = inorder (plug c (T a x (T b y d))) ∧
        (∀ q, is_red h' q = is_red h q) ∧
        within t (inorder (plug c (T a x (T b y d)))) h h'.
Proof.
  intros Hl. destruct (rotate_left_total _ _ _ _ _ _ _ _ Hl) as (h' & Hrot).
  destruct (rotate_left_plug _ _ _ _ _ _ _ _ _ Hl Hrot) as (Hl' & Hw & Hcol & _).
  exists h'. split_and!; [done|done| |done|done].
  rewrite !inorder_plug. simpl. by app_norm.
Qed.

(** X20.  [rotate_right] at a record [x] of a linked tree whose left
    child is [y] returns, and lifts [y] into the place of [x]: [x]
    becomes the right child of [y] and takes the former right subtree
    of [y] as its left subtree.  The order of the records, every
    colour, the caches of the sentinel, the records outside the tree
    and the other tree objects are unchanged. *)
Theorem rotate_right_lifts_left_child h t c a x b y d :
  linked h t (plug c (T (T d y b) x a)) →
  ∃ h', rotate_right t (Rec x) h = Ok h' ∧
        linked h' t (plug c (T d y (T b x a))) ∧
        inorder (plug c (T d y (T b x a))) = inorder (plug c (T (T d y b) x a)) ∧
        (∀ q, is_red h' q = is_red h q) ∧
        within t (inorder (plug c (T (T d y b) x a))) h h'.
Proof.
  intros Hl. destruct (rotate_right_total _ _ _ _ _ _ _ _ Hl) as (h' & Hrot).
  destruct (rotate_right_plug _ _ _ _ _ _ _ _ _ Hl Hrot) as (Hl' & Hw & Hcol & _).
  exists h'. split_and!; [done|done| |done|done].
  rewrite !inorder_plug. simpl. by app_norm.
Qed.

Lemma linked_fields h h' t s :
  linked h t s → linked h' t s →
  parent h' (Head t) = parent h (Head t) ∧
  ∀ q, q ∈ inorder s → same_links h h' (Rec q).
Proof.
  intros (Hr & Hs & _) (Hr' & Hs' & _). rewrite !root_eq in *. split; [congruence|].
  clear Hr Hr'. generalize dependent (Head t). induction s as [|l IHl x r IHr]; intros par Hs Hs' q Hq.
  { by apply elem_of_nil in Hq. }
  destruct Hs as (Hp & Hlx & Hrx & Hsl & Hsr), Hs' as (Hp' & Hlx' & Hrx' & Hsl' & Hsr').
  simpl in Hq. apply elem_of_app in Hq as [Hq|Hq]; [by eapply IHl|].
  apply elem_of_cons in Hq as [->|Hq]; [|by eapply IHr].
  unfold same_links. split_and!; congruence.
Qed.

(** X21.  A [rotate_left] at [x] followed by a [rotate_right] at the
    record [y] it lifted gives back the tree as it was: both calls
    return, and in the heap they leave every record, linked or not, and
    every tree object has the three links and the colour it had
    before. *)
Theorem rotate_left_then_right_restores h t c a x b y d :
  linked h t (plug c (T a x (T b y d))) →
  ∃ h' h'', rotate_left t (Rec x) h = Ok h' ∧ rotate_right t (Rec y) h' = Ok h'' ∧
            linked h'' t (plug c (T a x (T b y d))) ∧
            ∀ q, same_node h h'' q.
Proof.
  intros Hl. destruct (rotate_left_total _ _ _ _ _ _ _ _ Hl) as (h' & Hrot).
  destruct (rotate_left_plug _ _ _ _ _ _ _ _ _ Hl Hrot) as (Hl' & Hw & Hcol & _).
  destruct (rotate_right_total _ _ _ _ _ _ _ _ Hl') as (h'' & Hrot').
  destruct (rotate_right_plug _ _ _ _ _ _ _ _ _ Hl' Hrot') as (Hl'' & Hw' & Hcol' & _).
  exists h', h''. split_and!; [done..|].
  assert (Hin : inorder (plug c (T (T a x b) y d)) = inorder (plug c (T a x (T b y d)))).
  { rewrite !inorder_plug. simpl. by app_norm. }
  rewrite Hin in Hw'. pose proof (within_trans _ _ _ _ _ Hw Hw') as ((Hh & Hq & Hc) & Hle & Hri).
  destruct (linked_fields _ _ _ _ Hl Hl'') as (Hp & Hf).
  intros [u|q].
  - destruct (decide (u = t)) as [->|Hu]; [|by apply Hh].
    unfold same_node. split_and!; [done..|]. by rewrite Hcol', Hcol.
  - destruct (decide (q ∈ inorder (plug c (T a x (T b y d))))) as [Hi|Hi]; [|by apply Hq].
    destruct (Hf q Hi) as (? & ? & ?). unfold same_node. split_and!; [done..|].
    by rewrite Hcol', Hcol.
Qed.

Lemma rotate_left_lifts_right_child_witness :
  linked mod_heap 0 (plug Top (T (T E 1 E) 2 (T E 3 E))) ∧
  ∃ h', rotate_left 0 (Rec 2) mod_heap = Ok h' ∧
        linked h' 0 (plug Top (T (T (T E 1 E) 2 E) 3 E)) ∧
        inorder (plug Top (T (T (T E 1 E) 2 E) 3 E)) = inorder (plug Top (T (T E 1 E) 2 (T E 3 E))) ∧
        (∀ q, is_red h' q = is_red mod_heap q) ∧
        within 0 (inorder (plug Top (T (T E 1 E) 2 (T E 3 E)))) mod_heap h'.
Proof.
  refine (conj mod_heap_linked _).
  apply (rotate_left_lifts_right_child mod_heap 0 Top (T E 1 E) 2 E 3 E mod_heap_linked).
Defined.

Lemma rotate_right_lifts_left_child_witness :
  linked mod_heap 0 (plug Top (T (T E 1 E) 2 (T E 3 E))) ∧
  ∃ h', rotate_right 0 (Rec 2) mod_heap = Ok h' ∧
        linked h' 0 (plug Top (T E 1 (T E 2 (T E 3 E)))) ∧
        inorder (plug Top (T E 1 (T E 2 (T E 3 E)))) = inorder (plug Top (T (T E 1 E) 2 (T E 3 E))) ∧
        (∀ q, is_red h' q = is_red mod_heap q) ∧
        within 0 (inorder (plug Top (T (T E 1 E) 2 (T E 3 E)))) mod_heap h'.
Proof.
  refine (conj mod_heap_linked _).
  apply (rotate_right_lifts_left_child mod_heap 0 Top (T E 3 E) 2 E 1 E mod_heap_linked).
Defined.

Lemma rotate_left_then_right_restores_witness :
  linked mod_heap 0 (plug Top (T (T E 1 E) 2 (T E 3 E))) ∧
  ∃ h' h'', rotate_left 0 (Rec 2) mod_heap = Ok h' ∧ rotate_right 0 (Rec 3) h' = Ok h'' ∧
            linked h'' 0 (plug Top (T (T E 1 E) 2 (T E 3 E))) ∧
            ∀ q, same_node mod_heap h'' q.
Proof.
  refine (conj mod_heap_linked _).
  apply (rotate_left_then_right_restores mod_heap 0 Top (T E 1 E) 2 E 3 E mod_heap_linked).
Defined.

(** * [swap] and the move constructor *)

Lemma linked_root_only h t u s a :
  linked h u s → t ≠ u → parent h (Rec a) = Some (Head t) → a ∉ inorder s.
Proof.
  intros Hl Hne Hp Ha.
  destruct (linked_parent _ _ _ _ Hl Ha) as [(Hp' & _)|(p & _ & _ & Hp' & _)]; congruence.
Qed.

Lemma caches_nonempty h t u s l x r :
  s = T l x r →
  left (h (Head u)) = Some (default (Head u) (Rec <$> head (inorder s))) →
  right (h (Head u)) = Some (default (Head u) (Rec <$> last (inorder s))) →
  left (h (Head u)) = Some (default (Head t) (Rec <$> head (inorder s))) ∧
  right (h (Head u)) = Some (default (Head t) (Rec <$> last (inorder s))).
Proof.
  intros -> -> ->.
  by rewrite head_inorder, last_inorder.
Qed.

Lemma swap_aux h t u st su :
  linked h t st → linked h u su → caches h t st → caches h u su → t ≠ u →
  (st ≠ E → su ≠ E → is_red h (Head t) = is_red h (Head u)) →
  ∃ h', swap t u h = Ok h' ∧
        linked h' t su ∧ caches h' t su ∧ linked h' u st ∧ caches h' u st ∧
        (∀ y, is_red h' y = is_red h y) ∧
        (∀ v, v ≠ t → v ≠ u → same_node h h' (Head v)) ∧
        (∀ q, left (h' (Rec q)) = left (h (Rec q)) ∧ right (h' (Rec q)) = right (h (Rec q)) ∧
              (root_ptr st ≠ Some (Rec q) → root_ptr su ≠ Some (Rec q) →
               parent h' (Rec q) = parent h (Rec q))).
Proof.
  intros Ht Hu Hct Hcu Hne Hcol.
  pose proof Ht as (Hrt & Hst & Hnt). pose proof Hu as (Hru & Hsu & Hnu).
  unfold swap. rewrite Hrt, Hru. rewrite !root_eq in *.
  destruct st as [|l1 a r1], su as [|l2 b r2]; simpl root_ptr in *; cbn iota.
  - (* both empty *)
    eexists. split; [done|]. unfold same_node. by split_and!.
  - (* only [u] holds records *)
    autorewrite with heap. decide_simpl. rewrite Hru. cbn [deref bind].
    pose proof Hsu as (Hpb & _).
    destruct Hcu as (Hl2 & Hr2).
    destruct (caches_nonempty h t u _ _ _ _ eq_refl Hl2 Hr2) as (Hl2' & Hr2').
    eexists. split; [done|].
    split_and!.
    + split_and!; [heap_solve| |done].
      eapply (sub_reparent h); [done| | |exact Hsu].
      * intros q Hq. split_and!; heap_solve.
      * intros a' [= <-]. heap_solve.
    + split; heap_solve.
    + split_and!; [heap_solve|done|constructor].
    + split; heap_solve.
    + heap_solve.
    + intros v Hv1 Hv2. unfold same_node. split_and!; heap_solve.
    + intros q. split_and!; heap_solve.
  - (* only [t] holds records *)
    autorewrite with heap. decide_simpl. rewrite Hrt. cbn [deref bind].
    pose proof Hst as (Hpa & _).
    destruct Hct as (Hl1 & Hr1).
    destruct (caches_nonempty h u t _ _ _ _ eq_refl Hl1 Hr1) as (Hl1' & Hr1').
    eexists. split; [done|].
    split_and!.
    + split_and!; [heap_solve|done|constructor].
    + split; heap_solve.
    + split_and!; [heap_solve| |done].
      eapply (sub_reparent h); [done| | |exact Hst].
      * intros q Hq. split_and!; heap_solve.
      * intros a' [= <-]. heap_solve.
    + split; heap_solve.
    + heap_solve.
    + intros v Hv1 Hv2. unfold same_node. split_and!; heap_solve.
    + intros q. split_and!; heap_solve.
  - (* both hold records *)
    rewrite Hcol by done. rewrite bool_decide_eq_true_2 by done. cbn [negb].
    autorewrite with heap. decide_simpl. rewrite Hru. cbn [deref bind].
    autorewrite with heap. decide_simpl. rewrite Hrt. cbn [deref bind].
    pose proof Hst as (Hpa & _). pose proof Hsu as (Hpb & _).
    assert (Hab : a ≠ b) by congruence.
    assert (Ha : a ∉ inorder (T l2 b r2)) by (by eapply (linked_root_only h t u)).
    assert (Hb : b ∉ inorder (T l1 a r1)) by (by eapply (linked_root_only h u t)).
    destruct Hct as (Hl1 & Hr1), Hcu as (Hl2 & Hr2).
    destruct (caches_nonempty h u t _ _ _ _ eq_refl Hl1 Hr1) as (Hl1' & Hr1').
    destruct (caches_nonempty h t u _ _ _ _ eq_refl Hl2 Hr2) as (Hl2' & Hr2').
    eexists. split; [done|].
    split_and!.
    + split_and!; [heap_solve| |done].
      eapply (sub_reparent h); [done| | |exact Hsu].
      * intros q Hq. assert (q ≠ a) by (by intros ->). split_and!; heap_solve.
      * intros a' [= <-]. heap_solve.
    + split; heap_solve.
    + split_and!; [heap_solve| |done].
      eapply (sub_reparent h); [done| | |exact Hst].
      * intros q Hq. assert (q ≠ b) by (by intros ->). split_and!; heap_solve.
      * intros a' [= <-]. heap_solve.
    + split; heap_solve.
    + heap_solve.
    + intros v Hv1 Hv2. unfold same_node. split_and!; heap_solve.
    + intros q. split_and!; heap_solve.
Qed.

(** X22.  [swap] of two distinct tree objects that are linked, with
    their caches right and sentinels of the same colour (the colour is
    what the assertion of [swap] tests), returns and exchanges the two
    trees: each object then holds the records, in the shape, that the
    other held, with its caches right; this covers the cases of one or
    both trees being empty.  No colour changes, no child reference of a
    record changes, and only the two root records get a new parent. *)
Theorem swap_exchanges_trees h t u st su :
  linked h t st → linked h u su → caches h t st → caches h u su → t ≠ u →
  is_red h (Head t) = is_red h (Head u) →
  ∃ h', swap t u h = Ok h' ∧
        linked h' t su ∧ caches h' t su ∧ linked h' u st ∧ caches h' u st ∧
        (∀ y, is_red h' y = is_red h y) ∧
        (∀ v, v ≠ t → v ≠ u → same_node h h' (Head v)) ∧
        (∀ q, left (h' (Rec q)) = left (h (Rec q)) ∧ right (h' (Rec q)) = right (h (Rec q)) ∧
              (root_ptr st ≠ Some (Rec q) → root_ptr su ≠ Some (Rec q) →
               parent h' (Rec q) = parent h (Rec q))).
Proof. intros Ht Hu Hct Hcu Hne Hcol. apply swap_aux; auto. Qed.

(** X23.  The move constructor, given a linked tree [u] with its
    caches right, returns a tree that holds the records of [u] in the
    shape they had, with its caches right and a black sentinel, and
    leaves [u] as an empty tree with both caches at its own sentinel.
    No record changes colour. *)
Theorem rbtree_move_takes_over h t u s :
  linked h u s → caches h u s → t ≠ u →
  ∃ h', rbtree_move t u h = Ok h' ∧
        linked h' t s ∧ caches h' t s ∧
        linked h' u E ∧ caches h' u E ∧ empty u h' = true ∧
        is_red h' (Head t) = false ∧
        (∀ q, is_red h' (Rec q) = is_red h (Rec q)).
Proof.
  intros Hl Hc Hne.
  destruct (rbtree_new_head t h) as (Hn1 & Hn2 & Hn3).
  destruct (rbtree_new_linked t h) as (Hlt & Hct).
  assert (Hl' : linked (rbtree_new t h) u s).
  { destruct Hl as (Hr & Hs & Hnd). split_and!; [|by apply (sub_eq h)|done].
    rewrite !root_eq in *. rewrite (parent_eq h) by auto. done. }
  assert (Hc' : caches (rbtree_new t h) u s).
  { destruct Hc as (Hcl & Hcr). unfold caches. by rewrite Hn2. }
  destruct (swap_aux _ t u E s Hlt Hl' Hct Hc' Hne) as (h' & Hsw & H1 & H2 & H3 & H4 & Hcol & _).
  { done. }
  exists h'. split_and!; [done..| | |].
  - destruct H3 as (Hr & _). unfold empty. by rewrite Hr, bool_decide_eq_true_2.
  - rewrite Hcol. unfold rbtree_new. change (store (Head t) fresh_node h) with (reset (Head t) h).
    heap_solve.
  - intros q. rewrite Hcol. apply is_red_eq, Hn1.
Qed.

Lemma two_heap_linked :
  linked two_heap 0 mod_tree ∧ caches two_heap 0 mod_tree ∧
  linked two_heap 5 E ∧ caches two_heap 5 E.
Proof.
  split_and!.
  - split_and!; [vm_compute; reflexivity|vm_compute; tauto|compute_done].
  - split; vm_compute; reflexivity.
  - split_and!; [vm_compute; reflexivity|done|constructor].
  - split; vm_compute; reflexivity.
Qed.

Lemma swap_exchanges_trees_witness :
  linked two_heap 0 mod_tree ∧ linked two_heap 5 E ∧
  caches two_heap 0 mod_tree ∧ caches two_heap 5 E ∧ 0 ≠ 5 ∧
  is_red two_heap (Head 0) = is_red two_heap (Head 5) ∧
  ∃ h', swap 0 5 two_heap = Ok h' ∧
        linked h' 0 E ∧ caches h' 0 E ∧ linked h' 5 mod_tree ∧ caches h' 5 mod_tree ∧
        (∀ y, is_red h' y = is_red two_heap y) ∧
        (∀ v, v ≠ 0 → v ≠ 5 → same_node two_heap h' (Head v)) ∧
        (∀ q, left (h' (Rec q)) = left (two_heap (Rec q)) ∧
              right (h' (Rec q)) = right (two_heap (Rec q)) ∧
              (root_ptr mod_tree ≠ Some (Rec q) → root_ptr E ≠ Some (Rec q) →
               parent h' (Rec q) = parent two_heap (Rec q))).
Proof.
  destruct two_heap_linked as (H1 & H2 & H3 & H4).
  assert (H5 : 0 ≠ 5) by lia.
  assert (H6 : is_red two_heap (Head 0) = is_red two_heap (Head 5)) by (vm_compute; reflexivity).
  refine (conj H1 (conj H3 (conj H2 (conj H4 (conj H5 (conj H6 _)))))).
  apply (swap_exchanges_trees two_heap 0 5 mod_tree E H1 H3 H2 H4 H5 H6).
Defined.

Lemma rbtree_move_takes_over_witness :
  linked mod_heap 0 mod_tree ∧ caches mod_heap 0 mod_tree ∧ 5 ≠ 0 ∧
  ∃ h', rbtree_move 5 0 mod_heap = Ok h' ∧
        linked h' 5 mod_tree ∧ caches h' 5 mod_tree ∧
        linked h' 0 E ∧ caches h' 0 E ∧ empty 0 h' = true ∧
        is_red h' (Head 5) = false ∧
        (∀ q, is_red h' (Rec q) = is_red mod_heap (Rec q)).
Proof.
  assert (H3 : 5 ≠ 0) by lia.
  refine (conj mod_heap_linked (conj mod_heap_caches (conj H3 _))).
  apply (rbtree_move_takes_over mod_heap 5 0 mod_tree mod_heap_linked mod_heap_caches H3).
Defined.

(** * The red-black rules *)

(** The checks on the heap compute the rules of the shape. *)
Lemma rbt_checks h s :
  ∀ fuel n, shape h s → nodes s < fuel →
    rbt h s n ↔ red_rule fuel h (root_ptr s) = true ∧ black_height fuel h (root_ptr s) = Some n.
Proof.
  induction s as [|l IHl x r IHr]; intros fuel n Hs Hf.
  - destruct fuel as [|fuel]; [lia|]. simpl. split; [by intros ->|]. by intros [_ [= ->]].
  - destruct fuel as [|fuel]; [simpl in Hf; lia|]. simpl in Hf.
    destruct Hs as (Hl & Hr & Hsl & Hsr).
    cbn [rbt root_ptr red_rule black_height]. rewrite Hl, Hr.
    unfold is_black, black_ptr.
    specialize (IHl fuel). specialize (IHr fuel).
    destruct (is_red h (Rec x)) eqn:Hred; cbn [negb orb].
    + rewrite (IHl n Hsl ltac:(lia)), (IHr n Hsr ltac:(lia)). split.
      * intros (-> & -> & (-> & ->) & (-> & ->)). simpl. by rewrite decide_True.
      * intros (Hrr & Hbh).
        apply andb_true_iff in Hrr as [Hrr Hrr3]. apply andb_true_iff in Hrr as [Hrr Hrr2].
        apply andb_true_iff in Hrr as [Hb1 Hb2].
        apply negb_true_iff in Hb1, Hb2.
        destruct (black_height fuel h (root_ptr l)) as [a|]; [|done].
        destruct (black_height fuel h (root_ptr r)) as [b|]; [|done].
        destruct (decide (a = b)) as [->|]; [|done]. by simplify_eq.
    + destruct n as [|m].
      * split; [done|]. intros (_ & Hbh).
        destruct (black_height fuel h (root_ptr l)) as [a|]; [|done].
        destruct (black_height fuel h (root_ptr r)) as [b|]; [|done].
        by destruct (decide (a = b)).
      * rewrite (IHl m Hsl ltac:(lia)), (IHr m Hsr ltac:(lia)). split.
        -- intros ((-> & ->) & (-> & ->)). simpl. by rewrite decide_True.
        -- intros (Hrr & Hbh).
           apply andb_true_iff in Hrr as [Hrr2 Hrr3].
           destruct (black_height fuel h (root_ptr l)) as [a|]; [|done].
           destruct (black_height fuel h (root_ptr r)) as [b|]; [|done].
           destruct (decide (a = b)) as [->|]; [|done]. by simplify_eq.
Qed.

Lemma rbt_frame h h' s n :
  (∀ q, q ∈ inorder s → is_red h' (Rec q) = is_red h (Rec q)) → rbt h s n → rbt h' s n.
Proof.
  revert n. induction s as [|l IHl x r IHr]; intros n Hq; [done|]. simpl.
  assert (Hl : ∀ q, q ∈ inorder l → is_red h' (Rec q) = is_red h (Rec q))
    by (intros; apply Hq; set_solver).
  assert (Hr : ∀ q, q ∈ inorder r → is_red h' (Rec q) = is_red h (Rec q))
    by (intros; apply Hq; set_solver).
  assert (Hpl : red_ptr h' (root_ptr l) = red_ptr h (root_ptr l)).
  { destruct l as [|? y ?]; [done|]. simpl. apply Hl. simpl. set_solver. }
  assert (Hpr : red_ptr h' (root_ptr r) = red_ptr h (root_ptr r)).
  { destruct r as [|? y ?]; [done|]. simpl. apply Hr. simpl. set_solver. }
  rewrite (Hq x) by set_solver. rewrite Hpl, Hpr.
  destruct (is_red h (Rec x)); [naive_solver|]. destruct n; naive_solver.
Qed.

Lemma ctx_black_frame h h' c :
  (∀ q, q ∈ ctx_nodes c → is_red h' (Rec q) = is_red h (Rec q)) → ctx_black h c → ctx_black h' c.
Proof.
  unfold ctx_nodes. destruct c as [|c p pr|pl p c]; simpl; [done|..]; intros Hq <-; apply Hq;
    set_solver.
Qed.

Lemma ctx_rb_frame h h' c n :
  (∀ q, q ∈ ctx_nodes c → is_red h' (Rec q) = is_red h (Rec q)) → ctx_rb h c n → ctx_rb h' c n.
Proof.
  unfold ctx_nodes. revert n. induction c as [|c IH p pr|pl p c IH]; intros n Hq; [done|..]; simpl.
  - assert (Hc : ∀ q, q ∈ ctx_before c ++ ctx_after c → is_red h' (Rec q) = is_red h (Rec q))
      by (intros; apply Hq; simpl; set_solver).
    assert (Hr : ∀ q, q ∈ inorder pr → is_red h' (Rec q) = is_red h (Rec q))
      by (intros; apply Hq; simpl; set_solver).
    assert (Hpr : red_ptr h' (root_ptr pr) = red_ptr h (root_ptr pr)).
    { destruct pr as [|? y ?]; [done|]. simpl. apply Hr. simpl. set_solver. }
    rewrite (Hq p) by (simpl; set_solver). rewrite Hpr.
    intros [Hrb Hrest]. split; [by eapply rbt_frame|].
    destruct (is_red h (Rec p)); [|by apply IH].
    destruct Hrest as (? & ? & ?). split_and!; [done|by eapply ctx_black_frame|by apply IH].
  - assert (Hc : ∀ q, q ∈ ctx_before c ++ ctx_after c → is_red h' (Rec q) = is_red h (Rec q))
      by (intros; apply Hq; simpl; set_solver).
    assert (Hr : ∀ q, q ∈ inorder pl → is_red h' (Rec q) = is_red h (Rec q))
      by (intros; apply Hq; simpl; set_solver).
    assert (Hpr : red_ptr h' (root_ptr pl) = red_ptr h (root_ptr pl)).
    { destruct pl as [|? y ?]; [done|]. simpl. apply Hr. simpl. set_solver. }
    rewrite (Hq p) by (simpl; set_solver). rewrite Hpr.
    intros [Hrb Hrest]. split; [by eapply rbt_frame|].
    destruct (is_red h (Rec p)); [|by apply IH].
    destruct Hrest as (? & ? & ?). split_and!; [done|by eapply ctx_black_frame|by apply IH].
Qed.

(** A tree with a hole obeys the rules when its two parts do and they
    do not clash at the hole. *)
Lemma rbt_unplug h c : ∀ s N,
  rbt h (plug c s) N →
  ∃ n, rbt h s n ∧ ctx_rb h c n ∧ (red_ptr h (root_ptr s) = true → ctx_black h c).
Proof.
  induction c as [|c IH p pr|pl p c IH]; intros s N; simpl.
  - eauto.
  - intros (m & Hs & Hc & Hb)%IH. simpl in Hs, Hb.
    destruct (is_red h (Rec p)) eqn:Hp.
    + destruct Hs as (Hrs & Hrp & Hs & Hpr). exists m.
      refine (conj Hs (conj _ _)); [|by rewrite Hrs]. simpl. auto.
    + destruct m as [|m]; [done|]. destruct Hs as (Hs & Hpr). exists m.
      refine (conj Hs (conj _ _)); [|done]. simpl. auto.
  - intros (m & Hs & Hc & Hb)%IH. simpl in Hs, Hb.
    destruct (is_red h (Rec p)) eqn:Hp.
    + destruct Hs as (Hrp & Hrs & Hpr & Hs). exists m.
      refine (conj Hs (conj _ _)); [|by rewrite Hrs]. simpl. auto.
    + destruct m as [|m]; [done|]. destruct Hs as (Hpr & Hs). exists m.
      refine (conj Hs (conj _ _)); [|done]. simpl. auto.
Qed.

Lemma rbt_replug h c : ∀ s n,
  rbt h s n → ctx_rb h c n → (red_ptr h (root_ptr s) = true → ctx_black h c) →
  ∃ N, rbt h (plug c s) N.
Proof.
  induction c as [|c IH p pr|pl p c IH]; intros s n Hs Hc Hb; simpl in *.
  - eauto.
  - destruct Hc as (Hpr & Hc). destruct (is_red h (Rec p)) eqn:Hp.
    + destruct Hc as (Hrp & Hbc & Hc). apply (IH _ n); [|done|done].
      simpl. rewrite Hp. split_and!; [|done..].
      destruct (red_ptr h (root_ptr s)); [|done]. by specialize (Hb eq_refl).
    + apply (IH _ (S n)); [|done|]; simpl; rewrite Hp; done.
  - destruct Hc as (Hpr & Hc). destruct (is_red h (Rec p)) eqn:Hp.
    + destruct Hc as (Hrp & Hbc & Hc). apply (IH _ n); [|done|done].
      simpl. rewrite Hp. split_and!; [done| |done..].
      destruct (red_ptr h (root_ptr s)); [|done]. by specialize (Hb eq_refl).
    + apply (IH _ (S n)); [|done|]; simpl; rewrite Hp; done.
Qed.

Lemma plug_T c l x r : ∃ L y R, plug c (T l x r) = T L y R.
Proof. revert l x r. induction c; simpl; eauto. Qed.

Lemma rbt_kids h l x r n : rbt h (T l x r) n → ∃ m, rbt h l m ∧ rbt h r m.
Proof.
  simpl. destruct (is_red h (Rec x)); [naive_solver|]. destruct n; [done|]. eauto.
Qed.

Lemma rbt_red h l x r n :
  is_red h (Rec x) = true → red_ptr h (root_ptr l) = false → red_ptr h (root_ptr r) = false →
  rbt h l n → rbt h r n → rbt h (T l x r) n.
Proof. intros Hx. simpl. by rewrite Hx. Qed.

Lemma rbt_black h l x r n :
  is_red h (Rec x) = false → rbt h l n → rbt h r n → rbt h (T l x r) (S n).
Proof. intros Hx. simpl. by rewrite Hx. Qed.

Lemma rbt_red_inv h l x r n :
  is_red h (Rec x) = true → rbt h (T l x r) n →
  red_ptr h (root_ptr l) = false ∧ red_ptr h (root_ptr r) = false ∧ rbt h l n ∧ rbt h r n.
Proof. intros Hx. simpl. by rewrite Hx. Qed.

Lemma ctx_rb_red_inv_L h c p pr n :
  is_red h (Rec p) = true → ctx_rb h (CL c p pr) n →
  rbt h pr n ∧ red_ptr h (root_ptr pr) = false ∧ ctx_black h c ∧ ctx_rb h c n.
Proof. intros Hx. simpl. by rewrite Hx. Qed.

Lemma ctx_rb_red_inv_R h c p pl n :
  is_red h (Rec p) = true → ctx_rb h (CR pl p c) n →
  rbt h pl n ∧ red_ptr h (root_ptr pl) = false ∧ ctx_black h c ∧ ctx_rb h c n.
Proof. intros Hx. simpl. by rewrite Hx. Qed.

Lemma ctx_rb_black_inv_L h c g u n :
  is_red h (Rec g) = false → ctx_rb h (CL c g u) n → rbt h u n ∧ ctx_rb h c (S n).
Proof. intros Hx. simpl. by rewrite Hx. Qed.

Lemma ctx_rb_black_inv_R h c g u n :
  is_red h (Rec g) = false → ctx_rb h (CR u g c) n → rbt h u n ∧ ctx_rb h c (S n).
Proof. intros Hx. simpl. by rewrite Hx. Qed.

Lemma red_ptr_root_frame h h' s :
  (∀ q, q ∈ inorder s → is_red h' (Rec q) = is_red h (Rec q)) →
  red_ptr h' (root_ptr s) = red_ptr h (root_ptr s).
Proof. destruct s as [|l x r]; [done|]. simpl. intros Hq. apply Hq. set_solver. Qed.

(** The root of a tree that obeys the rules below a black record, or
    with its root recoloured, has two subtrees that obey them. *)
Lemma rbt_plug_kids h c l x r n :
  rbt h (T l x r) n → ctx_rb h c n → (is_red h (Rec x) = true → ctx_black h c) →
  ∃ L y R m, plug c (T l x r) = T L y R ∧ rbt h L m ∧ rbt h R m.
Proof.
  intros Hs Hc Hb. destruct (rbt_replug h c _ _ Hs Hc Hb) as (N & HN).
  destruct (plug_T c l x r) as (L & y & R & He). rewrite He in HN.
  destruct (rbt_kids _ _ _ _ _ HN) as (m & ? & ?). by exists L, y, R, m.
Qed.

(** * [insert_fixup] returns *)

(** The end of the second case of [insert_fixup], the node being a
    left child of a left child: the loop stops after it. *)
Lemma insert_fixup_tail_right h t c a z b B p g u :
  linked h t (plug c (T (T (T a z b) p B) g u)) →
  ∃ h', (let* zp := deref (parent h (Rec z)) in
         let h := set_black zp h in
         let* zp := deref (parent h (Rec z)) in
         let* zpp := deref (parent h zp) in
         let h := set_red zpp h in
         let* zp := deref (parent h (Rec z)) in
         let* zpp := deref (parent h zp) in
         let* h := rotate_right t zpp h in
         Ok (Rec z, h)) = Ok (Rec z, h') ∧
        parent h' (Rec z) = Some (Rec p) ∧ is_red h' (Rec p) = false ∧
        linked h' t (plug c (T (T a z b) p (T B g u))) ∧
        is_red h' (Rec g) = true ∧
        ∀ q, q ≠ p → q ≠ g → is_red h' (Rec q) = is_red h (Rec q).
Proof.
  intros Hl.
  pose proof Hl as (_ & Hs & Hnd)%linked_plug.
  destruct Hs as (_ & _ & _ & (Hpg & _ & _ & (Hzp & _) & _) & _).
  assert (Hne : p ≠ g).
  { intros ->. simpl in Hnd. elem_norm; try elem_absurd_now. }
  unfold set_black, set_red.
  rewrite Hzp. simpl. autorewrite with heap.
  rewrite Hzp. simpl. autorewrite with heap.
  rewrite Hpg. simpl. autorewrite with heap.
  rewrite Hzp. simpl. autorewrite with heap.
  rewrite Hpg. simpl.
  set (h2 := set_color (Rec g) true (set_color (Rec p) false h)).
  assert (Hl2 : linked h2 t (plug c (T (T (T a z b) p B) g u)))
    by (by apply set_color_linked, set_color_linked).
  destruct (rotate_right_total _ _ _ _ _ _ _ _ Hl2) as (h' & Hrot).
  destruct (rotate_right_plug _ _ _ _ _ _ _ _ _ Hl2 Hrot) as (Hl' & _ & Hcol & _).
  rewrite Hrot. simpl. exists h'. split_and!; [done| | |done| |].
  - apply linked_plug in Hl' as (_ & Hs' & _).
    by destruct Hs' as (_ & _ & _ & (? & _) & _).
  - rewrite Hcol. subst h2. heap_solve.
  - rewrite Hcol. subst h2. heap_solve.
  - intros q Hq1 Hq2. rewrite Hcol. subst h2. heap_solve.
Qed.

Lemma insert_fixup_tail_left h t c a z b B p g u :
  linked h t (plug c (T u g (T B p (T a z b)))) →
  ∃ h', (let* zp := deref (parent h (Rec z)) in
         let h := set_black zp h in
         let* zp := deref (parent h (Rec z)) in
         let* zpp := deref (parent h zp) in
         let h := set_red zpp h in
         let* zp := deref (parent h (Rec z)) in
         let* zpp := deref (parent h zp) in
         let* h := rotate_left t zpp h in
         Ok (Rec z, h)) = Ok (Rec z, h') ∧
        parent h' (Rec z) = Some (Rec p) ∧ is_red h' (Rec p) = false ∧
        linked h' t (plug c (T (T u g B) p (T a z b))) ∧
        is_red h' (Rec g) = true ∧
        ∀ q, q ≠ p → q ≠ g → is_red h' (Rec q) = is_red h (Rec q).
Proof.
  intros Hl.
  pose proof Hl as (_ & Hs & Hnd)%linked_plug.
  destruct Hs as (_ & _ & _ & _ & (Hpg & _ & _ & _ & (Hzp & _))).
  assert (Hne : p ≠ g).
  { intros ->. simpl in Hnd. elem_norm; try elem_absurd_now. }
  unfold set_black, set_red.
  rewrite Hzp. simpl. autorewrite with heap.
  rewrite Hzp. simpl. autorewrite with heap.
  rewrite Hpg. simpl. autorewrite with heap.
  rewrite Hzp. simpl. autorewrite with heap.
  rewrite Hpg. simpl.
  set (h2 := set_color (Rec g) true (set_color (Rec p) false h)).
  assert (Hl2 : linked h2 t (plug c (T u g (T B p (T a z b)))))
    by (by apply set_color_linked, set_color_linked).
  destruct (rotate_left_total _ _ _ _ _ _ _ _ Hl2) as (h' & Hrot).
  destruct (rotate_left_plug _ _ _ _ _ _ _ _ _ Hl2 Hrot) as (Hl' & _ & Hcol & _).
  rewrite Hrot. simpl. exists h'. split_and!; [done| | |done| |].
  - apply linked_plug in Hl' as (_ & Hs' & _).
    by destruct Hs' as (_ & _ & _ & _ & (? & _)).
  - rewrite Hcol. subst h2. heap_solve.
  - rewrite Hcol. subst h2. heap_solve.
  - intros q Hq1 Hq2. rewrite Hcol. subst h2. heap_solve.
Qed.

Lemma insert_fixup_loop_stops fuel h t z p :
  0 < fuel → parent h z = Some p → is_red h p = false →
  insert_fixup_loop fuel t z h = Ok h.
Proof.
  intros Hf Hp Hr. destruct fuel as [|fuel]; [lia|]. simpl.
  unfold insert_fixup_cond. rewrite Hp. simpl. rewrite Hr. simpl.
  by destruct (decide _).
Qed.

Lemma red_ptr_root h s :
  red_ptr h (root_ptr s) = true → ∃ l y r, s = T l y r.
Proof. destruct s; simpl; [done|eauto]. Qed.

Lemma length_ctx_nodes_2 c1 c2 :
  (∃ a r, c1 = CL c2 a r) ∨ (∃ l a, c1 = CR l a c2) →
  ∀ c, (∃ a r, c = CL c1 a r) ∨ (∃ l a, c = CR l a c1) →
  S (length (ctx_nodes c2)) < length (ctx_nodes c).
Proof.
  intros [(a & r & ->)|(l & a & ->)] c [(a' & r' & ->)|(l' & a' & ->)]; unfold ctx_nodes; simpl;
    repeat (rewrite ?length_app; simpl); lia.
Qed.

(** The colours after the recolouring of the first case of
    [insert_fixup]. *)
Lemma recoloured h p y g :
  p ≠ g → y ≠ g →
  let h3 := set_red (Rec g) (set_black (Rec y) (set_black (Rec p) h)) in
  is_red h3 (Rec g) = true ∧ is_red h3 (Rec p) = false ∧ is_red h3 (Rec y) = false ∧
  ∀ q, q ≠ p → q ≠ y → q ≠ g → is_red h3 (Rec q) = is_red h (Rec q).
Proof.
  intros Hp Hy h3. subst h3. unfold set_red, set_black.
  split_and!; [heap_solve..|]. intros q ???. heap_solve.
Qed.

Ltac col_side H :=
  let q := fresh "q" in let Hq := fresh "Hq" in
  intros q Hq; apply H; intros ->; elem_absurd.

(** The loop of [insert_fixup] at a linked record returns, within a
    step budget of two more than the number of records above and
    beside the record, and keeps the tree linked with the same records
    in the same order.  When the record is red, the tree below it obeys
    the red-black rules and so does the path above it, the loop leaves
    a tree whose root has two subtrees that obey the rules, with the
    same number of black records on their paths. *)
Lemma insert_fixup_loop_spec t n :
  ∀ fuel c l z r h,
    length (ctx_nodes c) ≤ n → n + 2 ≤ fuel →
    linked h t (plug c (T l z r)) →
    ∃ h' s', insert_fixup_loop fuel t (Rec z) h = Ok h' ∧
      linked h' t s' ∧ inorder s' = inorder (plug c (T l z r)) ∧
      ∀ N, is_red h (Rec z) = true → rbt h (T l z r) N → ctx_rb h c N →
           ∃ L x R M, s' = T L x R ∧ rbt h' L M ∧ rbt h' R M.
Proof.
  induction n as [n IH] using lt_wf_ind.
  intros fuel c l z r h Hn Hf Hl.
  destruct fuel as [|fuel]; [lia|]. assert (Hf' : 0 < fuel) by lia.
  pose proof Hl as (Hc & Hs & Hnd)%linked_plug.
  destruct Hs as (Hpz & _).
  cbn [insert_fixup_loop]. unfold insert_fixup_cond. rewrite Hpz.
  destruct c as [|c1 p pr|pl p c1]; simpl ctx_par.
  { rewrite decide_True by done. cbn [bind]. exists h, (T l z r).
    refine (conj eq_refl (conj Hl (conj eq_refl _))). intros N Hz Hrb _.
    destruct (rbt_red_inv _ _ _ _ _ Hz Hrb) as (_ & _ & ? & ?). by exists l, z, r, N. }
  - (* [z] is the left child of [p] *)
    rewrite decide_False by done. cbn [deref bind].
    destruct (is_red h (Rec p)) eqn:Hredp; cbn [negb]; cycle 1.
    { cbn [bind]. exists h, (plug (CL c1 p pr) (T l z r)).
      refine (conj eq_refl (conj Hl (conj eq_refl _))). intros N Hz Hrb Hcrb.
      apply (rbt_plug_kids h (CL c1 p pr) l z r N); [done|done|by intros _]. }
    destruct Hc as (Hlp & Hrp & Hpp & Hspr & Hc1). rewrite Hpp.
    destruct c1 as [|c2 g u|u g c2]; simpl ctx_par.
    { rewrite bool_decide_eq_true_2 by done. cbn [negb bind].
      exists h, (T (T l z r) p pr).
      refine (conj eq_refl (conj Hl (conj eq_refl _))). intros N Hz Hrb Hcrb.
      destruct (ctx_rb_red_inv_L _ _ _ _ _ Hredp Hcrb) as (Hbps & _).
      exists (T l z r), p, pr, N. exact (conj eq_refl (conj Hrb Hbps)). }
    + (* [p] is the left child of [g] *)
      rewrite bool_decide_eq_false_2 by done. cbn [negb bind].
      unfold insert_fixup_body at 1. rewrite Hpz. cbn [ctx_par deref bind]. rewrite Hpp.
      cbn [ctx_par deref bind].
      destruct Hc1 as (Hlg & Hrg & Hpg & Hsu & Hc2).
      rewrite Hlg. rewrite decide_True by done. rewrite Hrg.
      assert (Hpg' : p ≠ g) by (intros ->; simpl in Hnd; elem_norm; try elem_absurd_now).
      assert (Hzg' : z ≠ g) by (intros ->; simpl in Hnd; elem_norm; try elem_absurd_now).
      assert (Hzp' : z ≠ p) by (intros ->; simpl in Hnd; elem_norm; try elem_absurd_now).
      destruct (red_ptr h (root_ptr u)) eqn:Hredu.
      * destruct (red_ptr_root _ _ Hredu) as (ul & y & ur & ->). cbn [root_ptr deref bind].
        assert (Hyg' : y ≠ g) by (intros ->; simpl in Hnd; elem_norm; try elem_absurd_now).
        destruct (recoloured h p y g Hpg' Hyg') as (Hcg & Hcp & Hcy & Hco).
        set (h3 := set_red (Rec g) (set_black (Rec y) (set_black (Rec p) h))) in *.
        assert (F1 : ∀ q, q ∈ inorder (T l z r) → is_red h3 (Rec q) = is_red h (Rec q))
          by (col_side Hco).
        assert (F2 : ∀ q, q ∈ inorder pr → is_red h3 (Rec q) = is_red h (Rec q))
          by (col_side Hco).
        assert (F3 : ∀ q, q ∈ inorder ul → is_red h3 (Rec q) = is_red h (Rec q))
          by (col_side Hco).
        assert (F4 : ∀ q, q ∈ inorder ur → is_red h3 (Rec q) = is_red h (Rec q))
          by (col_side Hco).
        assert (F5 : ∀ q, q ∈ ctx_nodes c2 → is_red h3 (Rec q) = is_red h (Rec q))
          by (col_side Hco).
        pose proof (length_ctx_nodes_2 (CL c2 g (T ul y ur)) c2 ltac:(eauto)
                      (CL (CL c2 g (T ul y ur)) p pr) ltac:(eauto)) as Hlen.
        assert (Hl3 : linked h3 t (plug c2 (T (T (T l z r) p pr) g (T ul y ur)))).
        { subst h3. unfold set_black, set_red. do 3 apply set_color_linked. exact Hl. }
        destruct (IH (length (ctx_nodes c2)) ltac:(lia) fuel c2 (T (T l z r) p pr) g (T ul y ur) h3
                    (le_n _) ltac:(lia) Hl3) as (h' & s' & Hloop & Hl' & Hi' & Hrb').
        exists h', s'. refine (conj Hloop (conj Hl' (conj Hi' _))).
        intros N Hz Hrb Hcrb.
        destruct (rbt_red_inv _ _ _ _ _ Hz Hrb) as (Hrl & Hrr & Hbl & Hbr).
        destruct (ctx_rb_red_inv_L _ _ _ _ _ Hredp Hcrb) as (Hbps & Hrps & Hbg & Hc1').
        destruct (ctx_rb_black_inv_L _ _ _ _ _ Hbg Hc1') as (Hbu & Hc2').
        destruct (rbt_red_inv _ _ _ _ _ Hredu Hbu) as (Hrul & Hrur & Hbul & Hbur).
        apply (Hrb' (S N)); [done| |by eapply ctx_rb_frame].
        apply rbt_red; [done|done|done|apply rbt_black; [done|by eapply rbt_frame|by eapply rbt_frame]|apply rbt_black; [done|by eapply rbt_frame|by eapply rbt_frame]].
      * rewrite Hrp. rewrite decide_False; cycle 1.
        { intros Hz. simpl in Hnd. elem_absurd. }
        cbn [bind].
        destruct (insert_fixup_tail_right h t c2 l z r pr p g u Hl) as
          (h' & Htail & Hp' & Hr' & Hl' & Hg' & Hco).
        assert (Hco' : ∀ q, q ≠ p → q ≠ g → is_red h' (Rec q) = is_red h (Rec q)) by done.
        cbv zeta in Htail. rewrite Htail. cbn [bind].
        assert (F1 : ∀ q, q ∈ inorder (T l z r) → is_red h' (Rec q) = is_red h (Rec q))
          by (col_side Hco').
        assert (F2 : ∀ q, q ∈ inorder pr → is_red h' (Rec q) = is_red h (Rec q))
          by (col_side Hco').
        assert (F3 : ∀ q, q ∈ inorder u → is_red h' (Rec q) = is_red h (Rec q))
          by (col_side Hco').
        assert (F5 : ∀ q, q ∈ ctx_nodes c2 → is_red h' (Rec q) = is_red h (Rec q))
          by (col_side Hco').
        exists h', (plug c2 (T (T l z r) p (T pr g u))).
        refine (conj _ (conj Hl' (conj _ _))).
        { by eapply insert_fixup_loop_stops. }
        { rewrite !inorder_plug. simpl. by app_norm. }
        intros N Hz Hrb Hcrb.
        destruct (rbt_red_inv _ _ _ _ _ Hz Hrb) as (Hrl & Hrr & Hbl & Hbr).
        destruct (ctx_rb_red_inv_L _ _ _ _ _ Hredp Hcrb) as (Hbps & Hrps & Hbg & Hc1').
        destruct (ctx_rb_black_inv_L _ _ _ _ _ Hbg Hc1') as (Hbu & Hc2').
        apply (rbt_plug_kids h' c2 _ _ _ (S N)); [|by eapply ctx_rb_frame|congruence].
        apply rbt_black; [done|by eapply rbt_frame|apply rbt_red; [done|by rewrite (red_ptr_root_frame h h' pr F2)|by rewrite (red_ptr_root_frame h h' u F3)|by eapply rbt_frame|by eapply rbt_frame]].
    + (* [p] is the right child of [g] *)
      rewrite bool_decide_eq_false_2 by done. cbn [negb bind].
      unfold insert_fixup_body at 1. rewrite Hpz. cbn [ctx_par deref bind]. rewrite Hpp.
      cbn [ctx_par deref bind].
      destruct Hc1 as (Hrg & Hlg & Hpg & Hsu & Hc2).
      rewrite Hlg. rewrite decide_False; cycle 1.
      { intros Hz. simpl in Hnd. elem_absurd. }
      assert (Hpg' : p ≠ g) by (intros ->; simpl in Hnd; elem_norm; try elem_absurd_now).
      assert (Hzg' : z ≠ g) by (intros ->; simpl in Hnd; elem_norm; try elem_absurd_now).
      assert (Hzp' : z ≠ p) by (intros ->; simpl in Hnd; elem_norm; try elem_absurd_now).
      destruct (red_ptr h (root_ptr u)) eqn:Hredu.
      * destruct (red_ptr_root _ _ Hredu) as (ul & y & ur & ->). cbn [root_ptr deref bind].
        assert (Hyg' : y ≠ g) by (intros ->; simpl in Hnd; elem_norm; try elem_absurd_now).
        destruct (recoloured h p y g Hpg' Hyg') as (Hcg & Hcp & Hcy & Hco).
        set (h3 := set_red (Rec g) (set_black (Rec y) (set_black (Rec p) h))) in *.
        assert (F1 : ∀ q, q ∈ inorder (T l z r) → is_red h3 (Rec q) = is_red h (Rec q))
          by (col_side Hco).
        assert (F2 : ∀ q, q ∈ inorder pr → is_red h3 (Rec q) = is_red h (Rec q))
          by (col_side Hco).
        assert (F3 : ∀ q, q ∈ inorder ul → is_red h3 (Rec q) = is_red h (Rec q))
          by (col_side Hco).
        assert (F4 : ∀ q, q ∈ inorder ur → is_red h3 (Rec q) = is_red h (Rec q))
          by (col_side Hco).
        assert (F5 : ∀ q, q ∈ ctx_nodes c2 → is_red h3 (Rec q) = is_red h (Rec q))
          by (col_side Hco).
        pose proof (length_ctx_nodes_2 (CR (T ul y ur) g c2) c2 ltac:(eauto)
                      (CL (CR (T ul y ur) g c2) p pr) ltac:(eauto)) as Hlen.
        assert (Hl3 : linked h3 t (plug c2 (T (T ul y ur) g (T (T l z r) p pr)))).
        { subst h3. unfold set_black, set_red. do 3 apply set_color_linked. exact Hl. }
        destruct (IH (length (ctx_nodes c2)) ltac:(lia) fuel c2 (T ul y ur) g (T (T l z r) p pr) h3
                    (le_n _) ltac:(lia) Hl3) as (h' & s' & Hloop & Hl' & Hi' & Hrb').
        exists h', s'. refine (conj Hloop (conj Hl' (conj Hi' _))).
        intros N Hz Hrb Hcrb.
        destruct (rbt_red_inv _ _ _ _ _ Hz Hrb) as (Hrl & Hrr & Hbl & Hbr).
        destruct (ctx_rb_red_inv_L _ _ _ _ _ Hredp Hcrb) as (Hbps & Hrps & Hbg & Hc1').
        destruct (ctx_rb_black_inv_R _ _ _ _ _ Hbg Hc1') as (Hbu & Hc2').
        destruct (rbt_red_inv _ _ _ _ _ Hredu Hbu) as (Hrul & Hrur & Hbul & Hbur).
        apply (Hrb' (S N)); [done| |by eapply ctx_rb_frame].
        apply rbt_red; [done|done|done|apply rbt_black; [done|by eapply rbt_frame|by eapply rbt_frame]|apply rbt_black; [done|by eapply rbt_frame|by eapply rbt_frame]].
      * rewrite Hlp. rewrite decide_True by done.
        destruct (rotate_right_total h t (CR u g c2) pr p r z l Hl) as (h0 & Hrot).
        destruct (rotate_right_plug h t (CR u g c2) pr p r z l h0 Hl Hrot) as (Hl0 & _ & Hcol0 & _).
        rewrite Hrot. cbn [bind].
        destruct (insert_fixup_tail_left h0 t c2 r p pr l z g u Hl0) as
          (h' & Htail & Hp' & Hr' & Hl' & Hg' & Hco).
        assert (Hco' : ∀ q, q ≠ z → q ≠ g → is_red h' (Rec q) = is_red h (Rec q)).
        { intros q ??. rewrite Hco by done. apply Hcol0. }
        cbv zeta in Htail. rewrite Htail. cbn [bind].
        assert (F1a : ∀ q, q ∈ inorder l → is_red h' (Rec q) = is_red h (Rec q))
          by (col_side Hco').
        assert (F1b : ∀ q, q ∈ inorder r → is_red h' (Rec q) = is_red h (Rec q))
          by (col_side Hco').
        assert (F2 : ∀ q, q ∈ inorder pr → is_red h' (Rec q) = is_red h (Rec q))
          by (col_side Hco').
        assert (F3 : ∀ q, q ∈ inorder u → is_red h' (Rec q) = is_red h (Rec q))
          by (col_side Hco').
        assert (F5 : ∀ q, q ∈ ctx_nodes c2 → is_red h' (Rec q) = is_red h (Rec q))
          by (col_side Hco').
        exists h', (plug c2 (T (T u g l) z (T r p pr))).
        refine (conj _ (conj Hl' (conj _ _))).
        { by eapply insert_fixup_loop_stops. }
        { rewrite !inorder_plug. simpl. by app_norm. }
        intros N Hz Hrb Hcrb.
        destruct (rbt_red_inv _ _ _ _ _ Hz Hrb) as (Hrl & Hrr & Hbl & Hbr).
        destruct (ctx_rb_red_inv_L _ _ _ _ _ Hredp Hcrb) as (Hbps & Hrps & Hbg & Hc1').
        destruct (ctx_rb_black_inv_R _ _ _ _ _ Hbg Hc1') as (Hbu & Hc2').
        apply (rbt_plug_kids h' c2 _ _ _ (S N)); [|by eapply ctx_rb_frame|congruence].
        assert (Hp'' : is_red h' (Rec p) = true) by (by rewrite Hco').
        apply rbt_black; [done|apply rbt_red; [done|by rewrite (red_ptr_root_frame h h' u F3)|by rewrite (red_ptr_root_frame h h' l F1a)|by eapply rbt_frame|by eapply rbt_frame]|apply rbt_red; [done|by rewrite (red_ptr_root_frame h h' r F1b)|by rewrite (red_ptr_root_frame h h' pr F2)|by eapply rbt_frame|by eapply rbt_frame]].
  - (* [z] is the right child of [p] *)
    rewrite decide_False by done. cbn [deref bind].
    destruct (is_red h (Rec p)) eqn:Hredp; cbn [negb]; cycle 1.
    { cbn [bind]. exists h, (plug (CR pl p c1) (T l z r)).
      refine (conj eq_refl (conj Hl (conj eq_refl _))). intros N Hz Hrb Hcrb.
      apply (rbt_plug_kids h (CR pl p c1) l z r N); [done|done|by intros _]. }
    destruct Hc as (Hrp & Hlp & Hpp & Hspr & Hc1). rewrite Hpp.
    destruct c1 as [|c2 g u|u g c2]; simpl ctx_par.
    { rewrite bool_decide_eq_true_2 by done. cbn [negb bind].
      exists h, (T pl p (T l z r)).
      refine (conj eq_refl (conj Hl (conj eq_refl _))). intros N Hz Hrb Hcrb.
      destruct (ctx_rb_red_inv_R _ _ _ _ _ Hredp Hcrb) as (Hbps & _).
      exists pl, p, (T l z r), N. exact (conj eq_refl (conj Hbps Hrb)). }
    + (* [p] is the left child of [g] *)
      rewrite bool_decide_eq_false_2 by done. cbn [negb bind].
      unfold insert_fixup_body at 1. rewrite Hpz. cbn [ctx_par deref bind]. rewrite Hpp.
      cbn [ctx_par deref bind].
      destruct Hc1 as (Hlg & Hrg & Hpg & Hsu & Hc2).
      rewrite Hlg. rewrite decide_True by done. rewrite Hrg.
      assert (Hpg' : p ≠ g) by (intros ->; simpl in Hnd; elem_norm; try elem_absurd_now).
      assert (Hzg' : z ≠ g) by (intros ->; simpl in Hnd; elem_norm; try elem_absurd_now).
      assert (Hzp' : z ≠ p) by (intros ->; simpl in Hnd; elem_norm; try elem_absurd_now).
      destruct (red_ptr h (root_ptr u)) eqn:Hredu.
      * destruct (red_ptr_root _ _ Hredu) as (ul & y & ur & ->). cbn [root_ptr deref bind].
        assert (Hyg' : y ≠ g) by (intros ->; simpl in Hnd; elem_norm; try elem_absurd_now).
        destruct (recoloured h p y g Hpg' Hyg') as (Hcg & Hcp & Hcy & Hco).
        set (h3 := set_red (Rec g) (set_black (Rec y) (set_black (Rec p) h))) in *.
        assert (F1 : ∀ q, q ∈ inorder (T l z r) → is_red h3 (Rec q) = is_red h (Rec q))
          by (col_side Hco).
        assert (F2 : ∀ q, q ∈ inorder pl → is_red h3 (Rec q) = is_red h (Rec q))
          by (col_side Hco).
        assert (F3 : ∀ q, q ∈ inorder ul → is_red h3 (Rec q) = is_red h (Rec q))
          by (col_side Hco).
        assert (F4 : ∀ q, q ∈ inorder ur → is_red h3 (Rec q) = is_red h (Rec q))
          by (col_side Hco).
        assert (F5 : ∀ q, q ∈ ctx_nodes c2 → is_red h3 (Rec q) = is_red h (Rec q))
          by (col_side Hco).
        pose proof (length_ctx_nodes_2 (CL c2 g (T ul y ur)) c2 ltac:(eauto)
                      (CR pl p (CL c2 g (T ul y ur))) ltac:(eauto)) as Hlen.
        assert (Hl3 : linked h3 t (plug c2 (T (T pl p (T l z r)) g (T ul y ur)))).
        { subst h3. unfold set_black, set_red. do 3 apply set_color_linked. exact Hl. }
        destruct (IH (length (ctx_nodes c2)) ltac:(lia) fuel c2 (T pl p (T l z r)) g (T ul y ur) h3
                    (le_n _) ltac:(lia) Hl3) as (h' & s' & Hloop & Hl' & Hi' & Hrb').
        exists h', s'. refine (conj Hloop (conj Hl' (conj Hi' _))).
        intros N Hz Hrb Hcrb.
        destruct (rbt_red_inv _ _ _ _ _ Hz Hrb) as (Hrl & Hrr & Hbl & Hbr).
        destruct (ctx_rb_red_inv_R _ _ _ _ _ Hredp Hcrb) as (Hbps & Hrps & Hbg & Hc1').
        destruct (ctx_rb_black_inv_L _ _ _ _ _ Hbg Hc1') as (Hbu & Hc2').
        destruct (rbt_red_inv _ _ _ _ _ Hredu Hbu) as (Hrul & Hrur & Hbul & Hbur).
        apply (Hrb' (S N)); [done| |by eapply ctx_rb_frame].
        apply rbt_red; [done|done|done|apply rbt_black; [done|by eapply rbt_frame|by eapply rbt_frame]|apply rbt_black; [done|by eapply rbt_frame|by eapply rbt_frame]].
      * rewrite Hrp. rewrite decide_True by done.
        destruct (rotate_left_total h t (CL c2 g u) pl p l z r Hl) as (h0 & Hrot).
        destruct (rotate_left_plug h t (CL c2 g u) pl p l z r h0 Hl Hrot) as (Hl0 & _ & Hcol0 & _).
        rewrite Hrot. cbn [bind].
        destruct (insert_fixup_tail_right h0 t c2 pl p l r z g u Hl0) as
          (h' & Htail & Hp' & Hr' & Hl' & Hg' & Hco).
        assert (Hco' : ∀ q, q ≠ z → q ≠ g → is_red h' (Rec q) = is_red h (Rec q)).
        { intros q ??. rewrite Hco by done. apply Hcol0. }
        cbv zeta in Htail. rewrite Htail. cbn [bind].
        assert (F1a : ∀ q, q ∈ inorder l → is_red h' (Rec q) = is_red h (Rec q))
          by (col_side Hco').
        assert (F1b : ∀ q, q ∈ inorder r → is_red h' (Rec q) = is_red h (Rec q))
          by (col_side Hco').
        assert (F2 : ∀ q, q ∈ inorder pl → is_red h' (Rec q) = is_red h (Rec q))
          by (col_side Hco').
        assert (F3 : ∀ q, q ∈ inorder u → is_red h' (Rec q) = is_red h (Rec q))
          by (col_side Hco').
        assert (F5 : ∀ q, q ∈ ctx_nodes c2 → is_red h' (Rec q) = is_red h (Rec q))
          by (col_side Hco').
        exists h', (plug c2 (T (T pl p l) z (T r g u))).
        refine (conj _ (conj Hl' (conj _ _))).
        { by eapply insert_fixup_loop_stops. }
        { rewrite !inorder_plug. simpl. by app_norm. }
        intros N Hz Hrb Hcrb.
        destruct (rbt_red_inv _ _ _ _ _ Hz Hrb) as (Hrl & Hrr & Hbl & Hbr).
        destruct (ctx_rb_red_inv_R _ _ _ _ _ Hredp Hcrb) as (Hbps & Hrps & Hbg & Hc1').
        destruct (ctx_rb_black_inv_L _ _ _ _ _ Hbg Hc1') as (Hbu & Hc2').
        apply (rbt_plug_kids h' c2 _ _ _ (S N)); [|by eapply ctx_rb_frame|congruence].
        assert (Hp'' : is_red h' (Rec p) = true) by (by rewrite Hco').
        apply rbt_black; [done|apply rbt_red; [done|by rewrite (red_ptr_root_frame h h' pl F2)|by rewrite (red_ptr_root_frame h h' l F1a)|by eapply rbt_frame|by eapply rbt_frame]|apply rbt_red; [done|by rewrite (red_ptr_root_frame h h' r F1b)|by rewrite (red_ptr_root_frame h h' u F3)|by eapply rbt_frame|by eapply rbt_frame]].
    + (* [p] is the right child of [g] *)
      rewrite bool_decide_eq_false_2 by done. cbn [negb bind].
      unfold insert_fixup_body at 1. rewrite Hpz. cbn [ctx_par deref bind]. rewrite Hpp.
      cbn [ctx_par deref bind].
      destruct Hc1 as (Hrg & Hlg & Hpg & Hsu & Hc2).
      rewrite Hlg. rewrite decide_False; cycle 1.
      { intros Hz. simpl in Hnd. elem_absurd. }
      assert (Hpg' : p ≠ g) by (intros ->; simpl in Hnd; elem_norm; try elem_absurd_now).
      assert (Hzg' : z ≠ g) by (intros ->; simpl in Hnd; elem_norm; try elem_absurd_now).
      assert (Hzp' : z ≠ p) by (intros ->; simpl in Hnd; elem_norm; try elem_absurd_now).
      destruct (red_ptr h (root_ptr u)) eqn:Hredu.
      * destruct (red_ptr_root _ _ Hredu) as (ul & y & ur & ->). cbn [root_ptr deref bind].
        assert (Hyg' : y ≠ g) by (intros ->; simpl in Hnd; elem_norm; try elem_absurd_now).
        destruct (recoloured h p y g Hpg' Hyg') as (Hcg & Hcp & Hcy & Hco).
        set (h3 := set_red (Rec g) (set_black (Rec y) (set_black (Rec p) h))) in *.
        assert (F1 : ∀ q, q ∈ inorder (T l z r) → is_red h3 (Rec q) = is_red h (Rec q))
          by (col_side Hco).
        assert (F2 : ∀ q, q ∈ inorder pl → is_red h3 (Rec q) = is_red h (Rec q))
          by (col_side Hco).
        assert (F3 : ∀ q, q ∈ inorder ul → is_red h3 (Rec q) = is_red h (Rec q))
          by (col_side Hco).
        assert (F4 : ∀ q, q ∈ inorder ur → is_red h3 (Rec q) = is_red h (Rec q))
          by (col_side Hco).
        assert (F5 : ∀ q, q ∈ ctx_nodes c2 → is_red h3 (Rec q) = is_red h (Rec q))
          by (col_side Hco).
        pose proof (length_ctx_nodes_2 (CR (T ul y ur) g c2) c2 ltac:(eauto)
                      (CR pl p (CR (T ul y ur) g c2)) ltac:(eauto)) as Hlen.
        assert (Hl3 : linked h3 t (plug c2 (T (T ul y ur) g (T pl p (T l z r))))).
        { subst h3. unfold set_black, set_red. do 3 apply set_color_linked. exact Hl. }
        destruct (IH (length (ctx_nodes c2)) ltac:(lia) fuel c2 (T ul y ur) g (T pl p (T l z r)) h3
                    (le_n _) ltac:(lia) Hl3) as (h' & s' & Hloop & Hl' & Hi' & Hrb').
        exists h', s'. refine (conj Hloop (conj Hl' (conj Hi' _))).
        intros N Hz Hrb Hcrb.
        destruct (rbt_red_inv _ _ _ _ _ Hz Hrb) as (Hrl & Hrr & Hbl & Hbr).
        destruct (ctx_rb_red_inv_R _ _ _ _ _ Hredp Hcrb) as (Hbps & Hrps & Hbg & Hc1').
        destruct (ctx_rb_black_inv_R _ _ _ _ _ Hbg Hc1') as (Hbu & Hc2').
        destruct (rbt_red_inv _ _ _ _ _ Hredu Hbu) as (Hrul & Hrur & Hbul & Hbur).
        apply (Hrb' (S N)); [done| |by eapply ctx_rb_frame].
        apply rbt_red; [done|done|done|apply rbt_black; [done|by eapply rbt_frame|by eapply rbt_frame]|apply rbt_black; [done|by eapply rbt_frame|by eapply rbt_frame]].
      * rewrite Hlp. rewrite decide_False; cycle 1.
        { intros Hz. simpl in Hnd. elem_absurd. }
        cbn [bind].
        destruct (insert_fixup_tail_left h t c2 l z r pl p g u Hl) as
          (h' & Htail & Hp' & Hr' & Hl' & Hg' & Hco).
        assert (Hco' : ∀ q, q ≠ p → q ≠ g → is_red h' (Rec q) = is_red h (Rec q)) by done.
        cbv zeta in Htail. rewrite Htail. cbn [bind].
        assert (F1 : ∀ q, q ∈ inorder (T l z r) → is_red h' (Rec q) = is_red h (Rec q))
          by (col_side Hco').
        assert (F2 : ∀ q, q ∈ inorder pl → is_red h' (Rec q) = is_red h (Rec q))
          by (col_side Hco').
        assert (F3 : ∀ q, q ∈ inorder u → is_red h' (Rec q) = is_red h (Rec q))
          by (col_side Hco').
        assert (F5 : ∀ q, q ∈ ctx_nodes c2 → is_red h' (Rec q) = is_red h (Rec q))
          by (col_side Hco').
        exists h', (plug c2 (T (T u g pl) p (T l z r))).
        refine (conj _ (conj Hl' (conj _ _))).
        { by eapply insert_fixup_loop_stops. }
        { rewrite !inorder_plug. simpl. by app_norm. }
        intros N Hz Hrb Hcrb.
        destruct (rbt_red_inv _ _ _ _ _ Hz Hrb) as (Hrl & Hrr & Hbl & Hbr).
        destruct (ctx_rb_red_inv_R _ _ _ _ _ Hredp Hcrb) as (Hbps & Hrps & Hbg & Hc1').
        destruct (ctx_rb_black_inv_R _ _ _ _ _ Hbg Hc1') as (Hbu & Hc2').
        apply (rbt_plug_kids h' c2 _ _ _ (S N)); [|by eapply ctx_rb_frame|congruence].
        apply rbt_black; [done|apply rbt_red; [done|by rewrite (red_ptr_root_frame h h' u F3)|by rewrite (red_ptr_root_frame h h' pl F2)|by eapply rbt_frame|by eapply rbt_frame]|by eapply rbt_frame].
Qed.

Lemma insert_fixup_loop_total t n :
  ∀ fuel c l z r h,
    length (ctx_nodes c) ≤ n → n + 2 ≤ fuel →
    linked h t (plug c (T l z r)) →
    ∃ h', insert_fixup_loop fuel t (Rec z) h = Ok h'.
Proof.
  intros fuel c l z r h Hn Hf Hl.
  destruct (insert_fixup_loop_spec t n fuel c l z r h Hn Hf Hl) as (h' & _ & ? & _). eauto.
Qed.

Lemma insert_fixup_total fuel h t c l z r :
  linked h t (plug c (T l z r)) → length (ctx_nodes c) + 2 ≤ fuel →
  ∃ h', insert_fixup fuel t (Rec z) h = Ok h'.
Proof.
  intros Hl Hf.
  destruct (insert_fixup_loop_total t _ fuel c l z r h (le_n _) Hf Hl) as (h1 & Hloop).
  unfold insert_fixup. rewrite Hloop. cbn [bind].
  pose proof (insert_fixup_loop_keeps _ _ _ _ _ _ Hl (plug_elem _ _ _ _) Hloop) as Hk.
  destruct (keeps_linked _ _ _ _ Hk) as (s1 & (Hr1 & _) & Hi1).
  rewrite Hr1. destruct s1 as [|l1 x1 r1]; simpl; [|eauto].
  exfalso. pose proof (plug_elem c l z r) as Hz. rewrite <- Hi1 in Hz. by apply elem_of_nil in Hz.
Qed.

(** * [insert] and [insert_for_key] return *)

Section insertion.
Context {K : Type} (is_less_than : K → K → bool) (get_key : nat → K).

Lemma insert_parent_total fuel h t c z :
  linked h t (plug c E) → z ∉ inorder (plug c E) →
  path_ok is_less_than get_key (get_key z) c →
  length (inorder (plug c E)) + 2 ≤ fuel →
  ∃ h', insert_parent is_less_than get_key fuel t (ctx_last c) (Rec z) h =
        Ok (h', (Some (Rec z), true)).
Proof.
  intros Hl Hz Hp Hf. unfold insert_parent.
  match goal with |- context [bind ?m _] => assert (Hl0 : ∃ h0, m = Ok h0) end.
  { destruct c as [|c a r'|l a c]; simpl; [eauto|..]; destruct (is_less_than _ _); eauto. }
  destruct Hl0 as (h0 & Hlink). rewrite Hlink. cbn [bind].
  destruct (insert_link_linked is_less_than get_key h t c z h0 Hl Hz Hp Hlink) as (Hl1 & _).
  destruct (insert_fixup_total fuel _ t c E z E Hl1) as (h' & Hfix).
  { rewrite inorder_plug in Hf. simpl in Hf. unfold ctx_nodes. lia. }
  unfold set_red. rewrite Hfix. cbn [bind]. eauto.
Qed.

(** [insert] returns: either a record with an equal key is there, or
    the new record is linked at the leaf the descent ended at. *)
Lemma insert_total fuel h t s v :
  linked h t s →
  (∀ c, plug c E = s → path_ok is_less_than get_key (get_key v) c → v ∉ inorder s) →
  length (inorder s) + 2 ≤ fuel →
  ∃ h' r, insert is_less_than get_key fuel t v h = Ok (h', r).
Proof.
  intros Hl Hv Hf. unfold insert.
  destruct (insert_descent_total is_less_than get_key fuel (get_key v) h t Top s Hl) as (d & Hd);
    [lia|].
  simpl in Hd. pose proof Hl as (Hr & _). rewrite Hr, Hd. cbn [bind].
  destruct (insert_descent_path is_less_than get_key fuel (get_key v) h t Top s d Hl I Hd) as
    [(c & l & x & r' & -> & Hs & He & Hp)|(c & -> & Hs & Hp)]; [eauto|].
  simpl in Hs. subst s. specialize (Hv c eq_refl Hp).
  pose proof (reset_linked _ _ _ _ Hv Hl) as Hl0.
  destruct (insert_parent_total fuel _ t c v Hl0 Hv Hp Hf) as (h' & ->). eauto.
Qed.

Hypothesis lt_irrefl : ∀ a, is_less_than a a = false.
Hypothesis lt_trans : ∀ a b c,
  is_less_than a b = true → is_less_than b c = true → is_less_than a c = true.

Lemma inorder_insert_split c v :
  ∃ pre post, inorder (plug c E) = pre ++ post ∧ inorder (plug c (T E v E)) = pre ++ v :: post.
Proof. exists (ctx_before c), (ctx_after c). by rewrite !inorder_plug. Qed.

Lemma insert_new_key_aux fuel h t s v :
  linked h t s → (s ≠ E → caches h t s) → ordered is_less_than get_key (inorder s) →
  (∀ x, x ∈ inorder s → ¬ key_equiv is_less_than (get_key v) (get_key x)) →
  length (inorder s) + 2 ≤ fuel →
  ∃ h' s' pre post,
    insert is_less_than get_key fuel t v h = Ok (h', (Some (Rec v), true)) ∧
    inorder s = pre ++ post ∧ inorder s' = pre ++ v :: post ∧
    linked h' t s' ∧ caches h' t s' ∧ ordered is_less_than get_key (inorder s') ∧
    frame t (inorder s') h h'.
Proof.
  intros Hl Hca Ho Hab Hf.
  assert (Hfr : ∀ c, plug c E = s → path_ok is_less_than get_key (get_key v) c → v ∉ inorder s).
  { intros c <- Hp. by eapply path_fresh. }
  destruct (insert_total fuel h t s v Hl Hfr Hf) as (h' & r & Hi).
  destruct (insert_linked _ _ _ _ _ _ _ _ _ Hl Hfr Hi) as
    [(x & _ & _ & Hx & Hk)|(c & s' & -> & <- & Hp & Hl' & Hi' & Hf' & Hc')].
  { by destruct (Hab x Hx). }
  destruct (inorder_insert_split c v) as (pre & post & Hpre & Hpost).
  exists h', s', pre, post. rewrite Hi'.
  split_and!; [done|done|done|done|by apply Hc'| |done].
  by apply path_ordered.
Qed.
End insertion.

Section insertion_results.
Context {K : Type} (is_less_than : K → K → bool) (get_key : nat → K).
Hypothesis lt_irrefl : ∀ a, is_less_than a a = false.
Hypothesis lt_trans : ∀ a b c,
  is_less_than a b = true → is_less_than b c = true → is_less_than a c = true.

(** X3.  In a tree in key order that holds no record with a key
    equal to that of the record [v], [insert] of [v] returns [(v,
    true)], and the tree then holds [v] between the records it held,
    which keep their order: it is linked, in key order, and its two
    caches are right.  The caches need to be right before only when
    the tree is not empty, so that a tree emptied by
    [clear_and_dispose] can be filled again.  Records outside the tree
    and other tree objects are untouched.  A step budget of the number
    of records plus two is enough. *)
Theorem insert_new_key_links_record fuel h t s v :
  linked h t s → (s ≠ E → caches h t s) → ordered is_less_than get_key (inorder s) →
  (∀ x, x ∈ inorder s → ¬ key_equiv is_less_than (get_key v) (get_key x)) →
  length (inorder s) + 2 ≤ fuel →
  ∃ h' s' pre post,
    insert is_less_than get_key fuel t v h = Ok (h', (Some (Rec v), true)) ∧
    inorder s = pre ++ post ∧ inorder s' = pre ++ v :: post ∧
    linked h' t s' ∧ caches h' t s' ∧ ordered is_less_than get_key (inorder s') ∧
    frame t (inorder s') h h'.
Proof. by apply insert_new_key_aux. Qed.

(** X4.  [insert_for_key] with a key that no linked record compares
    equal to calls the factory once, takes the factory's state after
    that call, and links the record [z] the factory made as [insert]
    would: it returns [(z, true)] and the tree holds [z] between the
    records it held, linked, in key order, with its caches right.  The
    factory is assumed to give a record whose key is the key asked
    for. *)
Theorem insert_for_key_links_factory_record {S : Type} fuel h t s key (fn : S → nat * S) st z st' :
  linked h t s → (s ≠ E → caches h t s) → ordered is_less_than get_key (inorder s) →
  (∀ x, x ∈ inorder s → ¬ key_equiv is_less_than key (get_key x)) →
  fn st = (z, st') → get_key z = key →
  length (inorder s) + 2 ≤ fuel →
  ∃ h' s' pre post,
    insert_for_key is_less_than get_key fuel t key fn st h = Ok (h', st', (Some (Rec z), true)) ∧
    inorder s = pre ++ post ∧ inorder s' = pre ++ z :: post ∧
    linked h' t s' ∧ caches h' t s' ∧ ordered is_less_than get_key (inorder s') ∧
    frame t (inorder s') h h'.
Proof.
  intros Hl Hca Ho Hab Hfn Hkey Hf. unfold insert_for_key.
  destruct (insert_descent_total is_less_than get_key fuel key h t Top s Hl) as (d & Hd);
    [lia|].
  simpl in Hd. pose proof Hl as (Hr & _). rewrite Hr, Hd. cbn [bind].
  destruct (insert_descent_path is_less_than get_key fuel key h t Top s d Hl I Hd) as
    [(c & l & x & r' & -> & Hs & He & Hp)|(c & -> & Hs & Hp)].
  { exfalso. apply (Hab x); [|done]. simpl in Hs. rewrite <- Hs. apply plug_elem. }
  simpl in Hs. subst s. rewrite Hfn. subst key.
  assert (Hz : z ∉ inorder (plug c E)) by (by eapply path_fresh).
  destruct (insert_parent_total is_less_than get_key fuel h t c z Hl Hz Hp Hf) as (h' & Hi).
  rewrite Hi. cbn [bind].
  destruct (insert_parent_linked is_less_than get_key _ _ _ _ _ _ _ Hl Hz Hp Hi) as
    (_ & Hf' & s' & Hl' & Hi' & Hc').
  destruct (inorder_insert_split c z) as (pre & post & Hpre & Hpost).
  exists h', s', pre, post. rewrite Hi'.
  split_and!; [done|done|done|done| |by apply path_ordered|done].
  apply Hc'. intros Hc. apply Hca. by intros ?%plug_E_Top.
Qed.

Hypothesis lt_cotrans : ∀ a b c,
  is_less_than a b = true → is_less_than a c = true ∨ is_less_than c b = true.

(** X5.  In a tree in key order, [insert] of a record returns, and
    [find] of the record's key then returns the very position that
    [insert] returned, be it that of the record just linked or that
    of the record with an equal key that was there; [contains] returns
    true.  The comparator is assumed irreflexive and transitive, with
    transitive incomparability. *)
Theorem insert_then_find_returns_position fuel h t s v :
  linked h t s → caches h t s → ordered is_less_than get_key (inorder s) →
  length (inorder s) + 2 ≤ fuel →
  ∃ h' it b,
    insert is_less_than get_key fuel t v h = Ok (h', (it, b)) ∧
    find is_less_than get_key fuel t (get_key v) h' = Ok it ∧
    contains is_less_than get_key fuel t (get_key v) h' = Ok true.
Proof.
  intros Hl Hca Ho Hf.
  assert (Hfr : ∀ c, plug c E = s → path_ok is_less_than get_key (get_key v) c → v ∉ inorder s).
  { intros c <- Hp. by eapply path_fresh. }
  destruct (insert_total is_less_than get_key fuel h t s v Hl Hfr Hf) as (h' & r & Hi).
  destruct (insert_linked _ _ _ _ _ _ _ _ _ Hl Hfr Hi) as
    [(x & -> & -> & Hx & Hk)|(c & s' & -> & <- & Hp & Hl' & Hi' & Hf' & Hc')].
  - exists h, (Some (Rec x)), false. split; [done|].
    assert (Hfind : find_node is_less_than get_key fuel t (get_key v) h (root t h) = Ok (Some (Rec x))).
    { apply (find_node_equal is_less_than get_key lt_trans lt_cotrans _ _ _ _ s); [done..|lia]. }
    unfold find, contains. rewrite Hfind. split; [done|]. cbn [bind]. f_equal; by apply bool_decide_eq_true_2.
  - exists h', (Some (Rec v)), true. split; [done|].
    assert (Hfind : find_node is_less_than get_key fuel t (get_key v) h' (root t h') = Ok (Some (Rec v))).
    { apply (find_node_equal is_less_than get_key lt_trans lt_cotrans _ _ _ _ s'); [done| | | |].
      - rewrite Hi'. by apply path_ordered.
      - rewrite Hi'. apply plug_elem.
      - by split.
      - rewrite Hi', inorder_plug. rewrite inorder_plug in Hf.
        simpl in *. rewrite !length_app in *. simpl. lia. }
    unfold find, contains. rewrite Hfind. split; [done|]. cbn [bind]. f_equal; by apply bool_decide_eq_true_2.
Qed.

(** X11.  In a tree in key order with no record of a key equal to
    that of [v], an [insert] of [v] followed by an [erase] of its key
    gives back the records the tree held, in the same order: whenever
    both calls return, [insert] has returned [(v, true)], [erase] has
    returned [v], [v] is [unlinked()], and the tree is linked with its
    caches right.  ([insert] does return, see above; the fix-up of
    [erase] has assertions, so [erase] is not shown to return.) *)
Theorem insert_then_erase_restores_records fuel fuel' h t s v h' ri h'' r :
  linked h t s → caches h t s → ordered is_less_than get_key (inorder s) →
  (∀ x, x ∈ inorder s → ¬ key_equiv is_less_than (get_key v) (get_key x)) →
  insert is_less_than get_key fuel t v h = Ok (h', ri) →
  erase is_less_than get_key fuel' t (get_key v) h' = Ok (h'', r) →
  ri = (Some (Rec v), true) ∧ r = Some (Rec v) ∧ unlinked h'' (Rec v) = true ∧
  ∃ s'', inorder s'' = inorder s ∧ linked h'' t s'' ∧ caches h'' t s''.
Proof.
  intros Hl Hca Ho Hab Hi He.
  assert (Hfr : ∀ c, plug c E = s → path_ok is_less_than get_key (get_key v) c → v ∉ inorder s).
  { intros c <- Hp. by eapply path_fresh. }
  destruct (insert_linked _ _ _ _ _ _ _ _ _ Hl Hfr Hi) as
    [(x & _ & _ & Hx & Hk)|(c & s' & -> & <- & Hp & Hl' & Hi' & _ & Hc')].
  { by destruct (Hab x Hx). }
  specialize (Hc' (λ _, Hca)).
  assert (Ho' : ordered is_less_than get_key (inorder s')) by (rewrite Hi'; by apply path_ordered).
  assert (Hv : v ∈ inorder s') by (rewrite Hi'; apply plug_elem).
  assert (Hk : key_equiv is_less_than (get_key v) (get_key v)) by (by split).
  destruct (erase_present_aux is_less_than get_key lt_trans lt_cotrans _ _ _ _ _ _ _ _
              Hl' Hc' Ho' Hv Hk He) as (-> & Hu & s'' & pre' & post' & H1 & H2 & Hl'' & Hc'' & _).
  split_and!; [done..|]. exists s''. split_and!; [|done..].
  assert (Hnd : NoDup (inorder s')) by (by destruct Hl' as (_ & _ & ?)).
  rewrite H2. rewrite Hi', !inorder_plug in *. simpl in *.
  destruct (NoDup_split_eq _ _ _ _ _ Hnd H1) as [-> ->]. done.
Qed.
End insertion_results.

Lemma mod_key_absent_4 :
  ∀ x, x ∈ inorder mod_tree → ¬ key_equiv Nat.ltb (mod_key 4) (mod_key x).
Proof. apply Forall_forall. unfold key_equiv. compute_done. Qed.

Lemma insert_new_key_links_record_witness :
  (∀ a, Nat.ltb a a = false) ∧
  (∀ a b c, Nat.ltb a b = true → Nat.ltb b c = true → Nat.ltb a c = true) ∧
  linked mod_heap 0 mod_tree ∧ (mod_tree ≠ E → caches mod_heap 0 mod_tree) ∧
  ordered Nat.ltb mod_key (inorder mod_tree) ∧
  (∀ x, x ∈ inorder mod_tree → ¬ key_equiv Nat.ltb (mod_key 4) (mod_key x)) ∧
  length (inorder mod_tree) + 2 ≤ 8 ∧
  ∃ h' s' pre post,
    insert Nat.ltb mod_key 8 0 4 mod_heap = Ok (h', (Some (Rec 4), true)) ∧
    inorder mod_tree = pre ++ post ∧ inorder s' = pre ++ 4 :: post ∧
    linked h' 0 s' ∧ caches h' 0 s' ∧ ordered Nat.ltb mod_key (inorder s') ∧
    frame 0 (inorder s') mod_heap h'.
Proof.
  assert (H7 : length (inorder mod_tree) + 2 ≤ 8) by (simpl; lia).
  refine (conj ltb_irrefl' (conj ltb_trans' (conj mod_heap_linked (conj (λ _, mod_heap_caches)
            (conj mod_tree_ordered (conj mod_key_absent_4 (conj H7 _))))))).
  apply (insert_new_key_links_record Nat.ltb mod_key ltb_irrefl' ltb_trans' 8 mod_heap 0
           mod_tree 4 mod_heap_linked (λ _, mod_heap_caches) mod_tree_ordered
           mod_key_absent_4 H7).
Defined.

Lemma insert_for_key_links_factory_record_witness :
  (∀ a, Nat.ltb a a = false) ∧
  (∀ a b c, Nat.ltb a b = true → Nat.ltb b c = true → Nat.ltb a c = true) ∧
  linked mod_heap 0 mod_tree ∧ (mod_tree ≠ E → caches mod_heap 0 mod_tree) ∧
  ordered Nat.ltb mod_key (inorder mod_tree) ∧
  (∀ x, x ∈ inorder mod_tree → ¬ key_equiv Nat.ltb (mod_key 4) (mod_key x)) ∧
  counting_factory 4 = (4, 5) ∧ mod_key 4 = mod_key 4 ∧
  length (inorder mod_tree) + 2 ≤ 8 ∧
  ∃ h' s' pre post,
    insert_for_key Nat.ltb mod_key 8 0 (mod_key 4) counting_factory 4 mod_heap =
      Ok (h', 5, (Some (Rec 4), true)) ∧
    inorder mod_tree = pre ++ post ∧ inorder s' = pre ++ 4 :: post ∧
    linked h' 0 s' ∧ caches h' 0 s' ∧ ordered Nat.ltb mod_key (inorder s') ∧
    frame 0 (inorder s') mod_heap h'.
Proof.
  assert (H7 : length (inorder mod_tree) + 2 ≤ 8) by (simpl; lia).
  refine (conj ltb_irrefl' (conj ltb_trans' (conj mod_heap_linked (conj (λ _, mod_heap_caches)
            (conj mod_tree_ordered (conj mod_key_absent_4 (conj eq_refl (conj eq_refl
            (conj H7 _))))))))).
  apply (insert_for_key_links_factory_record Nat.ltb mod_key ltb_irrefl' ltb_trans' 8 mod_heap 0
           mod_tree (mod_key 4) counting_factory 4 4 5 mod_heap_linked (λ _, mod_heap_caches)
           mod_tree_ordered mod_key_absent_4 eq_refl eq_refl H7).
Defined.

Lemma insert_then_find_returns_position_witness :
  (∀ a, Nat.ltb a a = false) ∧
  (∀ a b c, Nat.ltb a b = true → Nat.ltb b c = true → Nat.ltb a c = true) ∧
  (∀ a b c, Nat.ltb a b = true → Nat.ltb a c = true ∨ Nat.ltb c b = true) ∧
  linked mod_heap 0 mod_tree ∧ caches mod_heap 0 mod_tree ∧
  ordered Nat.ltb mod_key (inorder mod_tree) ∧
  length (inorder mod_tree) + 2 ≤ 8 ∧
  ∃ h' it b,
    insert Nat.ltb mod_key 8 0 13 mod_heap = Ok (h', (it, b)) ∧
    find Nat.ltb mod_key 8 0 (mod_key 13) h' = Ok it ∧
    contains Nat.ltb mod_key 8 0 (mod_key 13) h' = Ok true.
Proof.
  assert (H7 : length (inorder mod_tree) + 2 ≤ 8) by (simpl; lia).
  refine (conj ltb_irrefl' (conj ltb_trans' (conj ltb_cotrans' (conj mod_heap_linked
            (conj mod_heap_caches (conj mod_tree_ordered (conj H7 _))))))).
  apply (insert_then_find_returns_position Nat.ltb mod_key ltb_irrefl' ltb_trans' ltb_cotrans'
           8 mod_heap 0 mod_tree 13 mod_heap_linked mod_heap_caches mod_tree_ordered H7).
Defined.

Lemma mod_inserted_eq :
  insert Nat.ltb mod_key 8 0 4 mod_heap = Ok (mod_inserted.1, mod_inserted.2).
Proof. vm_compute. reflexivity. Qed.

Lemma mod_reerased_eq :
  erase Nat.ltb mod_key 8 0 (mod_key 4) mod_inserted.1 = Ok (mod_reerased.1, mod_reerased.2).
Proof. vm_compute. reflexivity. Qed.

Lemma insert_then_erase_restores_records_witness :
  (∀ a, Nat.ltb a a = false) ∧
  (∀ a b c, Nat.ltb a b = true → Nat.ltb b c = true → Nat.ltb a c = true) ∧
  (∀ a b c, Nat.ltb a b = true → Nat.ltb a c = true ∨ Nat.ltb c b = true) ∧
  linked mod_heap 0 mod_tree ∧ caches mod_heap 0 mod_tree ∧
  ordered Nat.ltb mod_key (inorder mod_tree) ∧
  (∀ x, x ∈ inorder mod_tree → ¬ key_equiv Nat.ltb (mod_key 4) (mod_key x)) ∧
  insert Nat.ltb mod_key 8 0 4 mod_heap = Ok (mod_inserted.1, mod_inserted.2) ∧
  erase Nat.ltb mod_key 8 0 (mod_key 4) mod_inserted.1 = Ok (mod_reerased.1, mod_reerased.2) ∧
  (mod_inserted.2 = (Some (Rec 4), true) ∧ mod_reerased.2 = Some (Rec 4) ∧
   unlinked mod_reerased.1 (Rec 4) = true ∧
   ∃ s'', inorder s'' = inorder mod_tree ∧ linked mod_reerased.1 0 s'' ∧
          caches mod_reerased.1 0 s'').
Proof.
  refine (conj ltb_irrefl' (conj ltb_trans' (conj ltb_cotrans' (conj mod_heap_linked
            (conj mod_heap_caches (conj mod_tree_ordered (conj mod_key_absent_4
            (conj mod_inserted_eq (conj mod_reerased_eq _))))))))).
  apply (insert_then_erase_restores_records Nat.ltb mod_key ltb_irrefl' ltb_trans' ltb_cotrans'
           8 8 mod_heap 0 mod_tree 4 mod_inserted.1 mod_inserted.2 mod_reerased.1 mod_reerased.2
           mod_heap_linked mod_heap_caches mod_tree_ordered mod_key_absent_4
           mod_inserted_eq mod_reerased_eq).
Defined.

(** * What a sequence of calls leaves alone *)

(** A tree whose records are outside the frame of a call is linked
    after it as before, with the same caches and colours. *)
Lemma frame_other_tree t dom h h' u su :
  frame t dom h h' → u ≠ t → linked h u su → disj (inorder su) dom →
  linked h' u su ∧ (caches h u su → caches h' u su) ∧
  same_node h h' (Head u) ∧ ∀ q, q ∈ inorder su → same_node h h' (Rec q).
Proof.
  intros (Hh & Hq & _) Hne (Hr & Hs & Hnd) Hd.
  destruct (Hh u Hne) as (Hl1 & Hr1 & Hp1 & Hc1).
  assert (Hrec : ∀ q, q ∈ inorder su → same_node h h' (Rec q)).
  { intros q Hin. apply Hq. by apply Hd. }
  refine (conj _ (conj _ (conj (Hh u Hne) Hrec))).
  - unfold linked. rewrite !root_eq in *. split_and!; [congruence| |done].
    eapply sub_frame; [|done]. intros q Hin. by apply same_node_links, Hrec.
  - intros (Hcl & Hcr). unfold caches. by rewrite Hl1, Hr1.
Qed.

Section call_frames.
Context {K : Type} (is_less_than : K → K → bool) (get_key : nat → K).
Hypothesis lt_irrefl : ∀ a, is_less_than a a = false.
Hypothesis lt_trans : ∀ a b c,
  is_less_than a b = true → is_less_than b c = true → is_less_than a c = true.

Lemma run_call_frame fuel t c h h' s :
  linked h t s → caches h t s → ordered is_less_than get_key (inorder s) →
  run_call is_less_than get_key fuel t c h = Ok h' →
  ∃ s', linked h' t s' ∧ caches h' t s' ∧ ordered is_less_than get_key (inorder s') ∧
        inorder s' ⊆ inserted [c] ++ inorder s ∧
        frame t (inserted [c] ++ inorder s) h h'.
Proof.
  intros Hl Hca Ho Hr. destruct c as [v|k]; simpl in Hr.
  - inv_bind Hr as [h1 r] Hi. simpl in Hr. simplify_eq.
    assert (Hfr : ∀ c, plug c E = s → path_ok is_less_than get_key (get_key v) c → v ∉ inorder s).
    { intros c <- Hp. by eapply path_fresh. }
    destruct (insert_linked _ _ _ _ _ _ _ _ _ Hl Hfr Hi) as
      [(x & _ & -> & _)|(c & s' & _ & <- & Hp & Hl' & Hi' & Hf' & Hc')].
    + exists s. split_and!; [done..| |apply frame_refl]. set_solver.
    + assert (Hsub : inorder (plug c (T E v E)) ⊆ @inserted K [Insert v] ++ inorder (plug c E)).
      { rewrite !inorder_plug. simpl. set_solver. }
      exists s'. split_and!; [done|by apply Hc'| |by rewrite Hi'|by eapply frame_mono].
      rewrite Hi'. by apply path_ordered.
  - inv_bind Hr as [h1 r] He. simpl in Hr. simplify_eq.
    destruct (erase_linked _ _ _ _ _ _ _ _ _ Hl He) as
      [(_ & -> & _)|(c & l & z & r' & s' & _ & -> & _ & _ & Hl' & Hi' & Hf' & Hc' & _)].
    + exists s. split_and!; [done..| |apply frame_refl]. set_solver.
    + exists s'. split_and!; [done|by apply Hc'| | |done].
      * rewrite Hi'. rewrite inorder_plug in Ho. simpl in Ho.
        rewrite <- app_assoc in Ho. simpl in Ho. rewrite app_assoc in Ho.
        apply ordered_remove in Ho. by rewrite <- app_assoc in Ho.
      * rewrite Hi', inorder_plug. simpl. set_solver.
Qed.

Lemma run_calls_frame fuel t cs h h' s :
  linked h t s → caches h t s → ordered is_less_than get_key (inorder s) →
  run_calls is_less_than get_key fuel t cs h = Ok h' →
  ∃ s', linked h' t s' ∧ caches h' t s' ∧ ordered is_less_than get_key (inorder s') ∧
        inorder s' ⊆ inserted cs ++ inorder s ∧
        frame t (inserted cs ++ inorder s) h h'.
Proof.
  revert h s. induction cs as [|c cs IH]; intros h s Hl Hca Ho Hr; simpl in Hr.
  - simplify_eq. exists s. split_and!; [done..| |apply frame_refl]. set_solver.
  - inv_bind Hr as h1 Hc.
    destruct (run_call_frame _ _ _ _ _ _ Hl Hca Ho Hc) as (s1 & Hl1 & Hc1 & Ho1 & Hs1 & Hf1).
    destruct (IH _ _ Hl1 Hc1 Ho1 Hr) as (s' & Hl' & Hc' & Ho' & Hs' & Hf').
    assert (Hin : inserted (c :: cs) = inserted [c] ++ inserted cs).
    { unfold inserted. simpl. by rewrite app_nil_r. }
    assert (Hsub1 : inserted [c] ++ inorder s ⊆ inserted (c :: cs) ++ inorder s).
    { rewrite Hin. intros x. rewrite !elem_of_app. tauto. }
    assert (Hsub2 : inserted cs ++ inorder s1 ⊆ inserted (c :: cs) ++ inorder s).
    { rewrite Hin. intros x. rewrite !elem_of_app. intros [?|Hx]; [tauto|].
      apply Hs1 in Hx. rewrite elem_of_app in Hx. tauto. }
    exists s'. split_and!; [done..| |].
    + intros x Hx. by apply Hsub2, Hs'.
    + eapply frame_trans; (eapply frame_mono; [|done]); done.
Qed.

(** X12.  Whatever sequence of [insert] and [erase] calls on a tree
    in key order returns, the tree is then linked, in key order, with
    its caches right, and holds only records it held or was given; and
    the calls have written to nothing else: every other tree object,
    and every record that was neither in the tree nor handed to
    [insert], has the links and the colour it had, and the sentinel of
    the tree has kept its colour. *)
Theorem calls_write_only_their_tree fuel t cs h h' s :
  linked h t s → caches h t s → ordered is_less_than get_key (inorder s) →
  run_calls is_less_than get_key fuel t cs h = Ok h' →
  (∃ s', linked h' t s' ∧ caches h' t s' ∧ ordered is_less_than get_key (inorder s') ∧
         inorder s' ⊆ inserted cs ++ inorder s) ∧
  (∀ u, u ≠ t → same_node h h' (Head u)) ∧
  (∀ q, q ∉ inserted cs ++ inorder s → same_node h h' (Rec q)) ∧
  is_red h' (Head t) = is_red h (Head t).
Proof.
  intros Hl Hca Ho Hr.
  destruct (run_calls_frame _ _ _ _ _ _ Hl Hca Ho Hr) as (s' & ? & ? & ? & ? & (? & ? & ?)).
  split_and!; [by exists s'|done..].
Qed.

(** X13.  A second tree [u], whose records are neither in the tree
    [t] nor handed to [insert], is not disturbed by any sequence of
    [insert] and [erase] calls on [t]: it is linked in the shape it
    had, with the same caches, and its sentinel and records have the
    links and colours they had. *)
Theorem calls_leave_other_tree fuel t cs h h' s u su :
  linked h t s → caches h t s → ordered is_less_than get_key (inorder s) →
  u ≠ t → linked h u su → disj (inorder su) (inserted cs ++ inorder s) →
  run_calls is_less_than get_key fuel t cs h = Ok h' →
  linked h' u su ∧ (caches h u su → caches h' u su) ∧
  same_node h h' (Head u) ∧ ∀ q, q ∈ inorder su → same_node h h' (Rec q).
Proof.
  intros Hl Hca Ho Hne Hu Hd Hr.
  destruct (run_calls_frame _ _ _ _ _ _ Hl Hca Ho Hr) as (s' & _ & _ & _ & _ & Hf).
  by eapply frame_other_tree.
Qed.
End call_frames.

Lemma two_trees_linked :
  linked two_trees 0 mod_tree ∧ caches two_trees 0 mod_tree ∧ linked two_trees 5 (T E 17 E).
Proof.
  split_and!.
  - split_and!; [vm_compute; reflexivity|vm_compute; tauto|compute_done].
  - split; vm_compute; reflexivity.
  - split_and!; [vm_compute; reflexivity|vm_compute; tauto|compute_done].
Qed.

Lemma two_trees_after_eq :
  run_calls Nat.ltb mod_key 8 0 mod_calls two_trees = Ok two_trees_after.
Proof. vm_compute. reflexivity. Qed.

Lemma calls_write_only_their_tree_witness :
  (∀ a, Nat.ltb a a = false) ∧
  (∀ a b c, Nat.ltb a b = true → Nat.ltb b c = true → Nat.ltb a c = true) ∧
  linked two_trees 0 mod_tree ∧ caches two_trees 0 mod_tree ∧
  ordered Nat.ltb mod_key (inorder mod_tree) ∧
  run_calls Nat.ltb mod_key 8 0 mod_calls two_trees = Ok two_trees_after ∧
  ((∃ s', linked two_trees_after 0 s' ∧ caches two_trees_after 0 s' ∧
          ordered Nat.ltb mod_key (inorder s') ∧
          inorder s' ⊆ inserted mod_calls ++ inorder mod_tree) ∧
   (∀ u, u ≠ 0 → same_node two_trees two_trees_after (Head u)) ∧
   (∀ q, q ∉ inserted mod_calls ++ inorder mod_tree →
         same_node two_trees two_trees_after (Rec q)) ∧
   is_red two_trees_after (Head 0) = is_red two_trees (Head 0)).
Proof.
  destruct two_trees_linked as (H1 & H2 & _).
  refine (conj ltb_irrefl' (conj ltb_trans' (conj H1 (conj H2 (conj mod_tree_ordered
            (conj two_trees_after_eq _)))))).
  apply (calls_write_only_their_tree Nat.ltb mod_key ltb_irrefl' ltb_trans' 8 0 mod_calls
           two_trees two_trees_after mod_tree H1 H2 mod_tree_ordered two_trees_after_eq).
Defined.

Lemma calls_leave_other_tree_witness :
  (∀ a, Nat.ltb a a = false) ∧
  (∀ a b c, Nat.ltb a b = true → Nat.ltb b c = true → Nat.ltb a c = true) ∧
  linked two_trees 0 mod_tree ∧ caches two_trees 0 mod_tree ∧
  ordered Nat.ltb mod_key (inorder mod_tree) ∧
  5 ≠ 0 ∧ linked two_trees 5 (T E 17 E) ∧
  disj (inorder (T E 17 E)) (inserted mod_calls ++ inorder mod_tree) ∧
  run_calls Nat.ltb mod_key 8 0 mod_calls two_trees = Ok two_trees_after ∧
  (linked two_trees_after 5 (T E 17 E) ∧
   (caches two_trees 5 (T E 17 E) → caches two_trees_after 5 (T E 17 E)) ∧
   same_node two_trees two_trees_after (Head 5) ∧
   ∀ q, q ∈ inorder (T E 17 E) → same_node two_trees two_trees_after (Rec q)).
Proof.
  destruct two_trees_linked as (H1 & H2 & H3).
  assert (H4 : 5 ≠ 0) by lia.
  assert (H5 : disj (inorder (T E 17 E)) (inserted mod_calls ++ inorder mod_tree)).
  { intros x Hx Hy. simpl in Hx, Hy. set_solver by lia. }
  refine (conj ltb_irrefl' (conj ltb_trans' (conj H1 (conj H2 (conj mod_tree_ordered
            (conj H4 (conj H3 (conj H5 (conj two_trees_after_eq _))))))))).
  apply (calls_leave_other_tree Nat.ltb mod_key ltb_irrefl' ltb_trans' 8 0 mod_calls
           two_trees two_trees_after mod_tree 5 (T E 17 E) H1 H2 mod_tree_ordered H4 H3 H5
           two_trees_after_eq).
Defined.

(** * [clone] when the cloner does not fail *)

Section clone_success.
Context {Err : Type} (cloner : nat → Err + nat).

Lemma clone_tree_cloned_as s s' :
  clone_tree cloner s = (s', None) → cloned_as cloner s s'.
Proof.
  revert s'. induction s as [|l IHl x r IHr]; intros s' Hc; simpl in Hc.
  { by simplify_eq. }
  destruct (cloner x) as [e|c] eqn:Hx; [done|].
  destruct (clone_tree cloner l) as [l' [e|]]; [done|].
  destruct (clone_tree cloner r) as [r' er]. simplify_eq. simpl. rewrite Hx. auto.
Qed.

Lemma clone_of_functional qs cs cs' :
  Forall2 (clone_of cloner) qs cs → Forall2 (clone_of cloner) qs cs' → cs = cs'.
Proof.
  intros Hf. revert cs'. induction Hf as [|q c qs cs Hq Hf IH]; intros cs' Hf'.
  - by apply Forall2_nil_inv_l in Hf'.
  - apply Forall2_cons_inv_l in Hf' as (c' & cs'' & Hq' & Hf' & ->).
    unfold clone_of in *. rewrite (IH _ Hf'). congruence.
Qed.

Lemma clone_tree_succeeds s cloned :
  Forall2 (clone_of cloner) (preorder s) cloned →
  ∃ s', clone_tree cloner s = (s', None) ∧ preorder s' = cloned.
Proof.
  intros Hf. destruct (clone_tree cloner s) as [s' er] eqn:Hc.
  pose proof (clone_tree_preorder cloner s s' er Hc) as Hpre. destruct er as [e|].
  - exfalso. destruct Hpre as (pre & x & post & Hp & _ & Hx). rewrite Hp in Hf.
    apply Forall2_app_inv_l in Hf as (? & ? & _ & Hf & _).
    apply Forall2_cons_inv_l in Hf as (c & ? & Hc' & _). unfold clone_of in Hc'. congruence.
  - exists s'. split; [done|]. by eapply clone_of_functional.
Qed.

(** X27.  When the cloner makes a clone of every record, distinct new
    records without children, [clone] returns a tree that is linked in
    the shape of the original: at every place it holds the clone of the
    record the original holds there, in the colour of that record, and
    its sentinel is black.  Nothing but the clones and the new tree
    object is written, so the original tree is linked as before.  A
    step budget above twice the number of records is enough.  (The two
    caches of the new tree are another matter.) *)
Theorem clone_copies_shape_and_colours fuel h t rv s cloned :
  linked h t s → rv ≠ t →
  Forall2 (clone_of cloner) (preorder s) cloned →
  NoDup cloned → disj cloned (inorder s) → childless h cloned →
  2 * nodes s < fuel →
  ∃ h' s',
    clone cloner fuel t rv h = Ok (Returned h') ∧
    linked h' rv s' ∧ preorder s' = cloned ∧
    cloned_as cloner s s' ∧ same_colours h h' s s' ∧
    is_red h' (Head rv) = false ∧
    (∀ q, q ∉ cloned → h' (Rec q) = h (Rec q)) ∧
    (∀ u, u ≠ rv → h' (Head u) = h (Head u)) ∧
    linked h' t s.
Proof.
  intros Hl Hrv Hf Hnd Hdj Hch Hfuel.
  destruct (clone_tree_succeeds s cloned Hf) as (s' & Hct & Hps').
  pose proof (clone_tree_cloned_as s s' Hct) as Hcas.
  assert (Hperm : inorder s' ≡ₚ cloned) by (by rewrite inorder_preorder, Hps').
  enough (∃ h', clone cloner fuel t rv h = Ok (Returned h') ∧
            linked h' rv s' ∧ same_colours h h' s s' ∧ is_red h' (Head rv) = false ∧
            (∀ q, q ∉ cloned → h' (Rec q) = h (Rec q)) ∧
            (∀ u, u ≠ rv → h' (Head u) = h (Head u)))
    as (h' & Hc & Hl' & Hcol & Hred & Hf1 & Hf2).
  { exists h', s'. split_and!; [done..|].
    destruct Hl as (Hr & Hs & Hn). split_and!; [| |done].
    - rewrite !root_eq in *. rewrite (parent_eq h) by (by apply Hf2). done.
    - eapply sub_eq; [|done]. intros q Hq. apply Hf1. intros Hq'. by apply (Hdj q). }
  clear Hps'.
  destruct (rbtree_new_head rv h) as (Hn1 & Hn2 & Hn3).
  destruct (rbtree_new_linked rv h) as (Hnl & _).
  assert (Hnred : is_red (rbtree_new rv h) (Head rv) = false).
  { unfold rbtree_new. change (store (Head rv) fresh_node h) with (reset (Head rv) h).
    heap_solve. }
  unfold clone. set (h0 := rbtree_new rv h) in *.
  destruct s as [|l x0 r].
  { simpl in Hct. simplify_eq.
    assert (Hr0 : root t h0 = None).
    { destruct Hl as (Hr & _). rewrite root_eq in *. rewrite (parent_eq h) by (by apply Hn2).
      done. }
    unfold empty. rewrite Hr0. rewrite bool_decide_eq_true_2 by done.
    exists h0. split_and!; [done..| |done]. intros q _. apply Hn1. }
  pose proof Hl as (Hroot & (Hpx0 & Hlx0 & Hrx0 & Hsl & Hsr) & Hnds).
  assert (Hr0 : root t h0 = Some (Rec x0)).
  { rewrite root_eq in *. rewrite (parent_eq h) by (by apply Hn2). done. }
  unfold empty. rewrite Hr0. rewrite bool_decide_eq_false_2 by done.
  cbn [deref bind]. unfold call_cloner. cbn [to_value bind].
  rewrite clone_tree_T in Hct.
  destruct (cloner x0) as [e0|c0] eqn:Hx0; cbn [bind]; [done|].
  destruct (clone_kids cloner l r) as [[l' r'] er] eqn:Hk. simplify_eq.
  set (h1 := set_right (Head rv) (Some (Rec c0)) (set_left (Head rv) (Some (Rec c0))
               (set_parent (Head rv) (Some (Rec c0))
                  (set_color (Rec c0)
                     (is_red (set_parent (Rec c0) (Some (Head rv)) h0) (Rec x0))
                     (set_parent (Rec c0) (Some (Head rv)) h0))))).
  assert (H1r : ∀ q, q ≠ c0 → h1 (Rec q) = h (Rec q)).
  { intros q Hq. subst h1.
    rewrite set_right_ne, set_left_ne, set_parent_ne, set_color_ne, set_parent_ne
      by congruence. apply Hn1. }
  assert (H1h : ∀ u, u ≠ rv → h1 (Head u) = h (Head u)).
  { intros u Hu. subst h1.
    rewrite set_right_ne, set_left_ne, set_parent_ne, set_color_ne, set_parent_ne
      by congruence. by apply Hn2. }
  simpl in Hperm.
  assert (Hin : ∀ c, c ∈ inorder l' ++ c0 :: inorder r' ↔ c ∈ cloned).
  { intros c. by rewrite Hperm. }
  assert (Hnd' : NoDup (inorder l' ++ c0 :: inorder r')) by (by rewrite Hperm).
  assert (Hdo : ∀ q, q ∈ inorder (T l x0 r) → q ≠ c0 ∧ q ∉ inorder l' ∧ q ∉ inorder r').
  { intros q Hq. assert (Hq' : q ∉ cloned) by (intros ?; by apply (Hdj q)).
    split_and!; [intros ->|intros ?|intros ?]; apply Hq', Hin; set_solver. }
  assert (Hch0 : left (h (Rec c0)) = None ∧ right (h (Rec c0)) = None).
  { apply Hch, Hin. set_solver. }
  destruct (clone_loop_kids cloner t rv (inorder (T l x0 r)) (nodes l + nodes r)
              l x0 r h1 c0 (Head rv) l' r' None) as
    (h2 & (Hk1 & Hk2) & Hs2 & Hf2 & Hh2 & Hi2 & Hp2 & Hc2 & Hloop).
  { done. }
  { done. }
  { simpl. set_solver. }
  { simpl. set_solver. }
  { simpl. set_solver. }
  { rewrite H1r by (apply Hdo; simpl; set_solver). done. }
  { rewrite H1r by (apply Hdo; simpl; set_solver). done. }
  { eapply sub_eq; [|done]. intros q Hq. apply H1r, Hdo. simpl. set_solver. }
  { eapply sub_eq; [|done]. intros q Hq. apply H1r, Hdo. simpl. set_solver. }
  { subst h1. autorewrite with heap. rewrite !decide_False by done.
    rewrite Hn1. apply Hch0. }
  { subst h1. autorewrite with heap. rewrite !decide_False by done.
    rewrite Hn1. apply Hch0. }
  { subst h1. heap_solve. }
  { nodup_solve. }
  { intros c Hc Hq. apply (Hdj c); [apply Hin; set_solver|done]. }
  { intros c Hc. rewrite H1r; [apply Hch, Hin; set_solver|].
    intros ->. elem_absurd. }
  assert (Ho2 : ∀ q, q ∈ inorder (T l x0 r) → h2 (Rec q) = h (Rec q)).
  { intros q Hq. destruct (Hdo q Hq) as (? & ? & ?).
    rewrite Hf2 by set_solver. by apply H1r. }
  specialize (Hloop (S (fuel - 2 * (nodes l + nodes r) - 1))).
  replace (2 * (nodes l + nodes r) + S (fuel - 2 * (nodes l + nodes r) - 1)) with fuel in Hloop
    by (simpl in Hfuel; lia).
  fold h1. rewrite Hloop.
  pose proof Hs2 as (Hpc0 & Hlc0 & Hrc0 & _).
  apply clone_kids_None in Hk as [Hkl Hkr].
  apply clone_tree_root in Hkl, Hkr.
  rewrite (clone_step_up cloner t rv h2 x0 c0 (Head t) (Head rv)); cycle 1.
  { rewrite Ho2 by (simpl; set_solver). rewrite Hlx0, Hlc0.
    destruct (root_ptr l); [right|left]; naive_solver. }
  { rewrite Ho2 by (simpl; set_solver). rewrite Hrx0, Hrc0.
    destruct (root_ptr r); [right|left]; naive_solver. }
  { rewrite (parent_eq h); [done|]. apply Ho2. simpl. set_solver. }
  { done. }
  rewrite decide_True by done. cbn [bind].
  exists h2. split_and!.
  - done.
  - split_and!; [|done|done]. rewrite root_eq, Hp2. subst h1. heap_solve.
  - simpl. split_and!.
    + rewrite Hc2. subst h1. autorewrite with heap. rewrite decide_True by done.
      apply is_red_eq. apply Hn1.
    + eapply same_colours_orig; [|done]. intros q Hq. symmetry. apply is_red_eq, H1r.
      apply Hdo. simpl. set_solver.
    + eapply same_colours_orig; [|done]. intros q Hq. symmetry. apply is_red_eq, H1r.
      apply Hdo. simpl. set_solver.
  - rewrite Hi2. subst h1. autorewrite with heap. done.
  - intros q Hq. rewrite Hf2; [apply H1r|].
    + intros ->. apply Hq, Hin. set_solver.
    + intros Hq'. apply Hq, Hin. set_solver.
  - intros u Hu. rewrite Hh2 by done. by apply H1h.
Qed.
End clone_success.

Lemma clone_copies_shape_and_colours_witness :
  linked mod_heap 0 mod_tree ∧ 1 ≠ 0 ∧
  Forall2 (clone_of (cloner_failing_at 99)) (preorder mod_tree) [12; 11; 13] ∧
  NoDup [12; 11; 13] ∧ disj [12; 11; 13] (inorder mod_tree) ∧
  childless mod_heap [12; 11; 13] ∧ 2 * nodes mod_tree < 7 ∧
  ∃ h' s',
    clone (cloner_failing_at 99) 7 0 1 mod_heap = Ok (Returned h') ∧
    linked h' 1 s' ∧ preorder s' = [12; 11; 13] ∧
    cloned_as (cloner_failing_at 99) mod_tree s' ∧ same_colours mod_heap h' mod_tree s' ∧
    is_red h' (Head 1) = false ∧
    (∀ q, q ∉ [12; 11; 13] → h' (Rec q) = mod_heap (Rec q)) ∧
    (∀ u, u ≠ 1 → h' (Head u) = mod_heap (Head u)) ∧
    linked h' 0 mod_tree.
Proof.
  assert (H2 : 1 ≠ 0) by lia.
  assert (H3 : Forall2 (clone_of (cloner_failing_at 99)) (preorder mod_tree) [12; 11; 13])
    by (repeat constructor).
  assert (H4 : NoDup [12; 11; 13]) by compute_done.
  assert (H5 : disj [12; 11; 13] (inorder mod_tree)).
  { intros x Hx Hy. simpl in Hy. set_solver by lia. }
  assert (H6 : childless mod_heap [12; 11; 13])
    by (apply childless_fresh; repeat constructor).
  assert (H7 : 2 * nodes mod_tree < 7) by (simpl; lia).
  refine (conj mod_heap_linked (conj H2 (conj H3 (conj H4 (conj H5 (conj H6 (conj H7 _))))))).
  apply (clone_copies_shape_and_colours (cloner_failing_at 99) 7 mod_heap 0 1 mod_tree
           [12; 11; 13] mod_heap_linked H2 H3 H4 H5 H6 H7).
Defined.

(** * [insert] keeps the red-black rules *)

(** [insert_fixup] on a red record, in a tree that obeys the rules
    but for a clash of this record with a red record above it, returns
    a tree that obeys them, with a black root. *)
Lemma insert_fixup_rb fuel h t c l z r N :
  linked h t (plug c (T l z r)) → length (ctx_nodes c) + 2 ≤ fuel →
  is_red h (Rec z) = true → rbt h (T l z r) N → ctx_rb h c N →
  ∃ h' s' M, insert_fixup fuel t (Rec z) h = Ok h' ∧
             linked h' t s' ∧ inorder s' = inorder (plug c (T l z r)) ∧
             rbt h' s' M ∧ root_is_black t h' = true.
Proof.
  intros Hl Hf Hz Hrb Hcrb.
  destruct (insert_fixup_loop_spec t _ fuel c l z r h (le_n _) Hf Hl) as
    (h1 & s1 & Hloop & Hl1 & Hi1 & Hrb1).
  destruct (Hrb1 N Hz Hrb Hcrb) as (L & x & R & M & -> & HL & HR).
  unfold insert_fixup. rewrite Hloop. cbn [bind].
  pose proof Hl1 as (Hr1 & _ & Hnd1). rewrite Hr1. cbn [root_ptr deref bind].
  unfold set_black.
  exists (set_color (Rec x) false h1), (T L x R), (S M).
  assert (Hx : is_red (set_color (Rec x) false h1) (Rec x) = false) by heap_solve.
  split_and!; [done|by apply set_color_linked|done| |].
  - simpl in Hnd1. apply rbt_black; [done|..]; (eapply rbt_frame; [|done]);
      intros q Hq; autorewrite with heap; rewrite decide_False; [done| |done|];
      intros [= ->]; elem_absurd.
  - unfold root_is_black, black_ptr. rewrite root_eq. autorewrite with heap.
    rewrite root_eq in Hr1. rewrite Hr1. simpl. by rewrite Hx.
Qed.

Section insert_red_black.
Context {K : Type} (is_less_than : K → K → bool) (get_key : nat → K).

(** The first half of [insert_parent] writes no colour. *)
Lemma insert_link_colours h t c z h0 :
  match ctx_last c with
  | None =>
      let h := set_root t (Some (Rec z)) h in
      let h := set_left (Head t) (root t h) h in
      Ok (set_right (Head t) (root t h) h)
  | Some y' =>
      let* kz := to_key get_key (Rec z) in
      let* ky := to_key get_key y' in
      if is_less_than kz ky then
        let h := set_parent (Rec z) (Some y') h in
        let h := set_left y' (Some (Rec z)) h in
        Ok (if decide (left (h (Head t)) = Some y')
            then set_left (Head t) (Some (Rec z)) h else h)
      else
        let h := set_parent (Rec z) (Some y') h in
        let h := set_right y' (Some (Rec z)) h in
        Ok (if decide (right (h (Head t)) = Some y')
            then set_right (Head t) (Some (Rec z)) h else h)
  end = Ok h0 →
  ∀ x, is_red h0 x = is_red h x.
Proof.
  intros Hlink x. destruct c as [|c a r|l a c]; simpl in Hlink.
  - simplify_eq. by autorewrite with heap.
  - destruct (is_less_than _ _); simplify_eq; destruct (decide _); by autorewrite with heap.
  - destruct (is_less_than _ _); simplify_eq; destruct (decide _); by autorewrite with heap.
Qed.

Lemma insert_parent_rb fuel h t c z N :
  linked h t (plug c E) → z ∉ inorder (plug c E) →
  path_ok is_less_than get_key (get_key z) c →
  length (inorder (plug c E)) + 2 ≤ fuel →
  rbt h (plug c E) N →
  ∃ h' s' M, insert_parent is_less_than get_key fuel t (ctx_last c) (Rec z) h =
               Ok (h', (Some (Rec z), true)) ∧
             linked h' t s' ∧ inorder s' = inorder (plug c (T E z E)) ∧
             rbt h' s' M ∧ root_is_black t h' = true.
Proof.
  intros Hl Hz Hp Hf Hrb. unfold insert_parent.
  match goal with |- context [bind ?m _] => assert (Hl0 : ∃ h0, m = Ok h0) end.
  { destruct c as [|c a r'|l a c]; simpl; [eauto|..]; destruct (is_less_than _ _); eauto. }
  destruct Hl0 as (h0 & Hlink). rewrite Hlink. cbn [bind].
  destruct (insert_link_linked is_less_than get_key h t c z h0 Hl Hz Hp Hlink) as (Hl1 & _).
  pose proof (insert_link_colours h t c z h0 Hlink) as Hcol.
  unfold set_red.
  set (h1 := set_color (Rec z) true (set_right (Rec z) None (set_left (Rec z) None h0))) in *.
  assert (Hz1 : is_red h1 (Rec z) = true) by (subst h1; heap_solve).
  assert (Hc1 : ∀ q, q ≠ z → is_red h1 (Rec q) = is_red h (Rec q)).
  { intros q Hq. subst h1. autorewrite with heap. rewrite decide_False by congruence.
    apply Hcol. }
  destruct (rbt_unplug h c E N Hrb) as (n & Hn & Hcrb & _). simpl in Hn. subst n.
  destruct (insert_fixup_rb fuel h1 t c E z E 0 Hl1) as (h' & s' & M & Hfix & Hl' & Hi' & Hrb' & Hroot).
  { rewrite inorder_plug in Hf. simpl in Hf. unfold ctx_nodes. lia. }
  { done. }
  { by apply rbt_red. }
  { eapply ctx_rb_frame; [|done]. intros q Hq. apply Hc1. intros ->. apply Hz.
    rewrite inorder_plug. simpl. done. }
  rewrite Hfix. cbn [bind]. by exists h', s', M.
Qed.

Lemma red_black_rbt fuel h t s :
  linked h t s → nodes s < fuel →
  red_black fuel t h = true ↔ root_is_black t h = true ∧ ∃ N, rbt h s N.
Proof.
  intros (Hr & Hs & _) Hf. unfold red_black. rewrite !andb_true_iff, bool_decide_eq_true.
  rewrite Hr. apply sub_shape in Hs. split.
  - intros ((Hb & Hrr) & [N HN]). split; [done|]. exists N. by apply (rbt_checks h s fuel N).
  - intros (Hb & N & HN). apply (rbt_checks h s fuel N) in HN as [? HN]; [|done..].
    split_and!; [done..|]. by rewrite HN.
Qed.

Hypothesis lt_irrefl : ∀ a, is_less_than a a = false.
Hypothesis lt_trans : ∀ a b c,
  is_less_than a b = true → is_less_than b c = true → is_less_than a c = true.

Lemma insert_red_black_aux fuel h t s v :
  linked h t s → ordered is_less_than get_key (inorder s) →
  red_black fuel t h = true → length (inorder s) + 2 ≤ fuel →
  ∃ h' r s',
    insert is_less_than get_key fuel t v h = Ok (h', r) ∧
    linked h' t s' ∧ ordered is_less_than get_key (inorder s') ∧
    length (inorder s') ≤ S (length (inorder s)) ∧
    red_black fuel t h' = true.
Proof.
  intros Hl Ho Hrb Hf. unfold insert.
  destruct (insert_descent_total is_less_than get_key fuel (get_key v) h t Top s Hl) as (d & Hd);
    [lia|].
  simpl in Hd. pose proof Hl as (Hr & _). rewrite Hr, Hd. cbn [bind].
  destruct (insert_descent_path is_less_than get_key fuel (get_key v) h t Top s d Hl I Hd) as
    [(c & l & x & r' & -> & Hs & He & Hp)|(c & -> & Hs & Hp)].
  { exists h, (Some (Rec x), false), s. split_and!; [done..|lia|done]. }
  simpl in Hs. subst s.
  assert (Hv : v ∉ inorder (plug c E)) by (by eapply path_fresh).
  apply (red_black_rbt fuel h t _ Hl) in Hrb as (_ & N & HN); [|rewrite nodes_length; lia].
  pose proof (reset_linked _ _ _ _ Hv Hl) as Hl0.
  assert (HN0 : rbt (reset (Rec v) h) (plug c E) N).
  { eapply rbt_frame; [|done]. intros q Hq. autorewrite with heap.
    rewrite decide_False; [done|]. intros [= ->]. done. }
  destruct (insert_parent_rb fuel _ t c v N Hl0 Hv Hp Hf HN0) as
    (h' & s' & M & Hi & Hl' & Hi' & Hrb' & Hroot).
  rewrite Hi. exists h', (Some (Rec v), true), s'.
  assert (Hlen : length (inorder s') = S (length (inorder (plug c E)))).
  { rewrite Hi', !inorder_plug. simpl. rewrite !length_app. simpl. lia. }
  split_and!; [done|done| |lia|].
  - rewrite Hi'. by apply path_ordered.
  - apply (red_black_rbt fuel h' t s' Hl'); [rewrite nodes_length; lia|]. eauto.
Qed.

(** X6.  [insert] keeps the red-black rules: on a linked tree in key
    order that passes the check [red_black] (black root, no red
    record with a red child, the same number of black records on every
    path down from the root), [insert] of any record returns, and the
    tree passes the check again; it is linked, in key order, and has at
    most one record more.  A step budget of the number of records plus
    two is enough, for the call and for the check. *)
Theorem insert_keeps_red_black fuel h t s v :
  linked h t s → ordered is_less_than get_key (inorder s) →
  red_black fuel t h = true → length (inorder s) + 2 ≤ fuel →
  ∃ h' r s',
    insert is_less_than get_key fuel t v h = Ok (h', r) ∧
    linked h' t s' ∧ ordered is_less_than get_key (inorder s') ∧
    length (inorder s') ≤ S (length (inorder s)) ∧
    red_black fuel t h' = true.
Proof. apply insert_red_black_aux. Qed.

Lemma inserts_red_black_aux fuel t vs : ∀ h s,
  linked h t s → ordered is_less_than get_key (inorder s) →
  red_black fuel t h = true → length (inorder s) + length vs + 1 ≤ fuel →
  ∃ h' s',
    run_calls is_less_than get_key fuel t (Insert <$> vs) h = Ok h' ∧
    linked h' t s' ∧ ordered is_less_than get_key (inorder s') ∧
    red_black fuel t h' = true.
Proof.
  induction vs as [|v vs IH]; intros h s Hl Ho Hrb Hf; simpl.
  - by exists h, s.
  - simpl in Hf.
    destruct (insert_red_black_aux fuel h t s v Hl Ho Hrb ltac:(lia)) as
      (h1 & r & s1 & -> & Hl1 & Ho1 & Hlen & Hrb1).
    cbn [bind fst]. apply (IH h1 s1); [done..|lia].
Qed.

(** X7.  A tree filled by [insert] calls alone is a red-black tree:
    on a newly constructed tree, every sequence of [insert] calls
    returns, with a step budget above the number of calls, and the
    tree then passes the check [red_black], is linked and is in key
    order.  (With [erase] in the sequence this fails.) *)
Theorem inserts_build_red_black_tree fuel t vs h0 :
  length vs < fuel →
  ∃ h' s',
    run_calls is_less_than get_key fuel t (Insert <$> vs) (rbtree_new t h0) = Ok h' ∧
    linked h' t s' ∧ ordered is_less_than get_key (inorder s') ∧
    red_black fuel t h' = true.
Proof.
  intros Hf. destruct (rbtree_new_linked t h0) as (Hl & _).
  apply (inserts_red_black_aux fuel t vs _ E); [done|constructor| |simpl; lia].
  apply (red_black_rbt fuel _ t E Hl); [simpl; lia|]. split; [|by exists 0].
  unfold root_is_black. destruct Hl as (-> & _). done.
Qed.
End insert_red_black.

Lemma insert_keeps_red_black_witness :
  (∀ a, Nat.ltb a a = false) ∧
  (∀ a b c, Nat.ltb a b = true → Nat.ltb b c = true → Nat.ltb a c = true) ∧
  linked mod_heap 0 mod_tree ∧ ordered Nat.ltb mod_key (inorder mod_tree) ∧
  red_black 8 0 mod_heap = true ∧ length (inorder mod_tree) + 2 ≤ 8 ∧
  ∃ h' r s',
    insert Nat.ltb mod_key 8 0 4 mod_heap = Ok (h', r) ∧
    linked h' 0 s' ∧ ordered Nat.ltb mod_key (inorder s') ∧
    length (inorder s') ≤ S (length (inorder mod_tree)) ∧
    red_black 8 0 h' = true.
Proof.
  assert (H5 : red_black 8 0 mod_heap = true) by (vm_compute; reflexivity).
  assert (H6 : length (inorder mod_tree) + 2 ≤ 8) by (simpl; lia).
  refine (conj ltb_irrefl' (conj ltb_trans' (conj mod_heap_linked (conj mod_tree_ordered
            (conj H5 (conj H6 _)))))).
  apply (insert_keeps_red_black Nat.ltb mod_key ltb_irrefl' ltb_trans' 8 mod_heap 0 mod_tree 4
           mod_heap_linked mod_tree_ordered H5 H6).
Defined.

Lemma inserts_build_red_black_tree_witness :
  (∀ a, Nat.ltb a a = false) ∧
  (∀ a b c, Nat.ltb a b = true → Nat.ltb b c = true → Nat.ltb a c = true) ∧
  length [1; 3; 2; 4] < 8 ∧
  ∃ h' s',
    run_calls Nat.ltb mod_key 8 0 (Insert <$> [1; 3; 2; 4]) (rbtree_new 0 initial_heap) = Ok h' ∧
    linked h' 0 s' ∧ ordered Nat.ltb mod_key (inorder s') ∧
    red_black 8 0 h' = true.
Proof.
  assert (H3 : length [1; 3; 2; 4] < 8) by (simpl; lia).
  refine (conj ltb_irrefl' (conj ltb_trans' (conj H3 _))).
  apply (inserts_build_red_black_tree Nat.ltb mod_key ltb_irrefl' ltb_trans' 8 0 [1; 3; 2; 4]
           initial_heap H3).
Defined.

(** * More on [clear_and_dispose], [empty] and [begin] *)

Lemma clear_and_dispose_aux fuel h t s acc :
  linked h t s → 2 * nodes s < fuel →
  ∃ h', clear_and_dispose fuel t h acc = Ok (h', acc ++ inorder s) ∧
        linked h' t E ∧
        (∀ q, parent h' (Rec q) = parent h (Rec q) ∧ is_red h' (Rec q) = is_red h (Rec q)) ∧
        (∀ q, q ∉ inorder s → h' (Rec q) = h (Rec q)) ∧
        (∀ u, u ≠ t → h' (Head u) = h (Head u)).
Proof.
  intros (Hr & Hs & Hnd) Hf. unfold clear_and_dispose. rewrite Hr.
  destruct (dispose_spec fuel s h acc) as (h1 & -> & Hf1 & Hc1).
  { by eapply sub_shape. }
  { done. }
  { pose proof (dispose_steps_le s). lia. }
  cbn [bind]. eexists. split; [done|]. split_and!.
  - split_and!; [heap_solve|done|constructor].
  - intros q. autorewrite with heap. rewrite decide_False by done.
    rewrite decide_False by done. destruct (Hc1 (Rec q)) as [-> ->]. done.
  - intros q Hq. rewrite set_root_eq, set_parent_if_None.
    rewrite set_right_ne, set_left_ne, set_parent_ne by done. apply Hf1.
    by intros (q' & [= <-] & ?)%list_elem_of_fmap.
  - intros u Hu. rewrite set_root_eq, set_parent_if_None.
    rewrite set_right_ne, set_left_ne, set_parent_ne by congruence. apply Hf1.
    by intros (q' & [=] & ?)%list_elem_of_fmap.
Qed.

(** X25.  [clear_and_dispose] does not reset the records it hands to
    the disposer: every record of the tree keeps the parent reference
    it had, so that none of them is [unlinked()] afterwards, unlike a
    record returned by [erase]. *)
Theorem clear_and_dispose_keeps_parent_references fuel h t s acc :
  linked h t s → 2 * nodes s < fuel →
  ∃ h' disposed,
    clear_and_dispose fuel t h acc = Ok (h', disposed) ∧
    ∀ q, q ∈ inorder s →
         parent h' (Rec q) = parent h (Rec q) ∧ unlinked h' (Rec q) = false.
Proof.
  intros Hl Hf.
  destruct (clear_and_dispose_aux fuel h t s acc Hl Hf) as (h' & Hc & _ & Hp & _).
  exists h', (acc ++ inorder s). split; [done|]. intros q Hq.
  destruct (Hp q) as [Hpq _]. split; [done|]. unfold unlinked.
  apply bool_decide_eq_false_2. intros (Hn & _). rewrite Hpq in Hn.
  destruct (linked_parent _ _ _ _ Hl Hq) as [(? & _)|(? & _ & _ & ? & _)]; congruence.
Qed.

Lemma inorder_singleton s v : inorder s = [v] → s = T E v E.
Proof.
  destruct s as [|l x r]; [done|]. simpl. intros He.
  destruct l as [|? ? ?], r as [|? ? ?]; simpl in He.
  - by simplify_eq.
  - destruct (inorder r1); discriminate.
  - apply (f_equal length) in He. rewrite !length_app in He. simpl in He. lia.
  - apply (f_equal length) in He. rewrite !length_app in He. simpl in He.
    rewrite !length_app in He. simpl in He. lia.
Qed.

Section reuse.
Context {K : Type} (is_less_than : K → K → bool) (get_key : nat → K).

(** X26.  A tree emptied by [clear_and_dispose] can be filled again:
    after it, [insert] of any record returns [(v, true)] and the tree
    holds this record alone, black, with both caches at it.  (The
    caches that [clear_and_dispose] leaves null are set by this
    [insert].) *)
Theorem clear_and_dispose_then_insert fuel h t s v :
  linked h t s → 2 * nodes s < fuel → 1 < fuel →
  ∃ h1 h2,
    clear_and_dispose fuel t h [] = Ok (h1, inorder s) ∧
    insert is_less_than get_key fuel t v h1 = Ok (h2, (Some (Rec v), true)) ∧
    linked h2 t (T E v E) ∧ caches h2 t (T E v E) ∧ is_red h2 (Rec v) = false.
Proof.
  intros Hl Hf Hf1.
  destruct (clear_and_dispose_aux fuel h t s [] Hl Hf) as (h1 & Hc & Hl1 & _).
  exists h1. unfold insert.
  pose proof Hl1 as (Hr1 & _). simpl in Hr1. rewrite Hr1.
  destruct fuel as [|fuel]; [lia|]. cbn [insert_descent bind].
  assert (Hl0 : linked (reset (Rec v) h1) t (plug Top E)).
  { apply reset_linked; [apply not_elem_of_nil|done]. }
  assert (Hv : v ∉ inorder (plug Top E)) by apply not_elem_of_nil.
  destruct (insert_parent_rb is_less_than get_key (S fuel) _ t Top v 0 Hl0 Hv I) as
    (h2 & s' & M & Hi & Hl' & Hi' & _ & Hroot); [simpl; lia|done|].
  simpl in Hi'. apply inorder_singleton in Hi' as ->.
  destruct (insert_parent_linked is_less_than get_key _ _ _ _ _ _ _ Hl0 Hv I Hi) as
    (_ & _ & s'' & Hl'' & Hi'' & Hc'').
  simpl in Hi''. apply inorder_singleton in Hi'' as ->.
  exists h2. split_and!; [done|exact Hi|done|by apply Hc''|].
  unfold root_is_black, black_ptr in Hroot. destruct Hl' as (Hr' & _). rewrite Hr' in Hroot.
  simpl in Hroot. by apply negb_true_iff in Hroot.
Qed.
End reuse.

(** X17.  On a linked tree whose caches are right, [empty()] is true
    exactly when the tree holds no record, [begin()] equals [end()]
    exactly then, and otherwise [begin()] is the first record in the
    order of the tree. *)
Theorem empty_and_begin_agree h t s :
  linked h t s → caches h t s →
  (empty t h = true ↔ inorder s = []) ∧
  (begin t h = end_ t h ↔ inorder s = []) ∧
  (∀ x rest, inorder s = x :: rest → begin t h = Some (Rec x)).
Proof.
  intros (Hr & _) (Hcl & _). unfold empty, begin, end_. rewrite Hr, Hcl.
  rewrite bool_decide_eq_true. split_and!.
  - destruct s as [|l x r]; simpl; [done|].
    split; [done|]. intros He. by destruct (inorder l).
  - destruct (inorder s) as [|x rest]; simpl; [done|]. split; [|done]. by intros [=].
  - by intros x rest ->.
Qed.

Lemma clear_and_dispose_keeps_parent_references_witness :
  linked mod_heap 0 mod_tree ∧ 2 * nodes mod_tree < 8 ∧
  ∃ h' disposed,
    clear_and_dispose 8 0 mod_heap [] = Ok (h', disposed) ∧
    ∀ q, q ∈ inorder mod_tree →
         parent h' (Rec q) = parent mod_heap (Rec q) ∧ unlinked h' (Rec q) = false.
Proof.
  assert (H2 : 2 * nodes mod_tree < 8) by (simpl; lia).
  refine (conj mod_heap_linked (conj H2 _)).
  apply (clear_and_dispose_keeps_parent_references 8 mod_heap 0 mod_tree [] mod_heap_linked H2).
Defined.

Lemma clear_and_dispose_then_insert_witness :
  linked mod_heap 0 mod_tree ∧ 2 * nodes mod_tree < 8 ∧ 1 < 8 ∧
  ∃ h1 h2,
    clear_and_dispose 8 0 mod_heap [] = Ok (h1, inorder mod_tree) ∧
    insert Nat.ltb mod_key 8 0 2 h1 = Ok (h2, (Some (Rec 2), true)) ∧
    linked h2 0 (T E 2 E) ∧ caches h2 0 (T E 2 E) ∧ is_red h2 (Rec 2) = false.
Proof.
  assert (H2 : 2 * nodes mod_tree < 8) by (simpl; lia).
  assert (H3 : 1 < 8) by lia.
  refine (conj mod_heap_linked (conj H2 (conj H3 _))).
  apply (clear_and_dispose_then_insert Nat.ltb mod_key 8 mod_heap 0 mod_tree 2
           mod_heap_linked H2 H3).
Defined.

Lemma empty_and_begin_agree_witness :
  linked mod_heap 0 mod_tree ∧ caches mod_heap 0 mod_tree ∧
  (empty 0 mod_heap = true ↔ inorder mod_tree = []) ∧
  (begin 0 mod_heap = end_ 0 mod_heap ↔ inorder mod_tree = []) ∧
  (∀ x rest, inorder mod_tree = x :: rest → begin 0 mod_heap = Some (Rec x)).
Proof.
  refine (conj mod_heap_linked (conj mod_heap_caches _)).
  apply (empty_and_begin_agree mod_heap 0 mod_tree mod_heap_linked mod_heap_caches).
Defined.

(** * Every call ends

    With a step budget above the number of records, a call never runs
    out of steps: [insert] returns, and [erase] returns or stops at
    one of the assertions and null references of its fix-up. *)

Lemma nt_bind {A B} (m : res A) (k : A → res B) :
  m ≠ Timeout → (∀ a, k a ≠ Timeout) → bind m k ≠ Timeout.
Proof. destruct m; simpl; auto. Qed.

Lemma nt_deref p : deref p ≠ Timeout.
Proof. by destruct p. Qed.

Lemma nt_replace_child t x v h : replace_child t x v h ≠ Timeout.
Proof.
  unfold replace_child. destruct (decide _); [done|].
  apply nt_bind; [apply nt_deref|]. intros a. by destruct (decide _).
Qed.

Lemma nt_transplant t u v h : transplant t u v h ≠ Timeout.
Proof. unfold transplant. apply nt_bind; [apply nt_replace_child|done]. Qed.

Lemma nt_rotate_left t x h : rotate_left t x h ≠ Timeout.
Proof.
  unfold rotate_left. apply nt_bind; [apply nt_deref|]. intros y.
  cbn zeta. apply nt_bind; [apply nt_replace_child|done].
Qed.

Lemma nt_rotate_right t x h : rotate_right t x h ≠ Timeout.
Proof.
  unfold rotate_right. apply nt_bind; [apply nt_deref|]. intros y.
  cbn zeta. apply nt_bind; [apply nt_replace_child|done].
Qed.

(** Goals [m ≠ Timeout] for code without loops. *)
Ltac nt :=
  repeat (cbn beta iota zeta;
    match goal with
    | |- Ok _ ≠ Timeout => done
    | |- Fault ≠ Timeout => done
    | |- deref _ ≠ Timeout => apply nt_deref
    | |- rotate_left _ _ _ ≠ Timeout => apply nt_rotate_left
    | |- rotate_right _ _ _ ≠ Timeout => apply nt_rotate_right
    | |- transplant _ _ _ _ ≠ Timeout => apply nt_transplant
    | |- replace_child _ _ _ _ ≠ Timeout => apply nt_replace_child
    | |- bind _ _ ≠ Timeout => apply nt_bind; [|intros ?]
    | |- (if ?b then _ else _) ≠ Timeout => destruct b
    | |- (let '(_, _) := ?p in _) ≠ Timeout => destruct p
    | |- match ?x with _ => _ end ≠ Timeout => destruct x
    end).

Lemma nt_erase_fixup_body t x h : erase_fixup_body t x h ≠ Timeout.
Proof. unfold erase_fixup_body. nt. Qed.

Lemma erase_fixup_loop_returns t n :
  ∀ fuel c l x r h,
    length (ctx_nodes c) ≤ n → n + 2 ≤ fuel →
    linked h t (plug c (T l x r)) →
    erase_fixup_loop fuel t (Rec x) h ≠ Timeout.
Proof.
  induction n as [n IH] using lt_wf_ind.
  intros fuel c l x r h Hn Hf Hl.
  destruct fuel as [|fuel]; [lia|]. cbn [erase_fixup_loop].
  destruct (bool_decide (Some (Rec x) ≠ root t h) && is_black h (Rec x)) eqn:Hc; [|done].
  apply andb_true_iff in Hc as [Hnr%bool_decide_eq_true Hblk].
  destruct (erase_fixup_body t (Rec x) h) as [[x' h']| |] eqn:Hb; cbn [bind];
    [|done|by apply nt_erase_fixup_body in Hb].
  destruct (erase_fixup_body_keeps h t _ x x' h' Hl (plug_elem _ _ _ _) Hnr Hb) as
    (Hk & (x1 & -> & Hx1) & Hnext).
  destruct Hnext as [Hroot|[Hred|(Hpar & w & ->)]].
  - destruct fuel as [|fuel]; [lia|]. cbn [erase_fixup_loop].
    rewrite bool_decide_eq_false_2; [done|]. intros Hne. apply Hne. by rewrite Hroot.
  - destruct fuel as [|fuel]; [lia|]. cbn [erase_fixup_loop].
    unfold is_black. rewrite Hred. by rewrite andb_false_r.
  - pose proof Hl as (_ & (Hpx & _) & _)%linked_plug. rewrite Hpx in Hpar.
    destruct c as [|c1 p R|L p c1]; simpl in Hpar; [done|..]; simplify_eq.
    + apply (IH (length (ctx_nodes c1)) ltac:(pose proof (length_ctx_nodes_CL c1 p R); lia)
               fuel c1 (T l x r) p R); [done| |].
      * pose proof (length_ctx_nodes_CL c1 p R). lia.
      * apply set_color_linked. exact Hl.
    + apply (IH (length (ctx_nodes c1)) ltac:(pose proof (length_ctx_nodes_CR L p c1); lia)
               fuel c1 L p (T l x r)); [done| |].
      * pose proof (length_ctx_nodes_CR L p c1). lia.
      * apply set_color_linked. exact Hl.
Qed.

Lemma nt_erase_fixup fuel h t s x :
  linked h t s → x ∈ inorder s → length (inorder s) + 1 ≤ fuel →
  erase_fixup fuel t (Rec x) h ≠ Timeout.
Proof.
  intros Hl Hx Hf. destruct (elem_of_inorder_plug _ _ Hx) as (c & l & r & ->).
  unfold erase_fixup. apply nt_bind; [|by intros []].
  apply (erase_fixup_loop_returns t (length (ctx_nodes c)) fuel c l x r); [done| |done].
  rewrite inorder_plug in Hf. unfold ctx_nodes.
  repeat (rewrite ?length_app in *; simpl in * ). lia.
Qed.

(** The second and third test of [erase_node] on the sentinel. *)
Lemma nt_erase_node_head fuel h t c l z r :
  linked h t (plug c (T l z r)) → length (inorder (T l z r)) < fuel →
  erase_node_head fuel t (Rec z) h ≠ Timeout.
Proof.
  intros Hl Hf. pose proof Hl as (_ & Hs & _)%linked_plug.
  unfold erase_node_head.
  set (hA := if decide (parent h (Head t) = Some (Rec z)) then set_parent (Head t) None h else h).
  assert (HA : ∀ q, hA (Rec q) = h (Rec q)).
  { intros q. subst hA. destruct (decide _); [|done]. by apply set_parent_ne. }
  assert (Hsub : ∀ h1, (∀ q, h1 (Rec q) = h (Rec q)) → sub h1 (ctx_par t c) (T l z r)).
  { intros h1 H1. by apply (sub_eq h). }
  simpl in Hf. rewrite length_app in Hf. simpl in Hf.
  assert (Hsecond : ∀ h1, (∀ q, h1 (Rec q) = h (Rec q)) →
    (if decide (right (h1 (Head t)) = Some (Rec z)) then
       match left (h1 (Rec z)) with
       | Some zl => let* m := find_maximum fuel h1 zl in Ok (set_right (Head t) (Some m) h1)
       | None => Ok (set_right (Head t) (parent h1 (Rec z)) h1)
       end
     else Ok h1) ≠ Timeout).
  { intros h1 H1. destruct (decide (right (h1 (Head t)) = Some (Rec z))); [|done].
    destruct (Hsub h1 H1) as (_ & Hlz & _ & Hsl & _). rewrite Hlz.
    destruct l as [|ll lx lr]; [done|]. cbn [root_ptr].
    rewrite (find_maximum_total fuel h1 _ _ _ _ Hsl); [done|].
    simpl in Hf. rewrite !length_app in Hf. simpl in Hf. lia. }
  destruct (decide (left (hA (Head t)) = Some (Rec z))); cbn [bind]; [|by apply Hsecond].
  destruct (Hsub hA HA) as (_ & _ & Hrz & _ & Hsr). rewrite Hrz.
  destruct r as [|rl rx rr]; cbn [root_ptr bind].
  - apply Hsecond. intros q. rewrite set_left_ne by done. apply HA.
  - rewrite (find_minimum_total fuel hA _ _ _ _ Hsr); cycle 1.
    { simpl in Hf. rewrite !length_app in Hf. simpl in Hf. lia. }
    cbn [bind]. apply Hsecond. intros q. rewrite set_left_ne by done. apply HA.
Qed.

Lemma nt_erase_node_splice fuel h t par l z r yred :
  sub h par (T l z r) → length (inorder r) < fuel →
  erase_node_splice fuel t (Rec z) yred h ≠ Timeout.
Proof.
  intros (_ & Hlz & Hrz & Hsl & Hsr) Hf. unfold erase_node_splice. rewrite Hlz, Hrz.
  destruct l as [|ll lx lr], r as [|rl rx rr]; cbn [root_ptr]; try (by nt).
  rewrite (find_minimum_total fuel h _ _ _ _ Hsr); cycle 1.
  { simpl in Hf. rewrite !length_app in Hf. simpl in Hf. lia. }
  cbn [bind]. nt.
Qed.

Lemma nt_erase_node fuel h t c l z r :
  linked h t (plug c (T l z r)) → length (inorder (plug c (T l z r))) + 1 ≤ fuel →
  erase_node fuel t (Rec z) h ≠ Timeout.
Proof.
  intros Hl Hf. unfold erase_node.
  assert (Hlen : length (inorder (T l z r)) ≤ length (inorder (plug c (T l z r)))).
  { rewrite inorder_plug, !length_app. lia. }
  destruct (erase_node_head fuel t (Rec z) h) as [hB| |] eqn:HB; cbn [bind];
    [|done|exfalso; revert HB; apply (nt_erase_node_head fuel h t c l z r); [done|lia]].
  pose proof (erase_node_head_frame _ _ _ _ _ HB) as (HB1 & HB2 & HB3).
  pose proof Hl as (Hc & Hs & Hnd)%linked_plug.
  assert (HsB : sub hB (ctx_par t c) (T l z r)).
  { eapply sub_frame; [|exact Hs]. intros q _. apply same_node_links, same_node_eq, HB1. done. }
  destruct (erase_node_splice fuel t (Rec z) (is_red h (Rec z)) hB) as [[[x yred] h2]| |] eqn:Hsp;
    cbn [bind]; [|done|exfalso; revert Hsp; apply (nt_erase_node_splice fuel hB t (ctx_par t c) l z r)];
    [|done|simpl in Hlen; rewrite length_app in Hlen; simpl in Hlen; lia].
  destruct x as [x'|]; [|done]. destruct (negb yred); [|done].
  eapply (erase_node_splice_linked _ _ _ c l z r) in Hsp as (s' & Hl' & Hi' & _ & Hx).
  - destruct (Hx x' eq_refl) as (x1 & -> & Hx1).
    apply (nt_erase_fixup fuel h2 t s' x1 Hl' Hx1).
    rewrite Hi'. rewrite inorder_plug in Hf.
    repeat (rewrite ?length_app in *; simpl in * ). lia.
  - done.
  - intros Hct. eapply ctx_ok_frame; [| |exact Hc].
    + intros q _. apply same_node_links, same_node_eq, HB1. done.
    + rewrite !root_eq. apply HB3. destruct Hl as (Hr & _).
      rewrite root_eq in Hr. rewrite Hr.
      destruct (root_plug_ctx c (T l z r) Hct) as (a & -> & Ha).
      intros [= ->]. unfold ctx_nodes in Ha. simpl in Hnd. elem_absurd.
  - by rewrite inorder_plug.
Qed.

Section outcomes.
Context {K : Type} (is_less_than : K → K → bool) (get_key : nat → K).

Lemma nt_erase fuel h t s key :
  linked h t s → length (inorder s) + 1 ≤ fuel →
  erase is_less_than get_key fuel t key h ≠ Timeout.
Proof.
  intros Hl Hf. unfold erase.
  destruct (find_node_total is_less_than get_key fuel key h t Top s Hl ltac:(lia)) as (it & Hit).
  simpl in Hit. pose proof Hl as (Hr & _). rewrite Hr, Hit. cbn [bind].
  destruct (decide (it = end_ t h)); [done|].
  destruct (find_node_path is_less_than get_key fuel key h t Top s it Hl I Hit) as
    [(c & l & x & r' & -> & Hs & Hk & Hp)|(c & -> & Hs & Hp)]; [|done].
  simpl in Hs. subst s. cbn [deref bind].
  apply nt_bind; [by apply (nt_erase_node fuel h t c l x r')|]. intros h1. done.
Qed.

Hypothesis lt_irrefl : ∀ a, is_less_than a a = false.
Hypothesis lt_trans : ∀ a b c,
  is_less_than a b = true → is_less_than b c = true → is_less_than a c = true.

Lemma inserted_cons (c : call K) cs : inserted (c :: cs) = inserted [c] ++ inserted cs.
Proof. unfold inserted. simpl. by rewrite app_nil_r. Qed.

Lemma length_inserted_one (c : call K) : length (inserted [c]) ≤ 1.
Proof. destruct c; simpl; lia. Qed.

(** A sequence of calls returns, or stops in an [erase]. *)
Lemma run_calls_outcome fuel t cs : ∀ h s,
  linked h t s → caches h t s → ordered is_less_than get_key (inorder s) →
  length (inorder s) + length cs + 1 ≤ fuel →
  (∃ h', run_calls is_less_than get_key fuel t cs h = Ok h') ∨
  (run_calls is_less_than get_key fuel t cs h = Fault ∧ ∃ key, Erase key ∈ cs).
Proof.
  induction cs as [|c cs IH]; intros h s Hl Hca Ho Hf; [left; by exists h|].
  simpl in Hf. cbn [run_calls].
  assert (Hstep : (∃ h1, run_call is_less_than get_key fuel t c h = Ok h1) ∨
                  (run_call is_less_than get_key fuel t c h = Fault ∧ ∃ key, c = Erase key)).
  { destruct c as [v|k]; cbn [run_call].
    - left.
      assert (Hfr : ∀ c, plug c E = s → path_ok is_less_than get_key (get_key v) c →
                         v ∉ inorder s).
      { intros c <- Hp. by eapply path_fresh. }
      destruct (insert_total is_less_than get_key fuel h t s v Hl Hfr ltac:(lia)) as
        (h1 & r & ->). by exists h1.
    - destruct (erase is_less_than get_key fuel t k h) as [[h1 r]| |] eqn:He; cbn [bind].
      + left. by exists h1.
      + right. eauto.
      + exfalso. revert He. apply (nt_erase fuel h t s k Hl). lia. }
  destruct Hstep as [(h1 & Hc)|(Hc & k & ->)]; rewrite Hc; cbn [bind].
  - destruct (run_call_frame is_less_than get_key lt_irrefl lt_trans _ _ _ _ _ _ Hl Hca Ho Hc) as
      (s1 & Hl1 & Hc1 & Ho1 & Hs1 & _).
    assert (Hlen : length (inorder s1) ≤ S (length (inorder s))).
    { pose proof Hl1 as (_ & _ & Hnd1).
      pose proof (submseteq_length _ _ (NoDup_submseteq _ _ Hnd1 Hs1)) as Hle.
      rewrite length_app in Hle. pose proof (length_inserted_one c). lia. }
    destruct (IH h1 s1 Hl1 Hc1 Ho1 ltac:(lia)) as [?|(? & k & Hk)]; [by left|right].
    split; [done|]. exists k. by apply elem_of_cons; right.
  - right. split; [done|]. exists k. apply elem_of_cons. by left.
Qed.

(** C2.  For any sequence of [insert] and [erase] calls on a tree that
    started empty: whenever the calls have returned, the tree is linked
    with its caches right, its records are records that were inserted,
    the traversal from [begin()] to [end()] by [operator++] terminates
    (any step budget of at least the number of records plus two is
    enough) and visits exactly the linked records, each once, with
    keys that are strictly increasing under the comparator; so no two
    linked records compare equal.  And with a step budget of the
    number of calls plus two, the calls do return, unless an [erase]
    among them stops at a failed assertion or null reference of its
    fix-up.  The comparator is assumed irreflexive and transitive. *)
Theorem traversal_strictly_increasing fuel t h0 cs :
  (∀ h, run_calls is_less_than get_key fuel t cs (rbtree_new t h0) = Ok h →
     ∃ s, linked h t s ∧ caches h t s ∧ inorder s ⊆ inserted cs ∧
          (∀ f, length (inorder s) + 2 ≤ f → traverse f t h = Ok (inorder s)) ∧
          ordered is_less_than get_key (inorder s) ∧
          (∀ a b, a ∈ inorder s → b ∈ inorder s → a ≠ b →
                  ¬ key_equiv is_less_than (get_key a) (get_key b))) ∧
  (length cs + 2 ≤ fuel →
     (∃ h, run_calls is_less_than get_key fuel t cs (rbtree_new t h0) = Ok h) ∨
     (run_calls is_less_than get_key fuel t cs (rbtree_new t h0) = Fault ∧
      ∃ key, Erase key ∈ cs)).
Proof.
  destruct (rbtree_new_linked t h0) as [Hl0 Hc0].
  assert (Ho0 : ordered is_less_than get_key (inorder E)) by constructor.
  split.
  - intros h Hr.
    destruct (run_calls_frame is_less_than get_key lt_irrefl lt_trans _ _ _ _ _ _
                Hl0 Hc0 Ho0 Hr) as (s & Hl & Hc & Ho & Hs & _).
    exists s. simpl in Hs. rewrite app_nil_r in Hs.
    split_and!; [done..| |done|].
    + intros f Hf. by apply traverse_spec.
    + intros a b Ha Hb Hab [H1 H2].
      apply list_elem_of_lookup in Ha as [i Hi]. apply list_elem_of_lookup in Hb as [j Hj].
      assert (i ≠ j) by (intros ->; congruence).
      destruct (decide (i < j)) as [Hlt|Hge].
      * pose proof (ordered_lookup _ _ _ _ _ _ _ Ho Hlt Hi Hj) as Hab'.
        unfold key_lt in Hab'. congruence.
      * assert (Hlt : j < i) by lia.
        pose proof (ordered_lookup _ _ _ _ _ _ _ Ho Hlt Hj Hi) as Hab'.
        unfold key_lt in Hab'. congruence.
  - intros Hf. apply (run_calls_outcome fuel t cs _ E); [done..|simpl; lia].
Qed.
End outcomes.

Lemma traversal_strictly_increasing_witness :
  (∀ a, Nat.ltb a a = false) ∧
  (∀ a b c, Nat.ltb a b = true → Nat.ltb b c = true → Nat.ltb a c = true) ∧
  run_calls Nat.ltb id 64 0 example_calls (rbtree_new 0 initial_heap) = Ok example_heap ∧
  length example_calls + 2 ≤ 64 ∧
  ∃ s, linked example_heap 0 s ∧ caches example_heap 0 s ∧ inorder s ⊆ inserted example_calls ∧
       (∀ f, length (inorder s) + 2 ≤ f → traverse f 0 example_heap = Ok (inorder s)) ∧
       ordered Nat.ltb id (inorder s) ∧
       (∀ a b, a ∈ inorder s → b ∈ inorder s → a ≠ b →
               ¬ key_equiv Nat.ltb (id a) (id b)).
Proof.
  assert (H1 : ∀ a, Nat.ltb a a = false) by (intros a; apply Nat.ltb_irrefl).
  assert (H2 : ∀ a b c, Nat.ltb a b = true → Nat.ltb b c = true → Nat.ltb a c = true).
  { intros a b c. rewrite !Nat.ltb_lt. lia. }
  assert (H3 : run_calls Nat.ltb id 64 0 example_calls (rbtree_new 0 initial_heap) =
               Ok example_heap) by (vm_compute; reflexivity).
  assert (H4 : length example_calls + 2 ≤ 64) by (simpl; lia).
  refine (conj H1 (conj H2 (conj H3 (conj H4 _)))).
  apply (proj1 (traversal_strictly_increasing Nat.ltb id H1 H2 64 0 initial_heap example_calls)
           example_heap H3).
Defined.

(** * Examples on concrete trees *)

(** C1. Inserting 1, 2, 3, 4 gives a red-black tree with root 2 and black
    leaves 1 and 3; erasing the black leaf 1 returns without any fix-up
    ([x] is null), and the root is left with no black node on its left
    and one on its right. *)
Theorem erase_black_leaf_breaks_black_height :
  (let* h := nat_calls [Insert 1; Insert 2; Insert 3; Insert 4] in
   let* r := erase Nat.ltb id 64 0 1 h in
   let h' := fst r in
   Ok (red_black 64 0 h, snd r, root 0 h', red_black 64 0 h',
       black_height 64 h' (left (h' (Rec 2))),
       black_height 64 h' (right (h' (Rec 2)))))
  = Ok (true, Some (Rec 1), Some (Rec 2), false, Some 0, Some 1).
Proof. vm_compute. reflexivity. Qed.

(** C3. [clear] on a newly constructed tree: [empty] is false, the
    root reference is the sentinel, and [begin] is null. *)
Theorem clear_leaves_tree_not_empty :
  let h := clear 0 (rbtree_new 0 initial_heap) in
  empty 0 h = false ∧ root 0 h = Some (Head 0) ∧ begin 0 h = None ∧ begin 0 h ≠ end_ 0 h.
Proof. vm_compute. repeat split; discriminate. Qed.

(** C4. [clear_and_dispose] on the tree holding record 1 leaves an empty
    tree whose sentinel's left and right are null, not the sentinel. *)
Theorem clear_and_dispose_nulls_the_caches :
  (let* h := nat_calls [Insert 1] in
   let* r := clear_and_dispose 64 0 h [] in
   let h' := fst r in
   Ok (snd r, empty 0 h', left (h' (Head 0)), right (h' (Head 0))))
  = Ok ([1], true, None, None).
Proof. vm_compute. reflexivity. Qed.

(** C5. In the tree of 1, 2, 3 the maximum is record 3, and [prev] at
    [end] gives record 1. *)
Theorem prev_of_end_is_not_the_maximum :
  (let* h := nat_calls [Insert 1; Insert 2; Insert 3] in
   let* p := prev 64 h (end_ 0 h) in
   let* n := next 64 h (Some (Rec 3)) in
   Ok (right (h (Head 0)), p, n))
  = Ok (Some (Rec 3), Some (Rec 1), Some (Head 0)).
Proof. vm_compute. reflexivity. Qed.

(** C6. Cloning the tree of 1, 2, 3 (root 2) with a cloner that makes
    record [n + 10] for record [n]: the clone of the minimum is record
    11 and of the maximum record 13, and both caches of the new sentinel
    hold record 12, the clone of the root. *)
Theorem clone_caches_are_not_the_extremes :
  (let* h := nat_calls [Insert 1; Insert 2; Insert 3] in
   let* r := clone (fun n => inr (n + 10) : unit + nat) 64 0 1 h in
   match r with
   | Returned h' =>
       Ok (left (h (Head 0)), right (h (Head 0)), root 1 h',
           left (h' (Rec 12)), right (h' (Rec 12)),
           left (h' (Head 1)), right (h' (Head 1)))
   | Raised _ _ _ => Fault
   end)
  = Ok (Some (Rec 1), Some (Rec 3), Some (Rec 12),
        Some (Rec 11), Some (Rec 13),
        Some (Rec 12), Some (Rec 12)).
Proof. vm_compute. reflexivity. Qed.

(** C9. Eleven calls from the empty tree lead to the tree 5 -> 3 -> 1
    (each the left child of the one before, all black); key 3 is linked,
    and [erase] of key 3 fails the [assert(w)] of [erase_fixup]. *)
Theorem erase_of_linked_key_faults :
  (let* h := nat_calls [Insert 1; Insert 2; Insert 3; Insert 4; Erase 3; Erase 4;
                        Insert 3; Insert 4; Insert 5; Erase 2; Erase 4] in
   let* c := contains Nat.ltb id 64 0 3 h in
   Ok (c, root 0 h, left (h (Rec 5)), right (h (Rec 5)), left (h (Rec 3)), right (h (Rec 3)),
       is_red h (Rec 5), is_red h (Rec 3), is_red h (Rec 1),
       erase Nat.ltb id 64 0 3 h))
  = Ok (true, Some (Rec 5), Some (Rec 3), None, Some (Rec 1), None,
        false, false, false, Fault).
Proof. vm_compute. reflexivity. Qed.
